(** * Narrative entity extraction: a shallow embedding of the resolution pipeline

    The development follows the JavaScript sources stage by stage:
    extraction (extract-proper-nouns.js), grouping (group-variants.js),
    junk filtering (filter-junk.js), tiering (tier-entities.js),
    co-reference merging (llm-coref-merge.js), snippet de-duplication
    (dedupe-snippets.js), index building (build-indices.js) and the query
    interface (query.js).

    Conventions of the embedding:
    - JavaScript numbers that hold counts and positions are integers [Z];
    - the ratio of two counts is the double the division gives, and is
      rounded as that double is;
    - strings are [string], read as sequences of code units below 256
      (ASCII plus Latin-1), with the case folding of that range;
    - plain objects used as dictionaries are [gmap string _]; an ES6 [Map],
      whose iteration order is observable, is an insertion-ordered
      association list. The dictionaries of the discovery stages are keyed
      by capitalised surface forms and by composed keys, none of which is a
      name a plain object inherits; the entity index is keyed by entity
      ids, which can be such a name, and its model says what happens then;
    - [Array.prototype.sort] with a comparator is the stable sort it is
      specified to be, written as an insertion sort;
    - a call that can throw returns an [outcome]: its value, or the value
      it threw. *)

From Stdlib Require Import ZArith String Ascii List Bool Lia.
From Stdlib Require Import Sorting.Permutation Sorting.Sorted.
From Stdlib Require Import Numbers.DecimalString Numbers.DecimalPos Numbers.DecimalZ.
From Stdlib Require Import Numbers.DecimalNat.
From stdpp Require Import gmap strings list fin_maps.

Open Scope Z_scope.
Open Scope string_scope.
Open Scope list_scope.

(* ===================================================================== *)
(** * JavaScript prelude *)
(* ===================================================================== *)

Module JS.

(** ** Characters *)

Definition code (c : ascii) : nat := nat_of_ascii c.

Definition between (lo hi : nat) (c : ascii) : bool :=
  (Nat.leb lo (code c)) && (Nat.leb (code c) hi).

Definition isUpperAZ (c : ascii) : bool := between 65 90 c.
Definition isLowerAZ (c : ascii) : bool := between 97 122 c.
Definition isDigit (c : ascii) : bool := between 48 57 c.

(** [\s]: tab, line feed, vertical tab, form feed, carriage return,
    space and the no-break space. *)
Definition isSpace (c : ascii) : bool :=
  between 9 13 c || Nat.eqb (code c) 32 || Nat.eqb (code c) 160.

(** [\w]: letters, digits and the underscore. *)
Definition isWord (c : ascii) : bool :=
  isUpperAZ c || isLowerAZ c || isDigit c || Nat.eqb (code c) 95.

(** The accented letters of Latin-1: the capitals from [À] to [Þ] and the
    small letters from [à] to [þ], 32 code units further, without the
    multiplication and division signs that sit among them. *)
Definition isUpperLatin1 (c : ascii) : bool :=
  between 192 214 c || between 216 222 c.
Definition isLowerLatin1 (c : ascii) : bool :=
  between 224 246 c || between 248 254 c.

(** The canonical form of a character under the [i] flag of a regular
    expression: its upper case when that is one code unit of the range,
    the character itself otherwise. The upper case of [ß] is two letters
    and those of [µ] and [ÿ] lie beyond the range; no other character of
    the range shares them, so these three stand for themselves. *)
Definition toUpperChar (c : ascii) : ascii :=
  if isLowerAZ c || isLowerLatin1 c then ascii_of_nat (code c - 32) else c.

(** [c.toLowerCase()] *)
Definition toLowerChar (c : ascii) : ascii :=
  if isUpperAZ c || isUpperLatin1 c then ascii_of_nat (code c + 32) else c.

(** [c === c.toUpperCase()]: true of every character that is no small
    letter, [ß], [µ] and [ÿ] being small letters too. *)
Definition isOwnUpperCase (c : ascii) : bool :=
  negb (isLowerAZ c || isLowerLatin1 c || Nat.eqb (code c) 181
        || Nat.eqb (code c) 223 || Nat.eqb (code c) 255).

(** ** Strings *)

Definition chars (s : string) : list ascii := list_ascii_of_string s.
Definition str (l : list ascii) : string := string_of_list_ascii l.

Definition toLowerCase (s : string) : string := str (map toLowerChar (chars s)).

(** [s.split(/\s+/)]: every maximal run of white space is one separator;
    a separator at either end leaves an empty piece there, and the empty
    string splits into one empty piece. *)
Fixpoint splitWs_go (cur : list ascii) (inSep : bool) (s : list ascii)
  : list string :=
  match s with
  | [] => [str (rev cur)]
  | c :: s' =>
      if isSpace c
      then if inSep then splitWs_go [] true s'
           else str (rev cur) :: splitWs_go [] true s'
      else splitWs_go (c :: cur) false s'
  end.

Definition splitWs (s : string) : list string := splitWs_go [] false (chars s).

(** [l.join(' ')] *)
Fixpoint joinSp (l : list string) : string :=
  match l with
  | [] => ""
  | [x] => x
  | x :: rest => x +:+ " " +:+ joinSp rest
  end.

(** [s.endsWith(t)] *)
Definition endsWith (s t : string) : bool :=
  let ls := chars s in
  let lt := chars t in
  Nat.leb (length lt) (length ls) &&
  bool_decide (skipn (length ls - length lt) ls = lt).

(** The truthiness of a number: [0] is falsy. The [||] fallback of
    [dict[k] || d] on a dictionary of counts. *)
Definition orElse (o : option Z) (d : Z) : Z :=
  match o with
  | Some v => if Z.eqb v 0 then d else v
  | None => d
  end.

Definition truthy (o : option Z) : bool :=
  match o with
  | Some v => negb (Z.eqb v 0)
  | None => false
  end.

(** The decimal text of an integer, as [String(n)] and the template
    strings give it. *)
Definition showZ (z : Z) : string := NilZero.string_of_int (Z.to_int z).
Definition showNat (n : nat) : string := NilZero.string_of_uint (Nat.to_uint n).

(** ** Fractions in double precision

    A ratio of two counts is a double. A finite double is [m * 2 ^ e] with a
    mantissa [m] of at most 53 bits, kept here as the pair [(m, e)]; the
    exponent is not bounded, which is exact as long as the numbers stay in the
    range of the normal doubles, as the ratios of counts and their
    hundredfold do. *)

(** The integer nearest to [n / d] for [0 <= n] and [0 < d], a tie going
    to the even one. *)
Definition nearestEven (n d : Z) : Z :=
  let q := n / d in
  let r := n mod d in
  if Z.ltb (2 * r) d then q
  else if Z.ltb d (2 * r) then q + 1
  else if Z.even q then q else q + 1.

(** The fraction [n / (d * 2 ^ e)], written without a negative power. *)
Definition scaled (n d e : Z) : Z * Z :=
  if Z.leb 0 e then (n, d * 2 ^ e) else (n * 2 ^ (- e), d).

(** The double nearest to [n / d], for [0 < n] and [0 < d]: the exponent
    [e] is the one for which [n / (d * 2 ^ e)] lies between [2 ^ 52] and
    [2 ^ 53], and the mantissa is that fraction rounded, ties to even. *)
Definition nearestDouble (n d : Z) : Z * Z :=
  let e0 := Z.log2 n - Z.log2 d - 52 in
  let e := if Z.ltb (fst (scaled n d e0)) (snd (scaled n d e0) * 2 ^ 52)
           then e0 - 1 else e0 in
  (nearestEven (fst (scaled n d e)) (snd (scaled n d e)), e).

(** [a / b] on numbers that hold integers, for [0 < b]. *)
Definition divDouble (a b : Z) : Z * Z :=
  if Z.eqb a 0 then (0, 0)
  else let '(m, e) := nearestDouble (Z.abs a) b in (Z.sgn a * m, e).

(** [x * k] for a double [x] and an integer [0 < k]. *)
Definition mulDouble (x : Z * Z) (k : Z) : Z * Z :=
  let '(m, e) := x in
  if Z.eqb m 0 then (0, 0)
  else let '(m', e') := nearestDouble (fst (scaled (Z.abs m * k) 1 (- e)))
                           (snd (scaled (Z.abs m * k) 1 (- e))) in
       (Z.sgn m * m', e').

(** [Math.round(x)]: the integer nearest to [x], a tie going upwards. *)
Definition mathRound (x : Z * Z) : Z :=
  let '(m, e) := x in
  let '(n, d) := scaled m 1 (- e) in
  (2 * n + d) / (2 * d).

(** ** Stable sort with a comparator

    [le a b] says that the comparator's result on [(a, b)] is not
    positive, so [a] may stay in front of [b]. *)
Section Sort.
Context {A : Type} (le : A -> A -> bool).

Fixpoint insertSorted (x : A) (l : list A) : list A :=
  match l with
  | [] => [x]
  | y :: ys => if le x y then x :: y :: ys else y :: insertSorted x ys
  end.

Fixpoint sortBy (l : list A) : list A :=
  match l with
  | [] => []
  | x :: xs => insertSorted x (sortBy xs)
  end.
End Sort.

(** ** Insertion-ordered maps (ES6 [Map]) keyed by strings *)
Section OMap.
Context {V : Type}.

Fixpoint omap_get (k : string) (m : list (string * V)) : option V :=
  match m with
  | [] => None
  | (k', v) :: m' => if String.eqb k k' then Some v else omap_get k m'
  end.

(** [m.set(k, v)]: an existing key keeps its place. *)
Fixpoint omap_set (k : string) (v : V) (m : list (string * V))
  : list (string * V) :=
  match m with
  | [] => [(k, v)]
  | (k', v') :: m' =>
      if String.eqb k k' then (k', v) :: m' else (k', v') :: omap_set k v m'
  end.

Definition omap_has (k : string) (m : list (string * V)) : bool :=
  match omap_get k m with Some _ => true | None => false end.
End OMap.

End JS.

(* ===================================================================== *)
(** * Regular expressions

    The patterns of the sources are sequences of literals, character
    classes, greedy repetitions of a class, optional characters,
    alternations of literals and anchors. The matcher is the backtracking
    one of the language: alternatives are tried in order, repetitions are
    greedy, and the first success wins. *)
(* ===================================================================== *)

Module Regex.
Import JS.

Inductive item : Type :=
| Lit (s : string)                 (* escaped literal text *)
| Cls (p : ascii -> bool)          (* one character of a class *)
| Star (p : ascii -> bool)         (* p*  *)
| Plus (p : ascii -> bool)         (* p+  *)
| Opt (p : ascii -> bool)          (* p?  *)
| Alt (alts : list string)         (* (a|b|c) *)
| WordB                            (* \b *)
| Bol                              (* ^ *)
| Eol.                             (* $ *)

Record regex : Type := mkRegex { items : list item; ignoreCase : bool }.

(** The class of one given character. *)
Definition only (c : ascii) : ascii -> bool := Ascii.eqb c.

Section Matcher.
Variable ci : bool.

Definition chEq (a b : ascii) : bool :=
  if ci then Ascii.eqb (toUpperChar a) (toUpperChar b) else Ascii.eqb a b.

Definition clsOk (p : ascii -> bool) (c : ascii) : bool :=
  p c || (ci && (p (toUpperChar c) || p (toLowerChar c))).

Definition wordOpt (o : option ascii) : bool :=
  match o with Some c => isWord c | None => false end.

(** The continuation receives the character before the position and
    the rest of the input; the answer is the input left after the
    whole match. *)
Definition cont : Type := option ascii -> list ascii -> option (list ascii).

Fixpoint mLit (l : list ascii) (k : cont) (prev : option ascii)
  (s : list ascii) : option (list ascii) :=
  match l with
  | [] => k prev s
  | c :: l' =>
      match s with
      | d :: s' => if chEq c d then mLit l' k (Some d) s' else None
      | [] => None
      end
  end.

Fixpoint mStar (p : ascii -> bool) (k : cont) (prev : option ascii)
  (s : list ascii) : option (list ascii) :=
  match s with
  | d :: s' =>
      if clsOk p d
      then match mStar p k (Some d) s' with
           | Some r => Some r
           | None => k prev s
           end
      else k prev s
  | [] => k prev s
  end.

Fixpoint mAlt (alts : list string) (k : cont) (prev : option ascii)
  (s : list ascii) : option (list ascii) :=
  match alts with
  | [] => None
  | a :: rest =>
      match mLit (chars a) k prev s with
      | Some r => Some r
      | None => mAlt rest k prev s
      end
  end.

Definition mItem (it : item) (k : cont) : cont :=
  fun prev s =>
    match it with
    | Lit l => mLit (chars l) k prev s
    | Cls p =>
        match s with
        | d :: s' => if clsOk p d then k (Some d) s' else None
        | [] => None
        end
    | Star p => mStar p k prev s
    | Plus p =>
        match s with
        | d :: s' => if clsOk p d then mStar p k (Some d) s' else None
        | [] => None
        end
    | Opt p =>
        match s with
        | d :: s' =>
            if clsOk p d
            then match k (Some d) s' with
                 | Some r => Some r
                 | None => k prev s
                 end
            else k prev s
        | [] => k prev s
        end
    | Alt alts => mAlt alts k prev s
    | WordB =>
        if xorb (wordOpt prev) (wordOpt (head s)) then k prev s else None
    | Bol => match prev with None => k prev s | Some _ => None end
    | Eol => match s with [] => k prev s | _ :: _ => None end
    end.

Fixpoint mItems (its : list item) (k : cont) : cont :=
  match its with
  | [] => k
  | it :: rest => mItem it (mItems rest k)
  end.

(** One attempt at a fixed position. *)
Definition matchAt (its : list item) (prev : option ascii) (s : list ascii)
  : option (list ascii) :=
  mItems its (fun _ r => Some r) prev s.

(** [re.test(s)] without the [g] flag: is there a position where the
    pattern matches. *)
Fixpoint testFrom (its : list item) (prev : option ascii) (s : list ascii)
  : bool :=
  match matchAt its prev s with
  | Some _ => true
  | None =>
      match s with
      | [] => false
      | c :: s' => testFrom its (Some c) s'
      end
  end.

(** [s.match(re)] with the [g] flag, counted: matches are found left to
    right and do not overlap; after an empty match the search resumes
    one character further. [skip] counts the characters still covered
    by the previous match. *)
Fixpoint countFrom (its : list item) (skip : nat) (prev : option ascii)
  (s : list ascii) : nat :=
  match skip with
  | S n =>
      match s with
      | [] => O
      | c :: s' => countFrom its n (Some c) s'
      end
  | O =>
      match matchAt its prev s with
      | Some r =>
          let used := (length s - length r)%nat in
          match s with
          | [] => 1%nat
          | c :: s' => S (countFrom its (used - 1) (Some c) s')
          end
      | None =>
          match s with
          | [] => O
          | c :: s' => countFrom its O (Some c) s'
          end
      end
  end.
End Matcher.

Definition test (re : regex) (s : string) : bool :=
  testFrom (ignoreCase re) (items re) None (chars s).

(** [countPattern(text, pattern)] of filter-junk.js, for a pattern that
    carries the [g] flag. *)
Definition countPattern (text : string) (re : regex) : Z :=
  Z.of_nat (countFrom (ignoreCase re) (items re) O None (chars text)).

End Regex.

(** ** What a pattern matches

    The matcher above fixes an order of attempts. What a pattern matches at
    all does not depend on it, and is said here once more as a relation, so
    that a pattern can be compared with a description of the texts it
    stands for. *)

Module RegexSpec.
Import JS Regex.

(** The character in front of what follows a text [m] that was read after
    the character [prev]. *)
Definition lastOr (prev : option ascii) (m : list ascii) : option ascii :=
  match rev m with
  | c :: _ => Some c
  | [] => prev
  end.

(** What one item of a pattern can match, whatever the order in which the
    matcher tries: the item reads a part of the input [s], after the
    character [prev], and leaves [r], after the character [prev']. *)
Inductive matchesItem (ci : bool)
  : item -> option ascii -> list ascii -> option ascii -> list ascii -> Prop :=
| MatchLit l m prev r :
    Forall2 (fun c d => chEq ci c d = true) (chars l) m ->
    matchesItem ci (Lit l) prev (m ++ r) (lastOr prev m) r
| MatchCls p d prev r :
    clsOk ci p d = true -> matchesItem ci (Cls p) prev (d :: r) (Some d) r
| MatchStar p m prev r :
    Forall (fun d => clsOk ci p d = true) m ->
    matchesItem ci (Star p) prev (m ++ r) (lastOr prev m) r
| MatchPlus p m prev r :
    Forall (fun d => clsOk ci p d = true) m -> m <> [] ->
    matchesItem ci (Plus p) prev (m ++ r) (lastOr prev m) r
| MatchOptOne p d prev r :
    clsOk ci p d = true -> matchesItem ci (Opt p) prev (d :: r) (Some d) r
| MatchOptNone p prev s : matchesItem ci (Opt p) prev s prev s
| MatchAlt alts a m prev r :
    In a alts -> Forall2 (fun c d => chEq ci c d = true) (chars a) m ->
    matchesItem ci (Alt alts) prev (m ++ r) (lastOr prev m) r
| MatchWordB prev s :
    xorb (wordOpt prev) (wordOpt (head s)) = true ->
    matchesItem ci WordB prev s prev s
| MatchBol s : matchesItem ci Bol None s None s
| MatchEol prev : matchesItem ci Eol prev [] prev [].

Inductive matchesItems (ci : bool)
  : list item -> option ascii -> list ascii -> option ascii -> list ascii -> Prop :=
| MatchEnd prev s : matchesItems ci [] prev s prev s
| MatchThen it its prev s prev1 s1 prev2 s2 :
    matchesItem ci it prev s prev1 s1 ->
    matchesItems ci its prev1 s1 prev2 s2 ->
    matchesItems ci (it :: its) prev s prev2 s2.

(** An item that reads one character at least. *)
Definition readsSome (it : item) : Prop :=
  match it with
  | Lit l => chars l <> []
  | Cls _ | Plus _ => True
  | _ => False
  end.

End RegexSpec.

(* ===================================================================== *)
(** * Mention Extractor (extract-proper-nouns.js) *)
(* ===================================================================== *)

Module Extract.
Import JS Regex.

(** ** Token helpers *)

(** [normalizeApostrophes]: the curly and modifier apostrophes lie outside
    the code units of the string model, on which the function returns
    its argument. *)
Definition normalizeApostrophes (s : string) : string := s.

Definition apostrophe : ascii := "'"%char.

(** [s.replace(/'s$/i, '')] *)
Definition stripPossessive (s : string) : string :=
  match rev (chars s) with
  | c2 :: c1 :: r =>
      if Ascii.eqb c1 apostrophe && Ascii.eqb (toUpperChar c2) "S"%char
      then str (rev r) else s
  | _ => s
  end.

(** [s.replace(/\.$/, '')] *)
Definition stripFinalDot (s : string) : string :=
  match rev (chars s) with
  | c :: r => if Ascii.eqb c "."%char then str (rev r) else s
  | [] => s
  end.

Definition isTokenChar (c : ascii) : bool :=
  isUpperAZ c || isLowerAZ c || Ascii.eqb c apostrophe.

Fixpoint dropWhileNot (p : ascii -> bool) (l : list ascii) : list ascii :=
  match l with
  | [] => []
  | c :: l' => if p c then l else dropWhileNot p l'
  end.

(** [s.includes(t)] *)
Fixpoint includesFrom (t s : list ascii) : bool :=
  match s with
  | [] => bool_decide (t = [])
  | _ :: s' => bool_decide (firstn (length t) s = t) || includesFrom t s'
  end.

Definition includes (s t : string) : bool := includesFrom (chars t) (chars s).

(** [s.trim()] *)
Definition trim (s : string) : string :=
  str (rev (dropWhileNot (fun c => negb (isSpace c))
         (rev (dropWhileNot (fun c => negb (isSpace c)) (chars s))))).

(** [text.split('\n')] *)
Fixpoint splitLines_go (cur : list ascii) (s : list ascii) : list string :=
  match s with
  | [] => [str (rev cur)]
  | c :: s' =>
      if Nat.eqb (code c) 10 then str (rev cur) :: splitLines_go [] s'
      else splitLines_go (c :: cur) s'
  end.

Definition splitLines (s : string) : list string := splitLines_go [] (chars s).

(** [cleanToken] *)
Definition cleanToken (word : string) : string :=
  if String.eqb word "" then ""
  else
    let cleaned := chars (normalizeApostrophes word) in
    let cleaned := dropWhileNot isTokenChar cleaned in
    let cleaned := rev (dropWhileNot isTokenChar (rev cleaned)) in
    stripFinalDot (str cleaned).

Definition pronouns : list string :=
  ["he"; "she"; "it"; "that"; "what"; "who"; "there"; "here"; "where"].

Definition inList (s : string) (l : list string) : bool :=
  existsb (String.eqb s) l.

(** [isContraction] *)
Definition isContraction (word : string) : bool :=
  if String.eqb word "" then false
  else
    let normalized := normalizeApostrophes word in
    if test (mkRegex [Lit "'s"; Eol] true) normalized
    then inList (toLowerCase (stripPossessive normalized)) pronouns
    else test (mkRegex [Lit "'"; Alt ["d"; "m"; "ll"; "re"; "ve"; "t"]; Eol] true)
           normalized.

(** [endsSentence]: a full stop, exclamation mark or question mark,
    then at most one closing quote (double or single), at the end. *)
Definition endsSentence (word : string) : bool :=
  if String.eqb word "" then false
  else test (mkRegex
               [Cls (fun c => inList (String c "") ["."; "!"; "?"]);
                Opt (fun c => Nat.eqb (code c) 34 || Ascii.eqb c apostrophe);
                Eol] false) word.

(** [isCapitalized]: the first character is an upper-case letter, that
    is, equal to its upper case and different from its lower case. *)
Definition isCapitalized (word : string) : bool :=
  match chars word with
  | [] => false
  | c :: _ => isOwnUpperCase c && negb (Ascii.eqb c (toLowerChar c))
  end.

(** The result of [extractProperNounSequence], and after [extractFromLine]
    has set [isAtSentenceStart] on it. *)
Record ProperNoun : Type := mkProperNoun {
  pn_form : string;
  pn_normalized : string;
  pn_isPossessive : bool;
  pn_hasTitle : bool;
  pn_titleType : option string;
  pn_wordCount : nat;
  pn_endIndex : nat;
  pn_isAtSentenceStart : bool
}.

(** One located occurrence, as pushed on [mentions]. *)
Record Mention : Type := mkMention {
  m_form : string;
  m_normalized : string;
  m_isPossessive : bool;
  m_hasTitle : bool;
  m_titleType : option string;
  m_isAtSentenceStart : bool;
  m_chapter : Z;
  m_paragraph : Z;
  m_line : Z
}.

(** A first-appearance position; the extractor also records the form,
    the fallback position of the grouper does not. *)
Record FirstAppearance : Type := mkFirstAppearance {
  fa_chapter : Z;
  fa_paragraph : Z;
  fa_form : option string
}.

Record Metadata : Type := mkMetadata {
  md_totalMentions : Z;
  md_uniqueForms : Z;
  md_chaptersProcessed : Z
}.

Record ExtractionResult : Type := mkExtractionResult {
  mentions : list Mention;
  mentionCounts : gmap string Z;
  possessiveCounts : gmap string Z;
  sentenceStartCounts : gmap string Z;
  firstAppearances : gmap string FirstAppearance;
  metadata : Metadata
}.

Section Config.
(** The configuration files (stopwords.json, title-patterns.json) are
    read at load time; their contents are parameters here. *)
Variable stopwordWords : list string.
Variable chapterStartPatterns : list string.
Variable titlePatternList : list (string * option string).

Definition stopwordSet : list string :=
  map (fun w => toLowerCase (normalizeApostrophes w)) stopwordWords.
Definition chapterPatterns : list string :=
  map toLowerCase chapterStartPatterns.
Definition titlePrefixes : list string :=
  map (fun p => toLowerCase (fst p)) titlePatternList.

(** [isStopword] *)
Definition isStopword (word : string) : bool :=
  let normalized := toLowerCase (normalizeApostrophes word) in
  inList normalized stopwordSet || inList (toLowerCase word) stopwordSet.

(** The loop of the untitled branch of [extractProperNounSequence]:
    [ws] is [words] from index [i] on, [prevWord] is [words[i-1]] once
    [i > startIndex], [comps] holds the components in reverse. *)
Fixpoint collectWords (ws : list string) (i : nat) (prevWord : option string)
  (comps : list string) (endIndex : nat) : list string * nat :=
  match ws with
  | [] => (comps, endIndex)
  | rawWord :: ws' =>
      if Nat.leb 2 (length comps) then (comps, endIndex)
      else
        let word := cleanToken rawWord in
        if String.eqb word "" then (comps, endIndex)
        else if isContraction rawWord then (comps, endIndex)
        else if match prevWord with
                | Some p => endsSentence p
                | None => false
                end then (comps, endIndex)
        else
          let isPossessive := includes rawWord "'s" && negb (isContraction rawWord) in
          let baseWord := stripPossessive word in
          if isCapitalized baseWord && negb (isStopword baseWord)
          then if isPossessive
               then ((baseWord +:+ "'s") :: comps, i)
               else collectWords ws' (S i) (Some rawWord) (word :: comps) i
          else (comps, endIndex)
  end.

Definition titleTypeOf (firstWordLower : string) : string :=
  match find (fun p => String.eqb (toLowerCase (fst p)) firstWordLower)
          titlePatternList with
  | Some (_, Some t) => if String.eqb t "" then "honorific" else t
  | _ => "honorific"
  end.

(** [extractProperNounSequence(words, startIndex)], with
    [isAtSentenceStart] still unset. *)
Definition extractProperNounSequence (words : list string) (startIndex : nat)
  : option ProperNoun :=
  let firstWord := cleanToken (nth startIndex words "") in
  let firstWordLower := stripFinalDot (toLowerCase firstWord) in
  let '(components, hasTitle, titleType, endIndex) :=
    if inList firstWordLower titlePrefixes
    then
      let next :=
        match nth_error words (S startIndex) with
        | Some raw =>
            let nextWord := cleanToken raw in
            if negb (String.eqb nextWord "") && isCapitalized nextWord
               && negb (isStopword nextWord) && negb (isContraction raw)
            then Some nextWord else None
        | None => None
        end in
      match next with
      | Some nextWord =>
          ([firstWord; nextWord], true, Some (titleTypeOf firstWordLower),
           S startIndex)
      | None =>
          ([firstWord], true, Some (titleTypeOf firstWordLower), startIndex)
      end
    else
      let '(comps, e) :=
        collectWords (skipn startIndex words) startIndex None [] startIndex in
      (rev comps, false, None, e) in
  match components with
  | [] => None
  | _ =>
      let form := joinSp components in
      let isPossessive := includes form "'s" in
      let normalized := stripFinalDot (stripPossessive form) in
      if inList (toLowerCase normalized) chapterPatterns then None
      else if Nat.ltb (String.length normalized) 2 then None
      else Some (mkProperNoun form normalized isPossessive hasTitle titleType
                   (length components) endIndex false)
  end.

(** The [while] loop of [extractFromLine]; the index grows at every
    turn, so the number of words bounds the number of turns. *)
Fixpoint scanWords (fuel : nat) (words : list string)
  (sentenceStartIndices : list nat) (i : nat) : list ProperNoun :=
  match fuel with
  | O => []
  | S fuel' =>
      match nth_error words i with
      | None => []
      | Some word =>
          if isContraction word
          then scanWords fuel' words sentenceStartIndices (S i)
          else
            let cleanWord := cleanToken word in
            if String.eqb cleanWord "" || isStopword cleanWord
            then scanWords fuel' words sentenceStartIndices (S i)
            else
              match (if isCapitalized cleanWord
                     then extractProperNounSequence words i else None) with
              | Some result =>
                  let result :=
                    mkProperNoun (pn_form result) (pn_normalized result)
                      (pn_isPossessive result) (pn_hasTitle result)
                      (pn_titleType result) (pn_wordCount result)
                      (pn_endIndex result)
                      (existsb (Nat.eqb i) sentenceStartIndices) in
                  result ::
                    scanWords fuel' words sentenceStartIndices
                      (S (pn_endIndex result))
              | None => scanWords fuel' words sentenceStartIndices (S i)
              end
      end
  end.

(** [extractFromLine] *)
Definition extractFromLine (line : string) : list ProperNoun :=
  let words := List.filter (fun w => negb (String.eqb w "")) (splitWs line) in
  let sentenceStartIndices :=
    O :: map S (List.filter (fun j => endsSentence (nth j words ""))
                  (seq 0 (length words - 1))) in
  scanWords (length words) words sentenceStartIndices O.

(** ** The document loop *)

(** The chapter header pattern, case-insensitive: two hashes, white
    space, CHAPTER, white space, a run of word characters, a colon,
    optional white space, then any characters but line terminators up
    to the end. The captured title is only logged. *)
Definition chapterHeader : regex :=
  mkRegex [Bol; Lit "##"; Plus isSpace; Lit "CHAPTER"; Plus isSpace;
           Plus isWord; Lit ":"; Star isSpace;
           Star (fun c => negb (Nat.eqb (code c) 10 || Nat.eqb (code c) 13));
           Eol] true.

Record ExtractState : Type := mkExtractState {
  st_inFrontmatter : bool;
  st_currentChapter : Z;
  st_paragraphIndex : Z;
  st_mentions : list Mention;
  st_mentionCounts : gmap string Z;
  st_possessiveCounts : gmap string Z;
  st_sentenceStartCounts : gmap string Z;
  st_firstAppearances : gmap string FirstAppearance
}.

Definition initialState : ExtractState :=
  mkExtractState false 0 0 [] ∅ ∅ ∅ ∅.

(** [dict[k] = (dict[k] || 0) + 1] *)
Definition bump (k : string) (m : gmap string Z) : gmap string Z :=
  <[k := orElse (m !! k) 0 + 1]> m.

(** The body of the loop over the proper nouns of one line. *)
Definition recordMention (lineIndex : Z) (st : ExtractState) (pn : ProperNoun)
  : ExtractState :=
  let mention :=
    mkMention (pn_form pn) (pn_normalized pn) (pn_isPossessive pn)
      (pn_hasTitle pn) (pn_titleType pn) (pn_isAtSentenceStart pn)
      (st_currentChapter st) (st_paragraphIndex st) (lineIndex + 1) in
  mkExtractState
    (st_inFrontmatter st) (st_currentChapter st) (st_paragraphIndex st)
    (st_mentions st ++ [mention])
    (bump (pn_normalized pn) (st_mentionCounts st))
    (if pn_isPossessive pn
     then bump (pn_normalized pn) (st_possessiveCounts st)
     else st_possessiveCounts st)
    (if pn_isAtSentenceStart pn
     then bump (pn_normalized pn) (st_sentenceStartCounts st)
     else st_sentenceStartCounts st)
    (match st_firstAppearances st !! pn_normalized pn with
     | Some _ => st_firstAppearances st
     | None =>
         <[pn_normalized pn :=
             mkFirstAppearance (st_currentChapter st) (st_paragraphIndex st)
               (Some (pn_form pn))]> (st_firstAppearances st)
     end).

(** One turn of the loop over the lines. *)
Definition processLine (lineIndex : Z) (st : ExtractState) (line : string)
  : ExtractState :=
  if String.eqb (trim line) "---"
  then mkExtractState (negb (st_inFrontmatter st)) (st_currentChapter st)
         (st_paragraphIndex st) (st_mentions st) (st_mentionCounts st)
         (st_possessiveCounts st) (st_sentenceStartCounts st)
         (st_firstAppearances st)
  else if st_inFrontmatter st then st
  else if test chapterHeader line
  then mkExtractState (st_inFrontmatter st) (st_currentChapter st + 1) 0
         (st_mentions st) (st_mentionCounts st) (st_possessiveCounts st)
         (st_sentenceStartCounts st) (st_firstAppearances st)
  else if String.eqb (trim line) ""
  then mkExtractState (st_inFrontmatter st) (st_currentChapter st)
         (st_paragraphIndex st + 1) (st_mentions st) (st_mentionCounts st)
         (st_possessiveCounts st) (st_sentenceStartCounts st)
         (st_firstAppearances st)
  else fold_left (recordMention lineIndex) (extractFromLine line) st.

Fixpoint processLines (lineIndex : Z) (st : ExtractState) (lines : list string)
  : ExtractState :=
  match lines with
  | [] => st
  | line :: rest => processLines (lineIndex + 1) (processLine lineIndex st line) rest
  end.

(** [extractProperNouns(text)] *)
Definition extractProperNouns (text : string) : ExtractionResult :=
  let st := processLines 0 initialState (splitLines text) in
  mkExtractionResult
    (st_mentions st) (st_mentionCounts st) (st_possessiveCounts st)
    (st_sentenceStartCounts st) (st_firstAppearances st)
    (mkMetadata (Z.of_nat (length (st_mentions st)))
       (Z.of_nat (size (st_mentionCounts st)))
       (st_currentChapter st)).
End Config.

(** The sum of the values of a dictionary of counts. *)
Definition sumValues (m : gmap string Z) : Z :=
  map_fold (fun _ v acc => v + acc) 0 m.

(** The loop invariant of [extractProperNouns]: the aggregate maps agree
    with the mention list. *)
Definition consistent (st : ExtractState) : Prop :=
  sumValues (st_mentionCounts st) = Z.of_nat (length (st_mentions st)) /\
  dom (st_possessiveCounts st) ⊆ dom (st_mentionCounts st) /\
  dom (st_sentenceStartCounts st) ⊆ dom (st_mentionCounts st) /\
  dom (st_firstAppearances st) ⊆ dom (st_mentionCounts st).

End Extract.


(* ===================================================================== *)
(** * Snippets (extract-snippets.js) *)
(* ===================================================================== *)

Module Snippets.

(** [location.sentenceIndex] of a raw snippet, [location.sentenceRange] of
    a merged one. *)
Inductive SentenceLoc : Type :=
| SentenceIndex (i : Z)
| SentenceRange (first last : Z).

Record Location : Type := mkLocation {
  paragraphIndex : Z;
  sentence : SentenceLoc
}.

Record SnippetText : Type := mkSnippetText {
  before : string;
  matched : string;
  after : string
}.

Record MentionRecord : Type := mkMentionRecord {
  mr_entity : string;
  mr_variant : string;
  mr_sentence : string
}.

Record Snippet : Type := mkSnippet {
  id : string;
  book : Z;
  chapter : Z;
  chapterTitle : string;
  location : Location;
  text : SnippetText;
  entities : list string;
  mentions : list MentionRecord
}.

End Snippets.

(* ===================================================================== *)
(** * Index Builder (build-indices.js) *)
(* ===================================================================== *)

Module Indices.
Import JS Snippets.

(** The pairs [(entities[i], entities[j])] with [i < j], in the order of
    the two nested loops. *)
Fixpoint pairsOf (l : list string) : list (string * string) :=
  match l with
  | [] => []
  | x :: rest => map (fun y => (x, y)) rest ++ pairsOf rest
  end.

(** The template [`${a}+${b}`]. *)
Definition keyOf (p : string * string) : string := fst p +:+ "+" +:+ snd p.

(** [if (!index[key]) index[key] = []; index[key].push(id)] *)
Definition pushId (snippetId : string) (index : gmap string (list string))
  (key : string) : gmap string (list string) :=
  <[key := default [] (index !! key) ++ [snippetId]]> index.

(** The keys a snippet pushes its id under, in order; [sort()] without a
    comparator orders strings by their code units. *)
Definition keysOf (s : Snippet) : list string :=
  map keyOf (pairsOf (sortBy String.leb (entities s))).

(** The body of the loop over the snippets. *)
Definition addSnippet (index : gmap string (list string)) (s : Snippet)
  : gmap string (list string) :=
  fold_left (pushId (id s)) (keysOf s) index.

(** [buildCooccurrenceIndex(snippets)] *)
Definition buildCooccurrenceIndex (snippets : list Snippet)
  : gmap string (list string) :=
  let index := fold_left addSnippet snippets ∅ in
  sortBy String.leb <$> index.

(** The key of an unordered pair: the two ids in lexicographic order,
    joined by a plus sign. *)
Definition pairKey (a b : string) : string :=
  if String.leb a b then keyOf (a, b) else keyOf (b, a).

(** An id without a plus sign, as all generated entity ids are. *)
Definition plusFree (s : string) : Prop :=
  forallb (fun c => negb (Ascii.eqb c "+"%char)) (chars s) = true.

(** Two snippets that share entities, listed in different orders. *)
Definition exampleSnippets : list Snippet :=
  [ mkSnippet "s_0000" 1 1 "The Boy Who Lived" (mkLocation 0 (SentenceIndex 0))
      (mkSnippetText "" "Ron waved at Harry." "Hermione sighed.")
      ["ron"; "harry"; "hermione"] [];
    mkSnippet "s_0001" 1 1 "The Boy Who Lived" (mkLocation 3 (SentenceIndex 1))
      (mkSnippetText "" "Harry called Ron." "")
      ["harry"; "ron"] [] ].

(** The list stored under a key, empty when the key is absent. *)
Definition entry (index : gmap string (list string)) (k : string) : list string :=
  default [] (index !! k).

Definition contribution (k y : string) (s : Snippet) : nat :=
  if decide (id s = y) then count_occ string_dec (keysOf s) k else 0%nat.

End Indices.


(* ===================================================================== *)
(** * Variant Grouper (group-variants.js) *)
(* ===================================================================== *)

Module Grouper.
Import JS Extract.

(** One surface form of a group, with its count. The fields [hasTitle] and
    [titleType] are present only on titled variants. *)
Record Variant : Type := mkVariant {
  form : string;
  count : Z;
  hasTitle : bool;
  titleType : option string
}.

(** How a group was formed. *)
Inductive Evidence : Type :=
| FullNameEvidence (parts : list string) (titlePatterns : list string)
| TitledNameEvidence (title : string) (ttype : option string)
| SingleNameEvidence (hasPossessive : bool)
| NoEvidence.

(** An entity group; [sentenceStartRatio], in hundredths, is set by the
    junk filter. *)
Record EntityGroup : Type := mkEntityGroup {
  canonicalName : string;
  variants : list Variant;
  evidence : Evidence;
  firstAppearance : FirstAppearance;
  totalMentions : Z;
  sentenceStartRatio : option Z
}.

Record FormCount : Type := mkFormCount { fc_form : string; fc_count : Z }.

Record TitledName : Type := mkTitledName {
  tn_form : string;
  tn_title : string;
  tn_name : string;
  tn_count : Z;
  tn_titleType : option string
}.

Record Forms : Type := mkForms {
  fullNames : list FormCount;
  titledNames : list TitledName;
  singleNames : list FormCount;
  possessives : list (string * string)
}.

(** ** [categorizeFormsFromMentions] *)

Record Categories : Type := mkCategories {
  cat_fullNames : list (string * Z);
  cat_titledNames : list (string * TitledName);
  cat_singleNames : list (string * Z);
  cat_possessives : list (string * string)
}.

Definition categorizeStep (mentionCounts : gmap string Z) (c : Categories)
  (mention : Mention) : Categories :=
  let form := m_normalized mention in
  let words := splitWs form in
  if m_hasTitle mention && Nat.leb 2 (length words)
  then
    let title := nth 0 words "" in
    let name := joinSp (skipn 1 words) in
    let titled :=
      if omap_has form (cat_titledNames c) then cat_titledNames c
      else omap_set form (mkTitledName form title name 0 (m_titleType mention))
             (cat_titledNames c) in
    let titled :=
      match omap_get form titled with
      | Some t =>
          omap_set form
            (mkTitledName (tn_form t) (tn_title t) (tn_name t) (tn_count t + 1)
               (tn_titleType t)) titled
      | None => titled
      end in
    mkCategories (cat_fullNames c) titled (cat_singleNames c) (cat_possessives c)
  else if Nat.leb 2 (length words)
  then
    let full :=
      if omap_has form (cat_fullNames c) then cat_fullNames c
      else omap_set form 0 (cat_fullNames c) in
    let full :=
      match omap_get form full with
      | Some n => omap_set form (n + 1) full
      | None => full
      end in
    mkCategories full (cat_titledNames c) (cat_singleNames c) (cat_possessives c)
  else if Nat.eqb (length words) 1
  then
    let base := stripPossessive form in
    let poss :=
      if m_isPossessive mention then omap_set form base (cat_possessives c)
      else cat_possessives c in
    let singles :=
      if omap_has base (cat_singleNames c) then cat_singleNames c
      else omap_set base 0 (cat_singleNames c) in
    let singles :=
      match omap_get base singles with
      | Some n => omap_set base (n + orElse (mentionCounts !! form) 1) singles
      | None => singles
      end in
    mkCategories (cat_fullNames c) (cat_titledNames c) singles poss
  else c.

Definition categorizeFormsFromMentions (mentions : list Mention)
  (mentionCounts : gmap string Z) : Forms :=
  let c := fold_left (categorizeStep mentionCounts) mentions
             (mkCategories [] [] [] []) in
  mkForms (map (fun p => mkFormCount (fst p) (snd p)) (cat_fullNames c))
          (map snd (cat_titledNames c))
          (map (fun p => mkFormCount (fst p) (snd p)) (cat_singleNames c))
          (cat_possessives c).

(** ** [buildEntityGroups] *)

(** A group while the linkage rules run: position and total are added at
    the end. *)
Record Draft : Type := mkDraft {
  d_canonicalName : string;
  d_variants : list Variant;
  d_evidence : Evidence
}.

(** [groups] and [assignedForms]. *)
Record BuildState : Type := mkBuildState {
  bs_groups : list Draft;
  bs_assigned : gset string
}.

Definition plain (f : string) (c : Z) : Variant := mkVariant f c false None.

Section Build.
Variable forms : Forms.
Variable mentionCounts : gmap string Z.
Variable firstAppearances : gmap string FirstAppearance.

Definition findSingle (name : string) : option FormCount :=
  find (fun s => String.eqb (fc_form s) name) (singleNames forms).

(** The count of one part of a full name, [0] when it is no single name. *)
Definition partCount (part : string) : Z :=
  match findSingle part with
  | Some m => orElse (mentionCounts !! part) (fc_count m)
  | None => 0
  end.

(** The possessive of [name], attached when [mentionCounts] knows it. *)
Definition withPossessive (name : string) (vs : list Variant)
  (assigned : gset string) : list Variant * gset string :=
  let possessiveForm := name +:+ "'s" in
  if truthy (mentionCounts !! possessiveForm)
  then (vs ++ [plain possessiveForm (orElse (mentionCounts !! possessiveForm) 0)],
        {[possessiveForm]} ∪ assigned)
  else (vs, assigned).

(** Rule 1, the loop over the parts of a full name. *)
Definition attachPart (acc : list Variant * gset string) (part : string)
  : list Variant * gset string :=
  let '(vs, assigned) := acc in
  if bool_decide (part ∈ assigned) then acc
  else
    match findSingle part with
    | Some singleMatch =>
        if Z.leb 3 (fc_count singleMatch)
        then
          let singleCount := orElse (mentionCounts !! part) (fc_count singleMatch) in
          withPossessive part (vs ++ [plain part singleCount]) ({[part]} ∪ assigned)
        else acc
    | None => acc
    end.

(** Rule 1, the loop over the titled names. *)
Definition attachTitled (parts : list string)
  (acc : list Variant * list string * gset string) (titled : TitledName)
  : list Variant * list string * gset string :=
  let '(vs, patterns, assigned) := acc in
  if bool_decide (tn_form titled ∈ assigned) then acc
  else
    let titledParts := splitWs (tn_name titled) in
    let lastTitledPart := List.last titledParts "" in
    if inList lastTitledPart parts
    then (vs ++ [mkVariant (tn_form titled)
                   (orElse (mentionCounts !! tn_form titled) (tn_count titled))
                   true (tn_titleType titled)],
          patterns ++ [tn_title titled],
          {[tn_form titled]} ∪ assigned)
    else acc.

(** Rule 1: full names become anchors. *)
Definition fullNameStep (st : BuildState) (fullName : FormCount) : BuildState :=
  if bool_decide (fc_form fullName ∈ bs_assigned st) then st
  else
    let count := orElse (mentionCounts !! fc_form fullName) (fc_count fullName) in
    if Z.ltb count 3 then st
    else
      let parts := splitWs (fc_form fullName) in
      if Nat.ltb 2 (length parts) then st
      else if Nat.eqb (length parts) 2
              && Z.ltb (count * 10) (partCount (nth 0 parts ""))
              && Z.ltb (count * 10) (partCount (nth 1 parts ""))
      then st
      else
        let assigned := {[fc_form fullName]} ∪ bs_assigned st in
        let '(vs, assigned) :=
          fold_left attachPart parts ([plain (fc_form fullName) count], assigned) in
        let '(vs, patterns, assigned) :=
          fold_left (attachTitled parts) (titledNames forms) (vs, [], assigned) in
        mkBuildState
          (bs_groups st ++
             [mkDraft (fc_form fullName) vs (FullNameEvidence parts patterns)])
          assigned.

(** Rule 2: the titled names left over. *)
Definition titledStep (st : BuildState) (titled : TitledName) : BuildState :=
  if bool_decide (tn_form titled ∈ bs_assigned st) then st
  else
    let vs := [mkVariant (tn_form titled)
                 (orElse (mentionCounts !! tn_form titled) (tn_count titled))
                 true None] in
    let assigned := {[tn_form titled]} ∪ bs_assigned st in
    let namePart := tn_name titled in
    let '(name, vs, assigned) :=
      if bool_decide (namePart ∈ assigned) then (tn_form titled, vs, assigned)
      else
        match findSingle namePart with
        | Some singleMatch =>
            let '(vs, assigned) :=
              withPossessive namePart
                (vs ++ [plain namePart
                          (orElse (mentionCounts !! namePart) (fc_count singleMatch))])
                ({[namePart]} ∪ assigned) in
            (namePart, vs, assigned)
        | None => (tn_form titled, vs, assigned)
        end in
    mkBuildState
      (bs_groups st ++
         [mkDraft name vs (TitledNameEvidence (tn_title titled) (tn_titleType titled))])
      assigned.

(** Rule 3: the single names left over. *)
Definition singleStep (st : BuildState) (single : FormCount) : BuildState :=
  if bool_decide (fc_form single ∈ bs_assigned st) then st
  else if Z.ltb (fc_count single) 3 then st
  else
    let vs := [plain (fc_form single)
                 (orElse (mentionCounts !! fc_form single) (fc_count single))] in
    let assigned := {[fc_form single]} ∪ bs_assigned st in
    let hasPossessive := truthy (mentionCounts !! (fc_form single +:+ "'s")) in
    let '(vs, assigned) := withPossessive (fc_form single) vs assigned in
    mkBuildState
      (bs_groups st ++
         [mkDraft (fc_form single) vs (SingleNameEvidence hasPossessive)])
      assigned.

(** The three rules in order. *)
Definition linkForms : BuildState :=
  let st := fold_left fullNameStep (fullNames forms) (mkBuildState [] ∅) in
  let st := fold_left titledStep (titledNames forms) st in
  fold_left singleStep (singleNames forms) st.

Definition earlier (a b : FirstAppearance) : bool :=
  Z.ltb (fa_chapter a) (fa_chapter b)
  || (Z.eqb (fa_chapter a) (fa_chapter b)
      && Z.ltb (fa_paragraph a) (fa_paragraph b)).

(** The earliest recorded appearance among the variants. *)
Definition earliestStep (earliest : option FirstAppearance) (v : Variant)
  : option FirstAppearance :=
  match firstAppearances !! form v with
  | Some appearance =>
      match earliest with
      | None => Some appearance
      | Some e => if earlier appearance e then Some appearance else earliest
      end
  | None => earliest
  end.

(** [variants.reduce((sum, v) => sum + v.count, 0)] *)
Definition sumCounts (vs : list Variant) : Z :=
  fold_left (fun sum v => sum + count v) vs 0.

Definition finish (d : Draft) : EntityGroup :=
  mkEntityGroup (d_canonicalName d) (d_variants d) (d_evidence d)
    (default (mkFirstAppearance 0 0 None)
       (fold_left earliestStep (d_variants d) None))
    (sumCounts (d_variants d))
    None.

(** [groups.sort((a, b) => b.totalMentions - a.totalMentions)] *)
Definition byTotalDesc (a b : EntityGroup) : bool :=
  Z.leb (totalMentions b) (totalMentions a).

Definition buildEntityGroups : list EntityGroup :=
  sortBy byTotalDesc (map finish (bs_groups linkForms)).
End Build.

(** [groupVariants(extractionResult, {minMentions})]; the default floor
    is 5. *)
Definition groupVariants (extractionResult : ExtractionResult) (minMentions : Z)
  : list EntityGroup :=
  let forms := categorizeFormsFromMentions (mentions extractionResult)
                 (mentionCounts extractionResult) in
  let entityGroups :=
    buildEntityGroups forms (mentionCounts extractionResult)
      (firstAppearances extractionResult) in
  List.filter (fun group => Z.leb minMentions (sumCounts (variants group)))
    entityGroups.

Definition defaultMinMentions : Z := 5.

(** A text with a doubled possessive, on which a form is claimed twice. *)
Definition doubledPossessiveText : string :=
  "a Harry's's's b Harry's's's c Harry's's's d Harry's's e Harry's's f Harry g Harry h Harry i Harry j Harry".

(** [generateEntityId]: lower case, every run of characters other than
    lower-case letters and digits becomes one underscore, and one
    underscore is dropped at either end. *)
Definition isIdChar (c : ascii) : bool := isLowerAZ c || isDigit c.

Fixpoint collapseRuns (inRun : bool) (l : list ascii) : list ascii :=
  match l with
  | [] => []
  | c :: l' =>
      if isIdChar c then c :: collapseRuns false l'
      else if inRun then collapseRuns true l'
      else "_"%char :: collapseRuns true l'
  end.

Definition dropUnderscore (l : list ascii) : list ascii :=
  match l with
  | c :: l' => if Ascii.eqb c "_"%char then l' else l
  | [] => []
  end.

Definition generateEntityId (canonicalName : string) : string :=
  let l := collapseRuns false (chars (toLowerCase canonicalName)) in
  str (rev (dropUnderscore (rev (dropUnderscore l)))).

(** All the forms the groups hold, with repeats. *)
Definition allForms (ds : list Draft) : list string :=
  flat_map (fun d => map form (d_variants d)) ds.

Definition groupForms (groups : list EntityGroup) : list string :=
  flat_map (fun g => map form (variants g)) groups.

(** No possessive form is known to [mentionCounts]: the extractor strips
    the possessive ending from every form it counts. *)
Definition noPossessiveKeys (mentionCounts : gmap string Z) : Prop :=
  forall name, truthy (mentionCounts !! (name +:+ "'s")) = false.

(** The invariant of the linkage rules: no form is held twice, and every
    form held is marked as assigned. *)
Definition claimedOnce (st : BuildState) : Prop :=
  NoDup (allForms (bs_groups st)) /\
  forall f, In f (allForms (bs_groups st)) -> f ∈ bs_assigned st.

(** The same while one group is being filled: [prior] are the forms of
    the groups made so far. *)
Definition fillingOnce (prior : list string) (vs : list Variant)
  (assigned : gset string) : Prop :=
  NoDup (map form vs) /\
  (forall f, In f (map form vs) -> f ∈ assigned /\ ~ In f prior) /\
  (forall f, In f prior -> f ∈ assigned).

(** The canonical name of a draft is one of its variant forms. *)
Definition draftNamed (d : Draft) : Prop :=
  In (d_canonicalName d) (map form (d_variants d)).


End Grouper.


(* ===================================================================== *)
(** * Junk Filter (filter-junk.js) *)
(* ===================================================================== *)

Module Filter.
Import JS Regex Extract Grouper.

Inductive ExclusionReason : Type :=
| sentence_start_ratio_high
| truncated_phrase
| list_separated_names
| both_words_high_frequency.

(** [Math.round(ratio * 100) / 100] as a number of hundredths, with
    [ratio = ssCount / totalMentions] when the total is positive and [0]
    otherwise. The quotient and its hundredfold are doubles, rounded each
    in its turn: of 23 mentions in 40 the ratio is a double just below
    0.575, and the result is 0.57. *)
Definition ratioHundredths (ssCount total : Z) : Z :=
  if Z.ltb 0 total then mathRound (mulDouble (divDouble ssCount total) 100)
  else 0.

(** The verdict of [checkForExclusion]; the evidence message, a formatted
    text for the audit report, is left out. *)
Record Exclusion : Type := mkExclusion {
  ex_reason : ExclusionReason;
  ex_sentenceStartRatio : Z
}.

(** An entry of the [excluded] list. *)
Record Excluded : Type := mkExcluded {
  x_text : string;
  x_mentions : Z;
  x_reason : ExclusionReason;
  x_sentenceStartRatio : Z
}.

(** [getSentenceStartCount] *)
Definition getSentenceStartCount (group : EntityGroup)
  (sentenceStartCounts : gmap string Z) : Z :=
  fold_left (fun n v => n + orElse (sentenceStartCounts !! form v) 0)
    (variants group) 0.

(** [buildTwoWordFirstWordMap] *)
Definition countFirstWord (m : list (string * Z)) (group : EntityGroup)
  : list (string * Z) :=
  let words := splitWs (canonicalName group) in
  if Nat.eqb (length words) 2
  then let firstWord := nth 0 words "" in
       omap_set firstWord (orElse (omap_get firstWord m) 0 + 1) m
  else m.

Definition buildTwoWordFirstWordMap (entityGroups : list EntityGroup)
  : list (string * Z) :=
  let firstWordCounts := fold_left countFirstWord entityGroups [] in
  fold_left (fun result p => omap_set (fst p) (snd p - 1) result)
    firstWordCounts [].

(** The three patterns of [detectListSeparation], all with the flags
    [gi]; [escapeRegex] makes the interpolated words literal text. *)
Definition comma : ascii := ","%char.

Definition fullNamePattern (fullName : string) : regex :=
  mkRegex [WordB; Lit fullName; WordB] true.

Definition andPattern (word1 word2 : string) : regex :=
  mkRegex [WordB; Lit word1; Star isSpace; Opt (only comma); Plus isSpace;
           Alt ["and"; "or"]; Plus isSpace; Lit word2; WordB] true.

Definition commaListPattern (word1 word2 : string) : regex :=
  mkRegex [WordB; Lit word1; Star isSpace; Lit ","; Star isSpace; Lit word2;
           Star isSpace; Lit ","] true.

(** [detectListSeparation(fullName, words, fullText).isListSeparated] *)
Definition detectListSeparation (fullName : string) (words : list string)
  (fullText : string) : bool :=
  let word1 := nth 0 words "" in
  let word2 := nth 1 words "" in
  let fullNameCount := countPattern fullText (fullNamePattern fullName) in
  let andPatternCount := countPattern fullText (andPattern word1 word2) in
  let commaListCount := countPattern fullText (commaListPattern word1 word2) in
  if Z.leb 3 andPatternCount && Z.ltb fullNameCount andPatternCount then true
  else if Z.leb 3 commaListCount && Z.ltb fullNameCount commaListCount then true
  else false.

(** [checkForExclusion] *)
Definition checkForExclusion (group : EntityGroup)
  (sentenceStartCounts mentionCounts : gmap string Z)
  (twoWordFirstWords : list (string * Z)) (fullText : string)
  : option Exclusion :=
  let name := canonicalName group in
  let total := totalMentions group in
  let ssCount := getSentenceStartCount group sentenceStartCounts in
  let ratio := ratioHundredths ssCount total in
  if Z.ltb 0 total && Z.ltb total (2 * ssCount) && Z.leb 5 total
  then Some (mkExclusion sentence_start_ratio_high ratio)
  else
    let words := splitWs name in
    if Nat.eqb (length words) 2
       && Z.leb 3 (orElse (omap_get (nth 0 words "") twoWordFirstWords) 0)
    then Some (mkExclusion truncated_phrase ratio)
    else if Nat.eqb (length words) 2 && Z.ltb total 10
            && detectListSeparation name words fullText
    then Some (mkExclusion list_separated_names ratio)
    else if Nat.eqb (length words) 2 && Z.ltb total 30
            && Z.leb 40 (orElse (mentionCounts !! nth 0 words "") 0)
            && Z.leb 40 (orElse (mentionCounts !! nth 1 words "") 0)
    then Some (mkExclusion both_words_high_frequency ratio)
    else None.

(** The first two heuristics of [checkForExclusion], which run before
    the list-separation one. *)
Definition excludedEarlier (group : EntityGroup)
  (sentenceStartCounts : gmap string Z) (twoWordFirstWords : list (string * Z))
  : bool :=
  let total := totalMentions group in
  let ssCount := getSentenceStartCount group sentenceStartCounts in
  let words := splitWs (canonicalName group) in
  (Z.ltb 0 total && Z.ltb total (2 * ssCount) && Z.leb 5 total)
  || (Nat.eqb (length words) 2
      && Z.leb 3 (orElse (omap_get (nth 0 words "") twoWordFirstWords) 0)).

Record FilterResult : Type := mkFilterResult {
  clean : list EntityGroup;
  excluded : list Excluded
}.

(** The body of the loop of [filterJunk]. *)
Definition filterStep (sentenceStartCounts mentionCounts : gmap string Z)
  (twoWordFirstWords : list (string * Z)) (fullText : string)
  (acc : FilterResult) (group : EntityGroup) : FilterResult :=
  match checkForExclusion group sentenceStartCounts mentionCounts
          twoWordFirstWords fullText with
  | Some exclusion =>
      mkFilterResult (clean acc)
        (excluded acc ++
           [mkExcluded (canonicalName group) (totalMentions group)
              (ex_reason exclusion) (ex_sentenceStartRatio exclusion)])
  | None =>
      let ssCount := getSentenceStartCount group sentenceStartCounts in
      mkFilterResult
        (clean acc ++
           [mkEntityGroup (canonicalName group) (variants group) (evidence group)
              (firstAppearance group) (totalMentions group)
              (Some (ratioHundredths ssCount (totalMentions group)))])
        (excluded acc)
  end.

(** [filterJunk(entityGroups, extractionResult, fullText)] *)
Definition filterJunk (entityGroups : list EntityGroup)
  (extractionResult : ExtractionResult) (fullText : string) : FilterResult :=
  let twoWordFirstWords := buildTwoWordFirstWordMap entityGroups in
  fold_left
    (filterStep (sentenceStartCounts extractionResult)
       (mentionCounts extractionResult) twoWordFirstWords fullText)
    entityGroups (mkFilterResult [] []).

(** The scenario of the specification: a rare two-word group and a text
    that lists the two words three times. *)
Definition malfoyCrabbe : EntityGroup :=
  mkEntityGroup "Malfoy Crabbe" [plain "Malfoy Crabbe" 2]
    (FullNameEvidence ["Malfoy"; "Crabbe"] []) (mkFirstAppearance 1 0 None) 2 None.

Definition malfoyText : string :=
  "Malfoy, Crabbe, and Goyle laughed. Harry glared at Malfoy, Crabbe, and Goyle. Then Malfoy, Crabbe, and Goyle left.".

Definition emptyExtraction : ExtractionResult :=
  mkExtractionResult [] ∅ ∅ ∅ ∅ (mkMetadata 0 0 0).

End Filter.

(* ===================================================================== *)
(** * The list-separation rule, as the specification words it *)
(* ===================================================================== *)

Module ListRule.
Import JS Regex Extract Grouper Filter.

(** ** Reading occurrences off the text

    The rule counts three kinds of occurrences in the text: the two words
    as a literal pair, the two words joined by [and] or [or], and the two
    words in a list with commas. The case of the letters is ignored, white
    space is of any length, and an occurrence begins at a word boundary
    and, but for the list with commas, ends at one. The occurrences are
    read off the text directly, without regular expressions. *)

(** A place in the text: the character before it, if there is one, and
    the characters from it on. *)
Definition place : Type := option ascii * list ascii.

Definition isWordAt (c : option ascii) : bool :=
  match c with Some c => isWord c | None => false end.

(** A word boundary: of the characters before and after the place, one
    is a letter, a digit or an underscore, and the other is not. *)
Definition atWordBoundary (p : place) : bool :=
  xorb (isWordAt (fst p)) (isWordAt (head (snd p))).

(** Reading [word] at a place, whatever the case of the letters: the
    place behind it. *)
Fixpoint readWord (word : list ascii) (p : place) : option place :=
  match word with
  | [] => Some p
  | c :: word' =>
      match snd p with
      | d :: s =>
          if Ascii.eqb (toLowerChar c) (toLowerChar d)
          then readWord word' (Some d, s) else None
      | [] => None
      end
  end.

(** Passing over the white space at a place, if there is any. *)
Fixpoint skipBlanks (before : option ascii) (s : list ascii) : place :=
  match s with
  | c :: s' => if isSpace c then skipBlanks (Some c) s' else (before, s)
  | [] => (before, [])
  end.

Definition atBlank (p : place) : bool :=
  match snd p with c :: _ => isSpace c | [] => false end.

(** Reading white space, one character at least. *)
Definition readBlanks (p : place) : option place :=
  if atBlank p then Some (skipBlanks (fst p) (snd p)) else None.

Definition readComma (p : place) : option place :=
  match snd p with
  | c :: s => if Ascii.eqb c comma then Some (Some c, s) else None
  | [] => None
  end.

(** The two words as a literal pair: the name as it is written. *)
Definition pairAt (name : string) (p : place) : option place :=
  if atWordBoundary p
  then match readWord (chars name) p with
       | Some behind => if atWordBoundary behind then Some behind else None
       | None => None
       end
  else None.

(** What stands between the first word and the conjunction: white space,
    or a comma with white space behind it and, if one likes, before it. *)
Definition readSeparator (p : place) : option place :=
  let p2 := skipBlanks (fst p) (snd p) in
  match readComma p2 with
  | Some behindComma => readBlanks behindComma
  | None => if atBlank p then Some p2 else None
  end.

Definition readAndOr (p : place) : option place :=
  match readWord (chars "and") p with
  | Some behind => Some behind
  | None => readWord (chars "or") p
  end.

(** [word1 [,] (and|or) word2]: the first word, the separator, [and] or
    [or], white space, the second word. *)
Definition andOrAt (word1 word2 : string) (p : place) : option place :=
  if atWordBoundary p
  then
    p1 ← readWord (chars word1) p;
    p2 ← readSeparator p1;
    p3 ← readAndOr p2;
    p4 ← readBlanks p3;
    p5 ← readWord (chars word2) p4;
    if atWordBoundary p5 then Some p5 else None
  else None.

(** [word1, word2,]: the first word, a comma, the second word, a comma,
    with white space or none around the commas. *)
Definition commaListAt (word1 word2 : string) (p : place) : option place :=
  if atWordBoundary p
  then
    p1 ← readWord (chars word1) p;
    p2 ← readComma (skipBlanks (fst p1) (snd p1));
    p3 ← readWord (chars word2) (skipBlanks (fst p2) (snd p2));
    readComma (skipBlanks (fst p3) (snd p3))
  else None.

(** The number of occurrences in a text. The text is read from left to
    right: where an occurrence begins it is counted and the reading goes
    on behind it, elsewhere the reading goes on one character further.
    [steps] bounds the reading; one more than the length of the text is
    enough. *)
Fixpoint countFromPlace (here : place -> option place) (steps : nat)
  (p : place) : nat :=
  match steps with
  | O => O
  | S steps' =>
      match here p with
      | Some behind => S (countFromPlace here steps' behind)
      | None =>
          match snd p with
          | c :: s => countFromPlace here steps' (Some c, s)
          | [] => O
          end
      end
  end.

Definition countOccurrences (here : place -> option place) (text : string)
  : Z :=
  Z.of_nat (countFromPlace here (S (length (chars text))) (None, chars text)).

(** ** The rule

    One of the two list patterns occurs at least three times, and more
    often than the two words as a literal pair, which is the name as it is
    written. *)
Definition listSeparatedCondition (name fullText : string) : Prop :=
  let word1 := nth 0 (splitWs name) "" in
  let word2 := nth 1 (splitWs name) "" in
  let bigram := countOccurrences (pairAt name) fullText in
  let withAnd := countOccurrences (andOrAt word1 word2) fullText in
  let withCommas := countOccurrences (commaListAt word1 word2) fullText in
  (3 <= withAnd /\ bigram < withAnd) \/ (3 <= withCommas /\ bigram < withCommas).

(** ** Words for the texts that are read *)

(** White space throughout. *)
Definition blank (m : list ascii) : Prop := Forall (fun c => isSpace c = true) m.

(** No white space in a word. *)
Definition noBlank (w : string) : Prop :=
  Forall (fun c => isSpace c = false) (chars w).

(** The text [m] is the word [w], whatever the case of the letters. *)
Definition sameWord (w m : list ascii) : Prop :=
  Forall2 (fun c d => chEq true c d = true) w m.

(** The text does not begin with white space. *)
Definition noBlankAhead (s : list ascii) : Prop :=
  match s with c :: _ => isSpace c = false | [] => True end.

Definition conjunction (a : list ascii) : Prop :=
  sameWord (chars "and") a \/ sameWord (chars "or") a.

(** A second scenario, for the pattern with a conjunction. *)
Definition ronHermione : EntityGroup :=
  mkEntityGroup "Ron Hermione" [plain "Ron Hermione" 3]
    (FullNameEvidence ["Ron"; "Hermione"] []) (mkFirstAppearance 1 0 None) 3 None.

Definition ronText : string :=
  "Ron and Hermione ran. Harry followed Ron, and Hermione. Ron  OR hermione waited, and Ron Hermione said no.".

End ListRule.


(* ===================================================================== *)
(** * Tier Classifier (tier-entities.js) *)
(* ===================================================================== *)

Module Tier.
Import JS Regex Extract Grouper.

Inductive Qualification : Type :=
| title_pattern
| full_name_both_parts_independent
| single_name_with_possessive
| variant_with_possessive.

(** A confirmed or candidate entity. [qualifiedBy] is present on confirmed
    entities, [sentenceStartRatio] and [notes] on candidates; an absent
    [variants] or [mergedFrom] array is the empty list. *)
Record Entity : Type := mkEntity {
  e_id : string;
  e_canonicalName : string;
  e_mentions : Z;
  e_variants : list Variant;
  e_qualifiedBy : option Qualification;
  e_sentenceStartRatio : option Z;
  e_notes : option string;
  e_firstAppearance : option FirstAppearance;
  e_mergedFrom : list string
}.

Record TierOptions : Type := mkTierOptions {
  minCandidateMentions : Z;
  minPossessiveForConfirm : Z;
  minMentionsForPossessiveConfirm : Z;
  minIndependentPartMentions : Z
}.

Definition defaultTierOptions : TierOptions := mkTierOptions 8 5 20 10.

Definition titleWords : list string :=
  ["Mr"; "Mrs"; "Ms"; "Miss"; "Madam"; "Uncle"; "Aunt"; "Sir"; "Lord"; "Lady";
   "Professor"; "Dr"].

Definition dot : ascii := "."%char.

(** The two disqualification patterns, both case-insensitive: a title
    alone, and a title followed by a single letter. *)
Definition bareTitlePattern : regex :=
  mkRegex [Bol; Alt titleWords; Opt (only dot); Eol] true.

Definition titleLetterPattern : regex :=
  mkRegex [Bol; Alt titleWords; Opt (only dot); Plus isSpace; Cls isUpperAZ; Eol]
    true.

(** The names the disqualification is about: a title word alone, with or
    without a full stop, and a title followed by white space and one
    capital letter. *)
Definition isBareTitle (name : string) : Prop :=
  exists t, In t titleWords /\ (name = t \/ name = t +:+ ".").

Definition isTitleWithLetter (name : string) : Prop :=
  exists t sep letter,
    In t titleWords /\ sep <> [] /\ forallb isSpace sep = true /\
    isUpperAZ letter = true /\
    (name = t +:+ str (sep ++ [letter]) \/
     name = t +:+ "." +:+ str (sep ++ [letter])).

(** A group named by a bare title that carries titled evidence and high
    counts. *)
Definition exampleTitleGroup : EntityGroup :=
  mkEntityGroup "Mrs" [mkVariant "Mrs" 40 true (Some "honorific")]
    (TitledNameEvidence "Mrs" (Some "honorific")) (mkFirstAppearance 1 0 None)
    40 None.

Definition exampleSingleGroup : EntityGroup :=
  mkEntityGroup "Harry" [plain "Harry" 30] (SingleNameEvidence false)
    (mkFirstAppearance 1 2 None) 30 None.

(** [buildSingleWordCounts] *)
Definition buildSingleWordCounts (groups : list EntityGroup)
  : list (string * Z) :=
  fold_left
    (fun counts group =>
       if Nat.eqb (length (splitWs (canonicalName group))) 1
       then omap_set (canonicalName group) (totalMentions group) counts
       else counts)
    groups [].

Definition hasTitleEvidence (e : Evidence) : bool :=
  match e with
  | FullNameEvidence _ patterns => Nat.ltb 0 (length patterns)
  | TitledNameEvidence _ _ => true
  | SingleNameEvidence _ => false
  | NoEvidence => false
  end.

Section Classifier.
(** The title prefixes of title-patterns.json. *)
Variable titlePatternList : list (string * option string).
Variable possessiveCounts : gmap string Z.

(** [checkTier1Qualification] *)
Definition checkTier1Qualification (group : EntityGroup)
  (singleWordCounts : list (string * Z))
  (minPossessive minMentions minPartMentions : Z) : option Qualification :=
  let name := canonicalName group in
  let words := splitWs name in
  if test bareTitlePattern name then None
  else if test titleLetterPattern name then None
  else if hasTitleEvidence (evidence group) then Some title_pattern
  else if Nat.leb 1 (length words)
          && inList (stripFinalDot (toLowerCase (nth 0 words "")))
               (titlePrefixes titlePatternList)
  then Some title_pattern
  else if Nat.eqb (length words) 2
          && Z.leb minPartMentions (orElse (omap_get (nth 0 words "") singleWordCounts) 0)
          && Z.leb minPartMentions (orElse (omap_get (nth 1 words "") singleWordCounts) 0)
  then Some full_name_both_parts_independent
  else if Nat.eqb (length words) 1 && Z.leb minMentions (totalMentions group)
          && Z.leb minPossessive (orElse (possessiveCounts !! name) 0)
  then Some single_name_with_possessive
  else if Nat.eqb (length words) 2
          && existsb
               (fun variant =>
                  Nat.eqb (length (splitWs (form variant))) 1
                  && Z.leb minMentions (count variant)
                  && Z.leb minPossessive (orElse (possessiveCounts !! form variant) 0))
               (variants group)
  then Some variant_with_possessive
  else None.

(** [generateCandidateNotes] *)
Definition generateCandidateNotes (group : EntityGroup) : string :=
  let words := splitWs (canonicalName group) in
  let notes :=
    if Nat.eqb (length words) 1
    then
      (if existsb (fun v => endsWith (form v) "'s") (variants group)
       then ["Has possessive form"] else ["No possessive form"])
      ++ (if Z.leb 50 (totalMentions group)
          then ["High frequency single word"] else [])
    else [NilZero.string_of_uint (Nat.to_uint (length words)) +:+ "-word name"] in
  let notes :=
    notes ++
    (if existsb
          (fun v => endsWith (form v) "s" && negb (endsWith (form v) "'s")
                    && negb (String.eqb (form v) (canonicalName group)))
          (variants group)
     then ["Has plural form"] else []) in
  let joined := String.concat ", " notes in
  if String.eqb joined "" then "Needs review" else joined.

Definition simpleVariants (vs : list Variant) : list Variant :=
  map (fun v => plain (form v) (count v)) vs.

Definition confirmedOf (group : EntityGroup) (q : Qualification) : Entity :=
  mkEntity (generateEntityId (canonicalName group)) (canonicalName group)
    (totalMentions group) (simpleVariants (variants group)) (Some q) None None
    (Some (firstAppearance group)) [].

Definition candidateOf (group : EntityGroup) : Entity :=
  mkEntity (generateEntityId (canonicalName group)) (canonicalName group)
    (totalMentions group) (simpleVariants (variants group)) None
    (Some (default 0 (sentenceStartRatio group)))
    (Some (generateCandidateNotes group))
    (Some (firstAppearance group)) [].

Record Tiers : Type := mkTiers {
  confirmedCharacters : list Entity;
  candidates : list Entity
}.

(** The body of the loop of [tierEntities]. *)
Definition tierStep (options : TierOptions) (singleWordCounts : list (string * Z))
  (acc : Tiers) (group : EntityGroup) : Tiers :=
  match checkTier1Qualification group singleWordCounts
          (minPossessiveForConfirm options)
          (minMentionsForPossessiveConfirm options)
          (minIndependentPartMentions options) with
  | Some q =>
      mkTiers (confirmedCharacters acc ++ [confirmedOf group q]) (candidates acc)
  | None =>
      if Z.leb (minCandidateMentions options) (totalMentions group)
      then mkTiers (confirmedCharacters acc) (candidates acc ++ [candidateOf group])
      else acc
  end.

(** [(a, b) => b.mentions - a.mentions] *)
Definition byMentionsDesc (a b : Entity) : bool :=
  Z.leb (e_mentions b) (e_mentions a).

(** [tierEntities(cleanGroups, extractionResult, options)]; the possessive
    counts of the extraction result are the section variable. *)
Definition tierEntities (cleanGroups : list EntityGroup) (options : TierOptions)
  : Tiers :=
  let singleWordCounts := buildSingleWordCounts cleanGroups in
  let acc := fold_left (tierStep options singleWordCounts) cleanGroups
               (mkTiers [] []) in
  mkTiers (sortBy byMentionsDesc (confirmedCharacters acc))
          (sortBy byMentionsDesc (candidates acc)).
End Classifier.


End Tier.


(* ===================================================================== *)
(** * Co-reference Merger (llm-coref-merge.js) *)
(* ===================================================================== *)

Module Coref.
Import JS Regex Extract Grouper Tier.

(** ** Calling the provider *)

(** What a call threw, as far as the code looks at it: every [catch] of
    the sources reads [error.message] and formats it into a text.
    - [Messaged message] is an [Error], or any other object or primitive
      value whose message is a plain property: [message] is the text the
      message formats to, [undefined] for a value that has none;
    - [ThrownNull] and [ThrownUndefined] are the two values that have no
      properties at all: reading [error.message] of them throws a
      [TypeError]. A provider can throw them: [Promise.reject()] rejects
      with [undefined]. *)
Inductive thrown : Type :=
| Messaged (message : string)
| ThrownNull
| ThrownUndefined.

(** How a call ends: with a value, or with a thrown value. *)
Inductive outcome (A : Type) : Type :=
| Returned (a : A)
| Thrown (error : thrown).
Arguments Returned {A} a.
Arguments Thrown {A} error.

(** [error.message], formatted: the text, or the [TypeError] that the
    reading throws. *)
Definition readMessage (error : thrown) : outcome string :=
  match error with
  | Messaged message => Returned message
  | ThrownNull =>
      Thrown (Messaged "Cannot read properties of null (reading 'message')")
  | ThrownUndefined =>
      Thrown (Messaged "Cannot read properties of undefined (reading 'message')")
  end.

Record NameCount : Type := mkNameCount { nc_name : string; nc_mentions : Z }.

(** The request handed to the provider; the temperature 0.3 is held in
    tenths. *)
Record Request : Type := mkRequest {
  rq_system : string;
  rq_userMessage : string;
  rq_max_tokens : Z;
  rq_temperatureTenths : Z
}.

Record Usage : Type := mkUsage {
  prompt_tokens : option Z;
  completion_tokens : option Z
}.

Record Response : Type := mkResponse {
  content : string;
  usage : option Usage
}.

Record Tokens : Type := mkTokens { tk_input : Z; tk_output : Z }.

(** One name of a suggested group: a string, or some other JSON value. *)
Inductive MergeName : Type :=
| NameString (s : string)
| NameOther.

(** One element of the [merges] array: an array of names, or some other
    JSON value. *)
Inductive MergeGroup : Type :=
| GroupArray (names : list MergeName)
| GroupOther.

(** What [JSON.parse] makes of the matched text: a syntax error, or an
    object, of which only the [merges] field is read; the field is [None]
    when it is missing or is no array. *)
Inductive Parsed : Type :=
| SyntaxError (message : string)
| ParsedObject (merges : option (list MergeGroup)).

Record LlmResult : Type := mkLlmResult {
  lr_merges : list MergeGroup;
  lr_tokens : Tokens;
  lr_rawResponse : option string
}.

Definition dq : string := String (ascii_of_nat 34) "".
Definition nl : string := String (ascii_of_nat 10) "".

Definition systemPrompt : string :=
  "You are a strict entity resolution assistant for fiction text. You identify when multiple names refer to THE EXACT SAME individual person. Be conservative - only merge when certain.".

Definition userPromptLines (namesList : string) : list string :=
  [ "Identify which names refer to THE SAME INDIVIDUAL person.";
    "Return only merge groups. Skip names that are unique or uncertain.";
    "";
    "Names:";
    namesList;
    "";
    "STRICT RULES - read carefully:";
    "1. ONLY merge names that refer to the EXACT SAME individual person";
    "2. DO NOT merge:";
    "   - Family names with individuals (e.g., " +:+ dq +:+ "Weasleys" +:+ dq +:+ " is the family, not " +:+ dq +:+ "Ron" +:+ dq +:+ ")";
    "   - Pets/creatures with their owners (e.g., " +:+ dq +:+ "Fang" +:+ dq +:+ " is Hagrid's dog, not Hagrid)";
    "   - Different siblings (e.g., Fred, George, Percy are DIFFERENT people)";
    "   - House/group names with members (e.g., " +:+ dq +:+ "Gryffindors" +:+ dq +:+ " is the house, not Hermione)";
    "   - Generic terms like " +:+ dq +:+ "Mum" +:+ dq +:+ ", " +:+ dq +:+ "Dad" +:+ dq +:+ " with specific people";
    "3. DO merge:";
    "   - Title variations: " +:+ dq +:+ "Vernon" +:+ dq +:+ " = " +:+ dq +:+ "Uncle Vernon" +:+ dq +:+ " = " +:+ dq +:+ "Mr Dursley" +:+ dq +:+ " (same person)";
    "   - Name + surname: " +:+ dq +:+ "Neville" +:+ dq +:+ " = " +:+ dq +:+ "Longbottom" +:+ dq +:+ " (same person)";
    "   - Aliases: " +:+ dq +:+ "Voldemort" +:+ dq +:+ " = " +:+ dq +:+ "You-Know-Who" +:+ dq +:+ " (same entity)";
    "";
    "When in doubt, DO NOT merge.";
    "";
    "Respond in JSON only:";
    "{" +:+ dq +:+ "merges" +:+ dq +:+ ": [[" +:+ dq +:+ "name1" +:+ dq +:+ ", " +:+ dq +:+ "name2" +:+ dq +:+ "], [" +:+ dq +:+ "name3" +:+ dq +:+ ", " +:+ dq +:+ "name4" +:+ dq +:+ ", " +:+ dq +:+ "name5" +:+ dq +:+ "]]}" ].

(** The names sorted by mentions, one per line, each with its count in
    brackets. *)
Definition namesListOf (entityNames : list NameCount) : string :=
  String.concat nl
    (map (fun e => nc_name e +:+ " (" +:+ showZ (nc_mentions e) +:+ ")")
       (sortBy (fun a b => Z.leb (nc_mentions b) (nc_mentions a)) entityNames)).

Definition requestOf (entityNames : list NameCount) : Request :=
  mkRequest systemPrompt
    (String.concat nl (userPromptLines (namesListOf entityNames))) 1024 3.

(** The match of the response against an opening brace, anything, and a
    closing brace, greedy: the text from the first opening brace to the
    last closing brace, when there is one after it. *)
Fixpoint fromFirstBrace (s : list ascii) : option (list ascii) :=
  match s with
  | [] => None
  | c :: s' => if Ascii.eqb c "{"%char then Some s else fromFirstBrace s'
  end.

Definition jsonMatch (content : string) : option string :=
  match fromFirstBrace (chars content) with
  | Some (brace :: rest) =>
      match dropWhileNot (Ascii.eqb "}"%char) (rev rest) with
      | [] => None
      | closing => Some (str (brace :: rev closing))
      end
  | _ => None
  end.

Section Provider.
Variable llmProvider : Request -> outcome Response.
Variable JSON_parse : string -> Parsed.
Variable verbose : bool.

(** The [try] block of [llmCorefMerge]: the call of the provider and the
    reading of its answer. *)
Definition callProvider (entityNames : list NameCount) : outcome LlmResult :=
  match llmProvider (requestOf entityNames) with
  | Thrown error => Thrown error
  | Returned result =>
      let tokens :=
        mkTokens (orElse (u ← usage result; prompt_tokens u) 0)
                 (orElse (u ← usage result; completion_tokens u) 0) in
      match jsonMatch (content result) with
      | None => Thrown (Messaged "No JSON found in LLM response")
      | Some text =>
          match JSON_parse text with
          | SyntaxError message => Thrown (Messaged message)
          | ParsedObject None =>
              Thrown
                (Messaged "Invalid response structure: missing merges array")
          | ParsedObject (Some merges) =>
              Returned (mkLlmResult merges tokens (Some (content result)))
          end
      end
  end.

(** Its [catch] block:
    [if (verbose) console.error(..., error.message); throw error]. With
    [verbose] on, the message is read, and a value without properties makes
    that reading throw in its place. *)
Definition rethrow (error : thrown) : thrown :=
  if verbose
  then match readMessage error with
       | Returned _ => error
       | Thrown typeError => typeError
       end
  else error.

(** [llmCorefMerge(entityNames, options)] *)
Definition llmCorefMerge (entityNames : list NameCount) : outcome LlmResult :=
  match entityNames with
  | [] => Returned (mkLlmResult [] (mkTokens 0 0) None)
  | _ =>
      match callProvider entityNames with
      | Returned result => Returned result
      | Thrown error => Thrown (rethrow error)
      end
  end.
End Provider.

(** ** Applying the merges

    The entity records are objects that [applyMerges] changes in place.
    Every object the function can reach sits in [entityMap] under its
    canonical name, which never changes; the store [objects] therefore
    keeps the objects by that name, and keeps them after
    [entityMap.delete], when a merge group may still hold the reference.
    [live] lists the keys of [entityMap] in insertion order. *)

Record AppliedMerge : Type := mkAppliedMerge {
  am_primary : string;
  am_merged : list string;
  am_newMentionCount : Z
}.

Record SkippedMerge : Type := mkSkippedMerge {
  sm_group : MergeGroup;
  sm_reason : string
}.

Record MergeState : Type := mkMergeState {
  objects : list (string * Entity);
  live : list string;
  appliedMerges : list AppliedMerge;
  skippedMerges : list SkippedMerge
}.

(** [entityMap.set(entity.canonicalName, entity)] for every entity. *)
Definition initialState (entities : list Entity) : MergeState :=
  let objects :=
    fold_left (fun m e => omap_set (e_canonicalName e) e m) entities [] in
  mkMergeState objects (map fst objects) [] [].

(** [group.map(name => entityMap.get(name)).filter(Boolean)]: the
    references found, each with the record as it is now. *)
Definition resolveName (st : MergeState) (name : MergeName)
  : option (string * Entity) :=
  match name with
  | NameString s =>
      if inList s (live st)
      then e ← omap_get s (objects st); Some (s, e)
      else None
  | NameOther => None
  end.

Definition resolveGroup (st : MergeState) (names : list MergeName)
  : list (string * Entity) :=
  omap (resolveName st) names.

(** [(a, b) => b.mentions - a.mentions] on the resolved records. *)
Definition byResolvedMentionsDesc (a b : string * Entity) : bool :=
  Z.leb (e_mentions (snd b)) (e_mentions (snd a)).

(** The comparison [a < b] of two objects: both operands are first turned
    into primitives, and a plain object turns into the same text whatever
    its fields; the texts are then compared. *)
Definition toPrimitive (a : FirstAppearance) : string := "[object Object]".

Definition jsLessThan (a b : FirstAppearance) : bool :=
  String.ltb (toPrimitive a) (toPrimitive b).

(** One turn of the first loop over [others], but for the deletion from
    the map: variants, canonical name as a variant, mentions, provenance. *)
Definition absorb (objs : list (string * Entity)) (primary other : string)
  : list (string * Entity) :=
  match omap_get primary objs, omap_get other objs with
  | Some p, Some o =>
      let variants := e_variants p ++ e_variants o in
      let variants :=
        if existsb (fun v => String.eqb (form v) (e_canonicalName o)) variants
        then variants
        else variants ++ [plain (e_canonicalName o) (e_mentions o)] in
      omap_set primary
        (mkEntity (e_id p) (e_canonicalName p) (e_mentions p + e_mentions o)
           variants (e_qualifiedBy p) (e_sentenceStartRatio p) (e_notes p)
           (e_firstAppearance p) (e_mergedFrom p ++ [e_canonicalName o]))
        objs
  | _, _ => objs
  end.

(** One turn of the first loop over [others], with the deletion from the
    map: the store and the live keys. *)
Definition absorbStep (primary : string)
  (acc : list (string * Entity) * list string) (other : string)
  : list (string * Entity) * list string :=
  (absorb (fst acc) primary other,
   List.filter (fun k => negb (String.eqb k other)) (snd acc)).

(** One turn of the second loop over [others]. *)
Definition adoptFirstAppearance (objs : list (string * Entity))
  (primary other : string) : list (string * Entity) :=
  match omap_get primary objs, omap_get other objs with
  | Some p, Some o =>
      match e_firstAppearance o with
      | Some theirs =>
          if match e_firstAppearance p with
             | None => true
             | Some ours => jsLessThan theirs ours
             end
          then omap_set primary
                 (mkEntity (e_id p) (e_canonicalName p) (e_mentions p)
                    (e_variants p) (e_qualifiedBy p) (e_sentenceStartRatio p)
                    (e_notes p) (Some theirs) (e_mergedFrom p))
                 objs
          else objs
      | None => objs
      end
  | _, _ => objs
  end.

Definition nameOf (objs : list (string * Entity)) (ref : string) : string :=
  match omap_get ref objs with
  | Some e => e_canonicalName e
  | None => ref
  end.

Definition mentionsOf (objs : list (string * Entity)) (ref : string) : Z :=
  match omap_get ref objs with
  | Some e => e_mentions e
  | None => 0
  end.

(** The body of the loop over the merge groups. *)
Definition applyGroup (st : MergeState) (group : MergeGroup) : MergeState :=
  match group with
  | GroupOther =>
      mkMergeState (objects st) (live st) (appliedMerges st)
        (skippedMerges st ++ [mkSkippedMerge group "Invalid group structure"])
  | GroupArray names =>
      if Nat.ltb (length names) 2
      then mkMergeState (objects st) (live st) (appliedMerges st)
             (skippedMerges st ++ [mkSkippedMerge group "Invalid group structure"])
      else
        let groupEntities := resolveGroup st names in
        if Nat.ltb (length groupEntities) 2
        then mkMergeState (objects st) (live st) (appliedMerges st)
               (skippedMerges st ++
                  [mkSkippedMerge group
                     ("Only " +:+ showNat (length groupEntities) +:+ " of "
                      +:+ showNat (length names)
                      +:+ " names found in entities")])
        else
          match map fst (sortBy byResolvedMentionsDesc groupEntities) with
          | [] => st
          | primary :: others =>
              let '(objs, alive) :=
                fold_left (absorbStep primary) others (objects st, live st) in
              let objs :=
                fold_left (fun objs other => adoptFirstAppearance objs primary other)
                  others objs in
              mkMergeState objs alive
                (appliedMerges st ++
                   [mkAppliedMerge (nameOf objs primary)
                      (map (nameOf objs) others) (mentionsOf objs primary)])
                (skippedMerges st)
          end
  end.

Record MergeResult : Type := mkMergeResult {
  mr_entities : list Entity;
  mr_appliedMerges : list AppliedMerge;
  mr_skippedMerges : list SkippedMerge
}.

(** [applyMerges(entities, merges)] *)
Definition applyMerges (entities : list Entity) (merges : list MergeGroup)
  : MergeResult :=
  let st := fold_left applyGroup merges (initialState entities) in
  let remainingEntities := omap (fun k => omap_get k (objects st)) (live st) in
  mkMergeResult (sortBy byMentionsDesc remainingEntities)
    (appliedMerges st) (skippedMerges st).

(** ** The whole step *)

Record CorefStats : Type := mkCorefStats {
  cs_error : option string;
  cs_groupsIdentified : Z;
  cs_entitiesMerged : Z;
  cs_appliedMerges : list AppliedMerge;
  cs_skippedMerges : list SkippedMerge;
  cs_llmTokensUsed : option Tokens
}.

Record Debug : Type := mkDebug {
  dbg_prompt : string;
  dbg_rawResponse : option string;
  dbg_parsedMerges : list MergeGroup
}.

Record CorefResolution : Type := mkCorefResolution {
  cr_confirmedCharacters : list Entity;
  cr_candidates : list Entity;
  cr_corefStats : CorefStats;
  cr_debug : option Debug
}.

(** The names and counts sent to the provider. *)
Definition allEntityNamesOf (confirmedCharacters candidates : list Entity)
  : list NameCount :=
  map (fun e => mkNameCount (e_canonicalName e) (e_mentions e)) confirmedCharacters
  ++ map (fun e => mkNameCount (e_canonicalName e) (e_mentions e)) candidates.

Section Resolution.
Variable llmProvider : Request -> outcome Response.
Variable JSON_parse : string -> Parsed.
Variable verbose : bool.

(** [runCorefResolution(confirmedCharacters, candidates, options)]; the
    [catch] block reads [error.message] first of all, for the console. *)
Definition runCorefResolution (confirmedCharacters candidates : list Entity)
  : outcome CorefResolution :=
  let allEntityNames := allEntityNamesOf confirmedCharacters candidates in
  match llmCorefMerge llmProvider JSON_parse verbose allEntityNames with
  | Thrown error =>
      match readMessage error with
      | Thrown typeError => Thrown typeError
      | Returned message =>
          Returned
            (mkCorefResolution confirmedCharacters candidates
               (mkCorefStats (Some ("LLM call failed: " +:+ message)) 0 0 [] []
                  None)
               None)
      end
  | Returned corefResult =>
      let allEntities := confirmedCharacters ++ candidates in
      let confirmedIds := map e_id confirmedCharacters in
      let mergeResult := applyMerges allEntities (lr_merges corefResult) in
      let wasConfirmed (entity : Entity) : bool :=
        inList (e_id entity) confirmedIds
        || existsb
             (fun name =>
                match find (fun e => String.eqb (e_canonicalName e) name)
                        allEntities with
                | Some original => inList (e_id original) confirmedIds
                | None => false
                end)
             (e_mergedFrom entity) in
      Returned
        (mkCorefResolution
           (List.filter wasConfirmed (mr_entities mergeResult))
           (List.filter (fun e => negb (wasConfirmed e)) (mr_entities mergeResult))
           (mkCorefStats None
              (Z.of_nat (length (lr_merges corefResult)))
              (fold_left (fun sum m => sum + Z.of_nat (length (am_merged m)))
                 (mr_appliedMerges mergeResult) 0)
              (mr_appliedMerges mergeResult) (mr_skippedMerges mergeResult)
              (Some (lr_tokens corefResult)))
           (Some (mkDebug
                    ("[" +:+ showNat (length allEntityNames)
                     +:+ " entities sent to LLM]")
                    (lr_rawResponse corefResult) (lr_merges corefResult))))
  end.
End Resolution.





(** The sum of the mention counts of resolved records. *)
Definition sumMentions (l : list (string * Entity)) : Z :=
  fold_right (fun x acc => e_mentions (snd x) + acc) 0 l.

(** The scenario of the specification. *)
Definition entityOf (name : string) (mentions : Z) (fa : FirstAppearance)
  : Entity :=
  mkEntity (generateEntityId name) name mentions [plain name mentions] None None
    None (Some fa) [].

Definition vernonEntities : list Entity :=
  [ entityOf "Vernon" 50 (mkFirstAppearance 3 2 None);
    entityOf "Uncle Vernon" 10 (mkFirstAppearance 1 0 None);
    entityOf "Mr Dursley" 5 (mkFirstAppearance 1 4 None) ].


(** A provider whose promise is rejected without a reason. *)
Definition rejectingProvider (request : Request) : outcome Response :=
  Thrown ThrownUndefined.

Definition noParse (text : string) : Parsed := SyntaxError "Unexpected token".

Definition vernonGroup : MergeGroup :=
  GroupArray [NameString "Vernon"; NameString "Uncle Vernon"; NameString "Mr Dursley"].




End Coref.


(* ===================================================================== *)
(** * Snippet Deduplicator (dedupe-snippets.js) *)
(* ===================================================================== *)

Module Dedupe.
Import JS Regex Extract Snippets.

(** ** Text *)

Definition nul : ascii := ascii_of_nat 0.

Definition abbreviations : list string :=
  ["Mr"; "Mrs"; "Ms"; "Dr"; "Prof"; "Sr"; "Jr"; "St"; "vs"; "etc"; "e.g"; "i.e"].

(** [match.replace('.', NUL)]: the first full stop of the matched text. *)
Fixpoint replaceFirstDot (l : list ascii) : list ascii :=
  match l with
  | [] => []
  | c :: l' => if Ascii.eqb c "."%char then nul :: l' else c :: replaceFirstDot l'
  end.

(** [text.replace(abbrevs, ...)] with the flags [gi]: every abbreviation
    followed by a full stop, found left to right. [skip] counts the
    characters of the match still to pass. *)
Fixpoint protectGo (skip : nat) (prev : option ascii) (s : list ascii)
  : list ascii :=
  match s with
  | [] => []
  | c :: s' =>
      match skip with
      | S n => protectGo n (Some c) s'
      | O =>
          match matchAt true [Alt abbreviations; Lit "."] prev s with
          | Some rest =>
              let used := (length s - length rest)%nat in
              replaceFirstDot (firstn used s) ++ protectGo (used - 1) (Some c) s'
          | None => c :: protectGo O (Some c) s'
          end
      end
  end.

Definition isTerminal (c : ascii) : bool :=
  Ascii.eqb c "."%char || Ascii.eqb c "!"%char || Ascii.eqb c "?"%char.

(** The split at every run of white space that follows a full stop, an
    exclamation mark or a question mark. *)
Fixpoint splitAfterTerminal (cur : list ascii) (prev : option ascii)
  (inSep : bool) (s : list ascii) : list (list ascii) :=
  match s with
  | [] => [rev cur]
  | c :: s' =>
      if isSpace c
      then if inSep then splitAfterTerminal cur (Some c) true s'
           else if match prev with Some p => isTerminal p | None => false end
           then rev cur :: splitAfterTerminal [] (Some c) true s'
           else splitAfterTerminal (c :: cur) (Some c) false s'
      else splitAfterTerminal (c :: cur) (Some c) false s'
  end.

(** [splitIntoSentences] *)
Definition splitIntoSentences (text : string) : list string :=
  if String.eqb (trim text) "" then []
  else
    let protected := protectGo O None (chars text) in
    List.filter (fun s => negb (String.eqb s ""))
      (map (fun piece =>
              trim (str (map (fun c => if Ascii.eqb c nul then "."%char else c)
                           piece)))
         (splitAfterTerminal [] None false protected)).

(** Keep the first occurrence of every element. *)
Fixpoint uniqFrom (seen : list string) (l : list string) : list string :=
  match l with
  | [] => []
  | x :: l' =>
      if inList x seen then uniqFrom seen l' else x :: uniqFrom (x :: seen) l'
  end.

(** [combineText(...texts)] *)
Definition combineText (texts : list string) : string :=
  let nonEmpty := List.filter (fun t => negb (String.eqb (trim t) "")) texts in
  joinSp (uniqFrom [] (flat_map splitIntoSentences nonEmpty)).

(** ** Snippets *)

Definition startOf (s : Snippet) : Z :=
  match sentence (location s) with
  | SentenceIndex i => i
  | SentenceRange first _ => first
  end.

Definition endOf (s : Snippet) : Z :=
  match sentence (location s) with
  | SentenceIndex i => i
  | SentenceRange _ last => last
  end.

(** [mergeSnippets(a, b)] *)
Definition mergeSnippets (a b : Snippet) : Snippet :=
  mkSnippet (id a) (book a) (chapter a) (chapterTitle a)
    (mkLocation (paragraphIndex (location a)) (SentenceRange (startOf a) (endOf b)))
    (mkSnippetText (before (text a))
       (combineText [matched (text a); after (text a); before (text b);
                     matched (text b)])
       (after (text b)))
    (uniqFrom [] (entities a ++ entities b))
    (mentions a ++ mentions b).

(** The grouping key, chapter and paragraph joined by an underscore. *)
Definition keyOf (s : Snippet) : string :=
  showZ (chapter s) +:+ "_" +:+ showZ (paragraphIndex (location s)).

(** One turn of the loop of [groupBy]:
    [if (!groups[key]) groups[key] = []; groups[key].push(item)]. *)
Definition groupStep {A : Type} (keyFn : A -> string)
  (groups : list (string * list A)) (item : A)
  : list (string * list A) :=
  omap_set (keyFn item) (default [] (omap_get (keyFn item) groups) ++ [item])
    groups.

(** [groupBy(items, keyFn)]; the keys are no array indices, so the groups
    come out in the order their keys first appeared. *)
Definition groupBy {A : Type} (keyFn : A -> string) (items : list A)
  : list (string * list A) :=
  fold_left (groupStep keyFn) items [].

(** The loop over one sorted group. *)
Fixpoint mergeAdjacent (current : Snippet) (rest : list Snippet) : list Snippet :=
  match rest with
  | [] => [current]
  | next :: rest' =>
      let gap := startOf next - endOf current in
      if Z.leb gap 2 then mergeAdjacent (mergeSnippets current next) rest'
      else current :: mergeAdjacent next rest'
  end.

Definition byStart (a b : Snippet) : bool := Z.leb (startOf a) (startOf b).

Definition dedupeGroup (group : list Snippet) : list Snippet :=
  match sortBy byStart group with
  | [] => []
  | first :: rest => mergeAdjacent first rest
  end.

(** The comparator of the final sort: chapter, paragraph, first sentence. *)
Definition documentOrder (a b : Snippet) : bool :=
  if negb (Z.eqb (chapter a) (chapter b)) then Z.leb (chapter a) (chapter b)
  else if negb (Z.eqb (paragraphIndex (location a)) (paragraphIndex (location b)))
  then Z.leb (paragraphIndex (location a)) (paragraphIndex (location b))
  else Z.leb (startOf a) (startOf b).

(** [String(i).padStart(4, '0')] behind the prefix. *)
Definition snippetId (i : nat) : string :=
  let digits := showNat i in
  "s_" +:+ str (repeat "0"%char (4 - String.length digits)) +:+ digits.

Definition withId (s : Snippet) (newId : string) : Snippet :=
  mkSnippet newId (book s) (chapter s) (chapterTitle s) (location s) (text s)
    (entities s) (mentions s).

(** [list.map((s, i) => ({...s, id}))] *)
Definition renumber (l : list Snippet) : list Snippet :=
  imap (fun i s => withId s (snippetId i)) l.

(** [dedupeSnippets(snippets)] *)
Definition dedupeSnippets (snippets : list Snippet) : list Snippet :=
  match snippets with
  | [] => []
  | _ =>
      let groups := groupBy keyOf snippets in
      let deduped := flat_map (fun g => dedupeGroup (snd g)) groups in
      renumber (sortBy documentOrder deduped)
  end.

(** ** Already de-duplicated lists, in the words of the specification *)

(** The snippets of one chapter and paragraph, in input order. *)
Definition paragraphGroup (c p : Z) (l : list Snippet) : list Snippet :=
  List.filter
    (fun s => Z.eqb (chapter s) c && Z.eqb (paragraphIndex (location s)) p) l.

(** Every two consecutive snippets are more than two sentences apart. *)
Fixpoint gapsOver2 (l : list Snippet) : Prop :=
  match l with
  | a :: (b :: _) as rest => 2 < startOf b - endOf a /\ gapsOver2 rest
  | _ => True
  end.

Definition alreadyDeduplicated (l : list Snippet) : Prop :=
  forall c p, gapsOver2 (sortBy byStart (paragraphGroup c p l)).

(** Three raw snippets, two of them in one paragraph, five sentences
    apart. *)
Definition farApartSnippets : list Snippet :=
  [ mkSnippet "s_0007" 1 2 "The Vanishing Glass" (mkLocation 4 (SentenceIndex 6))
      (mkSnippetText "It was late." "Harry woke up." "The sun was up.")
      ["harry"] [mkMentionRecord "harry" "Harry" "match"];
    mkSnippet "s_0003" 1 2 "The Vanishing Glass" (mkLocation 4 (SentenceIndex 1))
      (mkSnippetText "" "Dudley yelled." "Nobody came.")
      ["dudley"] [mkMentionRecord "dudley" "Dudley" "match"];
    mkSnippet "s_0001" 1 1 "The Boy Who Lived" (mkLocation 0 (SentenceIndex 0))
      (mkSnippetText "" "Petunia sighed." "")
      ["petunia"] [mkMentionRecord "petunia" "Petunia" "match"] ].

Definition underscore : ascii := "_"%char.

End Dedupe.


(* ===================================================================== *)
(** * What the extractor records, read off the mention list *)
(* ===================================================================== *)

Module ExtractSpec.
Import JS Extract.

(** The mentions of one normalized form, in document order. *)
Definition mentionsOfForm (k : string) (ms : list Mention) : list Mention :=
  List.filter (fun m => String.eqb (m_normalized m) k) ms.

(** An entry of a dictionary of counts: absent when nothing was counted. *)
Definition countEntry (n : nat) : option Z :=
  match n with O => None | S _ => Some (Z.of_nat n) end.

(** The aggregate maps, read off the mention list form by form. *)
Definition countsAgree (st : ExtractState) : Prop :=
  forall k,
    st_mentionCounts st !! k
    = countEntry (length (mentionsOfForm k (st_mentions st))) /\
    st_possessiveCounts st !! k
    = countEntry (length (List.filter m_isPossessive
                            (mentionsOfForm k (st_mentions st)))) /\
    st_sentenceStartCounts st !! k
    = countEntry (length (List.filter m_isAtSentenceStart
                            (mentionsOfForm k (st_mentions st)))) /\
    st_firstAppearances st !! k
    = (m ← head (mentionsOfForm k (st_mentions st));
       Some (mkFirstAppearance (m_chapter m) (m_paragraph m) (Some (m_form m)))).

(** Position [(c1, p1)] is not after [(c2, p2)]: chapters first, then
    paragraphs. *)
Definition notAfter (c1 p1 c2 p2 : Z) : Prop :=
  c1 < c2 \/ (c1 = c2 /\ p1 <= p2).

(** Document order on mentions: by line, and by chapter and paragraph. *)
Definition inDocumentOrder (a b : Mention) : Prop :=
  m_line a <= m_line b /\
  notAfter (m_chapter a) (m_paragraph a) (m_chapter b) (m_paragraph b).

(** The loop invariant of the document loop once [lineBound] lines are
    read. *)
Definition ordered (lineBound : Z) (st : ExtractState) : Prop :=
  0 <= st_currentChapter st /\ 0 <= st_paragraphIndex st /\
  Forall (fun m =>
            1 <= m_line m <= lineBound /\ 0 <= m_chapter m /\ 0 <= m_paragraph m /\
            notAfter (m_chapter m) (m_paragraph m)
              (st_currentChapter st) (st_paragraphIndex st))
    (st_mentions st) /\
  StronglySorted inDocumentOrder (st_mentions st).

(** The shape of an extracted name. *)
Definition wellFormedName (chapterStartPatterns : list string)
  (form normalized : string) (isPossessive hasTitle : bool)
  (titleType : option string) : Prop :=
  isCapitalized form = true /\
  isCapitalized normalized = true /\
  (2 <= String.length normalized)%nat /\
  normalized = stripFinalDot (stripPossessive form) /\
  inList (toLowerCase normalized) (chapterPatterns chapterStartPatterns) = false /\
  isPossessive = includes form "'s" /\
  (hasTitle = true <-> titleType <> None).

(** The first component pushed by the untitled branch of
    [extractProperNounSequence] is capitalized; [comps] is in reverse. *)
Definition firstCapitalized (comps : list string) : Prop :=
  match rev comps with
  | [] => True
  | c :: _ => isCapitalized c = true
  end.

Definition mentionShape (chapterStartPatterns : list string) (m : Mention)
  : Prop :=
  wellFormedName chapterStartPatterns (m_form m) (m_normalized m)
    (m_isPossessive m) (m_hasTitle m) (m_titleType m).

End ExtractSpec.


(* ===================================================================== *)
(** * What the grouper returns *)
(* ===================================================================== *)

Module GrouperSpec.
Import JS Extract Grouper.

(** No key of the dictionary ends in an apostrophe and s. *)
Definition plainKeys (mentionCounts : gmap string Z) : bool :=
  forallb (fun kv => negb (endsWith (fst kv) "'s")) (map_to_list mentionCounts).

(** The state of the search for the earliest appearance, after the variants
    [seen]: nothing yet when none of them has a recorded appearance, else the
    recorded appearance of one of them, than which none is earlier. *)
Definition earliestAmong (firstAppearances : gmap string FirstAppearance)
  (seen : list Variant) (earliest : option FirstAppearance) : Prop :=
  match earliest with
  | None => forall v, In v seen -> firstAppearances !! form v = None
  | Some e =>
      (exists v, In v seen /\ firstAppearances !! form v = Some e) /\
      forall v a, In v seen -> firstAppearances !! form v = Some a ->
                  earlier a e = false
  end.

(** An id in normal form: letters, digits and single underscores. [afterSep]
    says that the character before was an underscore. *)
Fixpoint canonicalId (afterSep : bool) (l : list ascii) : bool :=
  match l with
  | [] => true
  | c :: l' =>
      if isIdChar c then canonicalId false l'
      else Ascii.eqb c "_"%char && negb afterSep && canonicalId true l'
  end.

(** Two short chapters with a full name, its parts, a possessive and a
    titled form. *)
Definition potterText : string :=
  String.concat Coref.nl
    [ "## CHAPTER ONE: Owls"; "";
      "we saw Potter, then Potter, then Potter.";
      "";
      "we saw Harry Potter and Harry Potter and Harry Potter.";
      "## CHAPTER TWO: Cats"; "";
      "we saw Harry, then Harry, then Harry's cat, then Mr Potter." ].

Definition potterExtraction : ExtractionResult :=
  extractProperNouns [] [] [("Mr", None)] potterText.

End GrouperSpec.


(* ===================================================================== *)
(** * What the junk filter returns *)
(* ===================================================================== *)

Module FilterSpec.
Import JS Extract Grouper Filter.

(** A clean group is an input group with its sentence-start ratio set. *)
Definition sameButRatio (c g : EntityGroup) : Prop :=
  canonicalName c = canonicalName g /\ variants c = variants g /\
  evidence c = evidence g /\ firstAppearance c = firstAppearance g /\
  totalMentions c = totalMentions g /\ sentenceStartRatio c <> None.

(** The groups with a two-word name whose first word is [w]. *)
Definition twoWordGroupsWith (w : string) (groups : list EntityGroup)
  : list EntityGroup :=
  List.filter
    (fun g =>
       let words := splitWs (canonicalName g) in
       Nat.eqb (length words) 2 && String.eqb (nth 0 words "") w)
    groups.

(** Four two-word names with one first word, and a one-word name. *)
Definition theGroups : list EntityGroup :=
  map (fun name =>
         mkEntityGroup name [plain name 4] (SingleNameEvidence false)
           (mkFirstAppearance 1 0 None) 4 None)
    ["The Boy"; "The Cat"; "The Owl"; "The End"; "Hagrid"].

End FilterSpec.


(* ===================================================================== *)
(** * What the tier classifier returns *)
(* ===================================================================== *)

Module TierSpec.
Import JS Extract Grouper Tier.

(** The entity made from a group: its name, total and simplified variants,
    and the id generated from the name. *)
Definition madeFrom (e : Entity) (g : EntityGroup) : Prop :=
  e_canonicalName e = canonicalName g /\ e_mentions e = totalMentions g /\
  e_id e = generateEntityId (canonicalName g) /\
  e_variants e = simpleVariants (variants g) /\
  e_firstAppearance e = Some (firstAppearance g) /\ e_mergedFrom e = [].

End TierSpec.


(* ===================================================================== *)
(** * What the merger returns *)
(* ===================================================================== *)

Module CorefSpec.
Import JS Extract Grouper Tier Coref.

(** The mentions of a list of entities, added up. *)
Definition totalOf (l : list Entity) : Z :=
  fold_right (fun e acc => e_mentions e + acc) 0 l.

(** The names of a suggested group that are strings. *)
Definition nameStrings (names : list MergeName) : list string :=
  omap (fun n => match n with NameString s => Some s | NameOther => None end)
    names.

(** A group that names no entity twice. *)
Definition distinctNames (g : MergeGroup) : Prop :=
  match g with
  | GroupArray names => NoDup (nameStrings names)
  | GroupOther => True
  end.

(** How many names of a group are canonical names of the entities. *)
Definition namesFound (entities : list Entity) (g : MergeGroup) : nat :=
  match g with
  | GroupArray names =>
      length (List.filter
                (fun s => inList s (map e_canonicalName entities))
                (nameStrings names))
  | GroupOther => O
  end.

(** The entities absorbed by the merges applied. *)
Definition mergedCount (applied : list AppliedMerge) : nat :=
  fold_right (fun m acc => (length (am_merged m) + acc)%nat) O applied.

(** The sum of [f] over a list of keys. *)
Definition sumBy (f : string -> Z) (l : list string) : Z :=
  fold_right (fun k acc => f k + acc) 0 l.

(** The live keys are distinct and each holds a record. *)
Definition liveOk (st : MergeState) : Prop :=
  NoDup (live st) /\
  forall k, In k (live st) -> exists e, omap_get k (objects st) = Some e.

Definition liveTotal (st : MergeState) : Z :=
  sumBy (mentionsOf (objects st)) (live st).

(** Two suggested groups on the Vernon scenario: one that merges, one that
    names a single known entity. *)
Definition vernonMerges : list MergeGroup :=
  [ vernonGroup; GroupArray [NameString "Vernon"; NameString "Petunia"] ].

(** A provider that answers with an object, and a parser that reads the
    Vernon group in it. *)
Definition answeringProvider (request : Request) : outcome Response :=
  Returned (mkResponse "Here you are: {} " (Some (mkUsage (Some 120) (Some 30)))).

Definition vernonParse (text : string) : Parsed :=
  ParsedObject (Some [vernonGroup]).

(** Uncle Vernon is confirmed; Vernon and Mr Dursley are candidates. *)
Definition vernonConfirmed : list Entity :=
  [ entityOf "Uncle Vernon" 10 (mkFirstAppearance 1 0 None) ].

Definition vernonCandidates : list Entity :=
  [ entityOf "Vernon" 50 (mkFirstAppearance 3 2 None);
    entityOf "Mr Dursley" 5 (mkFirstAppearance 1 4 None) ].

End CorefSpec.


(* ===================================================================== *)
(** * What the deduplicator returns *)
(* ===================================================================== *)

Module DedupeSpec.
Import JS Extract Snippets Dedupe.

(** Two snippets at the same place: same chapter and same location. *)
Definition samePlace (a b : Snippet) : Prop :=
  chapter a = chapter b /\ location a = location b.

(** A snippet of chapter [c], paragraph [p], and the grouping key of that
    paragraph. *)
Definition inParagraph (c p : Z) (s : Snippet) : Prop :=
  chapter s = c /\ paragraphIndex (location s) = p.

Definition paragraphKey (c p : Z) : string := showZ c +:+ "_" +:+ showZ p.

(** The number a padded id stands for. *)
Definition idNumber (suffix : string) : option nat :=
  option_map Nat.of_uint (NilEmpty.uint_of_string suffix).

(** The id given out at position [i]: the prefix, then at least four
    digits that read as the number [i]. *)
Definition idOfPosition (i : nat) (snippetId : string) : Prop :=
  exists digits,
    snippetId = "s_" +:+ digits /\ idNumber digits = Some i /\
    (4 <= String.length digits)%nat.

(** Two snippets that differ in nothing but their ids. *)
Definition sameButId (a b : Snippet) : Prop :=
  book a = book b /\ chapter a = chapter b /\ chapterTitle a = chapterTitle b /\
  location a = location b /\ text a = text b /\ entities a = entities b /\
  mentions a = mentions b.

(** Document order, written out: [a] is not after [b] by chapter, then by
    paragraph, then by first sentence. *)
Definition notAfterInDocument (a b : Snippet) : Prop :=
  chapter a < chapter b \/
  (chapter a = chapter b /\
   (paragraphIndex (location a) < paragraphIndex (location b) \/
    (paragraphIndex (location a) = paragraphIndex (location b) /\
     startOf a <= startOf b))).

(** Four raw snippets of one paragraph: the first three are close enough to
    merge, the last one is far away. *)
Definition overlappingSnippets : list Snippet :=
  [ mkSnippet "s_0000" 1 1 "The Boy Who Lived" (mkLocation 2 (SentenceIndex 0))
      (mkSnippetText "" "Harry woke." "Ron slept.")
      ["harry"; "ron"]
      [mkMentionRecord "harry" "Harry" "match"; mkMentionRecord "ron" "Ron" "after"];
    mkSnippet "s_0001" 1 1 "The Boy Who Lived" (mkLocation 2 (SentenceIndex 1))
      (mkSnippetText "Harry woke." "Ron slept." "It rained.")
      ["harry"; "ron"]
      [mkMentionRecord "harry" "Harry" "before"; mkMentionRecord "ron" "Ron" "match"];
    mkSnippet "s_0002" 1 1 "The Boy Who Lived" (mkLocation 2 (SentenceIndex 3))
      (mkSnippetText "It rained." "Hermione read." "")
      ["hermione"] [mkMentionRecord "hermione" "Hermione" "match"];
    mkSnippet "s_0003" 1 1 "The Boy Who Lived" (mkLocation 2 (SentenceIndex 9))
      (mkSnippetText "It snowed." "Ron woke." "")
      ["ron"] [mkMentionRecord "ron" "Ron" "match"] ].

End DedupeSpec.


(* ===================================================================== *)
(** * Index Builder: the entity and chapter indices (build-indices.js)

    The entity index is a plain object keyed by entity ids, and an id can
    be a name that every plain object inherits, such as [constructor]: the
    lookup [index[id]] then finds the inherited value, which is truthy and
    has no [push] method, so the call of [push] throws a [TypeError]. *)
(* ===================================================================== *)

Module IndexBuilder.
Import JS Snippets Indices.

(** The property names of [Object.prototype]: eleven hold a function,
    [__proto__] reads as the prototype object itself. *)
Definition inheritedNames : list string :=
  ["constructor"; "__defineGetter__"; "__defineSetter__"; "hasOwnProperty";
   "__lookupGetter__"; "__lookupSetter__"; "isPrototypeOf";
   "propertyIsEnumerable"; "toString"; "valueOf"; "__proto__";
   "toLocaleString"].

Definition inherited (k : string) : bool :=
  existsb (String.eqb k) inheritedNames.

(** A [for ... of] loop over [items] whose body can throw: the first error
    ends the loop. *)
Fixpoint forEach {A S : Type} (body : S -> A -> Coref.outcome S)
  (items : list A) (st : S) : Coref.outcome S :=
  match items with
  | [] => Coref.Returned st
  | x :: rest =>
      match body st x with
      | Coref.Returned st' => forEach body rest st'
      | Coref.Thrown error => Coref.Thrown error
      end
  end.

(** [if (!index[entityId]) index[entityId] = [];
     index[entityId].push(snippet.id)] *)
Definition pushEntity (snippetId : string) (index : gmap string (list string))
  (entityId : string) : Coref.outcome (gmap string (list string)) :=
  match index !! entityId with
  | Some ids => Coref.Returned (<[entityId := ids ++ [snippetId]]> index)
  | None =>
      if inherited entityId
      then Coref.Thrown
             (Coref.Messaged "index[entityId].push is not a function")
      else Coref.Returned (<[entityId := [snippetId]]> index)
  end.

(** The inner loop, over the entities of one snippet. *)
Definition addEntities (index : gmap string (list string)) (s : Snippet)
  : Coref.outcome (gmap string (list string)) :=
  forEach (pushEntity (id s)) (entities s) index.

(** [buildEntityIndex(snippets)] *)
Definition buildEntityIndex (snippets : list Snippet)
  : Coref.outcome (gmap string (list string)) :=
  match forEach addEntities snippets ∅ with
  | Coref.Returned index => Coref.Returned (sortBy String.leb <$> index)
  | Coref.Thrown error => Coref.Thrown error
  end.

(** The body of the loop of [buildChapterIndex]; the property name of a
    chapter number is its numeral, one for each integer. *)
Definition addChapter (index : gmap Z (list string)) (s : Snippet)
  : gmap Z (list string) :=
  <[chapter s := default [] (index !! chapter s) ++ [id s]]> index.

(** [buildChapterIndex(snippets)] *)
Definition buildChapterIndex (snippets : list Snippet) : gmap Z (list string) :=
  fold_left addChapter snippets ∅.

(** An element of the list [getTopCooccurrences] returns. *)
Record PairCount : Type := mkPairCount {
  pc_pair : string;
  pc_count : Z;
  pc_snippets : list string
}.

(** [([pair, snippets]) => ({ pair, count: snippets.length, snippets })] *)
Definition pairCountOf (e : string * list string) : PairCount :=
  mkPairCount (fst e) (Z.of_nat (length (snd e))) (snd e).

(** [(a, b) => b.count - a.count] *)
Definition byCountDesc (a b : PairCount) : bool :=
  Z.leb (pc_count b - pc_count a) 0.

(** [l.slice(0, limit)]: a negative limit counts from the end. *)
Definition sliceTo {A : Type} (limit : Z) (l : list A) : list A :=
  let len := Z.of_nat (length l) in
  let final := if Z.ltb limit 0 then Z.max (len + limit) 0 else Z.min limit len in
  firstn (Z.to_nat final) l.

(** [getTopCooccurrences(cooccurrenceIndex, limit)], on the entries of the
    index in the order [Object.entries] lists them: the order in which the
    keys were added, since a key holds a plus sign and so is no array
    index. *)
Definition getTopCooccurrences (entries : list (string * list string))
  (limit : Z) : list PairCount :=
  sliceTo limit (sortBy byCountDesc (map pairCountOf entries)).

End IndexBuilder.

(* ===================================================================== *)
(** * What the indices hold *)
(* ===================================================================== *)

Module IndexSpec.
Import JS Snippets Indices IndexBuilder.

(** The ids pushed for an entity: the id of every snippet, once for each
    time the snippet lists the entity. *)
Definition idsListing (e : string) (snippets : list Snippet) : list string :=
  flat_map (fun s => map (fun _ => id s) (List.filter (String.eqb e) (entities s)))
           snippets.

(** Does a snippet list an inherited name. *)
Definition listsInherited (snippets : list Snippet) : bool :=
  existsb (fun s => existsb inherited (entities s)) snippets.

(** No inherited name is a key of the index itself. *)
Definition noInheritedKey (index : gmap string (list string)) : Prop :=
  forall k, inherited k = true -> index !! k = None.

(** An index entry: absent when there is nothing to list. *)
Definition entryOf {A : Type} (sorted : list A -> list A) (l : list A)
  : option (list A) :=
  match l with
  | [] => None
  | _ :: _ => Some (sorted l)
  end.

(** The snippets of a chapter, in the order given. *)
Definition ofChapter (c : Z) (snippets : list Snippet) : list Snippet :=
  List.filter (fun s => Z.eqb (chapter s) c) snippets.

(** The sum of the snippet counts of all chapters, as [buildStats] reports
    them chapter by chapter. *)
Definition chapterTotal (index : gmap Z (list string)) : nat :=
  map_fold (fun _ ids n => (length ids + n)%nat) 0%nat index.

(** A snippet that lists an entity named Constructor. *)
Definition constructorSnippets : list Snippet :=
  [ mkSnippet "s_0000" 1 1 "The Builders" (mkLocation 0 (SentenceIndex 0))
      (mkSnippetText "" "Harry met the Constructor." "")
      ["harry"; "constructor"] [] ].

End IndexSpec.


(* ===================================================================== *)
(** * Query interface (query.js)

    The entities, the snippets and the indices are read from the files the
    extraction wrote; the functions are modelled on the loaded values. *)
(* ===================================================================== *)

Module Query.
Import JS Extract Grouper Tier Snippets Indices IndexBuilder.

(** [findEntity(searchTerm)] over the loaded entities: the id, then the
    canonical name, then a part of the canonical name, then the variants. *)
Definition findEntity (known : list Entity) (searchTerm : string)
  : option Entity :=
  let term := trim (toLowerCase searchTerm) in
  match find (fun e => String.eqb (e_id e) term) known with
  | Some exactId => Some exactId
  | None =>
      match find (fun e => String.eqb (toLowerCase (e_canonicalName e)) term)
                 known with
      | Some exactName => Some exactName
      | None =>
          match find (fun e => includes (toLowerCase (e_canonicalName e)) term)
                     known with
          | Some partialName => Some partialName
          | None =>
              find (fun e =>
                      existsb (fun v =>
                                 String.eqb (toLowerCase (form v)) term ||
                                 includes (toLowerCase (form v)) term)
                              (e_variants e))
                   known
          end
      end
  end.

(** [new Map(snippets.map(s => [s.id, s])).get(id)]: of two snippets with
    one id the later one stays. *)
Definition snippetMapGet (snippets : list Snippet) (i : string)
  : option Snippet :=
  find (fun s => String.eqb (id s) i) (rev snippets).

(** [const ids = [entA.id, entB.id].sort(); `${ids[0]}+${ids[1]}`] *)
Definition cooccurrenceKey (a b : string) : string :=
  let ids := sortBy String.leb [a; b] in
  nth 0 ids "" +:+ "+" +:+ nth 1 ids "".

(** [getCooccurrenceContext(entityA, entityB, { maxSnippets })] *)
Definition getCooccurrenceContext (known : list Entity)
  (cooccurrenceIndex : gmap string (list string)) (snippets : list Snippet)
  (entityA entityB : string) (maxSnippets : Z) : list Snippet :=
  match findEntity known entityA, findEntity known entityB with
  | Some entA, Some entB =>
      let key := cooccurrenceKey (e_id entA) (e_id entB) in
      let snippetIds := default [] (cooccurrenceIndex !! key) in
      omap (snippetMapGet snippets) (sliceTo maxSnippets snippetIds)
  | _, _ => []
  end.

End Query.

Module QuerySpec.
Import JS Extract Grouper Tier Snippets Indices IndexBuilder Query.

(** An entity a search term can find: by its id, by a part of its
    lower-cased canonical name, or by a part of a lower-cased variant. *)
Definition matchesTerm (term : string) (e : Entity) : bool :=
  String.eqb (e_id e) term ||
  includes (toLowerCase (e_canonicalName e)) term ||
  existsb (fun v => includes (toLowerCase (form v)) term) (e_variants e).

(** Two entities of the example snippets. *)
Definition exampleEntities : list Entity :=
  [ mkEntity "harry" "Harry" 12 [mkVariant "Harry" 12 false None]
      (Some single_name_with_possessive) None None None [];
    mkEntity "ron" "Ron" 9 [mkVariant "Ron" 9 false None]
      (Some single_name_with_possessive) None None None [] ].

End QuerySpec.


(* ===================================================================== *)
(** * Properties *)
(* ===================================================================== *)

(** ** The prelude: sorting and string order *)

Module JSFacts.
Import JS.

Section SortFacts.
Context {A : Type} (le : A -> A -> bool).

Lemma insertSorted_perm (x : A) (l : list A) :
  Permutation (insertSorted le x l) (x :: l).
Proof.
  induction l as [|y ys IH]; simpl; [reflexivity|].
  destruct (le x y); [reflexivity|].
  rewrite IH. apply perm_swap.
Qed.

Lemma sortBy_perm (l : list A) : Permutation (sortBy le l) l.
Proof.
  induction l as [|x xs IH]; simpl; [reflexivity|].
  rewrite insertSorted_perm. now constructor.
Qed.

Lemma sortBy_elem_of (l : list A) (x : A) : x ∈ sortBy le l <-> x ∈ l.
Proof. now rewrite sortBy_perm. Qed.

Lemma sortBy_length (l : list A) : length (sortBy le l) = length l.
Proof. apply Permutation_length, sortBy_perm. Qed.

Lemma sortBy_NoDup (l : list A) : NoDup l -> NoDup (sortBy le l).
Proof. now rewrite sortBy_perm. Qed.

Hypothesis le_total : forall a b, le a b = true \/ le b a = true.
Hypothesis le_trans : forall a b c, le a b = true -> le b c = true -> le a c = true.

Lemma insertSorted_sorted (x : A) (l : list A) :
  StronglySorted (fun a b => le a b = true) l ->
  StronglySorted (fun a b => le a b = true) (insertSorted le x l).
Proof.
  induction 1 as [|y ys Hs IH Hall]; simpl.
  - repeat constructor.
  - destruct (le x y) eqn:Hxy.
    + constructor; [constructor; assumption|].
      constructor; [exact Hxy|].
      rewrite Forall_forall in Hall |- *. intros z Hz.
      eapply le_trans; [exact Hxy | apply Hall, Hz].
    + constructor; [exact IH|].
      rewrite Forall_forall in Hall |- *. intros z Hz.
      rewrite insertSorted_perm in Hz.
      apply elem_of_cons in Hz as [-> | Hz]; [|apply Hall, Hz].
      destruct (le_total x y) as [H|H]; congruence.
Qed.

Lemma sortBy_sorted (l : list A) :
  StronglySorted (fun a b => le a b = true) (sortBy le l).
Proof.
  induction l as [|x xs IH]; simpl; [constructor|].
  apply insertSorted_sorted, IH.
Qed.

(** Sorting a sorted list changes nothing. *)
Lemma insertSorted_head (x : A) (l : list A) :
  Forall (fun b => le x b = true) l -> insertSorted le x l = x :: l.
Proof.
  destruct l as [|y ys]; simpl; [reflexivity|].
  intros H. inversion H; subst. now rewrite H2.
Qed.

Lemma sortBy_id (l : list A) :
  StronglySorted (fun a b => le a b = true) l -> sortBy le l = l.
Proof.
  induction 1 as [|x xs Hs IH Hall]; simpl; [reflexivity|].
  rewrite IH. apply insertSorted_head, Hall.
Qed.
End SortFacts.

(** The order of strings by code units is transitive. *)
Lemma ascii_compare_trans_le (a b c : ascii) :
  Ascii.compare a b <> Gt -> Ascii.compare b c <> Gt -> Ascii.compare a c <> Gt.
Proof.
  unfold Ascii.compare. rewrite !N.compare_le_iff. lia.
Qed.

Lemma ascii_compare_lt_le (a b c : ascii) :
  Ascii.compare a b = Lt -> Ascii.compare b c <> Gt -> Ascii.compare a c = Lt.
Proof.
  unfold Ascii.compare. rewrite N.compare_le_iff, !N.compare_lt_iff. lia.
Qed.

Lemma ascii_compare_le_lt (a b c : ascii) :
  Ascii.compare a b <> Gt -> Ascii.compare b c = Lt -> Ascii.compare a c = Lt.
Proof.
  unfold Ascii.compare. rewrite N.compare_le_iff, !N.compare_lt_iff. lia.
Qed.

Lemma string_compare_trans (s1 : string) :
  forall s2 s3, String.compare s1 s2 <> Gt -> String.compare s2 s3 <> Gt ->
                String.compare s1 s3 <> Gt.
Proof.
  induction s1 as [|a s1 IH]; intros [|b s2] [|c s3]; simpl; try congruence.
  destruct (Ascii.compare a b) eqn:Hab; try congruence;
    destruct (Ascii.compare b c) eqn:Hbc; try congruence; intros H1 H2.
  - apply Ascii.compare_eq_iff in Hab, Hbc. subst.
    destruct (Ascii.compare c c) eqn:Hcc; try congruence.
    + eapply IH; eassumption.
    + pose proof (Ascii.compare_antisym c c) as Ha. rewrite Hcc in Ha. discriminate.
  - apply Ascii.compare_eq_iff in Hab. subst. now rewrite Hbc.
  - apply Ascii.compare_eq_iff in Hbc. subst. now rewrite Hab.
  - rewrite (ascii_compare_lt_le a b c); congruence.
Qed.

Lemma string_leb_trans (a b c : string) :
  String.leb a b = true -> String.leb b c = true -> String.leb a c = true.
Proof.
  unfold String.leb. intros H1 H2.
  pose proof (string_compare_trans a b c) as H.
  destruct (String.compare a b); try discriminate;
    destruct (String.compare b c); try discriminate;
    destruct (String.compare a c); try reflexivity;
    exfalso; apply H; congruence.
Qed.

(** Strings and their lists of characters. *)
Lemma chars_append (a b : string) : chars (a +:+ b) = chars a ++ chars b.
Proof.
  unfold chars. induction a as [|c a IH]; simpl; [reflexivity|].
  now rewrite IH.
Qed.

Lemma chars_str (l : list ascii) : chars (str l) = l.
Proof. apply list_ascii_of_string_of_list_ascii. Qed.

Lemma str_chars (s : string) : str (chars s) = s.
Proof. apply string_of_list_ascii_of_string. Qed.

Lemma chars_inj (a b : string) : chars a = chars b -> a = b.
Proof.
  intros H. rewrite <- (str_chars a), H. apply str_chars.
Qed.

(** The first occurrence of a separator splits a text in one way. *)
Lemma split_at_first (c : ascii) (l1 : list ascii) :
  forall l2 r1 r2,
    ~ In c l1 -> ~ In c l2 -> l1 ++ c :: r1 = l2 ++ c :: r2 ->
    l1 = l2 /\ r1 = r2.
Proof.
  induction l1 as [|x l1 IH]; intros [|y l2] r1 r2 H1 H2 E; simpl in *.
  - inversion E. auto.
  - inversion E; subst. exfalso. apply H2. now left.
  - inversion E; subst. exfalso. apply H1. now left.
  - inversion E; subst.
    destruct (IH l2 r1 r2) as [-> ->]; auto.
Qed.

(** Insertion-ordered maps. *)
Section OMapFacts.
Context {V : Type}.

Lemma omap_get_set_eq (k : string) (v : V) (m : list (string * V)) :
  omap_get k (omap_set k v m) = Some v.
Proof.
  induction m as [|[k' v'] m IH]; simpl.
  - now rewrite String.eqb_refl.
  - destruct (String.eqb k k') eqn:E; simpl; rewrite E; [reflexivity | exact IH].
Qed.

Lemma omap_get_set_ne (k k' : string) (v : V) (m : list (string * V)) :
  k <> k' -> omap_get k' (omap_set k v m) = omap_get k' m.
Proof.
  intros Hne. induction m as [|[k0 v0] m IH]; simpl.
  - apply String.eqb_neq in Hne. rewrite String.eqb_sym in Hne. now rewrite Hne.
  - destruct (String.eqb k k0) eqn:E; simpl.
    + apply String.eqb_eq in E. subst k0.
      destruct (String.eqb k' k) eqn:E'; [|reflexivity].
      apply String.eqb_eq in E'. congruence.
    + destruct (String.eqb k' k0); [reflexivity | exact IH].
Qed.


Lemma omap_get_In (k : string) (v : V) (m : list (string * V)) :
  omap_get k m = Some v -> In (k, v) m.
Proof.
  induction m as [|[k' v'] m IH]; simpl; [discriminate|].
  destruct (String.eqb k k') eqn:E.
  - apply String.eqb_eq in E. intros [= ->]. left. congruence.
  - intros H. right. now apply IH.
Qed.
End OMapFacts.

End JSFacts.

(** ** The matcher on the shapes the proofs need *)

Module RegexFacts.
Import JS Regex JSFacts.

Lemma chEq_refl (ci : bool) (c : ascii) : chEq ci c c = true.
Proof. unfold chEq. destruct ci; apply Ascii.eqb_refl. Qed.

(** A literal matches itself and hands over to the continuation. *)
Lemma mLit_self (ci : bool) (l : list ascii) (k : cont) :
  forall prev rest, exists prev',
    mLit ci l k prev (l ++ rest) = k prev' rest.
Proof.
  induction l as [|c l IH]; intros prev rest; simpl.
  - now exists prev.
  - rewrite chEq_refl. apply IH.
Qed.

(** An alternation succeeds as soon as one of its branches does. *)
Lemma mAlt_some (ci : bool) (alts : list string) (k : cont) (t : string)
  (prev : option ascii) (s r : list ascii) :
  In t alts -> mLit ci (chars t) k prev s = Some r ->
  exists r', mAlt ci alts k prev s = Some r'.
Proof.
  induction alts as [|a alts IH]; intros Hin Hm; [destruct Hin|]. simpl.
  destruct (mLit ci (chars a) k prev s) as [r0|] eqn:Ha; [now exists r0|].
  destruct Hin as [->|Hin]; [congruence|]. now apply IH.
Qed.

(** A greedy repetition that runs over [ws] and stops in front of a
    character outside the class. *)
Lemma mStar_run (ci : bool) (p : ascii -> bool) (k : cont) (ws : list ascii) :
  forall prev rest r,
    forallb (clsOk ci p) ws = true ->
    match rest with [] => True | c :: _ => clsOk ci p c = false end ->
    (forall prev', k prev' rest = Some r) ->
    mStar ci p k prev (ws ++ rest) = Some r.
Proof.
  induction ws as [|w ws IH]; intros prev rest r Hws Hrest Hk; simpl.
  - destruct rest as [|c rest]; simpl; [apply Hk|].
    rewrite Hrest. apply Hk.
  - simpl in Hws. apply andb_true_iff in Hws as [Hw Hws].
    rewrite Hw. now rewrite (IH (Some w) rest r Hws Hrest Hk).
Qed.

Lemma isSpace_clsOk (ci : bool) (c : ascii) :
  isSpace c = true -> clsOk ci isSpace c = true.
Proof. intros H. unfold clsOk. now rewrite H. Qed.

End RegexFacts.

(** ** The matcher finds what the pattern matches *)

Module RegexMatching.
Import JS Regex RegexSpec JSFacts RegexFacts.

Lemma lastOr_cons (prev : option ascii) (d : ascii) (m : list ascii) :
  lastOr prev (d :: m) = lastOr (Some d) m.
Proof.
  unfold lastOr. simpl. destruct (rev m) as [|c l] eqn:E; simpl; reflexivity.
Qed.

Lemma lastOr_app (prev : option ascii) (a b : list ascii) :
  lastOr prev (a ++ b) = lastOr (lastOr prev a) b.
Proof.
  revert prev. induction a as [|d a IH]; intros prev; [reflexivity|].
  cbn [app]. rewrite !lastOr_cons. apply IH.
Qed.

Section Sound.
Variable ci : bool.

(** *** Whatever the matcher finds is a match *)

Lemma mLit_sound (l : list ascii) (k : cont) :
  forall prev s x,
    mLit ci l k prev s = Some x ->
    exists m r, s = m ++ r /\
                Forall2 (fun c d => chEq ci c d = true) l m /\
                k (lastOr prev m) r = Some x.
Proof.
  induction l as [|c l IH]; intros prev s x H; simpl in H.
  - exists [], s. repeat split; [constructor | exact H].
  - destruct s as [|d s]; [discriminate|].
    destruct (chEq ci c d) eqn:E; [|discriminate].
    destruct (IH _ _ _ H) as (m & r & -> & Hm & Hk).
    exists (d :: m), r. split; [reflexivity|]. split; [now constructor|].
    now rewrite lastOr_cons.
Qed.

Lemma mStar_sound (p : ascii -> bool) (k : cont) :
  forall s prev x,
    mStar ci p k prev s = Some x ->
    exists m r, s = m ++ r /\ Forall (fun d => clsOk ci p d = true) m /\
                k (lastOr prev m) r = Some x.
Proof.
  induction s as [|d s IH]; intros prev x H; simpl in H.
  - exists [], []. repeat split; [constructor | exact H].
  - destruct (clsOk ci p d) eqn:E.
    + destruct (mStar ci p k (Some d) s) as [y|] eqn:Hs.
      * injection H as <-. destruct (IH _ _ Hs) as (m & r & -> & Hm & Hk).
        exists (d :: m), r. split; [reflexivity|]. split; [now constructor|].
        now rewrite lastOr_cons.
      * exists [], (d :: s). repeat split; [constructor | exact H].
    + exists [], (d :: s). repeat split; [constructor | exact H].
Qed.

Lemma mAlt_sound (alts : list string) (k : cont) :
  forall prev s x,
    mAlt ci alts k prev s = Some x ->
    exists a m r, In a alts /\ s = m ++ r /\
                  Forall2 (fun c d => chEq ci c d = true) (chars a) m /\
                  k (lastOr prev m) r = Some x.
Proof.
  induction alts as [|a alts IH]; intros prev s x H; simpl in H; [discriminate|].
  destruct (mLit ci (chars a) k prev s) as [y|] eqn:Ha.
  - injection H as <-. destruct (mLit_sound _ _ _ _ _ Ha) as (m & r & E & Hm & Hk).
    exists a, m, r. repeat split; auto. now left.
  - destruct (IH _ _ _ H) as (a' & m & r & Hin & E & Hm & Hk).
    exists a', m, r. repeat split; auto. now right.
Qed.

Lemma mItem_sound (it : item) (k : cont) (prev : option ascii)
  (s : list ascii) (x : list ascii) :
  mItem ci it k prev s = Some x ->
  exists prev' r, matchesItem ci it prev s prev' r /\ k prev' r = Some x.
Proof.
  destruct it as [l|p|p|p|p|alts| | |]; simpl; intros H.
  - destruct (mLit_sound _ _ _ _ _ H) as (m & r & -> & Hm & Hk).
    eexists _, r. split; [now constructor | exact Hk].
  - destruct s as [|d s]; [discriminate|].
    destruct (clsOk ci p d) eqn:E; [|discriminate].
    exists (Some d), s. split; [now constructor | exact H].
  - destruct (mStar_sound _ _ _ _ _ H) as (m & r & -> & Hm & Hk).
    eexists _, r. split; [now constructor | exact Hk].
  - destruct s as [|d s]; [discriminate|].
    destruct (clsOk ci p d) eqn:E; [|discriminate].
    destruct (mStar_sound _ _ _ _ _ H) as (m & r & -> & Hm & Hk).
    exists (lastOr prev (d :: m)), r. split.
    + apply (MatchPlus ci p (d :: m) prev r); [now constructor | discriminate].
    + now rewrite lastOr_cons.
  - destruct s as [|d s]; [exists prev, []; split; [constructor | exact H]|].
    destruct (clsOk ci p d) eqn:E.
    + destruct (k (Some d) s) as [y|] eqn:Hk.
      * injection H as <-. exists (Some d), s. split; [now constructor | exact Hk].
      * exists prev, (d :: s). split; [constructor | exact H].
    + exists prev, (d :: s). split; [constructor | exact H].
  - destruct (mAlt_sound _ _ _ _ _ H) as (a & m & r & Hin & -> & Hm & Hk).
    eexists _, r. split; [now apply (MatchAlt ci alts a) | exact Hk].
  - destruct (xorb (wordOpt prev) (wordOpt (head s))) eqn:E; [|discriminate].
    exists prev, s. split; [now constructor | exact H].
  - destruct prev; [discriminate|]. exists None, s. split; [constructor | exact H].
  - destruct s; [|discriminate]. exists prev, []. split; [constructor | exact H].
Qed.

Lemma mItems_sound (its : list item) :
  forall (k : cont) prev s x,
    mItems ci its k prev s = Some x ->
    exists prev' r, matchesItems ci its prev s prev' r /\ k prev' r = Some x.
Proof.
  induction its as [|it its IH]; intros k prev s x H; cbn [mItems] in H.
  - exists prev, s. split; [constructor | exact H].
  - destruct (mItem_sound _ _ _ _ _ H) as (prev1 & s1 & H1 & Hk).
    destruct (IH _ _ _ _ Hk) as (prev2 & s2 & H2 & Hk2).
    exists prev2, s2. split; [eapply MatchThen; eassumption | exact Hk2].
Qed.

(** *** Where there is a match the matcher finds one *)

Lemma mLit_complete (l : list ascii) (k : cont) :
  forall m prev r x,
    Forall2 (fun c d => chEq ci c d = true) l m ->
    k (lastOr prev m) r = Some x ->
    mLit ci l k prev (m ++ r) = Some x.
Proof.
  induction l as [|c l IH]; intros m prev r x Hm Hk; inversion Hm; subst; simpl.
  - exact Hk.
  - rewrite H1. apply IH; [assumption|]. now rewrite <- (lastOr_cons prev).
Qed.

Lemma mStar_complete (p : ascii -> bool) (k : cont) :
  forall m prev r x,
    Forall (fun d => clsOk ci p d = true) m ->
    k (lastOr prev m) r = Some x ->
    exists x', mStar ci p k prev (m ++ r) = Some x'.
Proof.
  induction m as [|d m IH]; intros prev r x Hm Hk.
  - simpl. change (lastOr prev []) with prev in Hk.
    destruct r as [|d r]; simpl; [eauto|].
    destruct (clsOk ci p d); [|eauto].
    destruct (mStar ci p k (Some d) r); eauto.
  - inversion Hm; subst. simpl. rewrite H1.
    rewrite lastOr_cons in Hk. destruct (IH _ _ _ H2 Hk) as [x' ->]. eauto.
Qed.

Lemma mAlt_complete (alts : list string) (k : cont) :
  forall a m prev r x,
    In a alts -> Forall2 (fun c d => chEq ci c d = true) (chars a) m ->
    k (lastOr prev m) r = Some x ->
    exists x', mAlt ci alts k prev (m ++ r) = Some x'.
Proof.
  intros a m prev r x Hin Hm Hk.
  apply (mAlt_some ci alts k a prev (m ++ r) x Hin).
  now apply mLit_complete.
Qed.

Lemma mItem_complete (it : item) (k : cont) (prev prev' : option ascii)
  (s r x : list ascii) :
  matchesItem ci it prev s prev' r -> k prev' r = Some x ->
  exists x', mItem ci it k prev s = Some x'.
Proof.
  intros H Hk. destruct H; simpl.
  - exists x. now apply mLit_complete.
  - rewrite H. eauto.
  - now apply (mStar_complete p k m prev r x).
  - destruct m as [|d m]; [congruence|]. inversion H; subst. cbn [app].
    rewrite H3. rewrite lastOr_cons in Hk.
    now apply (mStar_complete p k m (Some d) r x).
  - rewrite H, Hk. eauto.
  - destruct s as [|d s]; [eauto|].
    destruct (clsOk ci p d); [|eauto]. destruct (k (Some d) s); eauto.
  - now apply (mAlt_complete alts k a m prev r x).
  - rewrite H. eauto.
  - eauto.
  - eauto.
Qed.

Lemma mItems_complete (its : list item) :
  forall (k : cont) prev s prev' r x,
    matchesItems ci its prev s prev' r -> k prev' r = Some x ->
    exists x', mItems ci its k prev s = Some x'.
Proof.
  induction its as [|it its IH]; intros k prev s prev' r x H Hk;
    inversion H; subst; cbn [mItems].
  - eauto.
  - destruct (IH k _ _ _ _ _ H7 Hk) as [x1 Hx1].
    eapply mItem_complete; eassumption.
Qed.

(** A pattern whose matches at one place all end at the same place is
    decided by the matcher, whatever the order of its attempts. *)
Lemma matchAt_decides (its : list item)
  (here : option ascii -> list ascii -> option (list ascii)) :
  (forall prev s prev' r, matchesItems ci its prev s prev' r ->
                          here prev s = Some r) ->
  (forall prev s r, here prev s = Some r ->
                    exists prev', matchesItems ci its prev s prev' r) ->
  forall prev s, matchAt ci its prev s = here prev s.
Proof.
  intros Hfun Hex prev s. unfold matchAt.
  destruct (mItems ci its (fun _ r => Some r) prev s) as [x|] eqn:E.
  - destruct (mItems_sound _ _ _ _ _ E) as (prev' & r & Hm & [= <-]).
    symmetry. eapply Hfun, Hm.
  - destruct (here prev s) as [r|] eqn:Hh; [|reflexivity].
    destruct (Hex _ _ _ Hh) as [prev' Hm].
    destruct (mItems_complete its (fun _ r => Some r) _ _ _ _ r Hm eq_refl)
      as [x' Hx']. congruence.
Qed.
End Sound.

End RegexMatching.

(** ** Extraction: the aggregate maps agree with the mention list *)

Module ExtractFacts.
Import JS Extract.

Lemma sumValues_insert_fresh (k : string) (v : Z) (m : gmap string Z) :
  m !! k = None -> sumValues (<[k := v]> m) = v + sumValues m.
Proof.
  intros Hk. unfold sumValues.
  rewrite map_fold_insert_L; [reflexivity | intros; lia | exact Hk].
Qed.

Lemma sumValues_lookup (k : string) (v : Z) (m : gmap string Z) :
  m !! k = Some v -> sumValues m = v + sumValues (delete k m).
Proof.
  intros Hk. unfold sumValues.
  rewrite (map_fold_delete_L _ _ k v m); [reflexivity | intros; lia | exact Hk].
Qed.

Lemma orElse_zero (o : option Z) :
  orElse o 0 = match o with Some v => v | None => 0 end.
Proof.
  destruct o as [v|]; simpl; [|reflexivity].
  destruct (Z.eqb_spec v 0); congruence.
Qed.

(** Counting one more occurrence of a key adds one to the total. *)
Lemma sumValues_bump (k : string) (m : gmap string Z) :
  sumValues (bump k m) = sumValues m + 1.
Proof.
  unfold bump. rewrite orElse_zero.
  destruct (m !! k) as [v|] eqn:Hk.
  - rewrite (sumValues_lookup k v m Hk).
    rewrite <- insert_delete_eq.
    rewrite sumValues_insert_fresh by apply lookup_delete_eq. lia.
  - rewrite sumValues_insert_fresh by exact Hk. lia.
Qed.

Lemma dom_bump (k : string) (m : gmap string Z) :
  dom (bump k m) = {[k]} ∪ dom m.
Proof. unfold bump. apply dom_insert_L. Qed.


Lemma consistent_initial : consistent initialState.
Proof.
  unfold consistent, initialState; simpl.
  repeat split; try reflexivity; rewrite dom_empty_L; apply empty_subseteq.
Qed.

Lemma consistent_recordMention (i : Z) (st : ExtractState) (pn : ProperNoun) :
  consistent st -> consistent (recordMention i st pn).
Proof.
  intros (Hsum & Hp & Hs & Hf). unfold consistent, recordMention; simpl.
  repeat split.
  - rewrite sumValues_bump, Hsum, length_app. simpl. lia.
  - destruct (pn_isPossessive pn); rewrite ?dom_bump;
      [apply union_mono_l, Hp | etrans; [exact Hp | apply union_subseteq_r]].
  - destruct (pn_isAtSentenceStart pn); rewrite ?dom_bump;
      [apply union_mono_l, Hs | etrans; [exact Hs | apply union_subseteq_r]].
  - destruct (st_firstAppearances st !! pn_normalized pn);
      rewrite ?dom_insert_L, dom_bump;
      [etrans; [exact Hf | apply union_subseteq_r] | apply union_mono_l, Hf].
Qed.

Lemma consistent_fold (i : Z) (pns : list ProperNoun) (st : ExtractState) :
  consistent st -> consistent (fold_left (recordMention i) pns st).
Proof.
  revert st. induction pns as [|pn pns IH]; intros st H; simpl; [exact H|].
  apply IH, consistent_recordMention, H.
Qed.

Section WithConfig.
Variable stopwordWords chapterStartPatterns : list string.
Variable titlePatternList : list (string * option string).

Lemma consistent_processLine (i : Z) (st : ExtractState) (line : string) :
  consistent st ->
  consistent (processLine stopwordWords chapterStartPatterns titlePatternList
                i st line).
Proof.
  intros H. unfold processLine.
  destruct (String.eqb (trim line) "---"); [exact H|].
  destruct (st_inFrontmatter st); [exact H|].
  destruct (Regex.test chapterHeader line); [exact H|].
  destruct (String.eqb (trim line) ""); [exact H|].
  apply consistent_fold, H.
Qed.

Lemma consistent_processLines (lines : list string) (i : Z) (st : ExtractState) :
  consistent st ->
  consistent (processLines stopwordWords chapterStartPatterns titlePatternList
                i st lines).
Proof.
  revert i st. induction lines as [|l ls IH]; intros i st H; simpl; [exact H|].
  apply IH, consistent_processLine, H.
Qed.

(** C10. For every input text (and every configuration), the result of
    [extractProperNouns] is internally consistent: [metadata.totalMentions]
    is the length of the mention list, the values of [mentionCounts] add up
    to that same length, and every key of [possessiveCounts],
    [sentenceStartCounts] and [firstAppearances] is a key of
    [mentionCounts]. *)
Theorem extractProperNouns_consistent (text : string) :
  let r := extractProperNouns stopwordWords chapterStartPatterns
             titlePatternList text in
  md_totalMentions (metadata r) = Z.of_nat (length (mentions r)) /\
  sumValues (mentionCounts r) = Z.of_nat (length (mentions r)) /\
  dom (possessiveCounts r) ⊆ dom (mentionCounts r) /\
  dom (sentenceStartCounts r) ⊆ dom (mentionCounts r) /\
  dom (firstAppearances r) ⊆ dom (mentionCounts r).
Proof.
  intros r. subst r. unfold extractProperNouns; simpl.
  destruct (consistent_processLines (splitLines text) 0 initialState
              consistent_initial) as (Hsum & Hp & Hs & Hf).
  repeat split; assumption.
Qed.
End WithConfig.

End ExtractFacts.

(** ** Grouping: every group carries its name and its total *)

Module GrouperFacts.
Import JS Extract Grouper JSFacts.


Section Build.
Variable forms : Forms.
Variable mentionCounts : gmap string Z.
Variable firstAppearances : gmap string FirstAppearance.

Lemma withPossessive_keeps (name f : string) (vs : list Variant)
  (assigned : gset string) :
  In f (map form vs) ->
  In f (map form (fst (withPossessive mentionCounts name vs assigned))).
Proof.
  intros H. unfold withPossessive.
  destruct (truthy _); simpl; [|exact H].
  rewrite map_app. apply in_or_app. now left.
Qed.

Lemma attachPart_keeps (f : string) (acc : list Variant * gset string)
  (part : string) :
  In f (map form (fst acc)) ->
  In f (map form (fst (attachPart forms mentionCounts acc part))).
Proof.
  intros H. unfold attachPart. destruct acc as [vs assigned]. simpl in H.
  destruct (bool_decide _); [exact H|].
  destruct (findSingle forms part) as [m|]; [|exact H].
  destruct (Z.leb 3 (fc_count m)); [|exact H].
  apply withPossessive_keeps. rewrite map_app. apply in_or_app. now left.
Qed.

Lemma attachTitled_keeps (f : string) (parts : list string)
  (acc : list Variant * list string * gset string) (titled : TitledName) :
  In f (map form (fst (fst acc))) ->
  In f (map form (fst (fst (attachTitled mentionCounts parts acc titled)))).
Proof.
  intros H. unfold attachTitled. destruct acc as [[vs patterns] assigned].
  simpl in H. destruct (bool_decide _); [exact H|].
  destruct (inList _ parts); [|exact H].
  simpl. rewrite map_app. apply in_or_app. now left.
Qed.

Lemma fold_keeps {A Acc : Type} (step : Acc -> A -> Acc) (P : Acc -> Prop) :
  (forall acc x, P acc -> P (step acc x)) ->
  forall l acc, P acc -> P (fold_left step l acc).
Proof.
  intros Hstep. induction l as [|x l IH]; intros acc H; simpl; [exact H|].
  apply IH, Hstep, H.
Qed.

Lemma fullNameStep_named (st : BuildState) (fullName : FormCount) :
  Forall draftNamed (bs_groups st) ->
  Forall draftNamed (bs_groups (fullNameStep forms mentionCounts st fullName)).
Proof.
  intros H. unfold fullNameStep.
  destruct (bool_decide _); [exact H|].
  destruct (Z.ltb _ 3); [exact H|].
  destruct (Nat.ltb 2 _); [exact H|].
  destruct (_ && _); [exact H|].
  set (start := ([plain (fc_form fullName) _], _)).
  pose proof (fold_keeps (attachPart forms mentionCounts)
                (fun acc => In (fc_form fullName) (map form (fst acc)))
                (attachPart_keeps (fc_form fullName))
                (splitWs (fc_form fullName)) start) as H1.
  destruct (fold_left (attachPart forms mentionCounts) _ start)
    as [vs assigned] eqn:E1.
  pose proof (fold_keeps (attachTitled mentionCounts (splitWs (fc_form fullName)))
                (fun acc => In (fc_form fullName) (map form (fst (fst acc))))
                (attachTitled_keeps (fc_form fullName) _)
                (titledNames forms) (vs, [], assigned)) as H2.
  destruct (fold_left (attachTitled mentionCounts _) _ (vs, [], assigned))
    as [[vs' patterns] assigned'] eqn:E2.
  simpl. apply Forall_app. split; [exact H|].
  constructor; [|constructor].
  unfold draftNamed. simpl. apply H2. simpl. apply H1. simpl. now left.
Qed.

Lemma titledStep_named (st : BuildState) (titled : TitledName) :
  Forall draftNamed (bs_groups st) ->
  Forall draftNamed (bs_groups (titledStep forms mentionCounts st titled)).
Proof.
  intros H. unfold titledStep.
  destruct (bool_decide (tn_form titled ∈ bs_assigned st)); [exact H|].
  destruct (bool_decide _).
  - simpl. apply Forall_app. split; [exact H|].
    constructor; [|constructor]. unfold draftNamed. simpl. now left.
  - destruct (findSingle forms (tn_name titled)) as [m|].
    + set (vs := _ ++ [plain (tn_name titled) _]).
      pose proof (withPossessive_keeps (tn_name titled) (tn_name titled) vs
                    ({[tn_name titled]} ∪ ({[tn_form titled]} ∪ bs_assigned st)))
        as Hk.
      destruct (withPossessive mentionCounts (tn_name titled) vs _)
        as [vs' assigned'].
      simpl. apply Forall_app. split; [exact H|].
      constructor; [|constructor]. unfold draftNamed. simpl. apply Hk.
      unfold vs. simpl. right. now left.
    + simpl. apply Forall_app. split; [exact H|].
      constructor; [|constructor]. unfold draftNamed. simpl. now left.
Qed.

Lemma singleStep_named (st : BuildState) (single : FormCount) :
  Forall draftNamed (bs_groups st) ->
  Forall draftNamed (bs_groups (singleStep mentionCounts st single)).
Proof.
  intros H. unfold singleStep.
  destruct (bool_decide _); [exact H|].
  destruct (Z.ltb _ 3); [exact H|].
  set (vs := [plain (fc_form single) _]).
  pose proof (withPossessive_keeps (fc_form single) (fc_form single) vs
                ({[fc_form single]} ∪ bs_assigned st)) as Hk.
  destruct (withPossessive mentionCounts (fc_form single) vs _)
    as [vs' assigned'].
  simpl. apply Forall_app. split; [exact H|].
  constructor; [|constructor]. unfold draftNamed. simpl. apply Hk.
  unfold vs. simpl. now left.
Qed.

Lemma linkForms_named :
  Forall draftNamed (bs_groups (linkForms forms mentionCounts)).
Proof.
  unfold linkForms.
  apply (fold_keeps (singleStep mentionCounts)
           (fun st => Forall draftNamed (bs_groups st)) singleStep_named).
  apply (fold_keeps (titledStep forms mentionCounts)
           (fun st => Forall draftNamed (bs_groups st)) titledStep_named).
  apply (fold_keeps (fullNameStep forms mentionCounts)
           (fun st => Forall draftNamed (bs_groups st)) fullNameStep_named).
  constructor.
Qed.

(** Every group of [buildEntityGroups] has the sum of its variant counts
    as total, and its canonical name among its variant forms. *)
Lemma buildEntityGroups_groups (g : EntityGroup) :
  In g (buildEntityGroups forms mentionCounts firstAppearances) ->
  totalMentions g = sumCounts (variants g) /\
  In (canonicalName g) (map form (variants g)).
Proof.
  unfold buildEntityGroups. intros H.
  apply list_elem_of_In, sortBy_elem_of, list_elem_of_In in H.
  apply in_map_iff in H as (d & <- & Hd). simpl. split; [reflexivity|].
  pose proof linkForms_named as Hall. rewrite Forall_forall in Hall.
  apply Hall. now apply list_elem_of_In.
Qed.
End Build.

(** *** Forms are claimed once, short of the possessive attachments *)

Section ClaimedOnce.
Variable forms : Forms.
Variable mentionCounts : gmap string Z.
Variable firstAppearances : gmap string FirstAppearance.
Hypothesis no_possessive : noPossessiveKeys mentionCounts.

Lemma withPossessive_idle (name : string) (vs : list Variant)
  (assigned : gset string) :
  withPossessive mentionCounts name vs assigned = (vs, assigned).
Proof. unfold withPossessive. now rewrite no_possessive. Qed.

(** Attaching a form that is not yet assigned keeps the invariant. *)
Lemma fillingOnce_push (prior : list string) (vs : list Variant)
  (assigned : gset string) (v : Variant) :
  fillingOnce prior vs assigned -> form v ∉ assigned ->
  fillingOnce prior (vs ++ [v]) ({[form v]} ∪ assigned).
Proof.
  intros (Hnd & Hvs & Hprior) Hfresh. unfold fillingOnce.
  rewrite map_app. simpl. split; [|split].
  - apply NoDup_app. split; [exact Hnd|]. split; [|apply NoDup_singleton].
    intros f Hf Hf'. apply list_elem_of_singleton in Hf'. subst f.
    apply Hfresh, Hvs. now apply list_elem_of_In.
  - intros f Hf. apply in_app_or in Hf as [Hf|[<-|[]]].
    + destruct (Hvs f Hf) as [H1 H2]. split; [|exact H2].
      apply elem_of_union. now right.
    + split; [apply elem_of_union; left; now apply elem_of_singleton|].
      intros Hp. apply Hfresh, Hprior, Hp.
  - intros f Hf. apply elem_of_union. right. now apply Hprior.
Qed.

Lemma attachPart_once (prior : list string) (acc : list Variant * gset string)
  (part : string) :
  fillingOnce prior (fst acc) (snd acc) ->
  fillingOnce prior (fst (attachPart forms mentionCounts acc part))
    (snd (attachPart forms mentionCounts acc part)).
Proof.
  intros H. unfold attachPart. destruct acc as [vs assigned]. simpl in H.
  case_bool_decide as Hin; [exact H|].
  destruct (findSingle forms part) as [m|]; [|exact H].
  destruct (Z.leb 3 (fc_count m)); [|exact H].
  rewrite withPossessive_idle. simpl.
  apply (fillingOnce_push prior vs assigned (plain part _) H Hin).
Qed.

Lemma attachTitled_once (prior : list string) (parts : list string)
  (acc : list Variant * list string * gset string) (titled : TitledName) :
  fillingOnce prior (fst (fst acc)) (snd acc) ->
  fillingOnce prior (fst (fst (attachTitled mentionCounts parts acc titled)))
    (snd (attachTitled mentionCounts parts acc titled)).
Proof.
  intros H. unfold attachTitled. destruct acc as [[vs patterns] assigned].
  simpl in H. case_bool_decide as Hin; [exact H|].
  destruct (inList _ parts); [|exact H]. simpl.
  apply (fillingOnce_push prior vs assigned
           (mkVariant (tn_form titled) _ true (tn_titleType titled)) H Hin).
Qed.

(** A filled group joins the groups made so far. *)
Lemma claimedOnce_add (st : BuildState) (name : string) (vs : list Variant)
  (ev : Evidence) (assigned : gset string) :
  claimedOnce st ->
  fillingOnce (allForms (bs_groups st)) vs assigned ->
  claimedOnce (mkBuildState (bs_groups st ++ [mkDraft name vs ev]) assigned).
Proof.
  intros [Hnd Hall] (Hvs_nd & Hvs & Hprior). unfold claimedOnce, allForms.
  simpl. rewrite flat_map_app. simpl. rewrite app_nil_r.
  fold (allForms (bs_groups st)). split.
  - apply NoDup_app. split; [exact Hnd|]. split; [|exact Hvs_nd].
    intros f Hf Hf'. apply list_elem_of_In in Hf, Hf'.
    now apply (Hvs f Hf').
  - intros f Hf. apply in_app_or in Hf as [Hf|Hf].
    + now apply Hprior.
    + now apply Hvs.
Qed.

(** The start of a group: its anchor, not yet assigned. *)
Lemma fillingOnce_start (st : BuildState) (v : Variant) :
  claimedOnce st -> form v ∉ bs_assigned st ->
  fillingOnce (allForms (bs_groups st)) [v] ({[form v]} ∪ bs_assigned st).
Proof.
  intros [Hnd Hall] Hfresh.
  apply (fillingOnce_push (allForms (bs_groups st)) [] (bs_assigned st) v);
    [|exact Hfresh].
  split; [constructor|]. split; [intros f []|exact Hall].
Qed.

Lemma fullNameStep_once (st : BuildState) (fullName : FormCount) :
  claimedOnce st -> claimedOnce (fullNameStep forms mentionCounts st fullName).
Proof.
  intros H. unfold fullNameStep.
  case_bool_decide as Hin; [exact H|].
  destruct (Z.ltb _ 3); [exact H|].
  destruct (Nat.ltb 2 _); [exact H|].
  destruct (_ && _); [exact H|].
  set (anchor := plain (fc_form fullName) _).
  pose proof (fillingOnce_start st anchor H Hin) as H0.
  pose proof (fold_keeps (attachPart forms mentionCounts)
                (fun acc => fillingOnce (allForms (bs_groups st)) (fst acc) (snd acc))
                (attachPart_once _)
                (splitWs (fc_form fullName))
                ([anchor], {[fc_form fullName]} ∪ bs_assigned st) H0) as H1.
  destruct (fold_left (attachPart forms mentionCounts) _ _) as [vs assigned].
  pose proof (fold_keeps (attachTitled mentionCounts (splitWs (fc_form fullName)))
                (fun acc => fillingOnce (allForms (bs_groups st)) (fst (fst acc))
                              (snd acc))
                (attachTitled_once _ _)
                (titledNames forms) (vs, [], assigned) H1) as H2.
  destruct (fold_left (attachTitled mentionCounts _) _ _)
    as [[vs' patterns] assigned'].
  now apply claimedOnce_add.
Qed.

Lemma titledStep_once (st : BuildState) (titled : TitledName) :
  claimedOnce st -> claimedOnce (titledStep forms mentionCounts st titled).
Proof.
  intros H. unfold titledStep.
  case_bool_decide as Hin; [exact H|].
  set (anchor := mkVariant (tn_form titled) _ true None).
  pose proof (fillingOnce_start st anchor H Hin) as H0. simpl in H0.
  case_bool_decide as Hname.
  - now apply claimedOnce_add.
  - destruct (findSingle forms (tn_name titled)) as [m|].
    + rewrite withPossessive_idle. apply claimedOnce_add; [exact H|].
      apply (fillingOnce_push _ [anchor] _ (plain (tn_name titled) _) H0 Hname).
    + now apply claimedOnce_add.
Qed.

Lemma singleStep_once (st : BuildState) (single : FormCount) :
  claimedOnce st -> claimedOnce (singleStep mentionCounts st single).
Proof.
  intros H. unfold singleStep.
  case_bool_decide as Hin; [exact H|].
  destruct (Z.ltb _ 3); [exact H|].
  rewrite withPossessive_idle. apply claimedOnce_add; [exact H|].
  apply (fillingOnce_start st (plain (fc_form single) _) H Hin).
Qed.

Lemma linkForms_once : claimedOnce (linkForms forms mentionCounts).
Proof.
  unfold linkForms.
  apply (fold_keeps (singleStep mentionCounts) claimedOnce singleStep_once).
  apply (fold_keeps (titledStep forms mentionCounts) claimedOnce titledStep_once).
  apply (fold_keeps (fullNameStep forms mentionCounts) claimedOnce
           fullNameStep_once).
  split; [constructor | intros f []].
Qed.

(** When [mentionCounts] knows no possessive form, every form is a variant
    of at most one group of [buildEntityGroups], and is held once by it:
    the three rules only attach forms that are not yet assigned. *)
Lemma forms_claimed_once :
  NoDup (groupForms (buildEntityGroups forms mentionCounts firstAppearances)).
Proof.
  unfold buildEntityGroups, groupForms.
  rewrite (sortBy_perm byTotalDesc). rewrite flat_map_concat_map, map_map.
  rewrite <- flat_map_concat_map. apply linkForms_once.
Qed.
End ClaimedOnce.

(** C9, at the failing input. The text holds doubled possessives: the
    forms of its single names are [Harry's] (the base of [Harry's's]) and
    [Harry], and [mentionCounts] knows [Harry's]. Rule 3 first makes
    [Harry's] a group of its own, then attaches [Harry's] again, as the
    possessive of [Harry], to the group of [Harry], without a look at the
    assigned forms: the form is a variant of two groups. *)
Theorem possessive_claimed_twice :
  map (fun g => (canonicalName g, map (fun v => (form v, count v)) (variants g)))
    (groupVariants (extractProperNouns [] [] [] doubledPossessiveText)
       defaultMinMentions)
  = [("Harry", [("Harry", 5); ("Harry's", 2)]);
     ("Harry's", [("Harry's", 2); ("Harry's's", 3)])].
Proof. vm_compute. reflexivity. Qed.

End GrouperFacts.

(** ** The three patterns of the junk filter and the occurrences they count *)

Module ListRuleFacts.
Import JS Regex RegexSpec Filter ListRule JSFacts RegexFacts RegexMatching.

(** *** Characters *)

Lemma lower_upper (c : ascii) : toLowerChar (toUpperChar c) = toLowerChar c.
Proof. destruct c as [[] [] [] [] [] [] [] []]; vm_compute; reflexivity. Qed.

Lemma upper_lower (c : ascii) : toUpperChar (toLowerChar c) = toUpperChar c.
Proof. destruct c as [[] [] [] [] [] [] [] []]; vm_compute; reflexivity. Qed.

(** Two characters are the same for a pattern that ignores case when
    their lower cases are the same. *)
Lemma chEq_lower (c d : ascii) :
  chEq true c d = Ascii.eqb (toLowerChar c) (toLowerChar d).
Proof.
  unfold chEq.
  destruct (Ascii.eqb_spec (toUpperChar c) (toUpperChar d)) as [E|E];
    destruct (Ascii.eqb_spec (toLowerChar c) (toLowerChar d)) as [E'|E'];
    try reflexivity; exfalso.
  - apply E'. now rewrite <- (lower_upper c), E, lower_upper.
  - apply E. now rewrite <- (upper_lower c), E', upper_lower.
Qed.

Lemma clsOk_space (c : ascii) : clsOk true isSpace c = isSpace c.
Proof. destruct c as [[] [] [] [] [] [] [] []]; vm_compute; reflexivity. Qed.

Lemma clsOk_comma (c : ascii) : clsOk true (only comma) c = Ascii.eqb c comma.
Proof. destruct c as [[] [] [] [] [] [] [] []]; vm_compute; reflexivity. Qed.

Lemma space_lower (c : ascii) : isSpace (toLowerChar c) = isSpace c.
Proof. destruct c as [[] [] [] [] [] [] [] []]; vm_compute; reflexivity. Qed.

Lemma space_not_word (c : ascii) : isSpace c = true -> isWord c = false.
Proof. destruct c as [[] [] [] [] [] [] [] []]; vm_compute; congruence. Qed.

Lemma space_not_comma (c : ascii) : isSpace c = true -> Ascii.eqb c comma = false.
Proof. destruct c as [[] [] [] [] [] [] [] []]; vm_compute; congruence. Qed.

Lemma same_lower_space (c d : ascii) :
  Ascii.eqb (toLowerChar c) (toLowerChar d) = true -> isSpace d = isSpace c.
Proof.
  intros E. apply Ascii.eqb_eq in E.
  now rewrite <- (space_lower d), <- E, space_lower.
Qed.

Lemma wordOpt_isWordAt (o : option ascii) : wordOpt o = isWordAt o.
Proof. now destruct o. Qed.

(** *** What the items of a pattern match *)

Lemma then_inv (ci : bool) (it : item) (its : list item) prev s prev2 s2 :
  matchesItems ci (it :: its) prev s prev2 s2 ->
  exists prev1 s1, matchesItem ci it prev s prev1 s1 /\
                   matchesItems ci its prev1 s1 prev2 s2.
Proof. intros H. inversion H; subst. eauto. Qed.

Lemma end_inv (ci : bool) prev s prev2 s2 :
  matchesItems ci [] prev s prev2 s2 -> prev2 = prev /\ s2 = s.
Proof. intros H. inversion H; subst. auto. Qed.

Lemma lit_inv (l : string) prev s prev' r :
  matchesItem true (Lit l) prev s prev' r ->
  exists m, s = m ++ r /\ sameWord (chars l) m /\ prev' = lastOr prev m.
Proof. intros H. inversion H; subst. eauto. Qed.

Lemma star_inv prev s prev' r :
  matchesItem true (Star isSpace) prev s prev' r ->
  exists m, s = m ++ r /\ blank m /\ prev' = lastOr prev m.
Proof.
  intros H. inversion H; subst. exists m. repeat split.
  eapply Forall_impl; [eassumption|]. intros c Hc. simpl in Hc. now rewrite clsOk_space in Hc.
Qed.

Lemma plus_inv prev s prev' r :
  matchesItem true (Plus isSpace) prev s prev' r ->
  exists m, s = m ++ r /\ blank m /\ m <> [] /\ prev' = lastOr prev m.
Proof.
  intros H. inversion H; subst. exists m. repeat split; [|assumption].
  eapply Forall_impl; [eassumption|]. intros c Hc. simpl in Hc. now rewrite clsOk_space in Hc.
Qed.

Lemma opt_comma_inv prev s prev' r :
  matchesItem true (Opt (only comma)) prev s prev' r ->
  (s = comma :: r /\ prev' = Some comma) \/ (s = r /\ prev' = prev).
Proof.
  intros H. inversion H; subst; [left | right; auto].
  match goal with Hc : clsOk _ _ _ = true |- _ =>
    rewrite clsOk_comma in Hc; apply Ascii.eqb_eq in Hc; now subst end.
Qed.

Lemma alt_inv (alts : list string) prev s prev' r :
  matchesItem true (Alt alts) prev s prev' r ->
  exists a m, In a alts /\ s = m ++ r /\ sameWord (chars a) m /\
              prev' = lastOr prev m.
Proof. intros H. inversion H; subst. eauto 6. Qed.

Lemma wordB_inv prev s prev' r :
  matchesItem true WordB prev s prev' r ->
  prev' = prev /\ r = s /\ atWordBoundary (prev, s) = true.
Proof.
  intros H. inversion H; subst. repeat split.
  unfold atWordBoundary. cbn [fst snd]. now rewrite <- !wordOpt_isWordAt.
Qed.

(** *** Reading at a place *)

Lemma readWord_app (w m : list ascii) :
  sameWord w m ->
  forall prev r, readWord w (prev, m ++ r) = Some (lastOr prev m, r).
Proof.
  induction 1 as [|c d w m Hcd Hwm IH]; intros prev r; [reflexivity|].
  cbn [readWord snd app]. rewrite <- chEq_lower, Hcd, IH.
  now rewrite lastOr_cons.
Qed.

Lemma readWord_inv (w : list ascii) :
  forall prev s prev' r,
    readWord w (prev, s) = Some (prev', r) ->
    exists m, s = m ++ r /\ sameWord w m /\ prev' = lastOr prev m.
Proof.
  induction w as [|c w IH]; intros prev s prev' r H; cbn [readWord snd] in H.
  - injection H as <- <-. exists []. repeat split. constructor.
  - destruct s as [|d s]; [discriminate|].
    destruct (Ascii.eqb (toLowerChar c) (toLowerChar d)) eqn:E; [|discriminate].
    destruct (IH _ _ _ _ H) as (m & -> & Hm & ->).
    exists (d :: m). split; [reflexivity|]. split.
    + constructor; [now rewrite chEq_lower | exact Hm].
    + now rewrite lastOr_cons.
Qed.

Lemma skipBlanks_app (m : list ascii) :
  blank m ->
  forall prev r, noBlankAhead r ->
                 skipBlanks prev (m ++ r) = (lastOr prev m, r).
Proof.
  induction 1 as [|c m Hc Hm IH]; intros prev r Hr.
  - destruct r as [|d r]; [reflexivity|]. simpl in Hr. simpl. now rewrite Hr.
  - cbn [app skipBlanks]. rewrite Hc, IH by exact Hr. now rewrite lastOr_cons.
Qed.

Lemma skipBlanks_inv (s : list ascii) :
  forall prev prev' r,
    skipBlanks prev s = (prev', r) ->
    exists m, s = m ++ r /\ blank m /\ prev' = lastOr prev m /\ noBlankAhead r.
Proof.
  induction s as [|c s IH]; intros prev prev' r H; cbn [skipBlanks] in H.
  - injection H as <- <-. exists []. repeat split. constructor.
  - destruct (isSpace c) eqn:E.
    + destruct (IH _ _ _ H) as (m & -> & Hm & -> & Hr).
      exists (c :: m). split; [reflexivity|]. split; [now constructor|].
      split; [now rewrite lastOr_cons | exact Hr].
    + injection H as <- <-. exists []. repeat split; [constructor | exact E].
Qed.

Lemma readBlanks_app (m : list ascii) prev r :
  blank m -> m <> [] -> noBlankAhead r ->
  readBlanks (prev, m ++ r) = Some (lastOr prev m, r).
Proof.
  intros Hm Hne Hr. unfold readBlanks, atBlank. cbn [fst snd].
  destruct m as [|c m]; [congruence|]. inversion Hm; subst. cbn [app].
  rewrite H1. f_equal. now apply (skipBlanks_app (c :: m)).
Qed.

Lemma readBlanks_inv prev s prev' r :
  readBlanks (prev, s) = Some (prev', r) ->
  exists m, s = m ++ r /\ blank m /\ m <> [] /\ prev' = lastOr prev m /\
            noBlankAhead r.
Proof.
  unfold readBlanks, atBlank. cbn [fst snd].
  destruct s as [|c s]; [discriminate|]. destruct (isSpace c) eqn:E; [|discriminate].
  intros H. injection H as H. change (skipBlanks prev (c :: s) = (prev', r)) in H.
  destruct (skipBlanks_inv _ _ _ _ H) as (m & Hs & Hm & Hp & Hr).
  exists m. repeat split; try assumption.
  intros ->. simpl in Hs. subst r. simpl in Hr. congruence.
Qed.

Lemma readComma_inv prev s prev' r :
  readComma (prev, s) = Some (prev', r) -> s = comma :: r /\ prev' = Some comma.
Proof.
  unfold readComma. cbn [snd]. destruct s as [|c s]; [discriminate|].
  destruct (Ascii.eqb_spec c comma) as [->|]; [|discriminate].
  now intros [= <- <-].
Qed.

(** A text that is a word without white space, or begins like one, does
    not begin with white space. *)
Lemma sameWord_ahead (w m r : list ascii) :
  sameWord w m -> Forall (fun c => isSpace c = false) w -> w <> [] ->
  noBlankAhead (m ++ r).
Proof.
  intros H Hw Hne. destruct H as [|c d w m Hcd _]; [congruence|].
  inversion Hw; subst. simpl. rewrite chEq_lower in Hcd.
  now rewrite (same_lower_space c d Hcd).
Qed.

(** *** The three patterns and the three kinds of occurrences *)

(** A pattern whose matches at a place all end at the same place is decided
    by the matcher, whatever the order of its attempts. *)
Lemma matchAt_place (its : list item) (here : place -> option place) :
  (forall prev s prev' r, matchesItems true its prev s prev' r ->
                          here (prev, s) = Some (prev', r)) ->
  (forall prev s prev' r, here (prev, s) = Some (prev', r) ->
                          matchesItems true its prev s prev' r) ->
  forall prev s, matchAt true its prev s = option_map snd (here (prev, s)).
Proof.
  intros Hfun Hex prev s.
  apply (matchAt_decides true its (fun prev s => option_map snd (here (prev, s)))).
  - intros p0 s0 p1 r Hm. now rewrite (Hfun _ _ _ _ Hm).
  - intros p0 s0 r Hh. destruct (here (p0, s0)) as [[p1 r1]|] eqn:E;
      [|discriminate]. injection Hh as ->. exists p1. now apply Hex.
Qed.

(** What a pattern matches is the front of the text, and the character
    handed on is the last one of it. *)
Lemma matchesItem_front (ci : bool) (it : item) prev s prev' r :
  matchesItem ci it prev s prev' r ->
  exists m, s = m ++ r /\ prev' = lastOr prev m.
Proof.
  intros H. destruct H; try (now exists m); try (now exists [d]); now exists [].
Qed.

Lemma matchesItems_front (ci : bool) (its : list item) prev s prev' r :
  matchesItems ci its prev s prev' r ->
  exists m, s = m ++ r /\ prev' = lastOr prev m.
Proof.
  induction 1 as [|it its prev s prev1 s1 prev2 s2 H1 H2 IH]; [now exists []|].
  destruct (matchesItem_front _ _ _ _ _ _ H1) as (m1 & -> & ->).
  destruct IH as (m2 & -> & ->).
  exists (m1 ++ m2). now rewrite <- app_assoc, lastOr_app.
Qed.

(** **** The literal pair *)

Lemma pair_function (name : string) prev s prev' r :
  matchesItems true (items (fullNamePattern name)) prev s prev' r ->
  pairAt name (prev, s) = Some (prev', r).
Proof.
  intros H. cbn [items fullNamePattern] in H.
  apply then_inv in H as (p1 & s1 & H1 & H).
  apply wordB_inv in H1 as (-> & -> & Hb1).
  apply then_inv in H as (p2 & s2 & H2 & H).
  apply lit_inv in H2 as (m & -> & Hm & ->).
  apply then_inv in H as (p3 & s3 & H3 & H).
  apply wordB_inv in H3 as (-> & -> & Hb2).
  apply end_inv in H as [-> ->].
  unfold pairAt. rewrite Hb1, (readWord_app _ _ Hm), Hb2. reflexivity.
Qed.

Lemma pair_exists (name : string) prev s prev' r :
  pairAt name (prev, s) = Some (prev', r) ->
  matchesItems true (items (fullNamePattern name)) prev s prev' r.
Proof.
  unfold pairAt. destruct (atWordBoundary (prev, s)) eqn:Hb1; [|discriminate].
  destruct (readWord (chars name) (prev, s)) as [[p1 s1]|] eqn:Hw; [|discriminate].
  destruct (atWordBoundary (p1, s1)) eqn:Hb2; [|discriminate].
  intros [= -> ->]. apply readWord_inv in Hw as (m & -> & Hm & ->).
  cbn [items fullNamePattern].
  eapply MatchThen; [apply MatchWordB|].
  { unfold atWordBoundary in Hb1. cbn [fst snd] in Hb1.
    now rewrite !wordOpt_isWordAt. }
  eapply MatchThen; [apply MatchLit, Hm|].
  eapply MatchThen; [apply MatchWordB | apply MatchEnd].
  unfold atWordBoundary in Hb2. cbn [fst snd] in Hb2.
  now rewrite !wordOpt_isWordAt.
Qed.

(** **** The list with commas *)

Lemma comma_inv prev s prev' r :
  matchesItem true (Lit ",") prev s prev' r ->
  s = comma :: r /\ prev' = Some comma.
Proof.
  intros H. apply lit_inv in H as (m & -> & Hm & ->).
  inversion Hm as [|c d w m' Hcd Hrest]; subst. inversion Hrest; subst.
  rewrite chEq_lower in Hcd. apply Ascii.eqb_eq in Hcd.
  assert (d = comma) as ->.
  { revert Hcd. destruct d as [[] [] [] [] [] [] [] []]; vm_compute; congruence. }
  split; reflexivity.
Qed.

Lemma comma_ahead (r : list ascii) : noBlankAhead (comma :: r).
Proof. reflexivity. Qed.

Lemma readComma_comma prev (r : list ascii) :
  readComma (prev, comma :: r) = Some (Some comma, r).
Proof. reflexivity. Qed.

Lemma skipBlanks_comma prev (r : list ascii) :
  skipBlanks prev (comma :: r) = (prev, comma :: r).
Proof. reflexivity. Qed.

Lemma blank_app (a b : list ascii) : blank a -> blank b -> blank (a ++ b).
Proof. intros Ha Hb. apply Forall_app. now split. Qed.

Lemma commaList_function (word1 word2 : string) prev s prev' r :
  noBlank word2 ->
  matchesItems true (items (commaListPattern word1 word2)) prev s prev' r ->
  commaListAt word1 word2 (prev, s) = Some (prev', r).
Proof.
  intros Hw2 H. cbn [items commaListPattern] in H.
  apply then_inv in H as (p1 & s1 & H1 & H).
  apply wordB_inv in H1 as (-> & -> & Hb1).
  apply then_inv in H as (p2 & s2 & H2 & H).
  apply lit_inv in H2 as (m1 & -> & Hm1 & ->).
  apply then_inv in H as (p3 & s3 & H3 & H).
  apply star_inv in H3 as (sp1 & -> & Hsp1 & ->).
  apply then_inv in H as (p4 & s4 & H4 & H).
  apply comma_inv in H4 as (-> & ->).
  apply then_inv in H as (p5 & s5 & H5 & H).
  apply star_inv in H5 as (sp2 & -> & Hsp2 & ->).
  apply then_inv in H as (p6 & s6 & H6 & H).
  apply lit_inv in H6 as (m2 & -> & Hm2 & ->).
  apply then_inv in H as (p7 & s7 & H7 & H).
  apply star_inv in H7 as (sp3 & -> & Hsp3 & ->).
  apply then_inv in H as (p8 & s8 & H8 & H).
  apply comma_inv in H8 as (-> & ->).
  apply end_inv in H as [-> ->].
  unfold commaListAt. rewrite Hb1, (readWord_app _ _ Hm1). cbn [mbind option_bind fst snd].
  rewrite (skipBlanks_app sp1 Hsp1 _ _ (comma_ahead _)), readComma_comma.
  cbn [mbind option_bind fst snd].
  destruct (chars word2) as [|c w2] eqn:Ew.
  - inversion Hm2; subst. cbn [app].
    rewrite app_assoc.
    rewrite (skipBlanks_app (sp2 ++ sp3) (blank_app _ _ Hsp2 Hsp3) _ _
               (comma_ahead _)).
    cbn [readWord mbind option_bind fst snd].
    rewrite skipBlanks_comma. cbn [fst snd].
    now rewrite readComma_comma.
  - assert (Ha : noBlankAhead (m2 ++ sp3 ++ comma :: s8)).
    { apply (sameWord_ahead (c :: w2)); [exact Hm2 | | discriminate].
      unfold noBlank in Hw2. now rewrite Ew in Hw2. }
    rewrite (skipBlanks_app sp2 Hsp2 _ _ Ha), (readWord_app _ _ Hm2).
    cbn [mbind option_bind fst snd].
    rewrite (skipBlanks_app sp3 Hsp3 _ _ (comma_ahead _)).
    now rewrite readComma_comma.
Qed.

Lemma blank_clsOk (m : list ascii) :
  blank m -> Forall (fun d => clsOk true isSpace d = true) m.
Proof.
  intros H. eapply Forall_impl; [exact H|]. intros c Hc. simpl.
  now rewrite clsOk_space.
Qed.

Lemma comma_match prev r :
  matchesItem true (Lit ",") prev (comma :: r) (Some comma) r.
Proof.
  apply (MatchLit true "," [comma] prev r). repeat constructor.
Qed.

Lemma boundary_match prev s :
  atWordBoundary (prev, s) = true -> matchesItem true WordB prev s prev s.
Proof.
  intros H. apply MatchWordB. unfold atWordBoundary in H. cbn [fst snd] in H.
  now rewrite !wordOpt_isWordAt.
Qed.

Lemma commaList_exists (word1 word2 : string) prev s prev' r :
  commaListAt word1 word2 (prev, s) = Some (prev', r) ->
  matchesItems true (items (commaListPattern word1 word2)) prev s prev' r.
Proof.
  unfold commaListAt. destruct (atWordBoundary (prev, s)) eqn:Hb1; [|discriminate].
  destruct (readWord (chars word1) (prev, s)) as [[p1 s1]|] eqn:Hw1;
    [|discriminate]. cbn [mbind option_bind fst snd].
  destruct (skipBlanks p1 s1) as [p2 s2] eqn:Hk1.
  destruct (readComma (p2, s2)) as [[p3 s3]|] eqn:Hc1; [|discriminate].
  cbn [mbind option_bind fst snd].
  destruct (skipBlanks p3 s3) as [p4 s4] eqn:Hk2.
  destruct (readWord (chars word2) (p4, s4)) as [[p5 s5]|] eqn:Hw2;
    [|discriminate]. cbn [mbind option_bind fst snd].
  destruct (skipBlanks p5 s5) as [p6 s6] eqn:Hk3. intros Hc2.
  apply readWord_inv in Hw1 as (m1 & -> & Hm1 & ->).
  apply skipBlanks_inv in Hk1 as (sp1 & -> & Hsp1 & -> & _).
  apply readComma_inv in Hc1 as (-> & ->).
  apply skipBlanks_inv in Hk2 as (sp2 & -> & Hsp2 & -> & _).
  apply readWord_inv in Hw2 as (m2 & -> & Hm2 & ->).
  apply skipBlanks_inv in Hk3 as (sp3 & -> & Hsp3 & -> & _).
  apply readComma_inv in Hc2 as (-> & ->).
  cbn [items commaListPattern].
  eapply MatchThen; [now apply boundary_match|].
  eapply MatchThen; [apply MatchLit, Hm1|].
  eapply MatchThen; [apply MatchStar, blank_clsOk, Hsp1|].
  eapply MatchThen; [apply comma_match|].
  eapply MatchThen; [apply MatchStar, blank_clsOk, Hsp2|].
  eapply MatchThen; [apply MatchLit, Hm2|].
  eapply MatchThen; [apply MatchStar, blank_clsOk, Hsp3|].
  eapply MatchThen; [apply comma_match | apply MatchEnd].
Qed.

(** **** The two words joined by a conjunction *)

Lemma conjunction_letter (c d : ascii) :
  c = "a"%char \/ c = "o"%char -> chEq true c d = true ->
  isSpace d = false /\ Ascii.eqb d comma = false.
Proof.
  intros Hc Hcd. rewrite chEq_lower in Hcd. apply Ascii.eqb_eq in Hcd.
  revert Hcd. destruct Hc as [-> | ->];
    destruct d as [[] [] [] [] [] [] [] []]; vm_compute; intros H;
    try discriminate H; split; reflexivity.
Qed.

Lemma conjunction_head (a r : list ascii) :
  conjunction a ->
  noBlankAhead (a ++ r) /\ (forall prev, readComma (prev, a ++ r) = None).
Proof.
  intros H.
  assert (exists c d m, a = d :: m /\ (c = "a"%char \/ c = "o"%char) /\
                        chEq true c d = true) as (c & d & m & -> & Hc & Hcd).
  { destruct H as [H|H];
      [change (chars "and") with ("a"%char :: chars "nd") in H
      |change (chars "or") with ("o"%char :: chars "r") in H];
      apply Forall2_cons_inv_l in H as (d & m & Hcd & _ & ->); eauto 7. }
  destruct (conjunction_letter c d Hc Hcd) as [Hs Hk].
  split; [exact Hs|]. intros prev. unfold readComma. cbn [snd app].
  now rewrite Hk.
Qed.

Lemma or_not_and (a r : list ascii) prev :
  sameWord (chars "or") a -> readWord (chars "and") (prev, a ++ r) = None.
Proof.
  intros H. change (chars "or") with ("o"%char :: chars "r") in H.
  apply Forall2_cons_inv_l in H as (d & m & Hcd & _ & ->).
  rewrite chEq_lower in Hcd. apply Ascii.eqb_eq in Hcd. cbn [app].
  change (chars "and") with ("a"%char :: chars "nd"). cbn [readWord snd].
  replace (Ascii.eqb (toLowerChar "a") (toLowerChar d)) with false; [reflexivity|].
  symmetry. apply Ascii.eqb_neq. rewrite <- Hcd. vm_compute. congruence.
Qed.

Lemma readAndOr_app (a r : list ascii) prev :
  conjunction a -> readAndOr (prev, a ++ r) = Some (lastOr prev a, r).
Proof.
  unfold readAndOr. intros [H|H].
  - now rewrite (readWord_app _ _ H).
  - now rewrite (or_not_and _ _ _ H), (readWord_app _ _ H).
Qed.

Lemma readAndOr_inv prev s prev' r :
  readAndOr (prev, s) = Some (prev', r) ->
  matchesItem true (Alt ["and"; "or"]) prev s prev' r.
Proof.
  unfold readAndOr.
  destruct (readWord (chars "and") (prev, s)) as [[pa sa]|] eqn:Ea; intros H.
  - injection H as -> ->. apply readWord_inv in Ea as (a & -> & Ha & ->).
    apply (MatchAlt true _ "and"); [now left | exact Ha].
  - apply readWord_inv in H as (a & -> & Ha & ->).
    apply (MatchAlt true _ "or"); [right; now left | exact Ha].
Qed.

Lemma blank_last (m : list ascii) prev :
  blank m -> m <> [] -> isWordAt (lastOr prev m) = false.
Proof.
  intros H. revert prev. induction H as [|c m Hc Hm IH]; intros prev Hne;
    [congruence|]. rewrite lastOr_cons. destruct m as [|d m'].
  - cbn. now apply space_not_word.
  - apply IH. discriminate.
Qed.

Lemma blank_atBlank (m r : list ascii) prev :
  blank m -> m <> [] -> atBlank (prev, m ++ r) = true.
Proof.
  intros H Hne. destruct H as [|c m Hc Hm]; [congruence|]. exact Hc.
Qed.

(** The text behind the second white space does not begin with white
    space: the second word, where it is not empty, has none, and where it is
    empty the word boundary asks for a letter, a digit or an underscore. *)
Lemma second_word_ahead (word2 : string) (sp m2 r : list ascii) prev :
  noBlank word2 -> blank sp -> sp <> [] -> sameWord (chars word2) m2 ->
  atWordBoundary (lastOr (lastOr prev sp) m2, r) = true ->
  noBlankAhead (m2 ++ r).
Proof.
  intros Hw Hsp Hne Hm Hb. destruct (chars word2) as [|c w2] eqn:Ew.
  - inversion Hm; subst. cbn [app]. unfold atWordBoundary in Hb.
    cbn [fst snd] in Hb. change (lastOr (lastOr prev sp) []) with (lastOr prev sp) in Hb.
    rewrite (blank_last _ _ Hsp Hne) in Hb. destruct r as [|d r]; [exact I|].
    cbn in Hb. cbn. destruct (isSpace d) eqn:E; [|reflexivity].
    now rewrite (space_not_word _ E) in Hb.
  - apply (sameWord_ahead (c :: w2)); [exact Hm | | discriminate].
    unfold noBlank in Hw. now rewrite Ew in Hw.
Qed.

Lemma atBlank_inv prev (m r : list ascii) :
  atBlank (prev, m ++ r) = true -> noBlankAhead r -> m <> [].
Proof.
  intros H Hr ->. cbn [app] in H. unfold atBlank in H. cbn [snd] in H.
  destruct r as [|c r]; [discriminate|]. simpl in Hr. congruence.
Qed.

Lemma readSeparator_comma prev (sp1 sp2 r : list ascii) :
  blank sp1 -> blank sp2 -> sp2 <> [] -> noBlankAhead r ->
  readSeparator (prev, sp1 ++ comma :: sp2 ++ r) = Some (lastOr (Some comma) sp2, r).
Proof.
  intros Hsp1 Hsp2 Hne Hr. unfold readSeparator. cbn [fst snd].
  rewrite (skipBlanks_app sp1 Hsp1 _ _ (comma_ahead _)), readComma_comma.
  now apply readBlanks_app.
Qed.

Lemma readSeparator_blank prev (sp r : list ascii) :
  blank sp -> sp <> [] -> noBlankAhead r ->
  (forall p, readComma (p, r) = None) ->
  readSeparator (prev, sp ++ r) = Some (lastOr prev sp, r).
Proof.
  intros Hsp Hne Hr Hc. unfold readSeparator. cbn [fst snd].
  rewrite (skipBlanks_app sp Hsp _ _ Hr), Hc.
  now rewrite (blank_atBlank sp r prev Hsp Hne).
Qed.

Lemma readSeparator_inv prev s prev' r :
  readSeparator (prev, s) = Some (prev', r) ->
  matchesItems true [Star isSpace; Opt (only comma); Plus isSpace]
    prev s prev' r.
Proof.
  unfold readSeparator. cbn [fst snd].
  destruct (skipBlanks prev s) as [p2 s2] eqn:Hk.
  apply skipBlanks_inv in Hk as (sp1 & -> & Hsp1 & -> & Hahead).
  destruct (readComma (lastOr prev sp1, s2)) as [[pc sc]|] eqn:Hc; intros H.
  - apply readComma_inv in Hc as (-> & ->).
    apply readBlanks_inv in H as (sp2 & -> & Hsp2 & Hne2 & -> & _).
    eapply MatchThen; [apply MatchStar, blank_clsOk, Hsp1|].
    eapply MatchThen; [apply MatchOptOne; reflexivity|].
    eapply MatchThen; [apply MatchPlus; [apply blank_clsOk, Hsp2 | exact Hne2]
                      | apply MatchEnd].
  - destruct (atBlank (prev, sp1 ++ s2)) eqn:Hat; [|discriminate].
    injection H as <- <-.
    eapply MatchThen;
      [apply (MatchStar true isSpace [] prev (sp1 ++ s2)); constructor|].
    eapply MatchThen; [apply MatchOptNone|].
    eapply MatchThen; [apply MatchPlus; [apply blank_clsOk, Hsp1
                                        | eapply atBlank_inv; eauto]
                      | apply MatchEnd].
Qed.

Lemma andOr_function (word1 word2 : string) prev s prev' r :
  noBlank word2 ->
  matchesItems true (items (andPattern word1 word2)) prev s prev' r ->
  andOrAt word1 word2 (prev, s) = Some (prev', r).
Proof.
  intros Hw2 H. cbn [items andPattern] in H.
  apply then_inv in H as (p1 & s1 & H1 & H).
  apply wordB_inv in H1 as (-> & -> & Hb1).
  apply then_inv in H as (p2 & s2 & H2 & H).
  apply lit_inv in H2 as (m1 & -> & Hm1 & ->).
  apply then_inv in H as (p3 & s3 & H3 & H).
  apply star_inv in H3 as (sp1 & -> & Hsp1 & ->).
  apply then_inv in H as (p4 & s4 & H4 & H).
  apply then_inv in H as (p5 & s5 & H5 & H).
  apply plus_inv in H5 as (sp2 & -> & Hsp2 & Hne2 & ->).
  apply then_inv in H as (p6 & s6 & H6 & H).
  apply alt_inv in H6 as (alt & a & Hin & -> & Ha & ->).
  assert (Hconj : conjunction a).
  { destruct Hin as [<-|[<-|[]]]; [now left | now right]. }
  apply then_inv in H as (p7 & s7 & H7 & H).
  apply plus_inv in H7 as (sp3 & -> & Hsp3 & Hne3 & ->).
  apply then_inv in H as (p8 & s8 & H8 & H).
  apply lit_inv in H8 as (m2 & -> & Hm2 & ->).
  apply then_inv in H as (p9 & s9 & H9 & H).
  apply wordB_inv in H9 as (-> & -> & Hb2).
  apply end_inv in H as [-> ->].
  pose proof (second_word_ahead _ _ _ _ _ Hw2 Hsp3 Hne3 Hm2 Hb2) as Hahead.
  destruct (conjunction_head a (sp3 ++ m2 ++ s8) Hconj) as [Ha1 Ha2].
  unfold andOrAt. rewrite Hb1, (readWord_app _ _ Hm1).
  cbn [mbind option_bind].
  apply opt_comma_inv in H4 as [[-> ->]|[-> ->]].
  - rewrite (readSeparator_comma _ _ _ _ Hsp1 Hsp2 Hne2 Ha1).
    cbn [mbind option_bind].
    rewrite (readAndOr_app _ _ _ Hconj). cbn [mbind option_bind].
    rewrite (readBlanks_app _ _ _ Hsp3 Hne3 Hahead). cbn [mbind option_bind].
    rewrite (readWord_app _ _ Hm2). cbn [mbind option_bind].
    now rewrite Hb2.
  - assert (Hne : sp1 ++ sp2 <> []).
    { intros E. apply app_eq_nil in E as [_ E]. contradiction. }
    rewrite (app_assoc sp1 sp2).
    rewrite (readSeparator_blank _ _ _ (blank_app _ _ Hsp1 Hsp2) Hne Ha1 Ha2).
    cbn [mbind option_bind].
    rewrite (readAndOr_app _ _ _ Hconj). cbn [mbind option_bind].
    rewrite (readBlanks_app _ _ _ Hsp3 Hne3 Hahead). cbn [mbind option_bind].
    rewrite (readWord_app _ _ Hm2). cbn [mbind option_bind].
    rewrite lastOr_app. now rewrite Hb2.
Qed.

Lemma andOr_exists (word1 word2 : string) prev s prev' r :
  andOrAt word1 word2 (prev, s) = Some (prev', r) ->
  matchesItems true (items (andPattern word1 word2)) prev s prev' r.
Proof.
  unfold andOrAt. destruct (atWordBoundary (prev, s)) eqn:Hb1; [|discriminate].
  destruct (readWord (chars word1) (prev, s)) as [[p1 s1]|] eqn:Hw1;
    [|discriminate]. cbn [mbind option_bind].
  destruct (readSeparator (p1, s1)) as [[p2 s2]|] eqn:H2; [|discriminate].
  cbn [mbind option_bind].
  destruct (readAndOr (p2, s2)) as [[p3 s3]|] eqn:H3; [|discriminate].
  cbn [mbind option_bind].
  destruct (readBlanks (p3, s3)) as [[p4 s4]|] eqn:H4; [|discriminate].
  cbn [mbind option_bind].
  destruct (readWord (chars word2) (p4, s4)) as [[p5 s5]|] eqn:H5;
    [|discriminate]. cbn [mbind option_bind].
  destruct (atWordBoundary (p5, s5)) eqn:Hb2; [|discriminate].
  intros [= -> ->].
  apply readWord_inv in Hw1 as (m1 & -> & Hm1 & ->).
  apply readSeparator_inv in H2.
  apply readAndOr_inv in H3.
  apply readBlanks_inv in H4 as (sp3 & -> & Hsp3 & Hne3 & -> & _).
  apply readWord_inv in H5 as (m2 & -> & Hm2 & ->).
  cbn [items andPattern].
  eapply MatchThen; [now apply boundary_match|].
  eapply MatchThen; [apply MatchLit, Hm1|].
  apply then_inv in H2 as (q1 & t1 & Hf1 & H2).
  eapply MatchThen; [exact Hf1|].
  apply then_inv in H2 as (q2 & t2 & Hf2 & H2).
  eapply MatchThen; [exact Hf2|].
  apply then_inv in H2 as (q3 & t3 & Hf3 & H2).
  apply end_inv in H2 as [-> ->].
  eapply MatchThen; [exact Hf3|].
  eapply MatchThen; [exact H3|].
  eapply MatchThen; [apply MatchPlus; [apply blank_clsOk, Hsp3 | exact Hne3]|].
  eapply MatchThen; [apply MatchLit, Hm2|].
  eapply MatchThen; [now apply boundary_match | apply MatchEnd].
Qed.

(** *** Counting *)

Lemma matchesItem_some (ci : bool) (it : item) prev s prev' r :
  matchesItem ci it prev s prev' r -> readsSome it ->
  (length r < length s)%nat.
Proof.
  intros H Hit. destruct H; simpl in Hit; try contradiction;
    rewrite ?length_app; simpl; try lia.
  - destruct H as [|c d w m]; [congruence|]. simpl. lia.
  - destruct m; [congruence|]. simpl. lia.
Qed.

Lemma matchesItem_length (ci : bool) (it : item) prev s prev' r :
  matchesItem ci it prev s prev' r -> (length r <= length s)%nat.
Proof.
  intros H. destruct (matchesItem_front _ _ _ _ _ _ H) as (m & -> & _).
  rewrite length_app. lia.
Qed.

Lemma matchesItems_length (ci : bool) (its : list item) prev s prev' r :
  matchesItems ci its prev s prev' r -> (length r <= length s)%nat.
Proof.
  intros H. destruct (matchesItems_front _ _ _ _ _ _ H) as (m & -> & _).
  rewrite length_app. lia.
Qed.

Lemma matchesItems_some (ci : bool) (its : list item) prev s prev' r :
  matchesItems ci its prev s prev' r -> Exists readsSome its ->
  (length r < length s)%nat.
Proof.
  induction 1 as [|it its prev s prev1 s1 prev2 s2 H1 H2 IH]; intros Hex.
  - inversion Hex.
  - pose proof (matchesItem_length _ _ _ _ _ _ H1).
    pose proof (matchesItems_length _ _ _ _ _ _ H2).
    inversion Hex; subst.
    + pose proof (matchesItem_some _ _ _ _ _ _ H1 ltac:(assumption)). lia.
    + specialize (IH ltac:(assumption)). lia.
Qed.

(** The characters still covered by an occurrence are passed over. *)
Lemma countFrom_covered (its : list item) (m : list ascii) :
  forall prev r,
    countFrom true its (length m) prev (m ++ r) = countFrom true its 0 (lastOr prev m) r.
Proof.
  induction m as [|c m IH]; intros prev r; [reflexivity|].
  cbn [length app]. rewrite lastOr_cons, <- IH. reflexivity.
Qed.

(** The matches of a pattern, counted as [String.prototype.match] finds
    them, are the occurrences counted from left to right, when the pattern
    reads one character at least and its matches at a place all end at one
    place. *)
Lemma countFrom_occurrences (its : list item) (here : place -> option place) :
  Exists readsSome its ->
  (forall prev s prev' r, matchesItems true its prev s prev' r ->
                          here (prev, s) = Some (prev', r)) ->
  (forall prev s prev' r, here (prev, s) = Some (prev', r) ->
                          matchesItems true its prev s prev' r) ->
  forall steps prev s,
    (length s < steps)%nat ->
    countFrom true its 0 prev s = countFromPlace here steps (prev, s).
Proof.
  intros Hsome Hfun Hex steps.
  induction steps as [|steps IH]; intros prev s Hlen; [lia|].
  destruct s as [|c s]; cbn [countFrom countFromPlace snd];
    rewrite (matchAt_place its here Hfun Hex).
  - destruct (here (prev, [])) as [[p1 r1]|] eqn:E; [|reflexivity].
    apply Hex in E. apply (matchesItems_some _ _ _ _ _ _ E) in Hsome.
    simpl in Hsome. lia.
  - destruct (here (prev, c :: s)) as [[p1 r1]|] eqn:E; cbn [option_map snd].
    + apply Hex in E. pose proof (matchesItems_some _ _ _ _ _ _ E Hsome) as Hlt.
      destruct (matchesItems_front _ _ _ _ _ _ E) as (m & Hm & ->).
      destruct m as [|d m].
      { simpl in Hm. subst r1. lia. }
      cbn [app] in Hm. injection Hm as <- ->.
      cbn zeta. f_equal. rewrite lastOr_cons, <- IH.
      * rewrite <- countFrom_covered. f_equal.
        cbn [length]. rewrite length_app. lia.
      * simpl in Hlen. rewrite length_app in Hlen. lia.
    + apply IH. simpl in Hlen. lia.
Qed.

Lemma countPattern_occurrences (re : regex) (here : place -> option place)
  (text : string) :
  ignoreCase re = true ->
  Exists readsSome (items re) ->
  (forall prev s prev' r, matchesItems true (items re) prev s prev' r ->
                          here (prev, s) = Some (prev', r)) ->
  (forall prev s prev' r, here (prev, s) = Some (prev', r) ->
                          matchesItems true (items re) prev s prev' r) ->
  countPattern text re = countOccurrences here text.
Proof.
  intros Hci Hsome Hfun Hex. unfold countPattern, countOccurrences.
  rewrite Hci. f_equal. apply countFrom_occurrences; auto.
Qed.

(** *** The pieces of a name *)

Lemma splitWs_go_noBlank (s : list ascii) :
  forall cur inSep,
    Forall (fun c => isSpace c = false) cur ->
    Forall noBlank (splitWs_go cur inSep s).
Proof.
  induction s as [|c s IH]; intros cur inSep Hcur; cbn [splitWs_go].
  - constructor; [|constructor]. unfold noBlank. rewrite chars_str.
    now apply Forall_rev.
  - destruct (isSpace c) eqn:E.
    + destruct inSep; [apply IH; constructor|].
      constructor; [|apply IH; constructor].
      unfold noBlank. rewrite chars_str. now apply Forall_rev.
    + apply IH. now constructor.
Qed.

Lemma splitWs_noBlank (name : string) (i : nat) :
  noBlank (nth i (splitWs name) "").
Proof.
  pose proof (splitWs_go_noBlank (chars name) [] false (List.Forall_nil _)) as H.
  fold (splitWs name) in H. rewrite List.Forall_forall in H.
  destruct (nth_in_or_default i (splitWs name) "") as [Hin| ->].
  - now apply H.
  - constructor.
Qed.

Lemma two_words_some (name : string) :
  length (splitWs name) = 2%nat -> chars name <> [].
Proof.
  intros H E. unfold splitWs in H. rewrite E in H. discriminate.
Qed.

(** *** The three counts *)

Lemma fullName_count (name text : string) :
  chars name <> [] ->
  countPattern text (fullNamePattern name) = countOccurrences (pairAt name) text.
Proof.
  intros Hne. apply countPattern_occurrences; [reflexivity | | |].
  - cbn [items fullNamePattern]. right. left. exact Hne.
  - apply pair_function.
  - apply pair_exists.
Qed.

Lemma andOr_count (word1 word2 text : string) :
  noBlank word2 ->
  countPattern text (andPattern word1 word2)
  = countOccurrences (andOrAt word1 word2) text.
Proof.
  intros Hw. apply countPattern_occurrences; [reflexivity | | |].
  - cbn [items andPattern]. do 4 right. left. exact I.
  - intros prev s prev' r. now apply andOr_function.
  - apply andOr_exists.
Qed.

Lemma commaList_count (word1 word2 text : string) :
  noBlank word2 ->
  countPattern text (commaListPattern word1 word2)
  = countOccurrences (commaListAt word1 word2) text.
Proof.
  intros Hw. apply countPattern_occurrences; [reflexivity | | |].
  - cbn [items commaListPattern]. do 3 right. left. discriminate.
  - intros prev s prev' r. now apply commaList_function.
  - apply commaList_exists.
Qed.

End ListRuleFacts.

(** ** Junk filter: the list-separation rule *)

Module FilterFacts.
Import JS Regex Extract Grouper Filter ListRule ListRuleFacts.

(** The ratio is rounded as the double is: 23 of 40 is 0.575, the double
    nearest to it lies below it, a hundred times that double is
    57.49999999999999, and [Math.round] gives 57 hundredths; 1 of 8 gives
    12.5 and 13 hundredths. *)
Example ratioHundredths_of_doubles :
  ratioHundredths 23 40 = 57 /\ ratioHundredths 1 8 = 13 /\
  ratioHundredths 1 3 = 33 /\ ratioHundredths 2 3 = 67 /\
  ratioHundredths 0 7 = 0 /\ ratioHundredths 5 0 = 0.
Proof. vm_compute. repeat split; reflexivity. Qed.

(** The decision of [detectListSeparation] on a two-word name is the rule
    as the specification words it: the three regular expressions count the
    three kinds of occurrences. *)
Lemma detectListSeparation_spec (name fullText : string) :
  length (splitWs name) = 2%nat ->
  detectListSeparation name (splitWs name) fullText = true <->
  listSeparatedCondition name fullText.
Proof.
  intros Hwords. unfold detectListSeparation, listSeparatedCondition.
  cbv zeta.
  rewrite (fullName_count name fullText (two_words_some name Hwords)).
  rewrite (andOr_count _ _ fullText (splitWs_noBlank name 1)).
  rewrite (commaList_count _ _ fullText (splitWs_noBlank name 1)).
  set (bigram := countOccurrences (pairAt name) fullText).
  set (withAnd := countOccurrences (andOrAt _ _) fullText).
  set (withCommas := countOccurrences (commaListAt _ _) fullText).
  destruct (Z.leb_spec 3 withAnd), (Z.ltb_spec bigram withAnd),
    (Z.leb_spec 3 withCommas), (Z.ltb_spec bigram withCommas);
    simpl; split; intros Hgoal; try reflexivity; try discriminate; lia.
Qed.

(** Past the first two heuristics, a rare two-word group is excluded
    for list separation exactly when the rule holds, and for no other
    reason of that name. *)
Lemma checkForExclusion_listSeparated (group : EntityGroup)
  (ssc mc : gmap string Z) (tw : list (string * Z)) (fullText : string) :
  (exists r, checkForExclusion group ssc mc tw fullText
             = Some (mkExclusion list_separated_names r)) <->
  (excludedEarlier group ssc tw = false /\
   length (splitWs (canonicalName group)) = 2%nat /\
   totalMentions group < 10 /\
   listSeparatedCondition (canonicalName group) fullText).
Proof.
  pose proof (detectListSeparation_spec (canonicalName group) fullText) as Hrule.
  revert Hrule. generalize (listSeparatedCondition (canonicalName group) fullText).
  intros rule Hrule.
  unfold checkForExclusion, excludedEarlier.
  set (first := Z.ltb 0 _ && Z.ltb _ _ && Z.leb 5 _).
  set (second := Nat.eqb _ 2 && Z.leb 3 _).
  destruct first, second; simpl;
    try (split; [intros [r H]; discriminate | intros (H & _); discriminate]).
  destruct (Nat.eqb_spec (length (splitWs (canonicalName group))) 2) as [E|E];
    simpl.
  - specialize (Hrule E).
    destruct (Z.ltb_spec (totalMentions group) 10); simpl.
    + destruct (detectListSeparation _ _ _); simpl.
      * split; [intros _; repeat split; auto; now apply Hrule | intros _; eauto].
      * split; [|intros (_ & _ & _ & H'); apply Hrule in H'; discriminate].
        intros [r H']. destruct (_ && _); discriminate.
    + split; [|intros (_ & _ & H' & _); lia].
      intros [r H']. destruct (_ && _); discriminate.
  - split; [intros [r H']; discriminate | intros (_ & H' & _); contradiction].
Qed.

(** The [excluded] list holds one entry per group that the check rejects. *)
Lemma excluded_origin (ssc mc : gmap string Z) (tw : list (string * Z))
  (fullText : string) (groups : list EntityGroup) :
  forall acc x,
    x ∈ excluded (fold_left (filterStep ssc mc tw fullText) groups acc) <->
    x ∈ excluded acc \/
    exists g ex,
      g ∈ groups /\ checkForExclusion g ssc mc tw fullText = Some ex /\
      x = mkExcluded (canonicalName g) (totalMentions g) (ex_reason ex)
            (ex_sentenceStartRatio ex).
Proof.
  induction groups as [|g groups IH]; intros acc x; simpl.
  - split; [now left | intros [H|(g & ex & Hg & _)]; [exact H | inversion Hg]].
  - rewrite IH. unfold filterStep.
    destruct (checkForExclusion g ssc mc tw fullText) as [ex|] eqn:Hex; simpl.
    + rewrite elem_of_app, list_elem_of_singleton. split.
      * intros [[H| ->]|(g' & ex' & Hg' & Hc & ->)]; [now left | |].
        -- right. exists g, ex. split; [left|]. now split.
        -- right. exists g', ex'. split; [now right|]. now split.
      * intros [H|(g' & ex' & Hg' & Hc & ->)]; [now left; left|].
        apply elem_of_cons in Hg' as [->|Hg'].
        -- left; right. congruence.
        -- right. exists g', ex'. now repeat split.
    + split.
      * intros [H|(g' & ex' & Hg' & Hc & ->)]; [now left|].
        right. exists g', ex'. split; [now right|]. now split.
      * intros [H|(g' & ex' & Hg' & Hc & ->)]; [now left|].
        apply elem_of_cons in Hg' as [->|Hg']; [congruence|].
        right. exists g', ex'. now repeat split.
Qed.

(** C5. For every two-word group with fewer than 10 total mentions that the
    earlier heuristics did not exclude, [filterJunk] reports it as excluded
    with reason [list_separated_names] exactly when one of the two list
    patterns (the two words joined by and/or with an optional comma, or the
    two words each followed by a comma) occurs at least 3 times in the text
    and more often than the two words as a literal pair. *)
Theorem list_separated_exclusion (entityGroups : list EntityGroup)
  (extractionResult : ExtractionResult) (fullText : string) (group : EntityGroup) :
  group ∈ entityGroups ->
  length (splitWs (canonicalName group)) = 2%nat ->
  totalMentions group < 10 ->
  excludedEarlier group (sentenceStartCounts extractionResult)
    (buildTwoWordFirstWordMap entityGroups) = false ->
  (exists x,
     x ∈ excluded (filterJunk entityGroups extractionResult fullText) /\
     x_text x = canonicalName group /\ x_mentions x = totalMentions group /\
     x_reason x = list_separated_names) <->
  listSeparatedCondition (canonicalName group) fullText.
Proof.
  intros Hin Hwords Htotal Hearly. unfold filterJunk. split.
  - intros (x & Hx & Htext & _ & Hreason).
    apply excluded_origin in Hx as [Hx|(g & ex & Hg & Hc & ->)]; [inversion Hx|].
    simpl in Htext, Hreason. destruct ex as [reason r]. simpl in Hreason. subst.
    assert (H : exists r', checkForExclusion g (sentenceStartCounts extractionResult)
                (mentionCounts extractionResult)
                (buildTwoWordFirstWordMap entityGroups) fullText
              = Some (mkExclusion list_separated_names r')) by eauto.
    apply checkForExclusion_listSeparated in H as (_ & _ & _ & H).
    now rewrite Htext in H.
  - intros Hcond.
    destruct (proj2 (checkForExclusion_listSeparated group
                       (sentenceStartCounts extractionResult)
                       (mentionCounts extractionResult)
                       (buildTwoWordFirstWordMap entityGroups) fullText))
      as [r Hr]; [now repeat split|].
    exists (mkExcluded (canonicalName group) (totalMentions group)
              list_separated_names r).
    split; [|now repeat split].
    apply excluded_origin. right.
    exists group, (mkExclusion list_separated_names r). now repeat split.
Qed.

(** The scenario of the specification, through the theorem: the group
    [Malfoy Crabbe] with 2 mentions, in a text that holds the enumeration
    three times and never the literal pair, is excluded for list
    separation. *)
Lemma list_separated_exclusion_witness :
  exists x,
    x ∈ excluded (filterJunk [malfoyCrabbe] emptyExtraction malfoyText) /\
    x_text x = "Malfoy Crabbe" /\ x_mentions x = 2 /\
    x_reason x = list_separated_names.
Proof.
  apply (list_separated_exclusion [malfoyCrabbe] emptyExtraction malfoyText
           malfoyCrabbe).
  - left.
  - reflexivity.
  - reflexivity.
  - reflexivity.
  - right. vm_compute. split; [discriminate | reflexivity].
Defined.

(** The pattern with a conjunction, on a run of [filterJunk]: [Ron and
    Hermione], [Ron, and Hermione] and [Ron  OR hermione] are three
    occurrences, the literal pair is one, and the group is excluded. *)
Example list_separated_by_conjunction :
  countOccurrences (andOrAt "Ron" "Hermione") ronText = 3 /\
  countOccurrences (commaListAt "Ron" "Hermione") ronText = 0 /\
  countOccurrences (pairAt "Ron Hermione") ronText = 1 /\
  map (fun x => (x_text x, x_reason x))
    (excluded (filterJunk [ronHermione] emptyExtraction ronText))
  = [("Ron Hermione", list_separated_names)].
Proof. vm_compute. repeat split; reflexivity. Qed.

End FilterFacts.

(** ** Tiering: bare titles are never confirmed *)

Module TierFacts.
Import JS Regex Extract Grouper Tier JSFacts RegexFacts.

(** No white-space character, and no capital letter, is a full stop,
    whatever the case folding. *)
Lemma space_not_dot (c : ascii) :
  isSpace c = true -> clsOk true (only dot) c = false.
Proof.
  destruct c as [[] [] [] [] [] [] [] []]; vm_compute; congruence.
Qed.

Lemma upper_not_space (c : ascii) :
  isUpperAZ c = true -> clsOk true isSpace c = false.
Proof.
  destruct c as [[] [] [] [] [] [] [] []]; vm_compute; congruence.
Qed.

Lemma upper_clsOk (c : ascii) :
  isUpperAZ c = true -> clsOk true isUpperAZ c = true.
Proof. intros H. unfold clsOk. now rewrite H. Qed.

(** The tail of the second pattern on white space and one capital. *)
Lemma letterTail_matches (sep : list ascii) (letter : ascii) (prev : option ascii) :
  sep <> [] -> forallb isSpace sep = true -> isUpperAZ letter = true ->
  mItems true [Plus isSpace; Cls isUpperAZ; Eol] (fun _ r => Some r) prev
    (sep ++ [letter]) = Some [].
Proof.
  intros Hne Hsep Hup. destruct sep as [|w sep]; [congruence|].
  simpl in Hsep. apply andb_true_iff in Hsep as [Hw Hsep].
  cbn [mItems mItem app]. rewrite (isSpace_clsOk true w Hw).
  apply mStar_run.
  - rewrite forallb_forall in Hsep |- *. intros x Hx.
    apply isSpace_clsOk, Hsep, Hx.
  - now apply upper_not_space.
  - intros prev'. cbn. now rewrite (upper_clsOk letter Hup).
Qed.

Lemma optDot_letterTail (sep : list ascii) (letter : ascii) (prev : option ascii) :
  sep <> [] -> forallb isSpace sep = true -> isUpperAZ letter = true ->
  mItems true [Opt (only dot); Plus isSpace; Cls isUpperAZ; Eol]
    (fun _ r => Some r) prev (sep ++ [letter]) = Some [].
Proof.
  intros Hne Hsep Hup.
  pose proof (letterTail_matches sep letter prev Hne Hsep Hup) as Ht.
  destruct sep as [|w sep]; [congruence|].
  simpl in Hsep. apply andb_true_iff in Hsep as [Hw Hsep].
  cbn [mItems] in *. unfold mItem at 1. cbn [app].
  rewrite (space_not_dot w Hw). exact Ht.
Qed.

Lemma dot_letterTail (sep : list ascii) (letter : ascii) (prev : option ascii) :
  sep <> [] -> forallb isSpace sep = true -> isUpperAZ letter = true ->
  mItems true [Opt (only dot); Plus isSpace; Cls isUpperAZ; Eol]
    (fun _ r => Some r) prev (dot :: sep ++ [letter]) = Some [].
Proof.
  intros Hne Hsep Hup.
  pose proof (letterTail_matches sep letter (Some dot) Hne Hsep Hup) as Ht.
  cbn [mItems] in *. unfold mItem at 1.
  replace (clsOk true (only dot) dot) with true by reflexivity.
  now rewrite Ht.
Qed.

(** A pattern that starts with the anchor and the title alternation
    matches a name made of a title and a tail the rest accepts. *)
Lemma test_title_prefix (rest : list item) (t : string) (tail : list ascii) :
  In t titleWords ->
  (forall prev, mItems true rest (fun _ r => Some r) prev tail = Some []) ->
  test (mkRegex (Bol :: Alt titleWords :: rest) true) (t +:+ str tail) = true.
Proof.
  intros Hin Htail. unfold test; simpl ignoreCase; simpl items.
  rewrite chars_append, chars_str.
  assert (Hm : exists r, matchAt true (Bol :: Alt titleWords :: rest) None
                           (chars t ++ tail) = Some r).
  { unfold matchAt. cbn [mItems mItem].
    destruct (mLit_self true (chars t)
                (mItems true rest (fun _ r => Some r)) None tail) as [prev' Hl].
    rewrite Htail in Hl.
    apply (mAlt_some true titleWords _ t None _ [] Hin Hl). }
  destruct Hm as [r Hr]. revert Hr.
  generalize (chars t ++ tail). intros l Hr.
  destruct l; cbn [testFrom]; now rewrite Hr.
Qed.

Lemma bareTitle_test (name : string) :
  isBareTitle name -> test bareTitlePattern name = true.
Proof.
  intros (t & Hin & [->| ->]).
  - replace t with (t +:+ str []).
    + apply test_title_prefix; [exact Hin | reflexivity].
    + apply chars_inj. rewrite chars_append. apply app_nil_r.
  - change (t +:+ ".") with (t +:+ str [dot]).
    apply test_title_prefix; [exact Hin | reflexivity].
Qed.

Lemma titleLetter_test (name : string) :
  isTitleWithLetter name -> test titleLetterPattern name = true.
Proof.
  intros (t & sep & letter & Hin & Hne & Hsep & Hup & [->| ->]).
  - apply test_title_prefix; [exact Hin|].
    intros prev. now apply optDot_letterTail.
  - change (t +:+ "." +:+ str (sep ++ [letter]))
      with (t +:+ str (dot :: sep ++ [letter])).
    apply test_title_prefix; [exact Hin|].
    intros prev. now apply dot_letterTail.
Qed.

Section Classifier.
Variable titlePatternList : list (string * option string).
Variable possessiveCounts : gmap string Z.

(** The disqualification comes first: with a disqualified name the check
    answers [None] whatever the evidence and the counts. *)
Lemma disqualified_first (group : EntityGroup) (singleWordCounts : list (string * Z))
  (minPossessive minMentions minPartMentions : Z) :
  isBareTitle (canonicalName group) \/ isTitleWithLetter (canonicalName group) ->
  checkTier1Qualification titlePatternList possessiveCounts group
    singleWordCounts minPossessive minMentions minPartMentions = None.
Proof.
  intros [H|H]; unfold checkTier1Qualification.
  - now rewrite (bareTitle_test _ H).
  - rewrite (titleLetter_test _ H).
    now destruct (test bareTitlePattern (canonicalName group)).
Qed.

(** Every confirmed entity comes from a group that qualified. *)
Lemma confirmed_origin (options : TierOptions) (sw : list (string * Z))
  (groups : list EntityGroup) :
  forall acc e,
    e ∈ confirmedCharacters (fold_left (tierStep titlePatternList possessiveCounts
                                          options sw) groups acc) ->
    e ∈ confirmedCharacters acc \/
    exists g q,
      g ∈ groups /\
      checkTier1Qualification titlePatternList possessiveCounts g sw
        (minPossessiveForConfirm options)
        (minMentionsForPossessiveConfirm options)
        (minIndependentPartMentions options) = Some q /\
      e = confirmedOf g q.
Proof.
  induction groups as [|g groups IH]; intros acc e He; simpl in He; [now left|].
  apply IH in He as [He|(g' & q & Hg & Hq & ->)].
  - unfold tierStep in He.
    destruct (checkTier1Qualification _ _ g sw _ _ _) as [q|] eqn:Hq.
    + simpl in He. apply elem_of_app in He as [He|He]; [now left|].
      apply list_elem_of_singleton in He as ->.
      right. exists g, q. split; [left|]. now split.
    + destruct (Z.leb _ _); simpl in He; now left.
  - right. exists g', q. split; [now right|]. now split.
Qed.

(** C6. In [tierEntities], a group whose canonical name is a bare title
    word (Mr, Mrs, Ms, Miss, Madam, Uncle, Aunt, Sir, Lord, Lady,
    Professor, Dr, with or without a trailing full stop) or a title followed
    by a single capital letter is disqualified before every qualification
    check, whatever its evidence and the counts, and no entity of the
    confirmed tier carries its name. *)
Theorem bare_title_never_confirmed (cleanGroups : list EntityGroup)
  (options : TierOptions) (group : EntityGroup) :
  isBareTitle (canonicalName group) \/ isTitleWithLetter (canonicalName group) ->
  (forall singleWordCounts minPossessive minMentions minPartMentions,
     checkTier1Qualification titlePatternList possessiveCounts group
       singleWordCounts minPossessive minMentions minPartMentions = None) /\
  (forall e,
     e ∈ confirmedCharacters
           (tierEntities titlePatternList possessiveCounts cleanGroups options) ->
     e_canonicalName e <> canonicalName group).
Proof.
  intros Hdis. split.
  - intros. now apply disqualified_first.
  - intros e He Heq. unfold tierEntities in He. simpl in He.
    apply sortBy_elem_of in He.
    apply confirmed_origin in He as [He|(g & q & Hg & Hq & ->)];
      [inversion He|].
    simpl in Heq. rewrite disqualified_first in Hq; [discriminate|].
    now rewrite Heq.
Qed.
End Classifier.

Lemma bare_title_never_confirmed_witness :
  (forall singleWordCounts minPossessive minMentions minPartMentions,
     checkTier1Qualification [("mrs", Some "honorific")] {["Harry" := 9]}
       exampleTitleGroup singleWordCounts minPossessive minMentions
       minPartMentions = None) /\
  (forall e,
     e ∈ confirmedCharacters
           (tierEntities [("mrs", Some "honorific")] {["Harry" := 9]}
              [exampleSingleGroup; exampleTitleGroup] defaultTierOptions) ->
     e_canonicalName e <> canonicalName exampleTitleGroup).
Proof.
  apply (bare_title_never_confirmed [("mrs", Some "honorific")] {["Harry" := 9]}
           [exampleSingleGroup; exampleTitleGroup] defaultTierOptions
           exampleTitleGroup).
  left. exists "Mrs". split; [simpl; tauto | now left].
Defined.

End TierFacts.

(** ** Co-reference: graceful degradation *)

Module CorefFacts.
Import JS Regex Extract Grouper Tier Coref JSFacts.

Section Degradation.
Variable llmProvider : Request -> outcome Response.
Variable JSON_parse : string -> Parsed.
Variable verbose : bool.




End Degradation.



(** With logging on, the same rejection is reported: [llmCorefMerge] fails
    on reading the message for the console, and throws the [TypeError] of
    that reading, which has a message. *)
Example degradation_with_logging :
  exists stats,
    runCorefResolution rejectingProvider noParse true vernonEntities []
    = Returned (mkCorefResolution vernonEntities [] stats None) /\
    cs_error stats
    = Some "LLM call failed: Cannot read properties of undefined (reading 'message')".
Proof. eexists. split; reflexivity. Qed.

(** ** Co-reference: what one merge group does *)





Lemma byResolved_total (a b : string * Entity) :
  byResolvedMentionsDesc a b = true \/ byResolvedMentionsDesc b a = true.
Proof. unfold byResolvedMentionsDesc. rewrite !Z.leb_le. lia. Qed.

Lemma byResolved_trans (a b c : string * Entity) :
  byResolvedMentionsDesc a b = true -> byResolvedMentionsDesc b c = true ->
  byResolvedMentionsDesc a c = true.
Proof. unfold byResolvedMentionsDesc. rewrite !Z.leb_le. lia. Qed.

Lemma sumMentions_perm (l l' : list (string * Entity)) :
  Permutation l l' -> sumMentions l = sumMentions l'.
Proof.
  unfold sumMentions. induction 1; simpl; lia.
Qed.

(** The comparison of two first-appearance objects never holds. *)
Lemma jsLessThan_never (a b : FirstAppearance) : jsLessThan a b = false.
Proof. reflexivity. Qed.

(** What [resolveGroup] returns is what the store holds. *)
Lemma resolveGroup_sound (st : MergeState) (names : list MergeName)
  (x : string * Entity) :
  In x (resolveGroup st names) ->
  In (fst x) (live st) /\ omap_get (fst x) (objects st) = Some (snd x).
Proof.
  unfold resolveGroup. intros H. apply list_elem_of_In in H.
  apply list_elem_of_omap in H as (n & _ & Hn).
  destruct n as [s|]; simpl in Hn; [|discriminate].
  destruct (inList s (live st)) eqn:Hl; [|discriminate].
  destruct (omap_get s (objects st)) as [e|] eqn:He; simpl in Hn; [|discriminate].
  injection Hn as <-. simpl. split; [|exact He].
  unfold inList in Hl. apply existsb_exists in Hl as (k & Hk & E).
  apply String.eqb_eq in E. now subst.
Qed.

Lemma resolveGroup_length (st : MergeState) (names : list MergeName) :
  (length (resolveGroup st names) <= length names)%nat.
Proof.
  unfold resolveGroup. induction names as [|n ns IH]; csimpl; [lia|].
  destruct (resolveName st n); csimpl; lia.
Qed.


Lemma absorb_fold (primary : string) (absorbed : list (string * Entity)) :
  forall objs alive ep,
    omap_get primary objs = Some ep ->
    (forall x, In x absorbed ->
       fst x <> primary /\ omap_get (fst x) objs = Some (snd x)) ->
    exists ep',
      omap_get primary
        (fst (fold_left (absorbStep primary) (map fst absorbed) (objs, alive)))
      = Some ep' /\
      e_canonicalName ep' = e_canonicalName ep /\
      e_mentions ep' = e_mentions ep + sumMentions absorbed /\
      e_mergedFrom ep' =
        e_mergedFrom ep ++ map (fun x => e_canonicalName (snd x)) absorbed /\
      (forall k, k <> primary ->
         omap_get k (fst (fold_left (absorbStep primary) (map fst absorbed)
                            (objs, alive))) = omap_get k objs) /\
      (forall k,
         In k (snd (fold_left (absorbStep primary) (map fst absorbed)
                      (objs, alive))) <->
         In k alive /\ ~ In k (map fst absorbed)).
Proof.
  induction absorbed as [|[o eo] rest IH]; intros objs alive ep Hp Hall; simpl.
  - exists ep. repeat split; try tauto; try lia. now rewrite app_nil_r.
  - destruct (Hall (o, eo) (or_introl eq_refl)) as [Hne Ho]. simpl in Hne, Ho.
    set (objs1 := absorb objs primary o).
    set (alive1 := List.filter (fun k => negb (String.eqb k o)) alive).
    assert (Hp1 : exists ep1, omap_get primary objs1 = Some ep1 /\
              e_canonicalName ep1 = e_canonicalName ep /\
              e_mentions ep1 = e_mentions ep + e_mentions eo /\
              e_mergedFrom ep1 = e_mergedFrom ep ++ [e_canonicalName eo]).
    { unfold objs1, absorb. rewrite Hp, Ho. rewrite omap_get_set_eq.
      eexists. split; [reflexivity|]. simpl. auto. }
    destruct Hp1 as (ep1 & Hp1 & Hn1 & Hm1 & Hf1).
    assert (Hother : forall k, k <> primary -> omap_get k objs1 = omap_get k objs).
    { intros k Hk. unfold objs1, absorb. rewrite Hp, Ho.
      apply omap_get_set_ne. congruence. }
    destruct (IH objs1 alive1 ep1 Hp1) as (ep' & Hget & Hn & Hm & Hf & Hk & Hl).
    { intros x Hx. destruct (Hall x (or_intror Hx)) as [Hx1 Hx2].
      split; [exact Hx1|]. now rewrite Hother. }
    exists ep'. unfold absorbStep at 2 4 6. simpl fst. simpl snd.
    fold objs1. fold alive1.
    split; [exact Hget|]. split; [congruence|].
    split; [rewrite Hm, Hm1; lia|].
    split; [rewrite Hf, Hf1, <- app_assoc; reflexivity|].
    split.
    + intros k Hkp. rewrite Hk by exact Hkp. now apply Hother.
    + intros k. rewrite Hl. unfold alive1. rewrite filter_In, negb_true_iff.
      rewrite String.eqb_neq. intuition congruence.
Qed.

(** The second loop leaves everything but the first appearance of the
    primary. *)
Lemma adopt_fold (primary : string) (others : list string) :
  forall objs ep,
    omap_get primary objs = Some ep ->
    exists ep',
      omap_get primary
        (fold_left (fun objs other => adoptFirstAppearance objs primary other)
           others objs) = Some ep' /\
      e_canonicalName ep' = e_canonicalName ep /\
      e_mentions ep' = e_mentions ep /\
      e_variants ep' = e_variants ep /\
      e_mergedFrom ep' = e_mergedFrom ep /\
      (forall k, k <> primary ->
         omap_get k
           (fold_left (fun objs other => adoptFirstAppearance objs primary other)
              others objs) = omap_get k objs).
Proof.
  induction others as [|o others IH]; intros objs ep Hp; simpl.
  - exists ep. auto 10.
  - assert (H1 : exists ep1,
              omap_get primary (adoptFirstAppearance objs primary o) = Some ep1 /\
              e_canonicalName ep1 = e_canonicalName ep /\
              e_mentions ep1 = e_mentions ep /\
              e_variants ep1 = e_variants ep /\
              e_mergedFrom ep1 = e_mergedFrom ep).
    { unfold adoptFirstAppearance. rewrite Hp.
      destruct (omap_get o objs) as [eo|]; [|exists ep; auto].
      destruct (e_firstAppearance eo) as [theirs|]; [|exists ep; auto].
      destruct (match e_firstAppearance ep with
                | Some ours => jsLessThan theirs ours
                | None => true
                end); [|exists ep; auto].
      rewrite omap_get_set_eq. eexists. split; [reflexivity|]. simpl. auto. }
    assert (Hother : forall k, k <> primary ->
              omap_get k (adoptFirstAppearance objs primary o) = omap_get k objs).
    { intros k Hk. unfold adoptFirstAppearance. rewrite Hp.
      destruct (omap_get o objs) as [eo|]; [|reflexivity].
      destruct (e_firstAppearance eo) as [theirs|]; [|reflexivity].
      destruct (match e_firstAppearance ep with
                | Some ours => jsLessThan theirs ours
                | None => true
                end); [|reflexivity].
      apply omap_get_set_ne. congruence. }
    destruct H1 as (ep1 & Hp1 & Hn1 & Hm1 & Hv1 & Hf1).
    destruct (IH _ ep1 Hp1) as (ep' & Hget & Hn & Hm & Hv & Hf & Hk).
    exists ep'. repeat split; try congruence.
    intros k Hkp. rewrite Hk by exact Hkp. now apply Hother.
Qed.

(** The body of the loop on a group that resolves to at least two
    distinct live entities, at any state of the loop. *)
Lemma applyGroup_effect (st : MergeState) (names : list MergeName) :
  (2 <= length (resolveGroup st names))%nat ->
  NoDup (map fst (resolveGroup st names)) ->
  exists primary absorbed merged,
    sortBy byResolvedMentionsDesc (resolveGroup st names) = primary :: absorbed /\
    (forall x, In x (resolveGroup st names) ->
       e_mentions (snd x) <= e_mentions (snd primary)) /\
    StronglySorted (fun a b => e_mentions (snd b) <= e_mentions (snd a)) absorbed /\
    omap_get (fst primary) (objects (applyGroup st (GroupArray names)))
    = Some merged /\
    e_canonicalName merged = e_canonicalName (snd primary) /\
    e_mentions merged = e_mentions (snd primary) + sumMentions absorbed /\
    e_mentions merged = sumMentions (resolveGroup st names) /\
    e_mergedFrom merged =
      e_mergedFrom (snd primary)
      ++ map (fun x => e_canonicalName (snd x)) absorbed /\
    In (fst primary) (live (applyGroup st (GroupArray names))) /\
    (forall x, In x absorbed ->
       ~ In (fst x) (live (applyGroup st (GroupArray names)))) /\
    appliedMerges (applyGroup st (GroupArray names)) =
      appliedMerges st
      ++ [mkAppliedMerge (e_canonicalName merged)
            (map (fun x => e_canonicalName (snd x)) absorbed)
            (e_mentions merged)].
Proof.
  intros Hlen Hnd.
  set (resolved := resolveGroup st names) in *.
  pose proof (sortBy_perm byResolvedMentionsDesc resolved) as Hperm.
  pose proof (sortBy_sorted byResolvedMentionsDesc byResolved_total
                byResolved_trans resolved) as Hsorted.
  destruct (sortBy byResolvedMentionsDesc resolved) as [|[p ep] absorbed] eqn:Hs.
  { apply Permutation_length in Hperm. simpl in Hperm. lia. }
  exists (p, ep), absorbed.
  (* the references are distinct, and hold the records of the store *)
  assert (Hnd' : NoDup (p :: map fst absorbed)).
  { change (p :: map fst absorbed) with (map fst ((p, ep) :: absorbed)).
    change (map fst ((p, ep) :: absorbed)) with (fst <$> ((p, ep) :: absorbed)).
    rewrite Hperm. exact Hnd. }
  apply NoDup_cons in Hnd' as [Hp_notin _].
  assert (Hin : forall x, In x ((p, ep) :: absorbed) -> In x resolved).
  { intros x Hx. apply list_elem_of_In. rewrite <- Hperm.
    now apply list_elem_of_In. }
  destruct (resolveGroup_sound st names (p, ep) (Hin _ (or_introl eq_refl)))
    as [Hp_live Hp_get]. simpl in Hp_live, Hp_get.
  assert (Hall : forall x, In x absorbed ->
            fst x <> p /\ omap_get (fst x) (objects st) = Some (snd x)).
  { intros x Hx. split.
    - intros E. apply Hp_notin. rewrite <- E.
      apply list_elem_of_In, in_map, Hx.
    - apply (resolveGroup_sound st names x), Hin. now right. }
  destruct (absorb_fold p absorbed (objects st) (live st) ep Hp_get Hall)
    as (ep1 & Hget1 & Hn1 & Hm1 & Hf1 & Hk1 & Hl1).
  destruct (adopt_fold p (map fst absorbed) _ ep1 Hget1)
    as (ep2 & Hget2 & Hn2 & Hm2 & _ & Hf2 & Hk2).
  (* the state after the group *)
  assert (Hst : objects (applyGroup st (GroupArray names)) =
                fold_left (fun objs other => adoptFirstAppearance objs p other)
                  (map fst absorbed)
                  (fst (fold_left (absorbStep p) (map fst absorbed)
                          (objects st, live st))) /\
                live (applyGroup st (GroupArray names)) =
                snd (fold_left (absorbStep p) (map fst absorbed)
                       (objects st, live st)) /\
                appliedMerges (applyGroup st (GroupArray names)) =
                appliedMerges st
                ++ [mkAppliedMerge
                      (nameOf (objects (applyGroup st (GroupArray names))) p)
                      (map (nameOf (objects (applyGroup st (GroupArray names))))
                         (map fst absorbed))
                      (mentionsOf (objects (applyGroup st (GroupArray names))) p)]).
  { unfold applyGroup.
    pose proof (resolveGroup_length st names) as Hle. fold resolved in Hle.
    destruct (Nat.ltb_spec (length names) 2) as [Hlt|_]; [lia|].
    fold resolved.
    destruct (Nat.ltb_spec (length resolved) 2) as [Hlt|_]; [lia|].
    rewrite Hs. cbn [map fst].
    destruct (fold_left (absorbStep p) (map fst absorbed) (objects st, live st))
      as [objs alive]. simpl. auto. }
  destruct Hst as (Hobjs & Hlive & Happlied).
  exists ep2. simpl fst. simpl snd.
  split; [reflexivity|].
  split.
  { intros x Hx. apply list_elem_of_In in Hx. rewrite <- Hperm in Hx.
    apply list_elem_of_In in Hx. destruct Hx as [<-|Hx]; [simpl; lia|].
    inversion Hsorted as [|? ? _ Hhd]; subst.
    rewrite Forall_forall in Hhd. apply list_elem_of_In, Hhd in Hx.
    unfold byResolvedMentionsDesc in Hx. simpl in Hx. now apply Z.leb_le. }
  split.
  { inversion Hsorted as [|? ? Htl _]; subst. clear -Htl.
    induction Htl as [|a l Hl IH Ha]; constructor; [exact IH|].
    eapply Forall_impl; [exact Ha|]. intros b Hb.
    unfold byResolvedMentionsDesc in Hb. now apply Z.leb_le. }
  split; [rewrite Hobjs; exact Hget2|].
  split; [congruence|].
  split; [lia|].
  split.
  { rewrite Hm2, Hm1. rewrite <- (sumMentions_perm _ _ Hperm). reflexivity. }
  split; [congruence|].
  split.
  { rewrite Hlive. apply Hl1. split; [exact Hp_live|].
    intros H. apply Hp_notin. now apply list_elem_of_In. }
  split.
  { intros x Hx. rewrite Hlive, Hl1. intros [_ H]. apply H. now apply in_map. }
  rewrite Happlied. unfold nameOf, mentionsOf.
  rewrite Hobjs, Hget2. do 3 f_equal.
  rewrite map_map. apply map_ext_in. intros x Hx.
  destruct (Hall x Hx) as [Hne Hx_get].
  rewrite Hk2, Hk1, Hx_get by exact Hne. reflexivity.
Qed.




(** The whole function on the scenario. *)
Example applyMerges_vernon :
  map (fun e => (e_canonicalName e, e_mentions e, e_mergedFrom e))
    (mr_entities (applyMerges vernonEntities [vernonGroup]))
  = [("Vernon", 65, ["Uncle Vernon"; "Mr Dursley"])].
Proof. reflexivity. Qed.

(** ** Co-reference: the first appearance of the primary *)

(** A primary that has a first appearance keeps it through the second
    loop, whatever the absorbed records hold. *)
Lemma adopt_keeps_present (primary : string) (others : list string) :
  forall objs ep fa,
    omap_get primary objs = Some ep -> e_firstAppearance ep = Some fa ->
    exists ep',
      omap_get primary
        (fold_left (fun objs other => adoptFirstAppearance objs primary other)
           others objs) = Some ep' /\
      e_firstAppearance ep' = Some fa.
Proof.
  induction others as [|o others IH]; intros objs ep fa Hp Hfa; simpl.
  - now exists ep.
  - apply (IH _ ep fa); [|exact Hfa].
    unfold adoptFirstAppearance. rewrite Hp.
    destruct (omap_get o objs) as [eo|]; [|exact Hp].
    destruct (e_firstAppearance eo) as [theirs|]; [|exact Hp].
    rewrite Hfa, jsLessThan_never. exact Hp.
Qed.

(** C4, at the failing input. Vernon (50 mentions, first seen in chapter 3,
    paragraph 2) absorbs Uncle Vernon (10 mentions, first seen in chapter
    1, paragraph 0): the absorbed position is strictly earlier by chapter
    and paragraph, and the primary keeps its own. *)
Theorem first_appearance_not_adopted :
  earlier (mkFirstAppearance 1 0 None) (mkFirstAppearance 3 2 None) = true /\
  map (fun e => (e_canonicalName e, e_firstAppearance e))
    (mr_entities
       (applyMerges
          [entityOf "Vernon" 50 (mkFirstAppearance 3 2 None);
           entityOf "Uncle Vernon" 10 (mkFirstAppearance 1 0 None)]
          [GroupArray [NameString "Vernon"; NameString "Uncle Vernon"]]))
  = [("Vernon", Some (mkFirstAppearance 3 2 None))].
Proof. split; reflexivity. Qed.

(** ** Co-reference: the mention total through the merges *)








(** Without the name among the variants the total is counted twice. *)
Example applyMerges_double_count :
  map (fun e => (e_mentions e, sumCounts (e_variants e)))
    (mr_entities
       (applyMerges
          [mkEntity "a" "A" 5 [plain "a" 5] None None None None [];
           mkEntity "b" "B" 3 [plain "b" 3] None None None None []]
          [GroupArray [NameString "A"; NameString "B"]]))
  = [(8, 11)].
Proof. reflexivity. Qed.

End CorefFacts.

(** ** The mention total along the pipeline *)

Module PipelineFacts.
Import JS Extract Grouper Filter Tier Coref.
Import JSFacts GrouperFacts CorefFacts.








Section Tiering.
Variable titlePatternList : list (string * option string).
Variable possessiveCounts : gmap string Z.



End Tiering.


End PipelineFacts.

(** ** De-duplication of an already de-duplicated list *)

Module DedupeFacts.
Import JS Snippets Dedupe JSFacts.

(** *** The grouping key stands for the pair of chapter and paragraph *)


Lemma uint_no_underscore (d : Decimal.uint) :
  ~ In underscore (chars (NilEmpty.string_of_uint d)).
Proof.
  induction d; simpl; intros H;
    try (destruct H as [H|H]; [discriminate H | exact (IHd H)]).
  exact H.
Qed.

Lemma showZ_no_underscore (z : Z) : ~ In underscore (chars (showZ z)).
Proof.
  unfold showZ.
  assert (G : forall d, ~ In underscore (chars (NilZero.string_of_uint d))).
  { intros d. destruct d; try apply uint_no_underscore.
    simpl. intros [H|[]]. discriminate H. }
  destruct (Z.to_int z) as [d|d]; simpl.
  - apply G.
  - intros [H|H]; [discriminate H | exact (G d H)].
Qed.

Lemma showZ_inj (a b : Z) : showZ a = showZ b -> a = b.
Proof.
  unfold showZ. intros H.
  assert (G : forall z, NilZero.int_of_string
                          (NilZero.string_of_int (Z.to_int z))
                        = Some (Z.to_int z)).
  { intros z. apply NilZero.isi; destruct z; simpl; try discriminate;
      intros [= E]; exact (DecimalPos.Unsigned.to_uint_nonnil _ E). }
  apply DecimalZ.to_int_inj.
  pose proof (G a) as Ha. rewrite H, G in Ha. congruence.
Qed.

Lemma keyOf_pair (a b : Snippet) :
  Dedupe.keyOf a = Dedupe.keyOf b <->
  chapter a = chapter b /\
  paragraphIndex (location a) = paragraphIndex (location b).
Proof.
  unfold Dedupe.keyOf. split.
  - intros H. apply (f_equal chars) in H. rewrite !chars_append in H.
    simpl in H.
    apply split_at_first in H as [H1 H2]; try apply showZ_no_underscore.
    apply chars_inj, showZ_inj in H1. apply chars_inj, showZ_inj in H2.
    now split.
  - intros [-> ->]. reflexivity.
Qed.

(** *** The groups of [groupBy] *)

Section GroupBy.
Context {A : Type} (keyFn : A -> string).


Lemma groupBy_lookup (items : list A) :
  forall groups k,
    default [] (omap_get k (fold_left (groupStep keyFn) items groups)) =
    default [] (omap_get k groups)
    ++ List.filter (fun x => String.eqb (keyFn x) k) items.
Proof.
  induction items as [|x items IH]; intros groups k; simpl.
  - now rewrite app_nil_r.
  - rewrite IH. unfold groupStep.
    destruct (String.eqb_spec (keyFn x) k) as [E|E].
    + rewrite E, omap_get_set_eq. simpl. now rewrite <- app_assoc.
    + now rewrite omap_get_set_ne.
Qed.

Lemma omap_set_keys {V : Type} (k : string) (v : V) (m : list (string * V)) :
  map fst (omap_set k v m) =
  if omap_has k m then map fst m else map fst m ++ [k].
Proof.
  unfold omap_has. induction m as [|[k' v'] m IH]; simpl; [reflexivity|].
  destruct (String.eqb k k') eqn:E; simpl; [reflexivity|].
  rewrite IH. now destruct (omap_get k m).
Qed.

Lemma omap_get_None_keys {V : Type} (k : string) (m : list (string * V)) :
  omap_get k m = None -> ~ In k (map fst m).
Proof.
  induction m as [|[k' v'] m IH]; simpl; [tauto|].
  destruct (String.eqb_spec k k') as [E|E]; [discriminate|].
  intros H [H'|H']; [congruence | now apply IH].
Qed.

Lemma groupBy_keys (items : list A) :
  forall groups,
    NoDup (map fst groups) -> NoDup (map fst (fold_left (groupStep keyFn) items groups)).
Proof.
  induction items as [|x items IH]; intros groups H; simpl; [exact H|].
  apply IH. unfold groupStep. rewrite omap_set_keys. unfold omap_has.
  destruct (omap_get (keyFn x) groups) eqn:E; [exact H|].
  apply NoDup_app. split; [exact H|]. split; [|apply NoDup_singleton].
  intros k Hk Hk'. apply list_elem_of_singleton in Hk'. subst k.
  apply (omap_get_None_keys _ _ E). now apply list_elem_of_In.
Qed.

Lemma omap_In_get {V : Type} (k : string) (v : V) (m : list (string * V)) :
  NoDup (map fst m) -> In (k, v) m -> omap_get k m = Some v.
Proof.
  induction m as [|[k' v'] m IH]; simpl; [tauto|].
  intros Hnd [H|H].
  - injection H as -> ->. now rewrite String.eqb_refl.
  - apply NoDup_cons in Hnd as [Hk Hnd].
    destruct (String.eqb_spec k k') as [E|E]; [|now apply IH].
    exfalso. apply Hk. subst k'. apply list_elem_of_In.
    change k with (fst (k, v)). now apply in_map.
Qed.

Lemma omap_set_concat (k : string) (x : A) (m : list (string * list A)) :
  Permutation
    (concat (map snd (omap_set k (default [] (omap_get k m) ++ [x]) m)))
    (concat (map snd m) ++ [x]).
Proof.
  induction m as [|[k' v'] m IH]; simpl; [reflexivity|].
  destruct (String.eqb k k') eqn:E; simpl.
  - rewrite <- !app_assoc. apply Permutation_app_head, Permutation_app_comm.
  - rewrite IH. now rewrite app_assoc.
Qed.

Lemma groupBy_concat (items : list A) :
  forall groups,
    Permutation (concat (map snd (fold_left (groupStep keyFn) items groups)))
      (concat (map snd groups) ++ items).
Proof.
  induction items as [|x items IH]; intros groups; simpl.
  - now rewrite app_nil_r.
  - rewrite IH. unfold groupStep. rewrite omap_set_concat.
    now rewrite <- app_assoc.
Qed.

(** Each group holds the items of its key, in input order. *)
Lemma groupBy_group (items : list A) (k : string) (g : list A) :
  In (k, g) (groupBy keyFn items) ->
  g = List.filter (fun x => String.eqb (keyFn x) k) items.
Proof.
  intros H. unfold groupBy in H.
  apply omap_In_get in H; [|apply groupBy_keys; constructor].
  pose proof (groupBy_lookup items [] k) as L. rewrite H in L. exact L.
Qed.
End GroupBy.

(** *** One group without neighbours to merge *)

Lemma mergeAdjacent_apart (rest : list Snippet) :
  forall current,
    gapsOver2 (current :: rest) -> mergeAdjacent current rest = current :: rest.
Proof.
  induction rest as [|next rest IH]; intros current H; simpl; [reflexivity|].
  destruct H as [Hgap H].
  destruct (Z.leb_spec (startOf next - endOf current) 2); [lia|].
  now rewrite IH.
Qed.

Lemma dedupeGroup_apart (group : list Snippet) :
  gapsOver2 (sortBy byStart group) -> dedupeGroup group = sortBy byStart group.
Proof.
  unfold dedupeGroup. destruct (sortBy byStart group) as [|a rest];
    [reflexivity|]. apply mergeAdjacent_apart.
Qed.

Lemma documentOrder_total (a b : Snippet) :
  documentOrder a b = true \/ documentOrder b a = true.
Proof.
  unfold documentOrder.
  destruct (Z.eqb_spec (chapter a) (chapter b)),
    (Z.eqb_spec (chapter b) (chapter a)),
    (Z.eqb_spec (paragraphIndex (location a)) (paragraphIndex (location b))),
    (Z.eqb_spec (paragraphIndex (location b)) (paragraphIndex (location a)));
    simpl; rewrite ?Z.leb_le; lia.
Qed.

Lemma documentOrder_trans (a b c : Snippet) :
  documentOrder a b = true -> documentOrder b c = true ->
  documentOrder a c = true.
Proof.
  unfold documentOrder.
  destruct (Z.eqb_spec (chapter a) (chapter b)),
    (Z.eqb_spec (chapter b) (chapter c)),
    (Z.eqb_spec (chapter a) (chapter c)),
    (Z.eqb_spec (paragraphIndex (location a)) (paragraphIndex (location b))),
    (Z.eqb_spec (paragraphIndex (location b)) (paragraphIndex (location c))),
    (Z.eqb_spec (paragraphIndex (location a)) (paragraphIndex (location c)));
    simpl; rewrite ?Z.leb_le; lia.
Qed.

(** The group of a key is the group of a chapter and paragraph. *)
Lemma key_group (snippets : list Snippet) (s : Snippet) :
  List.filter (fun x => String.eqb (Dedupe.keyOf x) (Dedupe.keyOf s)) snippets
  = paragraphGroup (chapter s) (paragraphIndex (location s)) snippets.
Proof.
  unfold paragraphGroup. apply filter_ext. intros x.
  destruct (String.eqb_spec (Dedupe.keyOf x) (Dedupe.keyOf s)) as [E|E].
  - apply keyOf_pair in E as [-> ->]. now rewrite !Z.eqb_refl.
  - destruct (Z.eqb_spec (chapter x) (chapter s)) as [E1|E1]; [|reflexivity].
    destruct (Z.eqb_spec (paragraphIndex (location x))
                (paragraphIndex (location s))) as [E2|E2]; [|reflexivity].
    exfalso. apply E, keyOf_pair. now split.
Qed.

Lemma groups_apart (snippets : list Snippet) :
  alreadyDeduplicated snippets ->
  forall groups,
    (forall g, In g groups -> In g (groupBy Dedupe.keyOf snippets)) ->
    flat_map (fun g => dedupeGroup (snd g)) groups
    = flat_map (fun g => sortBy byStart (snd g)) groups.
Proof.
  intros Hd. induction groups as [|[k g] groups IH]; intros Hin; [reflexivity|].
  simpl. rewrite IH by (intros g' Hg'; apply Hin; now right).
  f_equal. apply dedupeGroup_apart.
  pose proof (groupBy_group Dedupe.keyOf snippets k g (Hin _ (or_introl eq_refl)))
    as Hg.
  destruct g as [|s g']; [exact I|].
  assert (Hs : In s (List.filter
                       (fun x => String.eqb (Dedupe.keyOf x) k) snippets))
    by (rewrite <- Hg; now left).
  apply filter_In in Hs as [_ Hs]. apply String.eqb_eq in Hs. subst k.
  rewrite Hg, key_group. apply Hd.
Qed.

Lemma flat_map_sorted_perm (groups : list (string * list Snippet)) :
  Permutation (flat_map (fun g => sortBy byStart (snd g)) groups)
    (concat (map snd groups)).
Proof.
  induction groups as [|[k g] groups IH]; simpl; [reflexivity|].
  now rewrite IH, sortBy_perm.
Qed.

Lemma dedupeSnippets_unfold (snippets : list Snippet) :
  dedupeSnippets snippets =
  renumber (sortBy documentOrder
              (flat_map (fun g => dedupeGroup (snd g))
                 (groupBy Dedupe.keyOf snippets))).
Proof. destruct snippets; reflexivity. Qed.

(** The ids and positions of the result on that list. *)
Example dedupe_far_apart :
  map (fun s => (id s, chapter s, paragraphIndex (location s), startOf s))
    (dedupeSnippets farApartSnippets)
  = [("s_0000", 1, 0, 0); ("s_0001", 2, 4, 1); ("s_0002", 2, 4, 6)].
Proof. reflexivity. Qed.

End DedupeFacts.

(** ** Index building: co-occurrence symmetry *)

Module IndicesFacts.
Import JS Snippets Indices Grouper JSFacts.


Lemma entry_pushId (x k k' : string) (index : gmap string (list string)) :
  entry (pushId x index k') k =
  if decide (k' = k) then entry index k ++ [x] else entry index k.
Proof.
  unfold entry, pushId. destruct (decide (k' = k)) as [->|Hne].
  - now rewrite lookup_insert_eq.
  - now rewrite lookup_insert_ne.
Qed.

Lemma count_occ_snoc (l : list string) (x y : string) :
  count_occ string_dec (l ++ [x]) y =
  (count_occ string_dec l y + if decide (x = y) then 1 else 0)%nat.
Proof.
  rewrite count_occ_app. simpl.
  destruct (string_dec x y), (decide (x = y)); congruence.
Qed.

(** What one snippet's pushes add under a key. *)
Lemma count_fold_pushId (x y k : string) (keys : list string) :
  forall index,
    count_occ string_dec (entry (fold_left (pushId x) keys index) k) y =
    (count_occ string_dec (entry index k) y +
     if decide (x = y) then count_occ string_dec keys k else 0)%nat.
Proof.
  induction keys as [|k' keys IH]; intros index; simpl.
  - destruct (decide (x = y)); lia.
  - rewrite IH, entry_pushId.
    destruct (string_dec k' k) as [E|E], (decide (k' = k)) as [E'|E'];
      try congruence.
    rewrite count_occ_snoc. destruct (decide (x = y)); lia.
Qed.


Lemma count_fold_addSnippet (k y : string) (snippets : list Snippet) :
  forall index,
    count_occ string_dec (entry (fold_left addSnippet snippets index) k) y =
    (count_occ string_dec (entry index k) y +
     sum_list_with (contribution k y) snippets)%nat.
Proof.
  induction snippets as [|s rest IH]; intros index; simpl; [lia|].
  rewrite IH. unfold addSnippet at 1. rewrite count_fold_pushId.
  unfold contribution at 2, keysOf. lia.
Qed.

(** With distinct snippet ids, only the snippet itself contributes. *)
Lemma contribution_unique (k : string) (s : Snippet) (snippets : list Snippet) :
  NoDup (map id snippets) -> s ∈ snippets ->
  sum_list_with (contribution k (id s)) snippets =
  count_occ string_dec (keysOf s) k.
Proof.
  induction snippets as [|a rest IH]; intros Hnd Hin; [inversion Hin|].
  simpl in Hnd. apply NoDup_cons in Hnd as [Ha Hnd]. simpl.
  assert (Hzero : forall l, id a ∉ map id l ->
            sum_list_with (contribution k (id a)) l = 0%nat).
  { induction l as [|b l IHl]; intros Hb; simpl; [reflexivity|].
    simpl in Hb. apply not_elem_of_cons in Hb as [Hb1 Hb2].
    rewrite (IHl Hb2). unfold contribution.
    destruct (decide (id b = id a)); [congruence|reflexivity]. }
  apply elem_of_cons in Hin as [->|Hin].
  - rewrite (Hzero rest Ha). unfold contribution.
    destruct (decide (id a = id a)); [lia|congruence].
  - rewrite (IH Hnd Hin). unfold contribution at 1.
    destruct (decide (id a = id s)) as [E|E]; [|reflexivity].
    exfalso. apply Ha. rewrite E.
    change (map id rest) with (id <$> rest). now apply list_elem_of_fmap_2.
Qed.

(** *** Pairs of a sorted list *)

Lemma pairsOf_elem_of (l : list string) (x y : string) :
  (x, y) ∈ pairsOf l -> x ∈ l /\ y ∈ l.
Proof.
  induction l as [|a l IH]; simpl; intros H; [inversion H|].
  apply elem_of_app in H as [H|H].
  - change (map (fun y => (a, y)) l) with ((fun y => (a, y)) <$> l) in H.
    apply list_elem_of_fmap in H as (z & E & Hz). inversion E; subst.
    split; [left | now right].
  - destruct (IH H). split; now right.
Qed.

Lemma pairsOf_NoDup (l : list string) : NoDup l -> NoDup (pairsOf l).
Proof.
  induction 1 as [|a l Ha Hnd IH]; simpl; [constructor|].
  apply NoDup_app. split; [|split].
  - change (map (fun y => (a, y)) l) with ((fun y => (a, y)) <$> l).
    apply NoDup_fmap_2_strong; [|exact Hnd]. intros; congruence.
  - intros [x y] H1 H2.
    change (map (fun y => (a, y)) l) with ((fun y => (a, y)) <$> l) in H1.
    apply list_elem_of_fmap in H1 as (z & E & Hz). inversion E; subst.
    apply pairsOf_elem_of in H2 as [H2 _]. contradiction.
  - exact IH.
Qed.

(** Of two distinct members of a list, one precedes the other. *)
Lemma pairsOf_covers (l : list string) (a b : string) :
  a ∈ l -> b ∈ l -> a <> b -> (a, b) ∈ pairsOf l \/ (b, a) ∈ pairsOf l.
Proof.
  induction l as [|x l IH]; intros Ha Hb Hab; [inversion Ha|]. simpl.
  apply elem_of_cons in Ha as [->|Ha]; apply elem_of_cons in Hb as [->|Hb].
  - congruence.
  - left. apply elem_of_app. left.
    change (map (fun y => (x, y)) l) with ((fun y => (x, y)) <$> l).
    now apply list_elem_of_fmap_2.
  - right. apply elem_of_app. left.
    change (map (fun y => (x, y)) l) with ((fun y => (x, y)) <$> l).
    now apply list_elem_of_fmap_2.
  - destruct (IH Ha Hb Hab); [left|right]; apply elem_of_app; now right.
Qed.

Lemma pairsOf_sorted (l : list string) (x y : string) :
  StronglySorted (fun a b => String.leb a b = true) l ->
  (x, y) ∈ pairsOf l -> String.leb x y = true.
Proof.
  induction 1 as [|a l Hs IH Hall]; simpl; intros H; [inversion H|].
  apply elem_of_app in H as [H|H]; [|now apply IH].
  change (map (fun y => (a, y)) l) with ((fun y => (a, y)) <$> l) in H.
  apply list_elem_of_fmap in H as (z & E & Hz). inversion E; subst.
  rewrite Forall_forall in Hall. now apply Hall.
Qed.

(** *** The key of a pair determines the pair *)


Lemma plusFree_not_In (s : string) : plusFree s -> ~ In "+"%char (chars s).
Proof.
  unfold plusFree. rewrite forallb_forall. intros H Hin.
  specialize (H _ Hin). now rewrite Ascii.eqb_refl in H.
Qed.

Lemma keyOf_inj (a b c d : string) :
  plusFree a -> plusFree c -> keyOf (a, b) = keyOf (c, d) -> (a, b) = (c, d).
Proof.
  intros Ha Hc E. apply plusFree_not_In in Ha, Hc. unfold keyOf in E; simpl in E.
  apply (f_equal chars) in E. rewrite !chars_append in E. simpl in E.
  apply split_at_first in E as [E1 E2]; auto.
  apply chars_inj in E1, E2. congruence.
Qed.

(** *** Generated entity ids hold no plus sign *)

Lemma collapseRuns_chars (l : list ascii) :
  forall inRun c, In c (collapseRuns inRun l) ->
                  isIdChar c = true \/ c = "_"%char.
Proof.
  induction l as [|x l IH]; intros inRun c H; simpl in H; [destruct H|].
  destruct (isIdChar x) eqn:Hx.
  - destruct H as [<-|H]; [now left | now apply (IH false)].
  - destruct inRun.
    + now apply (IH true).
    + destruct H as [<-|H]; [now right | now apply (IH true)].
Qed.

Lemma dropUnderscore_In (l : list ascii) (c : ascii) :
  In c (dropUnderscore l) -> In c l.
Proof.
  destruct l as [|x l]; simpl; [tauto|].
  destruct (Ascii.eqb x "_"%char); simpl; tauto.
Qed.

Lemma generateEntityId_plusFree (canonicalName : string) :
  plusFree (generateEntityId canonicalName).
Proof.
  unfold plusFree, generateEntityId. rewrite chars_str.
  apply forallb_forall. intros c Hc.
  apply in_rev, dropUnderscore_In, in_rev, dropUnderscore_In in Hc.
  apply collapseRuns_chars in Hc as [Hc| ->]; [|reflexivity].
  destruct (Ascii.eqb_spec c "+"%char) as [->|]; [discriminate Hc | reflexivity].
Qed.

(** A snippet with duplicate-free, plus-free entity ids pushes its id
    exactly once under the key of each pair of its entities. *)
Lemma keysOf_count (s : Snippet) (a b : string) :
  NoDup (entities s) -> Forall plusFree (entities s) ->
  a ∈ entities s -> b ∈ entities s -> a <> b ->
  count_occ string_dec (keysOf s) (pairKey a b) = 1%nat.
Proof.
  intros Hnd Hpf Ha Hb Hab. unfold keysOf.
  set (l := sortBy String.leb (entities s)).
  assert (Hl : NoDup l) by now apply sortBy_NoDup.
  assert (Hs : StronglySorted (fun a b => String.leb a b = true) l)
    by (apply sortBy_sorted; [apply String.leb_total | apply string_leb_trans]).
  assert (Hmem : forall x, x ∈ l -> plusFree x).
  { intros x Hx. apply sortBy_elem_of in Hx.
    rewrite Forall_forall in Hpf. now apply Hpf. }
  assert (Hk : NoDup (map keyOf (pairsOf l))).
  { change (map keyOf (pairsOf l)) with (keyOf <$> pairsOf l).
    apply NoDup_fmap_2_strong; [|now apply pairsOf_NoDup].
    intros [x y] [x' y'] H1 H2 E.
    apply pairsOf_elem_of in H1 as [H1 _]. apply pairsOf_elem_of in H2 as [H2 _].
    apply keyOf_inj; auto. }
  apply NoDup_ListNoDup in Hk.
  apply (proj1 (NoDup_count_occ' string_dec _) Hk).
  apply in_map_iff.
  destruct (pairsOf_covers l a b) as [H|H]; try (now apply sortBy_elem_of); auto.
  - exists (a, b). split; [|now apply list_elem_of_In].
    unfold pairKey. now rewrite (pairsOf_sorted l a b Hs H).
  - exists (b, a). split; [|now apply list_elem_of_In].
    unfold pairKey. destruct (String.leb a b) eqn:Hle; [|reflexivity].
    exfalso. apply Hab. apply String.leb_antisym; [exact Hle|].
    apply (pairsOf_sorted l b a Hs H).
Qed.

(** The unordered key does not depend on the order of the two ids. *)
Lemma pairKey_comm (a b : string) : pairKey a b = pairKey b a.
Proof.
  unfold pairKey.
  destruct (String.leb a b) eqn:H1, (String.leb b a) eqn:H2; try reflexivity.
  - now rewrite (String.leb_antisym a b H1 H2).
  - destruct (String.leb_total a b); congruence.
Qed.

(** C8. For every list of snippets with distinct ids whose entity lists are
    duplicate-free lists of generated ids (no plus sign), and every snippet
    of it that contains two distinct entity ids [a] and [b], the
    co-occurrence index holds that snippet's id exactly once under the one
    key made of [a] and [b] in lexicographic order joined by a plus sign,
    whatever the order of [a] and [b] in the snippet's entity list. *)
Theorem cooccurrence_symmetry (snippets : list Snippet) (s : Snippet) (a b : string) :
  NoDup (map id snippets) ->
  (forall s', s' ∈ snippets ->
     NoDup (entities s') /\ Forall plusFree (entities s')) ->
  s ∈ snippets -> a ∈ entities s -> b ∈ entities s -> a <> b ->
  pairKey a b = pairKey b a /\
  exists ids,
    buildCooccurrenceIndex snippets !! pairKey a b = Some ids /\
    count_occ string_dec ids (id s) = 1%nat.
Proof.
  intros Hids Hwf Hs Ha Hb Hab. split; [apply pairKey_comm|].
  destruct (Hwf s Hs) as [Hnd Hpf].
  pose proof (count_fold_addSnippet (pairKey a b) (id s) snippets ∅) as Hc.
  rewrite (contribution_unique _ _ _ Hids Hs) in Hc.
  rewrite (keysOf_count s a b Hnd Hpf Ha Hb Hab) in Hc.
  unfold entry at 2 in Hc. rewrite lookup_empty in Hc. simpl in Hc.
  unfold buildCooccurrenceIndex. rewrite lookup_fmap.
  unfold entry in Hc.
  destruct (fold_left addSnippet snippets ∅ !! pairKey a b) as [l|]; simpl in *;
    [|discriminate].
  exists (sortBy String.leb l). split; [reflexivity|].
  rewrite <- Hc. apply Permutation_count_occ, sortBy_perm.
Qed.

Lemma cooccurrence_symmetry_witness :
  pairKey "ron" "harry" = pairKey "harry" "ron" /\
  exists ids,
    buildCooccurrenceIndex exampleSnippets !! pairKey "ron" "harry" = Some ids /\
    count_occ string_dec ids "s_0000" = 1%nat.
Proof.
  apply (cooccurrence_symmetry exampleSnippets
           (mkSnippet "s_0000" 1 1 "The Boy Who Lived"
              (mkLocation 0 (SentenceIndex 0))
              (mkSnippetText "" "Ron waved at Harry." "Hermione sighed.")
              ["ron"; "harry"; "hermione"] []) "ron" "harry").
  - apply (bool_decide_unpack _). vm_compute. reflexivity.
  - intros s' Hs'. unfold exampleSnippets in Hs'.
    apply elem_of_cons in Hs' as [->|Hs'];
      [|apply elem_of_cons in Hs' as [->|Hs']; [|inversion Hs']];
      (split; [apply (bool_decide_unpack _); vm_compute; reflexivity
              | repeat constructor]).
  - left.
  - simpl. apply list_elem_of_In. simpl. tauto.
  - simpl. apply list_elem_of_In. simpl. tauto.
  - discriminate.
Defined.

End IndicesFacts.

(* ===================================================================== *)
(** * Further properties, stage by stage *)
(* ===================================================================== *)

(** ** Extraction: what the counts, positions and names are *)

Module ExtractCounts.
Import JS Extract ExtractSpec ExtractFacts.

Lemma orElse_countEntry (n : nat) : orElse (countEntry n) 0 = Z.of_nat n.
Proof.
  destruct n as [|n]; [reflexivity|]. unfold countEntry, orElse.
  destruct (Z.eqb_spec (Z.of_nat (S n)) 0); lia.
Qed.

Lemma countEntry_succ (n : nat) : countEntry (S n) = Some (Z.of_nat n + 1).
Proof. unfold countEntry. f_equal. lia. Qed.

Lemma bump_countEntry (k k' : string) (m : gmap string Z) (n : nat) :
  m !! k = countEntry n ->
  bump k m !! k' = if String.eqb k' k then countEntry (S n) else m !! k'.
Proof.
  intros Hk. unfold bump.
  destruct (String.eqb_spec k' k) as [->|Hne].
  - rewrite lookup_insert_eq, Hk, orElse_countEntry, countEntry_succ. reflexivity.
  - rewrite lookup_insert_ne by congruence. reflexivity.
Qed.

Lemma mentionsOfForm_snoc (k : string) (ms : list Mention) (m : Mention) :
  mentionsOfForm k (ms ++ [m])
  = mentionsOfForm k ms ++ (if String.eqb (m_normalized m) k then [m] else []).
Proof. unfold mentionsOfForm. rewrite List.filter_app. reflexivity. Qed.

Lemma countsAgree_initial : countsAgree initialState.
Proof. intros k. cbn. rewrite !lookup_empty. auto. Qed.

Lemma countsAgree_recordMention (i : Z) (st : ExtractState) (pn : ProperNoun) :
  countsAgree st -> countsAgree (recordMention i st pn).
Proof.
  intros H k. destruct (H k) as (Hm & Hp & Hs & Hf).
  destruct (H (pn_normalized pn)) as (Hm' & Hp' & Hs' & Hf').
  unfold recordMention.
  cbn [st_mentions st_mentionCounts st_possessiveCounts st_sentenceStartCounts
       st_firstAppearances].
  rewrite mentionsOfForm_snoc. cbn [m_normalized].
  rewrite !List.filter_app, !length_app.
  rewrite (bump_countEntry _ k _ _ Hm').
  destruct (String.eqb_spec k (pn_normalized pn)) as [->|Hne].
  - rewrite String.eqb_refl. cbn [List.filter m_isPossessive m_isAtSentenceStart].
    repeat split.
    + f_equal. cbn [length]. lia.
    + destruct (pn_isPossessive pn); cbn [length].
      * rewrite (bump_countEntry _ (pn_normalized pn) _ _ Hp'), String.eqb_refl.
        f_equal. lia.
      * rewrite Hp'. f_equal. lia.
    + destruct (pn_isAtSentenceStart pn); cbn [length].
      * rewrite (bump_countEntry _ (pn_normalized pn) _ _ Hs'), String.eqb_refl.
        f_equal. lia.
      * rewrite Hs'. f_equal. lia.
    + rewrite Hf'.
      destruct (mentionsOfForm (pn_normalized pn) (st_mentions st)) as [|m0 rest];
        cbn.
      * rewrite lookup_insert_eq. reflexivity.
      * exact Hf'.
      
  - assert (E : String.eqb (pn_normalized pn) k = false)
      by (apply String.eqb_neq; congruence).
    assert (E' : String.eqb k (pn_normalized pn) = false)
      by (apply String.eqb_neq; congruence).
    rewrite E. cbn [List.filter length]. rewrite !app_nil_r, !Nat.add_0_r.
    repeat split.
    + exact Hm.
    + destruct (pn_isPossessive pn); [|exact Hp].
      rewrite (bump_countEntry _ k _ _ Hp'), E'. exact Hp.
    + destruct (pn_isAtSentenceStart pn); [|exact Hs].
      rewrite (bump_countEntry _ k _ _ Hs'), E'. exact Hs.
    + destruct (st_firstAppearances st !! pn_normalized pn); [exact Hf|].
      rewrite lookup_insert_ne; [exact Hf|]. congruence.
Qed.

Lemma countsAgree_fold (i : Z) (pns : list ProperNoun) (st : ExtractState) :
  countsAgree st -> countsAgree (fold_left (recordMention i) pns st).
Proof.
  revert st. induction pns as [|pn pns IH]; intros st H; simpl; [exact H|].
  apply IH, countsAgree_recordMention, H.
Qed.

Section WithConfig.
Variable stopwordWords chapterStartPatterns : list string.
Variable titlePatternList : list (string * option string).

Lemma countsAgree_processLine (i : Z) (st : ExtractState) (line : string) :
  countsAgree st ->
  countsAgree (processLine stopwordWords chapterStartPatterns titlePatternList
                 i st line).
Proof.
  intros H. unfold processLine.
  destruct (String.eqb (trim line) "---"); [exact H|].
  destruct (st_inFrontmatter st); [exact H|].
  destruct (Regex.test chapterHeader line); [exact H|].
  destruct (String.eqb (trim line) ""); [exact H|].
  apply countsAgree_fold, H.
Qed.

Lemma countsAgree_processLines (lines : list string) (i : Z) (st : ExtractState) :
  countsAgree st ->
  countsAgree (processLines stopwordWords chapterStartPatterns titlePatternList
                 i st lines).
Proof.
  revert i st. induction lines as [|l ls IH]; intros i st H; simpl; [exact H|].
  apply IH, countsAgree_processLine, H.
Qed.

(** For every text, configuration and form, the three dictionaries of counts
    of [extractProperNouns] hold exactly the number of mentions of the form,
    of its possessive mentions and of its mentions at a sentence start; a
    form that was never counted has no entry. *)
Theorem extractProperNouns_counts_per_form (text k : string) :
  let r := extractProperNouns stopwordWords chapterStartPatterns
             titlePatternList text in
  mentionCounts r !! k = countEntry (length (mentionsOfForm k (mentions r))) /\
  possessiveCounts r !! k
  = countEntry (length (List.filter m_isPossessive
                          (mentionsOfForm k (mentions r)))) /\
  sentenceStartCounts r !! k
  = countEntry (length (List.filter m_isAtSentenceStart
                          (mentionsOfForm k (mentions r)))).
Proof.
  intros r. subst r. unfold extractProperNouns.
  cbn [mentions mentionCounts possessiveCounts sentenceStartCounts].
  destruct (countsAgree_processLines (splitLines text) 0 initialState
              countsAgree_initial k) as (Hm & Hp & Hs & _).
  auto.
Qed.

(** For every text, configuration and form, [firstAppearances] holds, for a
    form that was mentioned, the chapter, the paragraph and the surface form
    of its first mention in document order, and nothing for a form that was
    not. *)
Theorem extractProperNouns_first_appearance (text k : string) :
  let r := extractProperNouns stopwordWords chapterStartPatterns
             titlePatternList text in
  firstAppearances r !! k
  = match mentionsOfForm k (mentions r) with
    | m :: _ =>
        Some (mkFirstAppearance (m_chapter m) (m_paragraph m) (Some (m_form m)))
    | [] => None
    end.
Proof.
  intros r. subst r. unfold extractProperNouns.
  cbn [mentions firstAppearances].
  destruct (countsAgree_processLines (splitLines text) 0 initialState
              countsAgree_initial k) as (_ & _ & _ & Hf).
  rewrite Hf.
  destruct (mentionsOfForm k _); reflexivity.
Qed.
End WithConfig.
End ExtractCounts.

Module ExtractOrder.
Import JS Extract ExtractSpec.

Lemma StronglySorted_snoc {A : Type} (R : A -> A -> Prop) (l : list A) (x : A) :
  StronglySorted R l -> Forall (fun a => R a x) l -> StronglySorted R (l ++ [x]).
Proof.
  induction 1 as [|a l Hl IH Ha]; intros Hx; simpl.
  - repeat constructor.
  - apply Forall_cons in Hx as [Hax Hx]. constructor; [now apply IH|].
    apply Forall_app. split; [exact Ha | repeat constructor; exact Hax].
Qed.

Lemma ordered_weaken (i j : Z) (st : ExtractState) :
  i <= j -> ordered i st -> ordered j st.
Proof.
  intros Hij (Hc & Hp & Hall & Hs). repeat split; try assumption.
  eapply Forall_impl; [exact Hall|]. cbn. intros m ?. intuition lia.
Qed.

Lemma ordered_recordMention (i : Z) (st : ExtractState) (pn : ProperNoun) :
  0 <= i -> ordered (i + 1) st -> ordered (i + 1) (recordMention i st pn).
Proof.
  intros Hi (Hc & Hp & Hall & Hs). unfold ordered, recordMention.
  cbn [st_currentChapter st_paragraphIndex st_mentions].
  repeat split; try assumption.
  - apply Forall_app. split; [exact Hall|].
    constructor; [|constructor]. cbn. repeat split; try lia. right. lia.
  - apply StronglySorted_snoc; [exact Hs|].
    eapply Forall_impl; [exact Hall|]. cbn. intros m (Hl & _ & _ & Hpos).
    split; cbn; [lia | exact Hpos].
Qed.

Lemma ordered_fold (i : Z) (pns : list ProperNoun) (st : ExtractState) :
  0 <= i -> ordered (i + 1) st ->
  ordered (i + 1) (fold_left (recordMention i) pns st).
Proof.
  intros Hi. revert st. induction pns as [|pn pns IH]; intros st H; simpl;
    [exact H|].
  apply IH, ordered_recordMention; assumption.
Qed.

Section WithConfig.
Variable stopwordWords chapterStartPatterns : list string.
Variable titlePatternList : list (string * option string).

Lemma ordered_processLine (i : Z) (st : ExtractState) (line : string) :
  0 <= i -> ordered i st ->
  ordered (i + 1)
    (processLine stopwordWords chapterStartPatterns titlePatternList i st line).
Proof.
  intros Hi H. apply (ordered_weaken i (i + 1)) in H; [|lia].
  unfold processLine.
  destruct (String.eqb (trim line) "---"); [exact H|].
  destruct (st_inFrontmatter st); [exact H|].
  destruct H as (Hc & Hp & Hall & Hs).
  destruct (Regex.test chapterHeader line).
  { unfold ordered. cbn. repeat split; try assumption; try lia.
    eapply Forall_impl; [exact Hall|]. cbn. intros m (? & ? & ? & Hpos).
    repeat split; try assumption; try lia.
    left. destruct Hpos; lia. }
  destruct (String.eqb (trim line) "").
  { unfold ordered. cbn. repeat split; try assumption; try lia.
    eapply Forall_impl; [exact Hall|]. cbn. intros m (? & ? & ? & Hpos).
    repeat split; try assumption; try lia.
    destruct Hpos; [left; lia | right; lia]. }
  apply ordered_fold; [exact Hi|]. repeat split; assumption.
Qed.

Lemma ordered_processLines (lines : list string) (i : Z) (st : ExtractState) :
  0 <= i -> ordered i st ->
  ordered (i + Z.of_nat (length lines))
    (processLines stopwordWords chapterStartPatterns titlePatternList
       i st lines).
Proof.
  revert i st. induction lines as [|l ls IH]; intros i st Hi H.
  - simpl. now rewrite Z.add_0_r.
  - cbn [processLines length].
    replace (i + Z.of_nat (S (length ls))) with (i + 1 + Z.of_nat (length ls))
      by lia.
    apply IH; [lia|]. apply ordered_processLine; assumption.
Qed.

(** For every text and configuration, the mentions of [extractProperNouns]
    come in document order: line numbers never decrease along the list, nor
    does the position by chapter and paragraph; every line number lies
    between 1 and the number of lines of the text, every chapter number
    between 0 and [metadata.chaptersProcessed], and no paragraph index is
    negative. *)
Theorem extractProperNouns_document_order (text : string) :
  let r := extractProperNouns stopwordWords chapterStartPatterns
             titlePatternList text in
  StronglySorted inDocumentOrder (mentions r) /\
  Forall (fun m =>
            1 <= m_line m <= Z.of_nat (length (splitLines text)) /\
            0 <= m_chapter m <= md_chaptersProcessed (metadata r) /\
            0 <= m_paragraph m)
    (mentions r).
Proof.
  intros r. subst r. unfold extractProperNouns.
  cbn [mentions metadata md_chaptersProcessed].
  destruct (ordered_processLines (splitLines text) 0 initialState)
    as (Hc & Hp & Hall & Hs).
  { lia. }
  { unfold ordered, initialState. cbn. repeat split; try lia; constructor. }
  split; [exact Hs|].
  eapply Forall_impl; [exact Hall|]. cbn. intros m (Hl & ? & ? & Hpos).
  repeat split; try lia. destruct Hpos; lia.
Qed.
End WithConfig.
End ExtractOrder.

Module ExtractShape.
Import JS Extract ExtractSpec JSFacts.

Lemma isCapitalized_append (a b : string) :
  isCapitalized a = true -> isCapitalized (a +:+ b) = true.
Proof.
  unfold isCapitalized. rewrite chars_append.
  destruct (chars a) as [|c l]; [discriminate|]. simpl. auto.
Qed.

Lemma isCapitalized_prefix (a b : string) (t : list ascii) :
  chars a = chars b ++ t -> isCapitalized b = true -> isCapitalized a = true.
Proof.
  unfold isCapitalized. intros ->.
  destruct (chars b) as [|c l]; [discriminate|]. simpl. auto.
Qed.

(** Both strippers cut a suffix off. *)
Lemma stripPossessive_prefix (s : string) :
  exists t, chars s = chars (stripPossessive s) ++ t.
Proof.
  unfold stripPossessive.
  destruct (rev (chars s)) as [|c2 [|c1 r]] eqn:E;
    try (exists []; now rewrite app_nil_r).
  destruct (Ascii.eqb c1 apostrophe && Ascii.eqb (toUpperChar c2) "S"%char);
    [|exists []; now rewrite app_nil_r].
  exists [c1; c2]. rewrite chars_str.
  rewrite <- (rev_involutive (chars s)), E. simpl. now rewrite <- app_assoc.
Qed.

Lemma stripFinalDot_prefix (s : string) :
  exists t, chars s = chars (stripFinalDot s) ++ t.
Proof.
  unfold stripFinalDot.
  destruct (rev (chars s)) as [|c r] eqn:E;
    try (exists []; now rewrite app_nil_r).
  destruct (Ascii.eqb c "."%char); [|exists []; now rewrite app_nil_r].
  exists [c]. rewrite chars_str.
  rewrite <- (rev_involutive (chars s)), E. reflexivity.
Qed.

Lemma isCapitalized_nonempty (s : string) :
  (1 <= String.length s)%nat ->
  forall a t, chars a = chars s ++ t -> isCapitalized a = true ->
  isCapitalized s = true.
Proof.
  intros Hlen a t E. unfold isCapitalized. rewrite E.
  destruct s as [|c s']; [simpl in Hlen; lia|]. simpl. auto.
Qed.

Lemma isCapitalized_joinSp (c : string) (rest : list string) :
  isCapitalized c = true -> isCapitalized (joinSp (c :: rest)) = true.
Proof.
  intros H. destruct rest as [|y r]; [exact H|].
  cbn [joinSp]. now apply isCapitalized_append.
Qed.

Section WithConfig.
Variable stopwordWords chapterStartPatterns : list string.
Variable titlePatternList : list (string * option string).

Lemma firstCapitalized_cons (x : string) (comps : list string) :
  firstCapitalized comps -> (comps = [] -> isCapitalized x = true) ->
  firstCapitalized (x :: comps).
Proof.
  unfold firstCapitalized. intros H Hx. simpl.
  destruct (rev comps) as [|c l] eqn:E.
  - simpl. apply Hx. apply (f_equal (@rev _)) in E.
    now rewrite rev_involutive in E.
  - exact H.
Qed.

Lemma collectWords_firstCapitalized (ws : list string) :
  forall i prev comps e,
    firstCapitalized comps ->
    firstCapitalized
      (fst (collectWords stopwordWords ws i prev comps e)).
Proof.
  induction ws as [|rawWord ws IH]; intros i prev comps e H;
    cbn [collectWords]; [exact H|].
  destruct (Nat.leb 2 (length comps)); [exact H|].
  destruct (String.eqb (cleanToken rawWord) ""); [exact H|].
  destruct (isContraction rawWord); [exact H|].
  destruct (match prev with Some p => endsSentence p | None => false end);
    [exact H|].
  destruct (isCapitalized (stripPossessive (cleanToken rawWord))) eqn:Hcap;
    [|exact H].
  destruct (negb (isStopword stopwordWords (stripPossessive (cleanToken rawWord))));
    [|exact H].
  cbn [andb].
  assert (Hword : isCapitalized (cleanToken rawWord) = true).
  { destruct (stripPossessive_prefix (cleanToken rawWord)) as [t Ht].
    exact (isCapitalized_prefix _ _ _ Ht Hcap). }
  cbn [negb]. destruct (includes rawWord "'s" && true).
  - cbn [fst]. apply firstCapitalized_cons; [exact H|].
    intros _. now apply isCapitalized_append.
  - apply IH. apply firstCapitalized_cons; [exact H | auto].
Qed.

Lemma extractProperNounSequence_shape (words : list string) (i : nat)
  (pn : ProperNoun) :
  isCapitalized (cleanToken (nth i words "")) = true ->
  extractProperNounSequence stopwordWords chapterStartPatterns titlePatternList
    words i = Some pn ->
  wellFormedName chapterStartPatterns (pn_form pn) (pn_normalized pn)
    (pn_isPossessive pn) (pn_hasTitle pn) (pn_titleType pn).
Proof.
  intros Hfirst. unfold extractProperNounSequence.
  set (firstWord := cleanToken (nth i words "")) in *.
  assert (G : forall components hasTitle titleType endIndex,
            match components with
            | [] => True
            | c :: _ => isCapitalized c = true
            end ->
            (hasTitle = true <-> titleType <> None) ->
            match components with
            | [] => None
            | _ :: _ =>
                let form := joinSp components in
                let isPossessive := includes form "'s" in
                let normalized := stripFinalDot (stripPossessive form) in
                if inList (toLowerCase normalized)
                     (chapterPatterns chapterStartPatterns)
                then None
                else if Nat.ltb (String.length normalized) 2 then None
                else Some (mkProperNoun form normalized isPossessive hasTitle
                             titleType (length components) endIndex false)
            end = Some pn ->
            wellFormedName chapterStartPatterns (pn_form pn) (pn_normalized pn)
              (pn_isPossessive pn) (pn_hasTitle pn) (pn_titleType pn)).
  { intros components hasTitle titleType endIndex Hc Ht.
    destruct components as [|c rest]; [discriminate|].
    cbv zeta.
    destruct (inList _ (chapterPatterns chapterStartPatterns)) eqn:Hch;
      [discriminate|].
    destruct (Nat.ltb_spec
                (String.length
                   (stripFinalDot (stripPossessive (joinSp (c :: rest))))) 2)
      as [|Hlen]; [discriminate|].
    intros [= <-]. cbn.
    pose proof (isCapitalized_joinSp c rest Hc) as Hform.
    repeat split; try assumption; try reflexivity; try apply Ht.
    destruct (stripPossessive_prefix (joinSp (c :: rest))) as [t1 H1].
    destruct (stripFinalDot_prefix (stripPossessive (joinSp (c :: rest))))
      as [t2 H2].
    apply (isCapitalized_nonempty
             (stripFinalDot (stripPossessive (joinSp (c :: rest))))
             ltac:(lia) (joinSp (c :: rest)) (t2 ++ t1)); [|exact Hform].
    rewrite app_assoc, <- H2, <- H1. reflexivity. }
  destruct (inList (stripFinalDot (toLowerCase firstWord))
              (titlePrefixes titlePatternList)).
  - destruct (match nth_error words (S i) with
              | Some raw =>
                  if negb (String.eqb (cleanToken raw) "")
                     && isCapitalized (cleanToken raw)
                     && negb (isStopword stopwordWords (cleanToken raw))
                     && negb (isContraction raw)
                  then Some (cleanToken raw) else None
              | None => None
              end) as [nextWord|]; intros H.
    + apply (G [firstWord; nextWord] true
               (Some (titleTypeOf titlePatternList
                        (stripFinalDot (toLowerCase firstWord)))) (S i));
        [exact Hfirst | split; congruence | exact H].
    + apply (G [firstWord] true
               (Some (titleTypeOf titlePatternList
                        (stripFinalDot (toLowerCase firstWord)))) i);
        [exact Hfirst | split; congruence | exact H].
  - destruct (collectWords stopwordWords (skipn i words) i None [] i)
      as [comps e] eqn:Hcw. intros H.
    apply (G (rev comps) false None e); [|split; congruence|exact H].
    pose proof (collectWords_firstCapitalized (skipn i words) i None [] i I)
      as Hcap.
    rewrite Hcw in Hcap. exact Hcap.
Qed.

Lemma scanWords_shape (fuel : nat) (words : list string) (ss : list nat) :
  forall i,
    Forall (fun pn =>
              wellFormedName chapterStartPatterns (pn_form pn)
                (pn_normalized pn) (pn_isPossessive pn) (pn_hasTitle pn)
                (pn_titleType pn))
      (scanWords stopwordWords chapterStartPatterns titlePatternList
         fuel words ss i).
Proof.
  induction fuel as [|fuel IH]; intros i; simpl; [constructor|].
  destruct (nth_error words i) as [word|] eqn:Hw; [|constructor].
  destruct (isContraction word); [apply IH|].
  destruct (String.eqb (cleanToken word) "" || isStopword stopwordWords (cleanToken word));
    [apply IH|].
  destruct (isCapitalized (cleanToken word)) eqn:Hcap; [|apply IH].
  destruct (extractProperNounSequence stopwordWords chapterStartPatterns
              titlePatternList words i) as [pn|] eqn:Hpn; [|apply IH].
  constructor; [|apply IH]. cbn.
  apply (extractProperNounSequence_shape words i pn); [|exact Hpn].
  rewrite (nth_error_nth _ _ _ Hw). exact Hcap.
Qed.

Lemma shape_fold (i : Z) (pns : list ProperNoun) (st : ExtractState) :
  Forall (fun pn =>
            wellFormedName chapterStartPatterns (pn_form pn)
              (pn_normalized pn) (pn_isPossessive pn) (pn_hasTitle pn)
              (pn_titleType pn)) pns ->
  Forall (mentionShape chapterStartPatterns) (st_mentions st) ->
  Forall (mentionShape chapterStartPatterns) (st_mentions (fold_left (recordMention i) pns st)).
Proof.
  revert st. induction pns as [|pn pns IH]; intros st Hpns H; simpl; [exact H|].
  apply Forall_cons in Hpns as [Hpn Hpns].
  apply IH; [exact Hpns|]. unfold recordMention. cbn [st_mentions].
  apply Forall_app. split; [exact H|]. constructor; [exact Hpn|constructor].
Qed.

Lemma shape_processLine (i : Z) (st : ExtractState) (line : string) :
  Forall (mentionShape chapterStartPatterns) (st_mentions st) ->
  Forall (mentionShape chapterStartPatterns)
    (st_mentions
       (processLine stopwordWords chapterStartPatterns titlePatternList
          i st line)).
Proof.
  intros H. unfold processLine.
  destruct (String.eqb (trim line) "---"); [exact H|].
  destruct (st_inFrontmatter st); [exact H|].
  destruct (Regex.test chapterHeader line); [exact H|].
  destruct (String.eqb (trim line) ""); [exact H|].
  apply shape_fold; [|exact H]. apply scanWords_shape.
Qed.

Lemma shape_processLines (lines : list string) (i : Z) (st : ExtractState) :
  Forall (mentionShape chapterStartPatterns) (st_mentions st) ->
  Forall (mentionShape chapterStartPatterns)
    (st_mentions
       (processLines stopwordWords chapterStartPatterns titlePatternList
          i st lines)).
Proof.
  revert i st. induction lines as [|l ls IH]; intros i st H; simpl; [exact H|].
  apply IH, shape_processLine, H.
Qed.

(** For every text and configuration, every mention of [extractProperNouns]
    is well formed: its surface form and its normalized form begin with an
    upper-case letter, the normalized form is the surface form without a
    final possessive ending and full stop, has at least two characters and
    is no chapter pattern, the possessive flag says whether the surface form
    holds an apostrophe followed by s, and a title type is recorded exactly
    on titled mentions. *)
Theorem extractProperNouns_well_formed (text : string) :
  Forall (fun m =>
            wellFormedName chapterStartPatterns (m_form m) (m_normalized m)
              (m_isPossessive m) (m_hasTitle m) (m_titleType m))
    (mentions (extractProperNouns stopwordWords chapterStartPatterns
                 titlePatternList text)).
Proof.
  unfold extractProperNouns. cbn [mentions].
  apply (shape_processLines (splitLines text) 0 initialState). constructor.
Qed.
End WithConfig.
End ExtractShape.

(** ** Grouping: order, floor, claimed forms, earliest appearance, ids *)

Module GrouperProps.
Import JS Extract Grouper GrouperSpec JSFacts GrouperFacts.

Lemma StronglySorted_filter {A : Type} (R : A -> A -> Prop) (p : A -> bool)
  (l : list A) :
  StronglySorted R l -> StronglySorted R (List.filter p l).
Proof.
  induction 1 as [|x l Hl IH Hx]; simpl; [constructor|].
  destruct (p x); [|exact IH]. constructor; [exact IH|].
  rewrite Forall_forall in Hx |- *. intros y Hy.
  apply Hx. apply list_elem_of_In in Hy. apply filter_In in Hy as [Hy _].
  now apply list_elem_of_In.
Qed.

Lemma byTotalDesc_total (a b : EntityGroup) :
  byTotalDesc a b = true \/ byTotalDesc b a = true.
Proof. unfold byTotalDesc. rewrite !Z.leb_le. lia. Qed.

Lemma byTotalDesc_trans (a b c : EntityGroup) :
  byTotalDesc a b = true -> byTotalDesc b c = true -> byTotalDesc a c = true.
Proof. unfold byTotalDesc. rewrite !Z.leb_le. lia. Qed.

(** For every extraction result and floor, [groupVariants] returns its groups
    in descending order of total mentions, and every group it returns has at
    least [minMentions] mentions in total. *)
Theorem groupVariants_sorted_above_floor (r : ExtractionResult) (minMentions : Z) :
  StronglySorted (fun a b => totalMentions b <= totalMentions a)
    (groupVariants r minMentions) /\
  Forall (fun g => minMentions <= totalMentions g) (groupVariants r minMentions).
Proof.
  unfold groupVariants. split.
  - apply StronglySorted_filter. unfold buildEntityGroups.
    pose proof (sortBy_sorted byTotalDesc byTotalDesc_total byTotalDesc_trans
                  (map (finish (firstAppearances r))
                     (bs_groups
                        (linkForms
                           (categorizeFormsFromMentions (mentions r)
                              (mentionCounts r))
                           (mentionCounts r))))) as H.
    clear -H. induction H as [|x l Hl IH Hx]; constructor; [exact IH|].
    eapply Forall_impl; [exact Hx|]. intros y Hy. cbn in Hy.
    unfold byTotalDesc in Hy. now apply Z.leb_le.
  - apply Forall_forall. intros g Hg. apply list_elem_of_In in Hg.
    apply filter_In in Hg as [Hg Hmin].
    apply buildEntityGroups_groups in Hg as [Ht _].
    rewrite Ht. now apply Z.leb_le.
Qed.

(** *** Claimed forms *)

Lemma endsWith_possessive (name : string) : endsWith (name +:+ "'s") "'s" = true.
Proof.
  unfold endsWith. rewrite chars_append, length_app.
  change (chars "'s") with ["'"%char; "s"%char]. cbn [length].
  apply andb_true_intro. split; [apply Nat.leb_le; lia|].
  apply bool_decide_eq_true.
  replace (length (chars name) + 2 - 2)%nat with (length (chars name)) by lia.
  apply drop_app_length.
Qed.

Lemma plainKeys_noPossessiveKeys (mentionCounts : gmap string Z) :
  plainKeys mentionCounts = true -> noPossessiveKeys mentionCounts.
Proof.
  unfold plainKeys. rewrite forallb_forall. intros H name.
  destruct (mentionCounts !! (name +:+ "'s")) as [v|] eqn:E; [|reflexivity].
  apply elem_of_map_to_list, list_elem_of_In, H in E. cbn in E.
  now rewrite endsWith_possessive in E.
Qed.

Lemma flat_map_filter_NoDup {A B : Type} (f : A -> list B) (p : A -> bool)
  (l : list A) :
  NoDup (flat_map f l) -> NoDup (flat_map f (List.filter p l)).
Proof.
  induction l as [|x l IH]; simpl; [auto|].
  rewrite NoDup_app. intros (Hx & Hdisj & Hl).
  destruct (p x); [|now apply IH]. simpl. rewrite NoDup_app.
  split; [exact Hx|]. split; [|now apply IH].
  intros y Hy Hin. apply (Hdisj y Hy).
  apply list_elem_of_In, in_flat_map in Hin as (z & Hz & Hyz).
  apply list_elem_of_In, in_flat_map. exists z. split; [|exact Hyz].
  now apply filter_In in Hz as [Hz _].
Qed.

(** When no key of [mentionCounts] ends in an apostrophe and s, every
    surface form is a variant of at most one of the groups [groupVariants]
    returns. *)
Theorem groupVariants_claims_once (r : ExtractionResult) (minMentions : Z) :
  plainKeys (mentionCounts r) = true ->
  NoDup (groupForms (groupVariants r minMentions)).
Proof.
  intros H. unfold groupVariants, groupForms.
  apply flat_map_filter_NoDup.
  apply (forms_claimed_once _ _ _ (plainKeys_noPossessiveKeys _ H)).
Qed.

Lemma groupVariants_claims_once_witness :
  NoDup (groupForms (groupVariants potterExtraction 3)).
Proof.
  apply groupVariants_claims_once. vm_compute. reflexivity.
Defined.

(** *** The earliest appearance *)

Lemma earlier_irrefl (a : FirstAppearance) : earlier a a = false.
Proof.
  unfold earlier. rewrite Z.ltb_irrefl, Z.eqb_refl, Z.ltb_irrefl. reflexivity.
Qed.

Lemma earlier_spec (a b : FirstAppearance) :
  earlier a b = true <->
  fa_chapter a < fa_chapter b \/
  (fa_chapter a = fa_chapter b /\ fa_paragraph a < fa_paragraph b).
Proof.
  unfold earlier. rewrite orb_true_iff, andb_true_iff, !Z.ltb_lt, Z.eqb_eq.
  reflexivity.
Qed.

Lemma not_earlier_step (a e e' : FirstAppearance) :
  earlier a e = false -> earlier e' e = true -> earlier a e' = false.
Proof.
  intros H1 H2. apply earlier_spec in H2.
  apply not_true_iff_false. apply not_true_iff_false in H1.
  rewrite earlier_spec in *. lia.
Qed.

Lemma earliestStep_among (firstAppearances : gmap string FirstAppearance)
  (seen : list Variant) (earliest : option FirstAppearance) (v : Variant) :
  earliestAmong firstAppearances seen earliest ->
  earliestAmong firstAppearances (seen ++ [v])
    (earliestStep firstAppearances earliest v).
Proof.
  intros H. unfold earliestStep.
  destruct (firstAppearances !! form v) as [a|] eqn:Ha.
  - destruct earliest as [e|].
    + destruct H as ((w & Hw & Hwe) & Hmin).
      destruct (earlier a e) eqn:Hae.
      * split.
        { exists v. split; [apply in_or_app; right; now left | exact Ha]. }
        intros u b Hu Hb. apply in_app_or in Hu as [Hu|[<-|[]]].
        -- eapply not_earlier_step; [eapply Hmin; eassumption | exact Hae].
        -- rewrite Ha in Hb. injection Hb as <-. apply earlier_irrefl.
      * split.
        { exists w. split; [apply in_or_app; now left | exact Hwe]. }
        intros u b Hu Hb. apply in_app_or in Hu as [Hu|[<-|[]]].
        -- eapply Hmin; eassumption.
        -- rewrite Ha in Hb. injection Hb as <-. exact Hae.
    + split.
      { exists v. split; [apply in_or_app; right; now left | exact Ha]. }
      intros u b Hu Hb. apply in_app_or in Hu as [Hu|[<-|[]]].
      * cbn in H. rewrite (H u Hu) in Hb. discriminate.
      * rewrite Ha in Hb. injection Hb as <-. apply earlier_irrefl.
  - destruct earliest as [e|].
    + destruct H as ((w & Hw & Hwe) & Hmin). split.
      { exists w. split; [apply in_or_app; now left | exact Hwe]. }
      intros u b Hu Hb. apply in_app_or in Hu as [Hu|[<-|[]]].
      * eapply Hmin; eassumption.
      * rewrite Ha in Hb. discriminate.
    + cbn in *. intros u Hu. apply in_app_or in Hu as [Hu|[<-|[]]];
        [now apply H | exact Ha].
Qed.

Lemma earliest_fold (firstAppearances : gmap string FirstAppearance)
  (vs : list Variant) :
  forall seen earliest,
    earliestAmong firstAppearances seen earliest ->
    earliestAmong firstAppearances (seen ++ vs)
      (fold_left (earliestStep firstAppearances) vs earliest).
Proof.
  induction vs as [|v vs IH]; intros seen earliest H; simpl.
  - now rewrite app_nil_r.
  - replace (seen ++ v :: vs) with ((seen ++ [v]) ++ vs)
      by (rewrite <- app_assoc; reflexivity).
    apply IH, earliestStep_among, H.
Qed.

(** The first appearance of a group that [groupVariants] returns is the
    earliest, by chapter and then paragraph, of the appearances recorded for
    its variants: none of them is strictly earlier, and it is the recorded
    appearance of one of the variants; when no variant has a recorded
    appearance it is chapter 0, paragraph 0. *)
Theorem group_first_appearance_earliest (r : ExtractionResult)
  (minMentions : Z) (g : EntityGroup) :
  In g (groupVariants r minMentions) ->
  (forall v a, In v (variants g) -> firstAppearances r !! form v = Some a ->
               earlier a (firstAppearance g) = false) /\
  ((exists v, In v (variants g) /\
              firstAppearances r !! form v = Some (firstAppearance g)) \/
   ((forall v, In v (variants g) -> firstAppearances r !! form v = None) /\
    firstAppearance g = mkFirstAppearance 0 0 None)).
Proof.
  unfold groupVariants, buildEntityGroups. intros H.
  apply filter_In in H as [H _].
  apply list_elem_of_In, sortBy_elem_of, list_elem_of_In in H.
  apply in_map_iff in H as (d & <- & _). unfold finish.
  cbn [variants firstAppearance].
  pose proof (earliest_fold (firstAppearances r) (d_variants d) [] None) as H.
  cbn [app] in H.
  destruct (fold_left (earliestStep (firstAppearances r)) (d_variants d) None)
    as [e|]; cbn [default].
  - destruct H as [Hex Hmin]; [intros v []|]. split; [exact Hmin | now left].
  - cbn in H. split.
    + intros v a Hv Ha. rewrite (H ltac:(intros ? []) v Hv) in Ha. discriminate.
    + right. split; [|reflexivity]. apply H. intros ? [].
Qed.

Lemma group_first_appearance_earliest_witness :
  exists g,
    canonicalName g = "Harry Potter" /\
    firstAppearance g = mkFirstAppearance 1 1 (Some "Potter") /\
    forall v a, In v (variants g) ->
                firstAppearances potterExtraction !! form v = Some a ->
                earlier a (firstAppearance g) = false.
Proof.
  pose (g := nth 0 (groupVariants potterExtraction 3)
               (mkEntityGroup "" [] NoEvidence (mkFirstAppearance 0 0 None) 0 None)).
  exists g. split; [vm_compute; reflexivity|]. split; [vm_compute; reflexivity|].
  apply (group_first_appearance_earliest potterExtraction 3 g).
  vm_compute. left. reflexivity.
Defined.

(** *** Entity ids *)

Lemma idChar_not_underscore (c : ascii) : isIdChar c = true -> c <> "_"%char.
Proof. intros H ->. discriminate H. Qed.

Lemma collapseRuns_canonical (l : list ascii) :
  forall inRun, canonicalId inRun (collapseRuns inRun l) = true.
Proof.
  induction l as [|c l IH]; intros inRun; simpl; [reflexivity|].
  destruct (isIdChar c) eqn:Hc.
  - simpl. rewrite Hc. apply IH.
  - destruct inRun; [apply IH|]. simpl. apply IH.
Qed.

Lemma canonicalId_fixed (l : list ascii) :
  forall afterSep, canonicalId afterSep l = true -> collapseRuns afterSep l = l.
Proof.
  induction l as [|c l IH]; intros afterSep H; simpl in *; [reflexivity|].
  destruct (isIdChar c).
  - f_equal. now apply IH.
  - apply andb_prop in H as [H Hl]. apply andb_prop in H as [Hc Hs].
    apply Ascii.eqb_eq in Hc. subst c.
    destruct afterSep; [discriminate|]. f_equal. now apply IH.
Qed.

Lemma canonicalId_weaken (l : list ascii) :
  canonicalId true l = true -> canonicalId false l = true.
Proof.
  destruct l as [|c l]; simpl; [auto|].
  destruct (isIdChar c); [auto|]. rewrite andb_false_r. discriminate.
Qed.

Lemma canonicalId_prefix (l l' : list ascii) :
  forall afterSep, canonicalId afterSep (l ++ l') = true ->
                   canonicalId afterSep l = true.
Proof.
  induction l as [|c l IH]; intros afterSep H; simpl in *; [reflexivity|].
  destruct (isIdChar c); [now apply IH|].
  apply andb_prop in H as [H Hl]. rewrite H. now apply IH.
Qed.

Lemma canonicalId_chars (l : list ascii) :
  forall afterSep, canonicalId afterSep l = true ->
                   Forall (fun c => isIdChar c = true \/ c = "_"%char) l.
Proof.
  induction l as [|c l IH]; intros afterSep H; simpl in *; [constructor|].
  destruct (isIdChar c) eqn:Hc.
  - constructor; [now left | now apply (IH false)].
  - apply andb_prop in H as [H Hl]. apply andb_prop in H as [Hc' _].
    apply Ascii.eqb_eq in Hc'. constructor; [now right | now apply (IH true)].
Qed.

(** In a canonical list an underscore at the end is not preceded by one. *)
Lemma canonicalId_before_last (l : list ascii) :
  forall afterSep,
    canonicalId afterSep (l ++ ["_"%char]) = true ->
    (l = [] -> afterSep = false) /\ head (rev l) <> Some "_"%char.
Proof.
  induction l as [|c l IH]; intros afterSep H.
  - simpl in H. destruct afterSep; [discriminate H|]. split; [auto|discriminate].
  - split; [discriminate|]. cbn [app canonicalId] in H.
    destruct (isIdChar c) eqn:Hc.
    + destruct (IH false H) as [_ Hl]. simpl.
      destruct (rev l) as [|x r] eqn:E; simpl.
      * intros [= ->]. discriminate Hc.
      * exact Hl.
    + apply andb_prop in H as [_ Hl].
      destruct (IH true Hl) as [Hne Hlast]. simpl.
      destruct (rev l) as [|x r] eqn:E; simpl.
      * apply (f_equal (@rev _)) in E. rewrite rev_involutive in E.
        specialize (Hne E). discriminate.
      * exact Hlast.
Qed.

Lemma dropUnderscore_fixed (l : list ascii) :
  head l <> Some "_"%char -> dropUnderscore l = l.
Proof.
  destruct l as [|c l]; simpl; [reflexivity|]. intros H.
  destruct (Ascii.eqb_spec c "_"%char) as [->|]; [now destruct H | reflexivity].
Qed.

Lemma dropUnderscore_canonical (l : list ascii) :
  canonicalId false l = true ->
  canonicalId false (dropUnderscore l) = true /\
  head (dropUnderscore l) <> Some "_"%char.
Proof.
  destruct l as [|c l]; intros H; [split; [reflexivity|discriminate]|].
  cbn [dropUnderscore].
  destruct (Ascii.eqb_spec c "_"%char) as [->|Hc].
  - change (canonicalId true l = true) in H.
    split; [now apply canonicalId_weaken|].
    destruct l as [|x l]; simpl in *; [discriminate|].
    destruct (isIdChar x) eqn:Hx;
      [|rewrite andb_false_r in H; discriminate H].
    intros [= ->]. discriminate Hx.
  - split; [exact H|]. simpl. congruence.
Qed.

(** The normal form of ids: what [generateEntityId] returns, as a list of
    characters. *)
Lemma trimmed_canonical (l : list ascii) :
  canonicalId false l = true ->
  let t := rev (dropUnderscore (rev (dropUnderscore l))) in
  canonicalId false t = true /\ head t <> Some "_"%char /\
  head (rev t) <> Some "_"%char.
Proof.
  intros H. destruct (dropUnderscore_canonical l H) as [H1 Hhead].
  cbv zeta. revert H1 Hhead. generalize (dropUnderscore l). clear l H.
  intros l1 H1 Hhead.
  destruct (rev l1) as [|c r] eqn:E.
  - simpl. repeat split; discriminate.
  - assert (El : l1 = rev r ++ [c]).
    { rewrite <- (rev_involutive l1), E. reflexivity. }
    cbn [dropUnderscore].
    destruct (Ascii.eqb_spec c "_"%char) as [->|Hc].
    + rewrite El in H1.
      split; [exact (canonicalId_prefix _ _ _ H1)|].
      destruct (canonicalId_before_last (rev r) false H1) as [_ Hlast].
      rewrite rev_involutive in *. split; [|exact Hlast].
      rewrite El in Hhead. destruct (rev r); [discriminate | exact Hhead].
    + change (rev (c :: r)) with (rev r ++ [c]). rewrite <- El.
      repeat split; [exact H1 | exact Hhead |].
      rewrite E. simpl. congruence.
Qed.

Lemma toLowerChar_idChar (c : ascii) :
  isIdChar c = true \/ c = "_"%char -> toLowerChar c = c.
Proof.
  intros [H| ->]; [|reflexivity]. revert H.
  destruct c as [[] [] [] [] [] [] [] []]; vm_compute; congruence.
Qed.

Lemma map_toLowerChar_id (l : list ascii) :
  Forall (fun c => isIdChar c = true \/ c = "_"%char) l ->
  map toLowerChar l = l.
Proof.
  induction 1 as [|c l Hc _ IH]; simpl; [reflexivity|].
  rewrite IH. f_equal. now apply toLowerChar_idChar.
Qed.

Lemma generateEntityId_chars (canonicalName : string) :
  let l := chars (generateEntityId canonicalName) in
  canonicalId false l = true /\ head l <> Some "_"%char /\
  head (rev l) <> Some "_"%char.
Proof.
  unfold generateEntityId. rewrite chars_str.
  apply trimmed_canonical, collapseRuns_canonical.
Qed.

(** An id made by [generateEntityId] holds only lower-case letters, digits
    and underscores; it neither begins nor ends with an underscore, and no
    two underscores are adjacent. *)
Theorem generateEntityId_normal_form (canonicalName : string) :
  let l := chars (generateEntityId canonicalName) in
  Forall (fun c => isLowerAZ c = true \/ isDigit c = true \/ c = "_"%char) l /\
  head l <> Some "_"%char /\ List.last l "x"%char <> "_"%char /\
  includes (generateEntityId canonicalName) "__" = false.
Proof.
  cbv zeta.
  destruct (generateEntityId_chars canonicalName) as (Hc & Hh & Hl).
  set (l := chars (generateEntityId canonicalName)) in *.
  split; [|split; [exact Hh|split]].
  - eapply Forall_impl; [exact (canonicalId_chars l false Hc)|].
    cbn. intros c [H| ->]; [|auto]. unfold isIdChar in H.
    apply orb_prop in H as [H|H]; auto.
  - rewrite <- (rev_involutive l). destruct (rev l) as [|c r]; simpl;
      [discriminate|].
    rewrite last_last. simpl in Hl. congruence.
  - unfold includes. fold l. change (chars "__") with ["_"%char; "_"%char].
    assert (G : forall (k : list ascii) (b : bool),
              canonicalId b k = true ->
              includesFrom ["_"%char; "_"%char] k = false).
    { induction k as [|c k' IH]; intros b Hk; [reflexivity|].
      cbn [includesFrom]. apply orb_false_intro.
      - apply bool_decide_eq_false. cbn [length firstn].
        destruct k' as [|c' k'']; [discriminate|]. intros [= -> ->].
        simpl in Hk. rewrite andb_false_r in Hk. simpl in Hk.
        destruct b; discriminate.
      - cbn [canonicalId] in Hk. destruct (isIdChar c); [now apply (IH false)|].
        apply andb_prop in Hk as [_ Hk]. now apply (IH true). }
    exact (G l false Hc).
Qed.

(** [generateEntityId] is idempotent: the id of an id is that id. *)
Theorem generateEntityId_idempotent (canonicalName : string) :
  generateEntityId (generateEntityId canonicalName)
  = generateEntityId canonicalName.
Proof.
  destruct (generateEntityId_chars canonicalName) as (Hc & Hh & Hl).
  set (i := generateEntityId canonicalName) in *.
  unfold generateEntityId at 1. unfold toLowerCase. rewrite chars_str.
  assert (E : map toLowerChar (chars i) = chars i).
  { apply map_toLowerChar_id, (canonicalId_chars _ _ Hc). }
  rewrite E, (canonicalId_fixed _ _ Hc), (dropUnderscore_fixed _ Hh).
  rewrite (dropUnderscore_fixed _ Hl), rev_involutive. apply str_chars.
Qed.

End GrouperProps.

(** ** Junk filter: partition, reasons, first-word counts *)

Module FilterProps.
Import JS Regex Extract Grouper Filter ExtractSpec FilterSpec JSFacts FilterFacts.

Lemma filterStep_names (ssc mc : gmap string Z) (tw : list (string * Z))
  (fullText : string) (groups : list EntityGroup) :
  forall acc,
    let r := fold_left (filterStep ssc mc tw fullText) groups acc in
    Permutation (map canonicalName (clean r) ++ map x_text (excluded r))
      (map canonicalName (clean acc) ++ map x_text (excluded acc)
       ++ map canonicalName groups).
Proof.
  induction groups as [|g groups IH]; intros acc; cbn [fold_left]; cbv zeta.
  - now rewrite !app_nil_r.
  - rewrite IH. unfold filterStep.
    destruct (checkForExclusion g ssc mc tw fullText); cbn [clean excluded map].
    + rewrite map_app. cbn [map x_text]. rewrite <- !app_assoc.
      apply Permutation_app_head, Permutation_app_head. reflexivity.
    + rewrite map_app. cbn [map canonicalName]. rewrite <- !app_assoc.
      apply Permutation_app_head. cbn [app].
      rewrite (Permutation_middle (map x_text (excluded acc))). reflexivity.
Qed.

Lemma filterStep_clean (ssc mc : gmap string Z) (tw : list (string * Z))
  (fullText : string) (all groups : list EntityGroup) :
  (forall g, In g groups -> In g all) ->
  forall acc,
    Forall (fun c => exists g,
              In g all /\ checkForExclusion g ssc mc tw fullText = None /\
              sameButRatio c g) (clean acc) ->
    Forall (fun c => exists g,
              In g all /\ checkForExclusion g ssc mc tw fullText = None /\
              sameButRatio c g)
      (clean (fold_left (filterStep ssc mc tw fullText) groups acc)).
Proof.
  induction groups as [|g groups IH]; intros Hsub acc Hacc; cbn [fold_left];
    [exact Hacc|].
  apply IH; [intros g' Hg'; apply Hsub; now right|].
  unfold filterStep.
  destruct (checkForExclusion g ssc mc tw fullText) eqn:Hex; cbn [clean];
    [exact Hacc|].
  apply Forall_app. split; [exact Hacc|]. constructor; [|constructor].
  exists g. split; [apply Hsub; now left|]. split; [exact Hex|].
  unfold sameButRatio. cbn. repeat split; discriminate.
Qed.

(** For every list of groups, [filterJunk] splits it in two: the names of
    the clean groups and of the excluded entries are, together, the names of
    the input groups, each as often as it came in; and every clean group is
    an input group that the check passed, unchanged but for the sentence-start
    ratio that is set on it. *)
Theorem filterJunk_partition (entityGroups : list EntityGroup)
  (extractionResult : ExtractionResult) (fullText : string) :
  let r := filterJunk entityGroups extractionResult fullText in
  Permutation (map canonicalName (clean r) ++ map x_text (excluded r))
    (map canonicalName entityGroups) /\
  (length (clean r) + length (excluded r) = length entityGroups)%nat /\
  Forall (fun c => exists g,
            In g entityGroups /\
            checkForExclusion g (sentenceStartCounts extractionResult)
              (mentionCounts extractionResult)
              (buildTwoWordFirstWordMap entityGroups) fullText = None /\
            sameButRatio c g)
    (clean r).
Proof.
  cbv zeta. unfold filterJunk.
  pose proof (filterStep_names (sentenceStartCounts extractionResult)
                (mentionCounts extractionResult)
                (buildTwoWordFirstWordMap entityGroups) fullText entityGroups
                (mkFilterResult [] [])) as Hperm.
  cbv zeta in Hperm. cbn [clean excluded map app] in Hperm.
  split; [exact Hperm|]. split.
  - apply Permutation_length in Hperm.
    rewrite length_app, !length_map in Hperm. exact Hperm.
  - apply (filterStep_clean _ _ _ _ entityGroups); [auto | constructor].
Qed.

(** *** The reasons of exclusion *)

Lemma checkForExclusion_reason (group : EntityGroup) (ssc mc : gmap string Z)
  (tw : list (string * Z)) (fullText : string) (ex : Exclusion) :
  checkForExclusion group ssc mc tw fullText = Some ex ->
  (ex_reason ex = sentence_start_ratio_high /\ 5 <= totalMentions group /\
   totalMentions group < 2 * getSentenceStartCount group ssc) \/
  (ex_reason ex <> sentence_start_ratio_high /\
   length (splitWs (canonicalName group)) = 2%nat).
Proof.
  unfold checkForExclusion.
  destruct (Z.ltb_spec 0 (totalMentions group));
    destruct (Z.ltb_spec (totalMentions group)
                (2 * getSentenceStartCount group ssc));
    destruct (Z.leb_spec 5 (totalMentions group)); cbn [andb];
    try (intros [= <-]; left; cbn; repeat split; lia);
    (destruct (Nat.eqb_spec (length (splitWs (canonicalName group))) 2) as [E|E];
     cbn [andb]; [|discriminate]);
    repeat (match goal with
            | |- (if ?b then _ else _) = _ -> _ => destruct b
            end; try discriminate;
            try (intros [= <-]; right; cbn; split; [discriminate | exact E])).
Qed.

(** Every entry of the [excluded] list of [filterJunk] carries the name and
    the total of an input group. An entry whose name is not made of two words
    was excluded for its sentence-start ratio, and an entry excluded for that
    reason has at least 5 mentions, more than half of them at a sentence
    start: a name that is not two words, or has fewer than 5 mentions and is
    not two words, is never excluded otherwise. *)
Theorem excluded_reasons (entityGroups : list EntityGroup)
  (extractionResult : ExtractionResult) (fullText : string) (x : Excluded) :
  In x (excluded (filterJunk entityGroups extractionResult fullText)) ->
  exists g,
    In g entityGroups /\ x_text x = canonicalName g /\
    x_mentions x = totalMentions g /\
    ((x_reason x = sentence_start_ratio_high /\ 5 <= x_mentions x /\
      x_mentions x
      < 2 * getSentenceStartCount g (sentenceStartCounts extractionResult)) \/
     (x_reason x <> sentence_start_ratio_high /\
      length (splitWs (x_text x)) = 2%nat)).
Proof.
  unfold filterJunk. intros H. apply list_elem_of_In in H.
  apply excluded_origin in H as [H|(g & ex & Hg & Hex & ->)];
    [cbn in H; inversion H|].
  exists g. split; [now apply list_elem_of_In|]. cbn.
  split; [reflexivity|]. split; [reflexivity|].
  exact (checkForExclusion_reason _ _ _ _ _ _ Hex).
Qed.

Lemma excluded_reasons_witness :
  exists g,
    In g theGroups /\ canonicalName g = "The Boy" /\ totalMentions g = 4 /\
    length (splitWs "The Boy") = 2%nat.
Proof.
  destruct (excluded_reasons theGroups emptyExtraction ""
              (mkExcluded "The Boy" 4 truncated_phrase 0))
    as (g & Hg & Hn & Hm & [(Hr & _)|(_ & Hw)]).
  - vm_compute. left. reflexivity.
  - discriminate Hr.
  - exists g. cbn in Hn, Hm, Hw. auto.
Defined.

(** *** The first words of two-word names *)

Lemma omap_get_not_key {V : Type} (k : string) (m : list (string * V)) :
  ~ In k (map fst m) -> omap_get k m = None.
Proof.
  induction m as [|[k' v'] m IH]; simpl; [reflexivity|]. intros H.
  destruct (String.eqb_spec k k') as [->|_]; [exfalso; apply H; now left|].
  apply IH. tauto.
Qed.

Lemma omap_set_NoDup {V : Type} (k : string) (v : V) (m : list (string * V)) :
  NoDup (map fst m) -> NoDup (map fst (omap_set k v m)).
Proof.
  induction m as [|[k' v'] m IH]; simpl; intros H.
  - apply NoDup_singleton.
  - apply NoDup_cons in H as [Hk' Hm].
    destruct (String.eqb_spec k k') as [->|Hne]; simpl.
    + apply NoDup_cons. split; assumption.
    + apply NoDup_cons. split; [|now apply IH].
      intros Hin. apply Hk'. apply list_elem_of_In in Hin.
      apply list_elem_of_In. clear -Hin Hne.
      induction m as [|[k0 v0] m IH]; simpl in *.
      * destruct Hin as [->|[]]. congruence.
      * destruct (String.eqb k k0); simpl in Hin; tauto.
Qed.

Lemma countFirstWord_counts (seen : list EntityGroup) (m : list (string * Z))
  (g : EntityGroup) :
  (forall w, omap_get w m = countEntry (length (twoWordGroupsWith w seen))) ->
  forall w, omap_get w (countFirstWord m g)
            = countEntry (length (twoWordGroupsWith w (seen ++ [g]))).
Proof.
  intros H w. unfold twoWordGroupsWith at 1. rewrite List.filter_app, length_app.
  fold (twoWordGroupsWith w seen). cbn [List.filter]. unfold countFirstWord.
  destruct (Nat.eqb (length (splitWs (canonicalName g))) 2); cbn [andb].
  - destruct (String.eqb_spec (nth 0 (splitWs (canonicalName g)) "") w)
      as [->|Hne].
    + rewrite omap_get_set_eq, H. cbn [length].
      rewrite Nat.add_1_r.
      generalize (length (twoWordGroupsWith w seen)).
      intros n. destruct n as [|n]; [reflexivity|].
      unfold countEntry, orElse.
      destruct (Z.eqb_spec (Z.of_nat (S n)) 0); [lia|]. f_equal. lia.
    + rewrite omap_get_set_ne by exact Hne. cbn [length].
      rewrite Nat.add_0_r. apply H.
  - cbn [length]. rewrite Nat.add_0_r. apply H.
Qed.

Lemma countFirstWord_fold (groups : list EntityGroup) :
  forall seen m,
    NoDup (map fst m) ->
    (forall w, omap_get w m = countEntry (length (twoWordGroupsWith w seen))) ->
    NoDup (map fst (fold_left countFirstWord groups m)) /\
    forall w, omap_get w (fold_left countFirstWord groups m)
              = countEntry (length (twoWordGroupsWith w (seen ++ groups))).
Proof.
  induction groups as [|g groups IH]; intros seen m Hnd H; cbn [fold_left].
  - rewrite app_nil_r. auto.
  - replace (seen ++ g :: groups) with ((seen ++ [g]) ++ groups)
      by (rewrite <- app_assoc; reflexivity).
    apply IH; [|now apply countFirstWord_counts].
    unfold countFirstWord.
    destruct (Nat.eqb (length (splitWs (canonicalName g))) 2); [|exact Hnd].
    now apply omap_set_NoDup.
Qed.

Lemma others_fold (m : list (string * Z)) :
  NoDup (map fst m) ->
  forall acc k,
    omap_get k (fold_left (fun result p => omap_set (fst p) (snd p - 1) result)
                  m acc)
    = match omap_get k m with
      | Some v => Some (v - 1)
      | None => omap_get k acc
      end.
Proof.
  induction m as [|[k0 v0] m IH]; intros Hnd acc k; cbn [fold_left];
    [reflexivity|].
  cbn [map fst] in Hnd. apply NoDup_cons in Hnd as [Hk0 Hm].
  rewrite (IH Hm). cbn [omap_get fst snd].
  destruct (String.eqb_spec k k0) as [->|Hne].
  - rewrite omap_get_not_key, omap_get_set_eq; [reflexivity|].
    intros Hin. apply Hk0. now apply list_elem_of_In.
  - destruct (omap_get k m); [reflexivity|].
    apply omap_get_set_ne. congruence.
Qed.

(** [buildTwoWordFirstWordMap] maps a word to the number of the OTHER
    two-word names that begin with it: one less than the number of groups
    whose name has two words, the first of which is that word; a word that
    begins no two-word name has no entry. *)
Theorem firstWordMap_counts_others (entityGroups : list EntityGroup)
  (w : string) :
  omap_get w (buildTwoWordFirstWordMap entityGroups)
  = match length (twoWordGroupsWith w entityGroups) with
    | O => None
    | S n => Some (Z.of_nat n)
    end.
Proof.
  unfold buildTwoWordFirstWordMap.
  destruct (countFirstWord_fold entityGroups [] []) as [Hnd Hget].
  { constructor. }
  { intros w'. reflexivity. }
  rewrite (others_fold _ Hnd), Hget. cbn [app].
  destruct (length (twoWordGroupsWith w entityGroups)) as [|n]; cbn;
    [reflexivity|].
  f_equal. lia.
Qed.

End FilterProps.

(** ** Tier classifier: the two tiers, and the notes of candidates *)

Module TierProps.
Import JS Extract Grouper Tier TierSpec JSFacts.

Lemma byMentionsDesc_total (a b : Entity) :
  byMentionsDesc a b = true \/ byMentionsDesc b a = true.
Proof. unfold byMentionsDesc. rewrite !Z.leb_le. lia. Qed.

Lemma byMentionsDesc_trans (a b c : Entity) :
  byMentionsDesc a b = true -> byMentionsDesc b c = true ->
  byMentionsDesc a c = true.
Proof. unfold byMentionsDesc. rewrite !Z.leb_le. lia. Qed.

Lemma sortBy_mentions_desc (l : list Entity) :
  StronglySorted (fun a b => e_mentions b <= e_mentions a)
    (sortBy byMentionsDesc l).
Proof.
  pose proof (sortBy_sorted byMentionsDesc byMentionsDesc_total
                byMentionsDesc_trans l) as H.
  induction H as [|x k Hk IH Hx]; constructor; [exact IH|].
  eapply Forall_impl; [exact Hx|]. intros y Hy. cbn in Hy.
  unfold byMentionsDesc in Hy. now apply Z.leb_le.
Qed.

Section Classifier.
Variable titlePatternList : list (string * option string).
Variable possessiveCounts : gmap string Z.

Lemma tierStep_tiers (options : TierOptions) (sw : list (string * Z))
  (all groups : list EntityGroup) :
  (forall g, In g groups -> In g all) ->
  forall acc,
    Forall (fun e => e_qualifiedBy e <> None /\ exists g, In g all /\ madeFrom e g)
      (confirmedCharacters acc) ->
    Forall (fun e => e_qualifiedBy e = None /\ e_notes e <> None /\
                     minCandidateMentions options <= e_mentions e /\
                     exists g, In g all /\ madeFrom e g)
      (candidates acc) ->
    let t := fold_left (tierStep titlePatternList possessiveCounts options sw)
               groups acc in
    Forall (fun e => e_qualifiedBy e <> None /\ exists g, In g all /\ madeFrom e g)
      (confirmedCharacters t) /\
    Forall (fun e => e_qualifiedBy e = None /\ e_notes e <> None /\
                     minCandidateMentions options <= e_mentions e /\
                     exists g, In g all /\ madeFrom e g)
      (candidates t).
Proof.
  induction groups as [|g groups IH]; intros Hsub acc Hc Hd; cbn [fold_left];
    cbv zeta; [auto|].
  apply IH; [intros g' Hg'; apply Hsub; now right | |];
    unfold tierStep;
    destruct (checkTier1Qualification _ _ g sw _ _ _) as [q|];
    cbn [confirmedCharacters candidates]; try assumption.
  - apply Forall_app. split; [exact Hc|]. constructor; [|constructor].
    cbn. split; [discriminate|]. exists g.
    split; [apply Hsub; now left | repeat split].
  - destruct (Z.leb_spec (minCandidateMentions options) (totalMentions g));
      cbn [confirmedCharacters]; exact Hc.
  - destruct (Z.leb_spec (minCandidateMentions options) (totalMentions g));
      cbn [candidates]; [|exact Hd].
    apply Forall_app. split; [exact Hd|]. constructor; [|constructor].
    cbn. split; [reflexivity|]. split; [discriminate|]. split; [assumption|].
    exists g. split; [apply Hsub; now left | repeat split].
Qed.

(** For every list of groups and options, [tierEntities] returns both tiers
    in descending order of mentions. Every confirmed entity carries the
    reason it qualified by, every candidate carries notes and no such reason
    and has at least [minCandidateMentions] mentions; and every entity of
    either tier is made from an input group: it has the group's name, total
    and first appearance, the group's variants reduced to form and count, no
    merge provenance, and the id generated from the name. *)
Theorem tierEntities_tiers (cleanGroups : list EntityGroup)
  (options : TierOptions) :
  let t := tierEntities titlePatternList possessiveCounts cleanGroups options in
  StronglySorted (fun a b => e_mentions b <= e_mentions a)
    (confirmedCharacters t) /\
  StronglySorted (fun a b => e_mentions b <= e_mentions a) (candidates t) /\
  Forall (fun e => e_qualifiedBy e <> None /\
                   exists g, In g cleanGroups /\ madeFrom e g)
    (confirmedCharacters t) /\
  Forall (fun e => e_qualifiedBy e = None /\ e_notes e <> None /\
                   minCandidateMentions options <= e_mentions e /\
                   exists g, In g cleanGroups /\ madeFrom e g)
    (candidates t).
Proof.
  cbv zeta. unfold tierEntities. cbn [confirmedCharacters candidates].
  split; [apply sortBy_mentions_desc|]. split; [apply sortBy_mentions_desc|].
  destruct (tierStep_tiers options (buildSingleWordCounts cleanGroups)
              cleanGroups cleanGroups ltac:(auto) (mkTiers [] []))
    as [Hc Hd]; [constructor | constructor |].
  cbv zeta in Hc, Hd.
  split; apply Forall_forall; intros e He; apply sortBy_elem_of in He.
  - rewrite Forall_forall in Hc. now apply Hc.
  - rewrite Forall_forall in Hd. now apply Hd.
Qed.

(** *** The notes of a candidate *)

Lemma concat_holds (sep : string) (c : ascii) (notes : list string) :
  Exists (fun note => In c (chars note)) notes ->
  In c (chars (String.concat sep notes)).
Proof.
  induction notes as [|x rest IH]; intros H; [inversion H|].
  cbn [String.concat]. destruct rest as [|y rest'].
  - inversion H; subst; [assumption | inversion H1].
  - change (In c (chars (x +:+ sep +:+ String.concat sep (y :: rest')))).
    rewrite !chars_append, !in_app_iff.
    inversion H; subst; [now left | right; right; now apply IH].
Qed.

(** [generateCandidateNotes] always has a note to give: it never returns
    the empty text, nor its fallback text [Needs review]. *)
Theorem candidate_notes_never_fallback (group : EntityGroup) :
  generateCandidateNotes group <> "" /\
  generateCandidateNotes group <> "Needs review".
Proof.
  assert (H : In "o"%char (chars (generateCandidateNotes group))).
  { unfold generateCandidateNotes.
    set (first := if Nat.eqb (length (splitWs (canonicalName group))) 1
                  then _ else _).
    set (plural := if existsb _ (variants group) then _ else _).
    assert (Hj : In "o"%char (chars (String.concat ", " (first ++ plural)))).
    { apply concat_holds, Exists_app. left. unfold first.
      destruct (Nat.eqb (length (splitWs (canonicalName group))) 1).
      - apply Exists_app. left.
        destruct (existsb _ (variants group)); constructor; cbn; tauto.
      - constructor. rewrite chars_append, in_app_iff. right. cbn. tauto. }
    destruct (String.eqb_spec (String.concat ", " (first ++ plural)) "")
      as [E|_]; [|exact Hj].
    rewrite E in Hj. destruct Hj. }
  split; intros E; rewrite E in H; cbn in H;
    repeat (destruct H as [H|H]; [discriminate H|]); exact H.
Qed.
End Classifier.
End TierProps.

(** ** Merger: what merging conserves, and what it leaves alone *)

Module CorefProps.
Import JS Extract Grouper Tier Coref CorefSpec JSFacts CorefFacts.
Import GrouperProps FilterProps TierProps.

(** *** Sums over keys *)

Lemma sumBy_ext (f g : string -> Z) (l : list string) :
  (forall k, In k l -> f k = g k) -> sumBy f l = sumBy g l.
Proof.
  induction l as [|x l IH]; intros H; simpl; [reflexivity|].
  rewrite (H x (or_introl eq_refl)), IH; [reflexivity|].
  intros k Hk. apply H. now right.
Qed.

Lemma sumBy_perm (f : string -> Z) (l l' : list string) :
  Permutation l l' -> sumBy f l = sumBy f l'.
Proof. induction 1; simpl; lia. Qed.

Lemma sumBy_split (f : string -> Z) (q : string -> bool) (l : list string) :
  sumBy f l
  = sumBy f (List.filter q l) + sumBy f (List.filter (fun k => negb (q k)) l).
Proof.
  induction l as [|x l IH]; simpl; [reflexivity|].
  destruct (q x); simpl; lia.
Qed.

(** Changing [f] at one key of a duplicate-free list. *)
Lemma sumBy_update (f g : string -> Z) (p : string) (l : list string) :
  NoDup l -> In p l -> (forall k, k <> p -> g k = f k) ->
  sumBy g l = sumBy f l + (g p - f p).
Proof.
  induction l as [|x l IH]; intros Hnd Hin Hoff; [destruct Hin|].
  apply NoDup_cons in Hnd as [Hx Hl]. simpl.
  destruct (string_dec x p) as [->|Hne].
  - rewrite (sumBy_ext g f l); [lia|].
    intros k Hk. apply Hoff. intros ->. apply Hx. now apply list_elem_of_In.
  - destruct Hin as [E|Hin]; [congruence|].
    rewrite (IH Hl Hin Hoff), (Hoff x Hne). lia.
Qed.

Lemma filter_NoDup_list {A : Type} (q : A -> bool) (l : list A) :
  NoDup l -> NoDup (List.filter q l).
Proof.
  induction 1 as [|x l Hx Hl IH]; simpl; [constructor|].
  destruct (q x); [|exact IH]. constructor; [|exact IH].
  intros Hin. apply Hx. apply list_elem_of_In in Hin.
  apply filter_In in Hin as [Hin _]. now apply list_elem_of_In.
Qed.

Lemma inList_In (s : string) (l : list string) : inList s l = true <-> In s l.
Proof.
  unfold inList. rewrite existsb_exists. split.
  - intros (k & Hk & E). apply String.eqb_eq in E. now subst.
  - intros H. exists s. split; [exact H | apply String.eqb_refl].
Qed.

(** *** The frame of one merge group *)

Lemma absorb_frame (objs : list (string * Entity)) (p o k : string) :
  k <> p -> omap_get k (absorb objs p o) = omap_get k objs.
Proof.
  intros Hk. unfold absorb.
  destruct (omap_get p objs); [|reflexivity].
  destruct (omap_get o objs); [|reflexivity].
  apply omap_get_set_ne. congruence.
Qed.

Lemma adopt_frame (objs : list (string * Entity)) (p o k : string) :
  k <> p -> omap_get k (adoptFirstAppearance objs p o) = omap_get k objs.
Proof.
  intros Hk. unfold adoptFirstAppearance.
  destruct (omap_get p objs) as [ep|]; [|reflexivity].
  destruct (omap_get o objs) as [eo|]; [|reflexivity].
  destruct (e_firstAppearance eo); [|reflexivity].
  destruct (match e_firstAppearance ep with
            | Some ours => jsLessThan f ours
            | None => true
            end); [|reflexivity].
  apply omap_get_set_ne. congruence.
Qed.

Lemma absorbStep_fold (p : string) (others : list string) :
  forall objs alive k,
    snd (fold_left (absorbStep p) others (objs, alive))
    = List.filter (fun x => negb (inList x others)) alive /\
    (k <> p ->
     omap_get k (fst (fold_left (absorbStep p) others (objs, alive)))
     = omap_get k objs).
Proof.
  induction others as [|o others IH]; intros objs alive k; cbn [fold_left].
  - split; [|reflexivity]. cbn. induction alive; simpl; congruence.
  - unfold absorbStep at 2 4. cbn [fst snd].
    destruct (IH (absorb objs p o)
                (List.filter (fun x => negb (String.eqb x o)) alive) k)
      as [Hl Ho].
    split.
    + rewrite Hl. clear. unfold inList.
      induction alive as [|x alive IH]; [reflexivity|].
      cbn [List.filter existsb].
      destruct (String.eqb x o) eqn:E; cbn [negb orb List.filter]; [exact IH|].
      destruct (existsb (String.eqb x) others); cbn [negb]; [exact IH|].
      f_equal. exact IH.
    + intros Hk. rewrite (Ho Hk). now apply absorb_frame.
Qed.

Lemma adopt_fold_frame (p : string) (others : list string) :
  forall objs k,
    k <> p ->
    omap_get k (fold_left (fun objs other => adoptFirstAppearance objs p other)
                  others objs)
    = omap_get k objs.
Proof.
  induction others as [|o others IH]; intros objs k Hk; cbn [fold_left];
    [reflexivity|].
  rewrite (IH _ _ Hk). now apply adopt_frame.
Qed.

(** A group that merges: the live keys lose the absorbed ones, the records
    of all keys but the primary stay, and the primary holds the sum. *)
Lemma applyGroup_frame (st : MergeState) (names : list MergeName) :
  (2 <= length (resolveGroup st names))%nat ->
  NoDup (map fst (resolveGroup st names)) ->
  exists p absorbed merged,
    Permutation (p :: absorbed) (map fst (resolveGroup st names)) /\
    live (applyGroup st (GroupArray names))
    = List.filter (fun x => negb (inList x absorbed)) (live st) /\
    (forall k, k <> p ->
       omap_get k (objects (applyGroup st (GroupArray names)))
       = omap_get k (objects st)) /\
    omap_get p (objects (applyGroup st (GroupArray names))) = Some merged /\
    e_mentions merged = sumMentions (resolveGroup st names) /\
    exists am,
      appliedMerges (applyGroup st (GroupArray names)) = appliedMerges st ++ [am] /\
      length (am_merged am) = length absorbed.
Proof.
  intros Hlen Hnd.
  destruct (applyGroup_effect st names Hlen Hnd)
    as ([p ep] & absorbed & merged & Hs & _ & _ & Hget & _ & _ & Hsum & _ & _
        & _ & Happlied).
  exists p, (map fst absorbed), merged.
  pose proof (sortBy_perm byResolvedMentionsDesc (resolveGroup st names)) as Hperm.
  rewrite Hs in Hperm.
  split.
  { change (p :: map fst absorbed) with (map fst ((p, ep) :: absorbed)).
    now apply Permutation_map. }
  assert (Hst : objects (applyGroup st (GroupArray names)) =
                fold_left (fun objs other => adoptFirstAppearance objs p other)
                  (map fst absorbed)
                  (fst (fold_left (absorbStep p) (map fst absorbed)
                          (objects st, live st))) /\
                live (applyGroup st (GroupArray names)) =
                snd (fold_left (absorbStep p) (map fst absorbed)
                       (objects st, live st))).
  { unfold applyGroup.
    pose proof (resolveGroup_length st names) as Hle.
    destruct (Nat.ltb_spec (length names) 2) as [Hlt|_]; [lia|].
    destruct (Nat.ltb_spec (length (resolveGroup st names)) 2) as [Hlt|_];
      [lia|].
    rewrite Hs. cbn [map fst].
    destruct (fold_left (absorbStep p) (map fst absorbed) (objects st, live st))
      as [objs alive]. simpl. auto. }
  destruct Hst as [Hobjs Hlive].
  split.
  { rewrite Hlive.
    apply (absorbStep_fold p (map fst absorbed) (objects st) (live st) p). }
  split.
  { intros k Hk. rewrite Hobjs, (adopt_fold_frame _ _ _ _ Hk).
    now apply (absorbStep_fold p (map fst absorbed) (objects st) (live st) k). }
  split; [exact Hget|]. split; [exact Hsum|].
  eexists. split; [exact Happlied|]. cbn. now rewrite !length_map.
Qed.

(** *** One group, merged or skipped *)

Lemma applyGroup_skip (st : MergeState) (g : MergeGroup) :
  match g with
  | GroupArray names => (length (resolveGroup st names) < 2)%nat
  | GroupOther => True
  end ->
  objects (applyGroup st g) = objects st /\ live (applyGroup st g) = live st /\
  appliedMerges (applyGroup st g) = appliedMerges st /\
  map sm_group (skippedMerges (applyGroup st g))
  = map sm_group (skippedMerges st) ++ [g].
Proof.
  destruct g as [names|]; intros H; unfold applyGroup.
  - destruct (Nat.ltb (length names) 2).
    + cbn. rewrite map_app. auto.
    + destruct (Nat.ltb_spec (length (resolveGroup st names)) 2); [|lia].
      cbn. rewrite map_app. auto.
  - cbn. rewrite map_app. auto.
Qed.

Lemma resolved_keys (st : MergeState) (names : list MergeName) :
  map fst (resolveGroup st names)
  = List.filter
      (fun s => match resolveName st (NameString s) with
                | Some _ => true
                | None => false
                end)
      (nameStrings names).
Proof.
  unfold resolveGroup, nameStrings.
  induction names as [|n names IH]; [reflexivity|].
  destruct n as [s|]; csimpl; [|exact IH].
  destruct (inList s (live st)); csimpl; [|exact IH].
  destruct (omap_get s (objects st)); csimpl; [|exact IH].
  now rewrite IH.
Qed.

Lemma sumMentions_keys (objs : list (string * Entity))
  (l : list (string * Entity)) :
  (forall x, In x l -> omap_get (fst x) objs = Some (snd x)) ->
  sumMentions l = sumBy (mentionsOf objs) (map fst l).
Proof.
  induction l as [|x l IH]; intros H; simpl; [reflexivity|].
  unfold mentionsOf at 1. rewrite (H x (or_introl eq_refl)).
  rewrite IH; [reflexivity|]. intros y Hy. apply H. now right.
Qed.

Lemma mergedCount_snoc (l : list AppliedMerge) (am : AppliedMerge) :
  mergedCount (l ++ [am]) = (mergedCount l + length (am_merged am))%nat.
Proof. induction l as [|x l IH]; simpl; lia. Qed.

Lemma filter_length_split {A : Type} (q : A -> bool) (l : list A) :
  length l
  = (length (List.filter q l) + length (List.filter (fun x => negb (q x)) l))%nat.
Proof. induction l as [|x l IH]; simpl; [reflexivity|]. destruct (q x); simpl; lia. Qed.

(** The keys of [l] that lie in [a], when [a] is a duplicate-free part of
    the duplicate-free [l]. *)
Lemma filter_members (a l : list string) :
  NoDup a -> NoDup l -> (forall k, In k a -> In k l) ->
  Permutation (List.filter (fun x => inList x a) l) a.
Proof.
  intros Ha Hl Hsub. apply NoDup_Permutation; [now apply filter_NoDup_list | exact Ha |].
  intros k. rewrite !list_elem_of_In, filter_In, inList_In. intuition.
Qed.

Lemma applyGroup_conserves (st : MergeState) (g : MergeGroup) :
  liveOk st -> distinctNames g ->
  liveOk (applyGroup st g) /\
  liveTotal (applyGroup st g) = liveTotal st /\
  (length (live (applyGroup st g)) + mergedCount (appliedMerges (applyGroup st g))
   = length (live st) + mergedCount (appliedMerges st))%nat.
Proof.
  intros [Hnd Hrec] Hg.
  assert (Hskip : match g with
                  | GroupArray names => (length (resolveGroup st names) < 2)%nat
                  | GroupOther => True
                  end ->
                  liveOk (applyGroup st g) /\
                  liveTotal (applyGroup st g) = liveTotal st /\
                  (length (live (applyGroup st g))
                   + mergedCount (appliedMerges (applyGroup st g))
                   = length (live st) + mergedCount (appliedMerges st))%nat).
  { intros H. destruct (applyGroup_skip st g H) as (Ho & Hl & Ha & _).
    unfold liveOk, liveTotal. rewrite Ho, Hl, Ha. auto. }
  destruct g as [names|]; [|now apply Hskip].
  destruct (Nat.lt_ge_cases (length (resolveGroup st names)) 2) as [Hlt|Hge];
    [now apply Hskip|].
  clear Hskip. cbn in Hg.
  assert (Hkeys : NoDup (map fst (resolveGroup st names))).
  { rewrite resolved_keys. now apply filter_NoDup_list. }
  destruct (applyGroup_frame st names Hge Hkeys)
    as (p & absorbed & merged & Hperm & Hlive & Hframe & Hget & Hsum
        & am & Happlied & Ham).
  assert (Hpa : NoDup (p :: absorbed)) by now rewrite Hperm.
  apply NoDup_cons in Hpa as [Hp Ha].
  assert (Hin : forall k, In k (p :: absorbed) ->
                  In k (live st) /\
                  exists e, In (k, e) (resolveGroup st names)).
  { intros k Hk. apply list_elem_of_In in Hk. rewrite Hperm in Hk.
    apply list_elem_of_In, in_map_iff in Hk as ([k' e] & <- & Hx).
    split; [exact (proj1 (resolveGroup_sound st names _ Hx))|]. now exists e. }
  assert (Hp_live : In p (live (applyGroup st (GroupArray names)))).
  { rewrite Hlive. apply filter_In. split; [apply Hin; now left|].
    apply negb_true_iff, not_true_iff_false. rewrite inList_In.
    intros H. apply Hp. now apply list_elem_of_In. }
  split; [|split].
  - split; [rewrite Hlive; now apply filter_NoDup_list|].
    intros k Hk. destruct (string_dec k p) as [->|Hne]; [now exists merged|].
    rewrite (Hframe k Hne). apply Hrec.
    rewrite Hlive in Hk. now apply filter_In in Hk as [Hk _].
  - unfold liveTotal.
    rewrite (sumBy_update (mentionsOf (objects st))
               (mentionsOf (objects (applyGroup st (GroupArray names)))) p);
      [|rewrite Hlive; now apply filter_NoDup_list | exact Hp_live |].
    2:{ intros k Hk. unfold mentionsOf. now rewrite (Hframe k Hk). }
    rewrite Hlive.
    rewrite (sumBy_split (mentionsOf (objects st))
               (fun x => inList x absorbed) (live st)).
    rewrite (sumBy_perm _ _ _ (filter_members absorbed (live st) Ha Hnd
                                 (fun k Hk => proj1 (Hin k (or_intror Hk))))).
    unfold mentionsOf at 2. rewrite Hget, Hsum.
    rewrite (sumMentions_keys (objects st)).
    2:{ intros x Hx. exact (proj2 (resolveGroup_sound st names x Hx)). }
    rewrite <- (sumBy_perm _ _ _ Hperm). simpl. lia.
  - rewrite Happlied, mergedCount_snoc, Ham, Hlive.
    rewrite (filter_length_split (fun x => inList x absorbed) (live st)).
    rewrite (Permutation_length
               (filter_members absorbed (live st) Ha Hnd
                  (fun k Hk => proj1 (Hin k (or_intror Hk))))).
    lia.
Qed.

Lemma applyGroups_conserve (merges : list MergeGroup) :
  forall st,
    liveOk st -> Forall distinctNames merges ->
    liveOk (fold_left applyGroup merges st) /\
    liveTotal (fold_left applyGroup merges st) = liveTotal st /\
    (length (live (fold_left applyGroup merges st))
     + mergedCount (appliedMerges (fold_left applyGroup merges st))
     = length (live st) + mergedCount (appliedMerges st))%nat.
Proof.
  induction merges as [|g merges IH]; intros st Hst Hall; cbn [fold_left];
    [auto|].
  apply Forall_cons in Hall as [Hg Hall].
  destruct (applyGroup_conserves st g Hst Hg) as (H1 & H2 & H3).
  destruct (IH _ H1 Hall) as (H4 & H5 & H6).
  split; [exact H4|]. split; lia.
Qed.

(** *** The entity map at the start *)

Lemma omap_set_fresh {V : Type} (k : string) (v : V) (m : list (string * V)) :
  ~ In k (map fst m) -> omap_set k v m = m ++ [(k, v)].
Proof.
  induction m as [|[k' v'] m IH]; simpl; intros H; [reflexivity|].
  destruct (String.eqb_spec k k') as [->|_]; [exfalso; apply H; now left|].
  rewrite IH; [reflexivity | tauto].
Qed.

Lemma initial_objects (entities : list Entity) :
  NoDup (map e_canonicalName entities) ->
  objects (initialState entities)
  = map (fun e => (e_canonicalName e, e)) entities.
Proof.
  intros Hnd. unfold initialState. cbn [objects].
  assert (G : forall l acc,
            NoDup (map fst acc ++ map e_canonicalName l) ->
            fold_left (fun m e => omap_set (e_canonicalName e) e m) l acc
            = acc ++ map (fun e => (e_canonicalName e, e)) l).
  { induction l as [|e l IH]; intros acc H; cbn [fold_left map].
    - now rewrite app_nil_r.
    - cbn [map] in H. rewrite omap_set_fresh.
      + rewrite IH; [now rewrite <- app_assoc|].
        rewrite map_app. cbn [map fst]. now rewrite <- app_assoc.
      + apply NoDup_app in H as (_ & H & _). intros Hin.
        apply (H (e_canonicalName e)); [now apply list_elem_of_In | left]. }
  apply (G entities []). exact Hnd.
Qed.

Lemma initial_live (entities : list Entity) :
  NoDup (map e_canonicalName entities) ->
  live (initialState entities) = map e_canonicalName entities.
Proof.
  intros Hnd.
  change (live (initialState entities))
    with (map fst (objects (initialState entities))).
  rewrite (initial_objects _ Hnd), map_map. reflexivity.
Qed.

Lemma omap_get_pairs (entities : list Entity) (e : Entity) :
  NoDup (map e_canonicalName entities) -> In e entities ->
  omap_get (e_canonicalName e) (map (fun e => (e_canonicalName e, e)) entities)
  = Some e.
Proof.
  induction entities as [|x l IH]; intros Hnd Hin; [destruct Hin|].
  cbn [map] in *. apply NoDup_cons in Hnd as [Hx Hl]. cbn [omap_get].
  destruct Hin as [->|Hin]; [now rewrite String.eqb_refl|].
  destruct (String.eqb_spec (e_canonicalName e) (e_canonicalName x)) as [E|_];
    [|now apply IH].
  exfalso. apply Hx. rewrite <- E. apply list_elem_of_In, in_map, Hin.
Qed.

Lemma remaining_initial (entities : list Entity) :
  NoDup (map e_canonicalName entities) ->
  omap (fun k => omap_get k (objects (initialState entities)))
    (live (initialState entities))
  = entities.
Proof.
  intros Hnd. rewrite (initial_live _ Hnd), (initial_objects _ Hnd).
  assert (G : forall l,
            (forall e, In e l -> In e entities) ->
            omap (fun k => omap_get k
                             (map (fun e => (e_canonicalName e, e)) entities))
              (map e_canonicalName l) = l).
  { induction l as [|e l IH]; intros Hsub; [reflexivity|]. csimpl.
    rewrite (omap_get_pairs entities e Hnd (Hsub e (or_introl eq_refl))).
    csimpl. rewrite IH; [reflexivity|]. intros x Hx. apply Hsub. now right. }
  apply G. auto.
Qed.

Lemma initial_liveOk (entities : list Entity) :
  NoDup (map e_canonicalName entities) -> liveOk (initialState entities).
Proof.
  intros Hnd. split.
  - now rewrite (initial_live _ Hnd).
  - intros k Hk. rewrite (initial_live _ Hnd) in Hk.
    rewrite (initial_objects _ Hnd).
    apply in_map_iff in Hk as (e & <- & He). exists e.
    now apply omap_get_pairs.
Qed.

Lemma remaining_total (st : MergeState) :
  liveOk st ->
  totalOf (omap (fun k => omap_get k (objects st)) (live st)) = liveTotal st /\
  length (omap (fun k => omap_get k (objects st)) (live st)) = length (live st).
Proof.
  intros [_ Hrec]. unfold liveTotal. revert Hrec.
  induction (live st) as [|k l IH]; intros Hrec; [split; reflexivity|].
  destruct (Hrec k (or_introl eq_refl)) as [e He]. csimpl. rewrite He. csimpl.
  unfold mentionsOf at 1. rewrite He.
  destruct IH as [IH1 IH2]; [intros k' Hk'; apply Hrec; now right|].
  split; [now rewrite IH1 | now rewrite IH2].
Qed.

Lemma totalOf_perm (l l' : list Entity) :
  Permutation l l' -> totalOf l = totalOf l'.
Proof. induction 1; simpl; lia. Qed.

(** When the entities have distinct canonical names and no suggested group
    names an entity twice, merging conserves the mentions: the mention counts
    of the entities [applyMerges] returns add up to those of the entities it
    was given. *)
Theorem applyMerges_conserves_mentions (entities : list Entity)
  (merges : list MergeGroup) :
  NoDup (map e_canonicalName entities) -> Forall distinctNames merges ->
  totalOf (mr_entities (applyMerges entities merges)) = totalOf entities.
Proof.
  intros Hnd Hall. unfold applyMerges. cbn [mr_entities].
  destruct (applyGroups_conserve merges (initialState entities)
              (initial_liveOk _ Hnd) Hall) as (Hok & Htotal & _).
  rewrite (totalOf_perm _ _ (sortBy_perm byMentionsDesc _)).
  rewrite (proj1 (remaining_total _ Hok)), Htotal.
  rewrite <- (proj1 (remaining_total _ (initial_liveOk _ Hnd))).
  now rewrite remaining_initial.
Qed.

Lemma applyMerges_conserves_mentions_witness :
  totalOf (mr_entities (applyMerges vernonEntities vernonMerges)) = 65.
Proof.
  rewrite (applyMerges_conserves_mentions vernonEntities vernonMerges).
  - reflexivity.
  - apply (bool_decide_unpack _). vm_compute. reflexivity.
  - repeat constructor; apply (bool_decide_unpack _); vm_compute; reflexivity.
Defined.

(** Under the same conditions every entity is either returned or recorded as
    merged into another: the number of entities returned and the number of
    names listed as merged by the applied merges add up to the number of
    entities given. *)
Theorem applyMerges_entity_count (entities : list Entity)
  (merges : list MergeGroup) :
  NoDup (map e_canonicalName entities) -> Forall distinctNames merges ->
  (length (mr_entities (applyMerges entities merges))
   + mergedCount (mr_appliedMerges (applyMerges entities merges))
   = length entities)%nat.
Proof.
  intros Hnd Hall. unfold applyMerges. cbn [mr_entities mr_appliedMerges].
  destruct (applyGroups_conserve merges (initialState entities)
              (initial_liveOk _ Hnd) Hall) as (Hok & _ & Hcount).
  rewrite sortBy_length, (proj2 (remaining_total _ Hok)), Hcount.
  rewrite <- (proj2 (remaining_total _ (initial_liveOk _ Hnd))).
  rewrite remaining_initial by exact Hnd. cbn. lia.
Qed.

Lemma applyMerges_entity_count_witness :
  (length (mr_entities (applyMerges vernonEntities vernonMerges))
   + mergedCount (mr_appliedMerges (applyMerges vernonEntities vernonMerges))
   = 3)%nat.
Proof.
  apply (applyMerges_entity_count vernonEntities vernonMerges).
  - apply (bool_decide_unpack _). vm_compute. reflexivity.
  - repeat constructor; apply (bool_decide_unpack _); vm_compute; reflexivity.
Defined.

(** *** Groups that find fewer than two entities *)

Lemma filter_ext_in_list {A : Type} (p q : A -> bool) (l : list A) :
  (forall x, In x l -> p x = q x) -> List.filter p l = List.filter q l.
Proof.
  induction l as [|x l IH]; intros H; simpl; [reflexivity|].
  rewrite (H x (or_introl eq_refl)), IH; [reflexivity|].
  intros y Hy. apply H. now right.
Qed.

Lemma resolved_initially (entities : list Entity) (st : MergeState)
  (names : list MergeName) :
  NoDup (map e_canonicalName entities) ->
  objects st = objects (initialState entities) ->
  live st = live (initialState entities) ->
  length (resolveGroup st names) = namesFound entities (GroupArray names).
Proof.
  intros Hnd Ho Hl. rewrite <- (length_map fst), resolved_keys. cbn [namesFound].
  f_equal. apply filter_ext_in_list. intros s _. cbn [resolveName].
  rewrite Ho, Hl, (initial_live _ Hnd), (initial_objects _ Hnd).
  destruct (inList s (map e_canonicalName entities)) eqn:E; [|reflexivity].
  apply inList_In, in_map_iff in E as (e & <- & He).
  now rewrite (omap_get_pairs entities e Hnd He).
Qed.

(** When the entities have distinct canonical names and every suggested
    group names fewer than two of them (or is no array, or has fewer than
    two elements), [applyMerges] changes nothing: it returns the entities it
    was given, sorted by mentions, applies no merge, and records every group
    as skipped, in order. *)
Theorem applyMerges_nothing_found (entities : list Entity)
  (merges : list MergeGroup) :
  NoDup (map e_canonicalName entities) ->
  Forall (fun g => (namesFound entities g < 2)%nat) merges ->
  mr_entities (applyMerges entities merges) = sortBy byMentionsDesc entities /\
  mr_appliedMerges (applyMerges entities merges) = [] /\
  map sm_group (mr_skippedMerges (applyMerges entities merges)) = merges.
Proof.
  intros Hnd Hall. unfold applyMerges.
  cbn [mr_entities mr_appliedMerges mr_skippedMerges].
  assert (G : forall l st,
            Forall (fun g => (namesFound entities g < 2)%nat) l ->
            objects st = objects (initialState entities) ->
            live st = live (initialState entities) ->
            objects (fold_left applyGroup l st) = objects (initialState entities) /\
            live (fold_left applyGroup l st) = live (initialState entities) /\
            appliedMerges (fold_left applyGroup l st) = appliedMerges st /\
            map sm_group (skippedMerges (fold_left applyGroup l st))
            = map sm_group (skippedMerges st) ++ l).
  { induction l as [|g l IH]; intros st Hl Ho Hlv; cbn [fold_left].
    - now rewrite app_nil_r.
    - apply Forall_cons in Hl as [Hg Hl].
      destruct (applyGroup_skip st g) as (H1 & H2 & H3 & H4).
      { destruct g as [names|]; [|exact I].
        now rewrite (resolved_initially entities st names Hnd Ho Hlv). }
      destruct (IH (applyGroup st g) Hl) as (H5 & H6 & H7 & H8);
        [congruence | congruence |].
      rewrite H5, H6, H7, H8, H3, H4, <- app_assoc. auto. }
  destruct (G merges (initialState entities) Hall eq_refl eq_refl)
    as (Ho & Hl & Ha & Hs).
  rewrite Ho, Hl, Ha, Hs, (remaining_initial _ Hnd). auto.
Qed.

Lemma applyMerges_nothing_found_witness :
  mr_entities
    (applyMerges vernonEntities
       [GroupOther; GroupArray [NameString "Vernon"];
        GroupArray [NameString "Vernon"; NameString "Petunia"; NameOther]])
  = vernonEntities.
Proof.
  refine (proj1 (applyMerges_nothing_found vernonEntities _ _ _)).
  - apply (bool_decide_unpack _). vm_compute. reflexivity.
  - repeat constructor.
Defined.

(** *** The tiers after merging *)

Lemma filter_partition_perm {A : Type} (q : A -> bool) (l : list A) :
  Permutation (List.filter q l ++ List.filter (fun x => negb (q x)) l) l.
Proof.
  induction l as [|x l IH]; simpl; [reflexivity|].
  destruct (q x); simpl; [now constructor|].
  rewrite <- Permutation_middle. now constructor.
Qed.

Lemma find_first_part {A : Type} (q : A -> bool) (l1 l2 : list A) (c : A) :
  In c l1 -> q c = true ->
  exists c', find q (l1 ++ l2) = Some c' /\ In c' l1.
Proof.
  induction l1 as [|x l1 IH]; intros Hin Hq; [destruct Hin|]. cbn [app find].
  destruct (q x) eqn:Hx; [exists x; split; [reflexivity | now left]|].
  destruct Hin as [->|Hin]; [congruence|].
  destruct (IH Hin Hq) as (c' & Hf & Hc'). exists c'. split; [exact Hf | now right].
Qed.

Section Resolution.
Variable llmProvider : Request -> outcome Response.
Variable JSON_parse : string -> Parsed.
Variable verbose : bool.

(** When the provider call succeeds, [runCorefResolution] returns the merged
    entities split in two lists, each still in descending order of mentions.
    An entity is confirmed as soon as its id is the id of a confirmed input
    entity, or it absorbed an entity whose canonical name is that of a
    confirmed input entity; no candidate returned carries the id of a
    confirmed input entity. *)
Theorem runCorefResolution_tiers (confirmedCharacters candidates : list Entity)
  (corefResult : LlmResult) :
  llmCorefMerge llmProvider JSON_parse verbose
    (allEntityNamesOf confirmedCharacters candidates) = Returned corefResult ->
  exists r,
    runCorefResolution llmProvider JSON_parse verbose confirmedCharacters
      candidates
    = Returned r /\
    cs_error (cr_corefStats r) = None /\
    let merged :=
      mr_entities (applyMerges (confirmedCharacters ++ candidates)
                     (lr_merges corefResult)) in
    Permutation (cr_confirmedCharacters r ++ cr_candidates r) merged /\
    StronglySorted (fun a b => e_mentions b <= e_mentions a)
      (cr_confirmedCharacters r) /\
    StronglySorted (fun a b => e_mentions b <= e_mentions a) (cr_candidates r) /\
    (forall e, In e merged ->
       In (e_id e) (map e_id confirmedCharacters) \/
       (exists c, In c confirmedCharacters /\
                  In (e_canonicalName c) (e_mergedFrom e)) ->
       In e (cr_confirmedCharacters r)) /\
    (forall e, In e (cr_candidates r) ->
       ~ In (e_id e) (map e_id confirmedCharacters)).
Proof.
  intros Hcall. unfold runCorefResolution. rewrite Hcall.
  eexists. split; [reflexivity|]. split; [reflexivity|].
  cbn [cr_confirmedCharacters cr_candidates]. cbv zeta.
  split; [apply filter_partition_perm|].
  split; [apply StronglySorted_filter; unfold applyMerges; cbn [mr_entities];
          apply sortBy_mentions_desc|].
  split; [apply StronglySorted_filter; unfold applyMerges; cbn [mr_entities];
          apply sortBy_mentions_desc|].
  split.
  - intros e He Hwas. apply filter_In. split; [exact He|].
    apply orb_true_iff. destruct Hwas as [Hid|(c & Hc & Hname)].
    + left. now apply inList_In.
    + right. apply existsb_exists. exists (e_canonicalName c).
      split; [exact Hname|].
      destruct (find_first_part
                  (fun e0 => String.eqb (e_canonicalName e0) (e_canonicalName c))
                  confirmedCharacters candidates c Hc (String.eqb_refl _))
        as (c' & Hfind & Hc').
      rewrite Hfind. apply inList_In, in_map, Hc'.
  - intros e He Hid. apply filter_In in He as [_ He].
    apply negb_true_iff, orb_false_iff in He as [He _].
    apply inList_In in Hid. congruence.
Qed.
End Resolution.

Lemma runCorefResolution_tiers_witness :
  exists r,
    runCorefResolution answeringProvider vernonParse false vernonConfirmed
      vernonCandidates = Returned r /\
    map e_canonicalName (cr_confirmedCharacters r) = ["Vernon"] /\
    map e_canonicalName (cr_candidates r) = [].
Proof.
  destruct (runCorefResolution_tiers answeringProvider vernonParse false
              vernonConfirmed vernonCandidates
              (mkLlmResult [vernonGroup] (mkTokens 120 30)
                 (Some "Here you are: {} ")))
    as (r & Hr & _).
  - vm_compute. reflexivity.
  - exists r. split; [exact Hr|].
    vm_compute in Hr. injection Hr as <-. split; reflexivity.
Defined.

End CorefProps.

(** ** Deduplicator: ids, order, separation, idempotence, what is kept *)

Module DedupeProps.
Import JS Extract Snippets Dedupe DedupeSpec JSFacts DedupeFacts.
Import GrouperProps FilterProps CorefProps.

(** *** The entities of a merged snippet *)

Lemma uniqFrom_spec (l : list string) :
  forall seen,
    NoDup (uniqFrom seen l) /\
    forall x, In x (uniqFrom seen l) <-> In x l /\ ~ In x seen.
Proof.
  induction l as [|y l IH]; intros seen; cbn [uniqFrom].
  - split; [constructor | intros x; simpl; tauto].
  - destruct (inList y seen) eqn:E.
    + destruct (IH seen) as [Hnd Hin]. split; [exact Hnd|].
      intros x. rewrite Hin. apply inList_In in E. simpl.
      split; [tauto | intros [[<-|H] Hs]; tauto].
    + destruct (IH (y :: seen)) as [Hnd Hin]. split.
      * apply NoDup_cons. split; [|exact Hnd].
        rewrite list_elem_of_In, Hin. simpl. tauto.
      * intros x. simpl. rewrite Hin. simpl.
        assert (Hy : ~ In y seen).
        { intros H. apply inList_In in H. congruence. }
        destruct (string_dec y x) as [->|Hne]; tauto.
Qed.

Lemma mergeSnippets_fields (a b : Snippet) :
  NoDup (entities (mergeSnippets a b)) /\
  (forall e, In e (entities (mergeSnippets a b)) <->
             In e (entities a) \/ In e (entities b)) /\
  mentions (mergeSnippets a b) = mentions a ++ mentions b.
Proof.
  unfold mergeSnippets. cbn.
  destruct (uniqFrom_spec (entities a ++ entities b) []) as [Hnd Hin].
  split; [exact Hnd|]. split; [|reflexivity].
  intros e. rewrite Hin, in_app_iff. simpl. tauto.
Qed.

(** For every two snippets, the snippet [mergeSnippets] makes of them lists
    every entity of either of them, each once; it spans the sentences from
    the start of the first to the end of the second, stays in the chapter
    and paragraph of the first and keeps its id, and holds the mentions of
    both, in order. *)
Theorem mergeSnippets_union (a b : Snippet) :
  let m := mergeSnippets a b in
  NoDup (entities m) /\
  (forall e, In e (entities m) <-> In e (entities a) \/ In e (entities b)) /\
  mentions m = mentions a ++ mentions b /\
  startOf m = startOf a /\ endOf m = endOf b /\
  chapter m = chapter a /\
  paragraphIndex (location m) = paragraphIndex (location a) /\
  id m = id a.
Proof.
  cbv zeta. destruct (mergeSnippets_fields a b) as (H1 & H2 & H3).
  repeat split; try assumption; apply H2.
Qed.

(** *** What deduplication keeps *)

Lemma mergeAdjacent_mentions (rest : list Snippet) :
  forall current,
    flat_map mentions (mergeAdjacent current rest)
    = flat_map mentions (current :: rest) /\
    forall e,
      (exists s, In s (mergeAdjacent current rest) /\ In e (entities s)) <->
      (exists s, In s (current :: rest) /\ In e (entities s)).
Proof.
  induction rest as [|next rest IH]; intros current; cbn [mergeAdjacent].
  - split; [reflexivity | tauto].
  - destruct (Z.leb (startOf next - endOf current) 2).
    + destruct (IH (mergeSnippets current next)) as [Hm He]. split.
      * rewrite Hm. cbn [flat_map].
        destruct (mergeSnippets_fields current next) as (_ & _ & ->).
        now rewrite <- app_assoc.
      * intros e. rewrite He.
        destruct (mergeSnippets_fields current next) as (_ & Hu & _).
        split.
        -- intros (s & [<-|Hs] & Hes).
           ++ apply Hu in Hes as [H|H]; [exists current | exists next];
                simpl; auto.
           ++ exists s. simpl. auto.
        -- intros (s & [<-|[<-|Hs]] & Hes).
           ++ exists (mergeSnippets current next). split; [now left|].
              apply Hu. now left.
           ++ exists (mergeSnippets current next). split; [now left|].
              apply Hu. now right.
           ++ exists s. simpl. auto.
    + destruct (IH next) as [Hm He]. split.
      * cbn [flat_map]. now rewrite Hm.
      * intros e. split.
        -- intros (s & [<-|Hs] & Hes); [exists current; simpl; auto|].
           destruct (proj1 (He e) (ex_intro _ s (conj Hs Hes)))
             as (s' & Hs' & Hes').
           exists s'. split; [now right | exact Hes'].
        -- intros (s & [<-|Hs] & Hes); [exists current; simpl; auto|].
           destruct (proj2 (He e) (ex_intro _ s (conj Hs Hes)))
             as (s' & Hs' & Hes').
           exists s'. split; [now right | exact Hes'].
Qed.

Lemma imap_fields {B : Type} (h : Snippet -> B) (l : list Snippet) :
  forall (f : nat -> Snippet -> Snippet),
    (forall i s, h (f i s) = h s) -> map h (imap f l) = map h l.
Proof.
  induction l as [|x l IH]; intros f Hf; [reflexivity|].
  cbn [imap map]. rewrite Hf. f_equal. apply IH. intros i s. apply Hf.
Qed.

Lemma flat_map_as_concat {A B : Type} (f : A -> list B) (l : list A) :
  flat_map f l = concat (map f l).
Proof. apply flat_map_concat_map. Qed.

Lemma dedupeGroup_keeps (g : list Snippet) :
  Permutation (flat_map mentions (dedupeGroup g)) (flat_map mentions g) /\
  forall e,
    (exists s, In s (dedupeGroup g) /\ In e (entities s)) <->
    (exists s, In s g /\ In e (entities s)).
Proof.
  unfold dedupeGroup.
  pose proof (sortBy_perm byStart g) as Hperm.
  destruct (sortBy byStart g) as [|first rest].
  - apply Permutation_nil in Hperm. subst g. split; [reflexivity | tauto].
  - destruct (mergeAdjacent_mentions rest first) as [Hm He]. split.
    + rewrite Hm. now apply Permutation_flat_map.
    + intros e. rewrite He. split; intros (s & Hs & Hes); exists s;
        (split; [|exact Hes]); apply list_elem_of_In;
        apply list_elem_of_In in Hs; [now rewrite <- Hperm | now rewrite Hperm].
Qed.

Lemma groups_keep (groups : list (string * list Snippet)) :
  Permutation
    (flat_map mentions (flat_map (fun g => dedupeGroup (snd g)) groups))
    (flat_map mentions (concat (map snd groups))) /\
  forall e,
    (exists s, In s (flat_map (fun g => dedupeGroup (snd g)) groups)
               /\ In e (entities s)) <->
    (exists s, In s (concat (map snd groups)) /\ In e (entities s)).
Proof.
  induction groups as [|[k g] groups [IHm IHe]]; cbn [flat_map map concat snd].
  - split; [reflexivity | tauto].
  - destruct (dedupeGroup_keeps g) as [Hm He]. split.
    + rewrite !flat_map_app. now rewrite Hm, IHm.
    + intros e. split; intros (s & Hs & Hes); apply in_app_or in Hs as [Hs|Hs].
      * destruct (proj1 (He e) (ex_intro _ s (conj Hs Hes))) as (s' & H1 & H2).
        exists s'. split; [apply in_or_app; now left | exact H2].
      * destruct (proj1 (IHe e) (ex_intro _ s (conj Hs Hes))) as (s' & H1 & H2).
        exists s'. split; [apply in_or_app; now right | exact H2].
      * destruct (proj2 (He e) (ex_intro _ s (conj Hs Hes))) as (s' & H1 & H2).
        exists s'. split; [apply in_or_app; now left | exact H2].
      * destruct (proj2 (IHe e) (ex_intro _ s (conj Hs Hes))) as (s' & H1 & H2).
        exists s'. split; [apply in_or_app; now right | exact H2].
Qed.

Lemma renumber_keeps (l : list Snippet) :
  map mentions (renumber l) = map mentions l /\
  map entities (renumber l) = map entities l.
Proof. split; apply imap_fields; reflexivity. Qed.

Lemma entities_via_map (l : list Snippet) (e : string) :
  (exists s, In s l /\ In e (entities s)) <->
  (exists es, In es (map entities l) /\ In e es).
Proof.
  split.
  - intros (s & Hs & He). exists (entities s). split; [now apply in_map | exact He].
  - intros (es & Hes & He). apply in_map_iff in Hes as (s & <- & Hs). now exists s.
Qed.

(** For every list of snippets, deduplication loses nothing: the mention
    records of the snippets returned are those of the snippets given, each
    as often as it came in, and an entity is listed by a snippet returned
    exactly when it is listed by a snippet given. *)
Theorem dedupeSnippets_keeps (snippets : list Snippet) :
  Permutation (flat_map mentions (dedupeSnippets snippets))
    (flat_map mentions snippets) /\
  forall e,
    (exists s, In s (dedupeSnippets snippets) /\ In e (entities s)) <->
    (exists s, In s snippets /\ In e (entities s)).
Proof.
  rewrite dedupeSnippets_unfold.
  set (groups := groupBy Dedupe.keyOf snippets).
  set (deduped := flat_map (fun g => dedupeGroup (snd g)) groups).
  destruct (renumber_keeps (sortBy documentOrder deduped)) as [Hrm Hre].
  destruct (groups_keep groups) as [Hm He]. fold deduped in Hm, He.
  assert (Hconcat : Permutation (concat (map snd groups)) snippets).
  { unfold groups, groupBy. now rewrite groupBy_concat. }
  split.
  - rewrite !flat_map_as_concat, Hrm, <- !flat_map_as_concat.
    rewrite (Permutation_flat_map mentions (sortBy_perm documentOrder deduped)).
    rewrite Hm. now apply Permutation_flat_map.
  - intros e. rewrite entities_via_map, Hre, <- entities_via_map.
    split.
    + intros (s & Hs & Hes). apply list_elem_of_In, sortBy_elem_of in Hs.
      apply list_elem_of_In in Hs.
      destruct (proj1 (He e) (ex_intro _ s (conj Hs Hes))) as (s' & H1 & H2).
      exists s'. split; [|exact H2].
      apply list_elem_of_In. rewrite <- Hconcat. now apply list_elem_of_In.
    + intros (s & Hs & Hes).
      assert (Hs' : In s (concat (map snd groups))).
      { apply list_elem_of_In. rewrite Hconcat. now apply list_elem_of_In. }
      destruct (proj2 (He e) (ex_intro _ s (conj Hs' Hes))) as (s' & H1 & H2).
      exists s'. split; [|exact H2].
      apply list_elem_of_In, sortBy_elem_of, list_elem_of_In, H1.
Qed.

(** *** Ids and order *)

Lemma uint_of_zeros (k : nat) (t : string) :
  NilEmpty.uint_of_string (str (repeat "0"%char k) +:+ t)
  = Nat.iter k (option_map Decimal.D0) (NilEmpty.uint_of_string t).
Proof.
  induction k as [|k IH]; [reflexivity|].
  change (NilEmpty.uint_of_string
            (String "0"%char (str (repeat "0"%char k) +:+ t))
          = option_map Decimal.D0
              (Nat.iter k (option_map Decimal.D0) (NilEmpty.uint_of_string t))).
  rewrite <- IH. cbn [NilEmpty.uint_of_string].
  destruct (NilEmpty.uint_of_string (str (repeat "0"%char k) +:+ t));
    reflexivity.
Qed.

Lemma of_uint_zeros (k : nat) (d : Decimal.uint) :
  option_map Nat.of_uint (Nat.iter k (option_map Decimal.D0) (Some d))
  = Some (Nat.of_uint d).
Proof.
  induction k as [|k IH]; [reflexivity|]. rewrite Nat.iter_succ.
  destruct (Nat.iter k (option_map Decimal.D0) (Some d)) as [d'|];
    [|discriminate IH].
  injection IH as IH. cbn [option_map]. f_equal. rewrite <- IH. reflexivity.
Qed.

Lemma showNat_uint (i : nat) :
  exists d, NilEmpty.uint_of_string (showNat i) = Some d /\ Nat.of_uint d = i.
Proof.
  unfold showNat. pose proof (DecimalNat.Unsigned.of_to i) as Hi.
  destruct (Nat.to_uint i) eqn:E;
    try (eexists; split; [apply NilEmpty.usu | exact Hi]).
  exists (Decimal.D0 Decimal.Nil). split; [reflexivity | exact Hi].
Qed.

(** The text behind the prefix of an id reads as the index of the id. *)
Lemma snippetId_number (i : nat) :
  exists suffix, snippetId i = "s_" +:+ suffix /\ idNumber suffix = Some i.
Proof.
  unfold snippetId. eexists. split; [reflexivity|].
  unfold idNumber. destruct (showNat_uint i) as (d & Hd & Hi).
  rewrite uint_of_zeros, Hd, of_uint_zeros. now f_equal.
Qed.

Lemma snippetId_inj (i j : nat) : snippetId i = snippetId j -> i = j.
Proof.
  intros H.
  destruct (snippetId_number i) as (si & Hi & Hni).
  destruct (snippetId_number j) as (sj & Hj & Hnj).
  rewrite Hi, Hj in H. injection H as H. change (si = sj) in H.
  subst sj. congruence.
Qed.

Lemma renumber_ids (l : list Snippet) :
  map id (renumber l) = map snippetId (seq 0 (length l)).
Proof.
  unfold renumber.
  assert (G : forall k,
            map id (imap (fun i s => withId s (snippetId (k + i))) l)
            = map snippetId (seq k (length l))).
  { induction l as [|x l IH]; intros k; [reflexivity|].
    cbn [imap map length seq]. rewrite Nat.add_0_r. cbn [withId id]. f_equal.
    rewrite <- (IH (S k)). f_equal. apply imap_ext. intros i y _. cbn.
    now rewrite Nat.add_succ_r. }
  apply (G 0%nat).
Qed.

Lemma renumber_length (l : list Snippet) : length (renumber l) = length l.
Proof. unfold renumber. apply length_imap. Qed.

Lemma renumber_place (l : list Snippet) : Forall2 samePlace l (renumber l).
Proof.
  unfold renumber.
  assert (G : forall (f : nat -> string),
            Forall2 samePlace l (imap (fun i s => withId s (f i)) l)).
  { induction l as [|x l IH]; intros f; [constructor|].
    cbn [imap]. constructor; [split; reflexivity|]. apply (IH (f ∘ S)). }
  apply (G snippetId).
Qed.

Lemma documentOrder_place (a a' b b' : Snippet) :
  samePlace a a' -> samePlace b b' -> documentOrder a' b' = documentOrder a b.
Proof.
  intros [Ha1 Ha2] [Hb1 Hb2]. unfold documentOrder, startOf.
  now rewrite Ha1, Ha2, Hb1, Hb2.
Qed.

Lemma sorted_place (l l' : list Snippet) :
  Forall2 samePlace l l' ->
  StronglySorted (fun a b => documentOrder a b = true) l ->
  StronglySorted (fun a b => documentOrder a b = true) l'.
Proof.
  induction 1 as [|a a' l l' Ha Hl IH]; intros Hs; [constructor|].
  inversion Hs as [|? ? Hs' Hall]; subst. constructor; [now apply IH|].
  clear -Ha Hl Hall. induction Hl as [|b b' l l' Hb Hl IH]; [constructor|].
  inversion Hall; subst. constructor; [|now apply IH].
  now rewrite (documentOrder_place a a' b b' Ha Hb).
Qed.

Lemma mergeAdjacent_length (rest : list Snippet) :
  forall current,
    (1 <= length (mergeAdjacent current rest) <= S (length rest))%nat.
Proof.
  induction rest as [|next rest IH]; intros current; cbn [mergeAdjacent length];
    [lia|].
  destruct (Z.leb (startOf next - endOf current) 2).
  - specialize (IH (mergeSnippets current next)). lia.
  - cbn [length]. specialize (IH next). lia.
Qed.

Lemma dedupeGroup_length (g : list Snippet) :
  (length (dedupeGroup g) <= length g)%nat /\
  (g <> [] -> dedupeGroup g <> []).
Proof.
  unfold dedupeGroup. pose proof (sortBy_length byStart g) as Hlen.
  destruct (sortBy byStart g) as [|first rest].
  - split; [simpl; lia|]. intros H. destruct g; [congruence | discriminate Hlen].
  - pose proof (mergeAdjacent_length rest first) as H. cbn [length] in Hlen.
    split; [lia|]. intros _ E. rewrite E in H. simpl in H. lia.
Qed.

Lemma groups_length (groups : list (string * list Snippet)) :
  (length (flat_map (fun g => dedupeGroup (snd g)) groups)
   <= length (concat (map snd groups)))%nat /\
  (concat (map snd groups) <> [] ->
   flat_map (fun g => dedupeGroup (snd g)) groups <> []).
Proof.
  induction groups as [|[k g] groups [IH1 IH2]]; cbn [flat_map map concat snd].
  - split; [lia | auto].
  - destruct (dedupeGroup_length g) as [H1 H2]. rewrite !length_app.
    split; [lia|]. intros Hne E. apply app_eq_nil in E as [E1 E2].
    destruct g as [|x g]; [|now apply H2 in E1].
    apply IH2; [exact Hne | exact E2].
Qed.

(** For every list of snippets, [dedupeSnippets] returns its snippets in
    document order (chapter, then paragraph, then first sentence), with
    the ids [s_0000], [s_0001], ... in that order, all distinct; it returns
    no more snippets than it was given, and at least one unless it was given
    none. *)
Theorem dedupeSnippets_ids_in_order (snippets : list Snippet) :
  let out := dedupeSnippets snippets in
  map id out = map snippetId (seq 0 (length out)) /\
  NoDup (map id out) /\
  StronglySorted (fun a b => documentOrder a b = true) out /\
  (length out <= length snippets)%nat /\
  (snippets <> [] -> out <> []).
Proof.
  cbv zeta. rewrite dedupeSnippets_unfold.
  set (groups := groupBy Dedupe.keyOf snippets).
  set (deduped := flat_map (fun g => dedupeGroup (snd g)) groups).
  assert (Hconcat : Permutation (concat (map snd groups)) snippets).
  { unfold groups, groupBy. now rewrite groupBy_concat. }
  destruct (groups_length groups) as [Hlen Hne]. fold deduped in Hlen, Hne.
  rewrite renumber_length, sortBy_length.
  split; [rewrite renumber_ids, sortBy_length; reflexivity|].
  split.
  { rewrite renumber_ids. apply NoDup_fmap_2; [|apply NoDup_seq].
    intros i j. apply snippetId_inj. }
  split.
  { apply (sorted_place _ _ (renumber_place _)).
    apply sortBy_sorted; [apply documentOrder_total | apply documentOrder_trans]. }
  split; [rewrite <- (Permutation_length Hconcat); exact Hlen|].
  intros Hs E.
  assert (Hd : deduped <> []).
  { apply Hne. intros E'. rewrite E' in Hconcat.
    apply Permutation_nil in Hconcat. congruence. }
  apply Hd.
  apply (f_equal (@length _)) in E.
  rewrite renumber_length, sortBy_length in E.
  now destruct deduped.
Qed.

(** *** One group after the merging loop *)

Lemma mergeAdjacent_head (rest : list Snippet) :
  forall current,
    exists h t, mergeAdjacent current rest = h :: t /\ startOf h = startOf current.
Proof.
  induction rest as [|next rest IH]; intros current; cbn [mergeAdjacent].
  - now exists current, [].
  - destruct (Z.leb (startOf next - endOf current) 2).
    + destruct (IH (mergeSnippets current next)) as (h & t & E & Hs).
      exists h, t. split; [exact E|]. rewrite Hs. reflexivity.
    + now exists current, (mergeAdjacent next rest).
Qed.

Lemma mergeAdjacent_gaps (rest : list Snippet) :
  forall current, gapsOver2 (mergeAdjacent current rest).
Proof.
  induction rest as [|next rest IH]; intros current; cbn [mergeAdjacent].
  - exact I.
  - destruct (Z.leb_spec (startOf next - endOf current) 2) as [|Hgap];
      [apply IH|].
    destruct (mergeAdjacent_head rest next) as (h & t & E & Hs).
    specialize (IH next). rewrite E in *. cbn [gapsOver2].
    split; [rewrite Hs; lia | exact IH].
Qed.

Lemma mergeAdjacent_sorted (rest : list Snippet) :
  forall current,
    StronglySorted (fun a b => byStart a b = true) (current :: rest) ->
    StronglySorted (fun a b => byStart a b = true) (mergeAdjacent current rest) /\
    Forall (fun y => byStart current y = true) (mergeAdjacent current rest).
Proof.
  induction rest as [|next rest IH]; intros current Hs; cbn [mergeAdjacent].
  - split; [repeat constructor|]. constructor; [|constructor].
    unfold byStart. apply Z.leb_refl.
  - inversion Hs as [|? ? Hs' Hall]; subst.
    inversion Hall as [|? ? Hcn Hall']; subst.
    inversion Hs' as [|? ? Hs'' Hnext]; subst.
    destruct (Z.leb (startOf next - endOf current) 2).
    + destruct (IH (mergeSnippets current next)) as [H1 H2].
      { constructor; [exact Hs''|].
        eapply Forall_impl; [exact Hall'|]. intros y Hy. exact Hy. }
      split; [exact H1|].
      eapply Forall_impl; [exact H2|]. intros y Hy. exact Hy.
    + destruct (IH next Hs') as [H1 H2]. split.
      * constructor; [exact H1|].
        eapply Forall_impl; [exact H2|]. intros y Hy. cbn in *.
        unfold byStart in *. rewrite Z.leb_le in *. lia.
      * constructor; [unfold byStart; apply Z.leb_refl|].
        eapply Forall_impl; [exact H2|]. intros y Hy. cbn in *.
        unfold byStart in *. rewrite Z.leb_le in *. lia.
Qed.

Lemma mergeAdjacent_paragraph (c p : Z) (rest : list Snippet) :
  forall current,
    Forall (inParagraph c p) (current :: rest) ->
    Forall (inParagraph c p) (mergeAdjacent current rest).
Proof.
  induction rest as [|next rest IH]; intros current H; cbn [mergeAdjacent];
    [exact H|].
  apply Forall_cons in H as [Hc H]. apply Forall_cons in H as [Hn H].
  destruct (Z.leb (startOf next - endOf current) 2).
  - apply IH. constructor; [exact Hc | exact H].
  - constructor; [exact Hc|]. apply IH. now constructor.
Qed.

Lemma dedupeGroup_shape (c p : Z) (g : list Snippet) :
  Forall (inParagraph c p) g ->
  Forall (inParagraph c p) (dedupeGroup g) /\
  StronglySorted (fun a b => byStart a b = true) (dedupeGroup g) /\
  gapsOver2 (dedupeGroup g).
Proof.
  intros Hg. unfold dedupeGroup.
  assert (Hsorted : StronglySorted (fun a b => byStart a b = true)
                      (sortBy byStart g)).
  { apply sortBy_sorted.
    - intros a b. unfold byStart. rewrite !Z.leb_le. lia.
    - intros a b d. unfold byStart. rewrite !Z.leb_le. lia. }
  assert (Hin : Forall (inParagraph c p) (sortBy byStart g)).
  { apply Forall_forall. intros x Hx. apply sortBy_elem_of in Hx.
    rewrite Forall_forall in Hg. now apply Hg. }
  destruct (sortBy byStart g) as [|first rest];
    [repeat split; constructor|].
  split; [now apply mergeAdjacent_paragraph|].
  split; [now apply mergeAdjacent_sorted | apply mergeAdjacent_gaps].
Qed.

(** *** A stable sort commutes with taking a part of the list *)

Section FilterSort.
Context {A : Type} (le : A -> A -> bool) (q : A -> bool).
Hypothesis le_total : forall a b, le a b = true \/ le b a = true.
Hypothesis le_trans : forall a b c, le a b = true -> le b c = true -> le a c = true.

Lemma filter_insertSorted (x : A) (l : list A) :
  StronglySorted (fun a b => le a b = true) l ->
  List.filter q (insertSorted le x l)
  = if q x then insertSorted le x (List.filter q l) else List.filter q l.
Proof.
  induction 1 as [|y ys Hs IH Hall]; cbn [insertSorted List.filter].
  - destruct (q x); reflexivity.
  - destruct (le x y) eqn:Hxy; cbn [List.filter].
    + destruct (q x); [|reflexivity].
      symmetry. apply insertSorted_head.
      apply Forall_forall. intros b Hb. apply list_elem_of_In in Hb.
      assert (Hb' : In b (y :: ys)).
      { destruct (q y); [destruct Hb as [<-|Hb]; [now left|]|];
          right; now apply filter_In in Hb as [Hb _]. }
      destruct Hb' as [<-|Hb']; [exact Hxy|].
      apply (le_trans x y b Hxy). rewrite Forall_forall in Hall.
      now apply Hall, list_elem_of_In.
    + rewrite IH. destruct (q x), (q y); cbn [insertSorted]; rewrite ?Hxy;
        reflexivity.
Qed.

Lemma filter_sortBy (l : list A) :
  List.filter q (sortBy le l) = sortBy le (List.filter q l).
Proof.
  induction l as [|x l IH]; [reflexivity|]. cbn [sortBy List.filter].
  rewrite filter_insertSorted by now apply sortBy_sorted.
  rewrite IH. destruct (q x); reflexivity.
Qed.
End FilterSort.

(** *** The snippets of one paragraph *)

Lemma paragraphGroup_key (c p : Z) (l : list Snippet) :
  paragraphGroup c p l
  = List.filter (fun x => String.eqb (Dedupe.keyOf x) (paragraphKey c p)) l.
Proof.
  symmetry.
  apply (key_group l (mkSnippet "" 0 c "" (mkLocation p (SentenceIndex 0))
                        (mkSnippetText "" "" "") [] [])).
Qed.

Lemma keyOf_paragraph (c p : Z) (x : Snippet) :
  Dedupe.keyOf x = paragraphKey c p <-> inParagraph c p x.
Proof.
  apply (keyOf_pair x (mkSnippet "" 0 c "" (mkLocation p (SentenceIndex 0))
                         (mkSnippetText "" "" "") [] [])).
Qed.

Lemma paragraphGroup_in (c p : Z) (l : list Snippet) :
  Forall (inParagraph c p) (paragraphGroup c p l).
Proof.
  apply Forall_forall. intros x Hx. apply list_elem_of_In in Hx.
  unfold paragraphGroup in Hx. apply filter_In in Hx as [_ Hx].
  apply andb_prop in Hx as [H1 H2]. split; now apply Z.eqb_eq.
Qed.

Lemma filter_all {A : Type} (q : A -> bool) (l : list A) :
  (forall x, In x l -> q x = true) -> List.filter q l = l.
Proof.
  induction l as [|x l IH]; intros H; simpl; [reflexivity|].
  rewrite (H x (or_introl eq_refl)), IH; [reflexivity|].
  intros y Hy. apply H. now right.
Qed.

Lemma filter_none {A : Type} (q : A -> bool) (l : list A) :
  (forall x, In x l -> q x = false) -> List.filter q l = [].
Proof.
  induction l as [|x l IH]; intros H; simpl; [reflexivity|].
  rewrite (H x (or_introl eq_refl)), IH; [reflexivity|].
  intros y Hy. apply H. now right.
Qed.

Lemma flat_map_key (F : list Snippet -> list Snippet) (K : string)
  (groups : list (string * list Snippet)) :
  F [] = [] ->
  (forall k g x, In (k, g) groups -> In x (F g) -> Dedupe.keyOf x = k) ->
  NoDup (map fst groups) ->
  List.filter (fun x => String.eqb (Dedupe.keyOf x) K)
    (flat_map (fun g => F (snd g)) groups)
  = F (default [] (omap_get K groups)).
Proof.
  intros Hnil. induction groups as [|[k g] groups IH]; intros Hkey Hnd.
  - cbn. now rewrite Hnil.
  - cbn [flat_map snd]. rewrite List.filter_app. cbn [map fst] in Hnd.
    apply NoDup_cons in Hnd as [Hk Hnd]. cbn [omap_get].
    specialize (IH (fun k' g' x Hg => Hkey k' g' x (or_intror Hg)) Hnd).
    destruct (String.eqb_spec K k) as [->|Hne].
    + rewrite IH, omap_get_not_key;
        [|intros Hin; apply Hk; now apply list_elem_of_In].
      cbn [default]. rewrite Hnil, app_nil_r.
      apply filter_all. intros x Hx. apply String.eqb_eq.
      apply (Hkey k g x); [now left | exact Hx].
    + rewrite IH, filter_none; [reflexivity|].
      intros x Hx. apply String.eqb_neq.
      rewrite (Hkey k g x (or_introl eq_refl) Hx). congruence.
Qed.

Lemma paragraphGroup_groups (F : list Snippet -> list Snippet) :
  F [] = [] ->
  (forall c p g, Forall (inParagraph c p) g -> Forall (inParagraph c p) (F g)) ->
  forall (l : list Snippet) (c p : Z),
    paragraphGroup c p (flat_map (fun g => F (snd g)) (groupBy Dedupe.keyOf l))
    = F (paragraphGroup c p l).
Proof.
  intros Hnil Hin l c p. rewrite !paragraphGroup_key.
  rewrite (flat_map_key F (paragraphKey c p)); [| exact Hnil | |].
  - f_equal. unfold groupBy.
    now rewrite (groupBy_lookup Dedupe.keyOf l [] (paragraphKey c p)).
  - intros k g x Hg Hx.
    apply (groupBy_group Dedupe.keyOf) in Hg.
    destruct g as [|x0 g']; [rewrite Hnil in Hx; destruct Hx|].
    assert (Hall : forall y, In y (x0 :: g') -> Dedupe.keyOf y = k).
    { intros y Hy. rewrite Hg in Hy. apply filter_In in Hy as [_ Hy].
      now apply String.eqb_eq. }
    assert (Hpar : Forall (inParagraph (chapter x0)
                             (paragraphIndex (location x0))) (x0 :: g')).
    { apply Forall_forall. intros y Hy. apply list_elem_of_In in Hy.
      apply keyOf_paragraph.
      rewrite (Hall y Hy), <- (Hall x0 (or_introl eq_refl)).
      apply keyOf_paragraph. split; reflexivity. }
    apply Hin in Hpar. rewrite Forall_forall in Hpar.
    apply list_elem_of_In, Hpar, keyOf_paragraph in Hx. rewrite Hx.
    rewrite <- (Hall x0 (or_introl eq_refl)). symmetry.
    apply keyOf_paragraph. split; reflexivity.
  - unfold groupBy. apply groupBy_keys. constructor.
Qed.

(** Within one paragraph the document order is the order of the first
    sentences. *)
Lemma documentOrder_in_paragraph (c p : Z) (a b : Snippet) :
  inParagraph c p a -> inParagraph c p b -> documentOrder a b = byStart a b.
Proof.
  intros [Ha1 Ha2] [Hb1 Hb2]. unfold documentOrder, byStart.
  now rewrite Ha1, Ha2, Hb1, Hb2, !Z.eqb_refl.
Qed.

Lemma sorted_in_paragraph (c p : Z) (l : list Snippet) :
  Forall (inParagraph c p) l ->
  (StronglySorted (fun a b => byStart a b = true) l <->
   StronglySorted (fun a b => documentOrder a b = true) l).
Proof.
  induction l as [|a l IH]; intros Hl; [split; constructor|].
  apply Forall_cons in Hl as [Ha Hl]. specialize (IH Hl).
  assert (Hall : Forall (fun b => byStart a b = true) l <->
                 Forall (fun b => documentOrder a b = true) l).
  { rewrite !Forall_forall. rewrite Forall_forall in Hl.
    split; intros H b Hb; specialize (H b Hb);
      [rewrite (documentOrder_in_paragraph c p a b Ha (Hl b Hb))
      |rewrite <- (documentOrder_in_paragraph c p a b Ha (Hl b Hb))]; exact H. }
  split; intros Hs; inversion Hs; subst; constructor; tauto.
Qed.

(** The part of the sorted result that lies in one paragraph. *)
Lemma paragraph_of_sorted (F : list Snippet -> list Snippet) :
  F [] = [] ->
  (forall c p g, Forall (inParagraph c p) g -> Forall (inParagraph c p) (F g)) ->
  (forall g, StronglySorted (fun a b => byStart a b = true) (F g)) ->
  forall (l : list Snippet) (c p : Z),
    paragraphGroup c p
      (sortBy documentOrder
         (flat_map (fun g => F (snd g)) (groupBy Dedupe.keyOf l)))
    = F (paragraphGroup c p l).
Proof.
  intros Hnil Hin Hsorted l c p. unfold paragraphGroup at 1.
  rewrite (filter_sortBy documentOrder _ documentOrder_total documentOrder_trans).
  fold (paragraphGroup c p
          (flat_map (fun g => F (snd g)) (groupBy Dedupe.keyOf l))).
  rewrite (paragraphGroup_groups F Hnil Hin).
  apply sortBy_id.
  apply (sorted_in_paragraph c p); [|apply Hsorted].
  apply Hin, paragraphGroup_in.
Qed.

(** *** Same places, same gaps *)

Lemma byStart_place (a a' b b' : Snippet) :
  samePlace a a' -> samePlace b b' -> byStart a' b' = byStart a b.
Proof.
  intros [_ Ha] [_ Hb]. unfold byStart, startOf. now rewrite Ha, Hb.
Qed.

Lemma paragraphGroup_place (c p : Z) (l l' : list Snippet) :
  Forall2 samePlace l l' ->
  Forall2 samePlace (paragraphGroup c p l) (paragraphGroup c p l').
Proof.
  induction 1 as [|a a' l l' [Ha1 Ha2] Hl IH]; [constructor|].
  unfold paragraphGroup in *. cbn [List.filter]. rewrite Ha1, Ha2.
  destruct (_ && _); [constructor; [now split | exact IH] | exact IH].
Qed.

Lemma insertSorted_place (x x' : Snippet) (l l' : list Snippet) :
  samePlace x x' -> Forall2 samePlace l l' ->
  Forall2 samePlace (insertSorted byStart x l) (insertSorted byStart x' l').
Proof.
  intros Hx. induction 1 as [|a a' l l' Ha Hl IH]; cbn [insertSorted].
  - constructor; [exact Hx | constructor].
  - rewrite (byStart_place x x' a a' Hx Ha).
    destruct (byStart x a).
    + constructor; [exact Hx|]. constructor; [exact Ha | exact Hl].
    + constructor; [exact Ha | exact IH].
Qed.

Lemma sortBy_place (l l' : list Snippet) :
  Forall2 samePlace l l' ->
  Forall2 samePlace (sortBy byStart l) (sortBy byStart l').
Proof.
  induction 1 as [|a a' l l' Ha Hl IH]; [constructor|].
  cbn [sortBy]. now apply insertSorted_place.
Qed.

Lemma gaps_place (l l' : list Snippet) :
  Forall2 samePlace l l' -> gapsOver2 l -> gapsOver2 l'.
Proof.
  induction 1 as [|a a' l l' [_ Ha] Hl IH]; [auto|].
  destruct Hl as [|b b' l l' [_ Hb] Hl]; [auto|].
  cbn [gapsOver2] in *. intros [Hgap Hrest]. split; [|now apply IH].
  unfold startOf, endOf in *. now rewrite <- Ha, <- Hb.
Qed.

Lemma byStart_sorted (g : list Snippet) :
  StronglySorted (fun a b => byStart a b = true) (sortBy byStart g).
Proof.
  apply sortBy_sorted.
  - intros a b. unfold byStart. rewrite !Z.leb_le. lia.
  - intros a b d. unfold byStart. rewrite !Z.leb_le. lia.
Qed.

Lemma dedupeGroup_sorted (g : list Snippet) :
  StronglySorted (fun a b => byStart a b = true) (dedupeGroup g).
Proof.
  unfold dedupeGroup. pose proof (byStart_sorted g) as Hs.
  destruct (sortBy byStart g) as [|first rest]; [constructor|].
  now apply mergeAdjacent_sorted.
Qed.

Lemma deduped_separated (snippets : list Snippet) :
  alreadyDeduplicated (dedupeSnippets snippets).
Proof.
  rewrite dedupeSnippets_unfold. intros c p.
  set (sorted := sortBy documentOrder
                   (flat_map (fun g => dedupeGroup (snd g))
                      (groupBy Dedupe.keyOf snippets))).
  apply (gaps_place (sortBy byStart (paragraphGroup c p sorted))).
  { apply sortBy_place, paragraphGroup_place, renumber_place. }
  unfold sorted.
  rewrite (paragraph_of_sorted dedupeGroup eq_refl
             (fun c p g H => proj1 (dedupeGroup_shape c p g H))
             dedupeGroup_sorted).
  destruct (dedupeGroup_shape c p (paragraphGroup c p snippets)
              (paragraphGroup_in c p snippets)) as (_ & Hs & Hg).
  now rewrite (sortBy_id byStart _ Hs).
Qed.

(** For every list of snippets, what [dedupeSnippets] returns is
    de-duplicated: within every chapter and paragraph, any two snippets that
    follow each other in the order of their first sentences are more than two
    sentences apart, so that no two of them would be merged again. *)
Theorem dedupeSnippets_separated (snippets : list Snippet) (c p : Z) :
  gapsOver2 (sortBy byStart (paragraphGroup c p (dedupeSnippets snippets))).
Proof. apply deduped_separated. Qed.

(** *** Idempotence *)

Lemma documentOrder_antisym (a b : Snippet) :
  documentOrder a b = true -> documentOrder b a = true ->
  inParagraph (chapter a) (paragraphIndex (location a)) b.
Proof.
  unfold documentOrder, inParagraph.
  destruct (Z.eqb_spec (chapter a) (chapter b)),
    (Z.eqb_spec (chapter b) (chapter a)),
    (Z.eqb_spec (paragraphIndex (location a)) (paragraphIndex (location b))),
    (Z.eqb_spec (paragraphIndex (location b)) (paragraphIndex (location a)));
    simpl; rewrite ?Z.leb_le; lia.
Qed.

Lemma paragraphGroup_cons (c p : Z) (a : Snippet) (l : list Snippet) :
  paragraphGroup c p (a :: l)
  = if Z.eqb (chapter a) c && Z.eqb (paragraphIndex (location a)) p
    then a :: paragraphGroup c p l else paragraphGroup c p l.
Proof. reflexivity. Qed.

Lemma paragraphGroup_own (a : Snippet) (l : list Snippet) :
  paragraphGroup (chapter a) (paragraphIndex (location a)) (a :: l)
  = a :: paragraphGroup (chapter a) (paragraphIndex (location a)) l.
Proof. rewrite paragraphGroup_cons, !Z.eqb_refl. reflexivity. Qed.

Lemma paragraphGroup_In (c p : Z) (x : Snippet) (l : list Snippet) :
  In x (paragraphGroup c p l) <-> In x l /\ inParagraph c p x.
Proof.
  unfold paragraphGroup, inParagraph.
  rewrite filter_In, andb_true_iff, !Z.eqb_eq. reflexivity.
Qed.

(** Two lists in document order with the same snippets in every paragraph
    are one list. *)
Lemma sorted_by_paragraphs (l1 : list Snippet) :
  forall l2,
    StronglySorted (fun a b => documentOrder a b = true) l1 ->
    StronglySorted (fun a b => documentOrder a b = true) l2 ->
    (forall c p, paragraphGroup c p l1 = paragraphGroup c p l2) ->
    l1 = l2.
Proof.
  induction l1 as [|a l1 IH]; intros l2 Hs1 Hs2 Heq.
  - destruct l2 as [|b l2]; [reflexivity|].
    specialize (Heq (chapter b) (paragraphIndex (location b))).
    rewrite paragraphGroup_own in Heq. discriminate Heq.
  - destruct l2 as [|b l2].
    { specialize (Heq (chapter a) (paragraphIndex (location a))).
      rewrite paragraphGroup_own in Heq. discriminate Heq. }
    inversion Hs1 as [|? ? Hs1' Ha]; subst.
    inversion Hs2 as [|? ? Hs2' Hb]; subst.
    rewrite Forall_forall in Ha, Hb.
    assert (Hab : inParagraph (chapter a) (paragraphIndex (location a)) b).
    { destruct (Z.eqb_spec (chapter b) (chapter a)) as [E1|E1];
        [destruct (Z.eqb_spec (paragraphIndex (location b))
                     (paragraphIndex (location a))) as [E2|E2];
         [now split|]|].
      - (* same chapter, another paragraph *)
        assert (Ha2 : In a (b :: l2)).
        { apply (paragraphGroup_In (chapter a) (paragraphIndex (location a))).
          rewrite <- Heq, paragraphGroup_own. now left. }
        assert (Hb1 : In b (a :: l1)).
        { apply (paragraphGroup_In (chapter b) (paragraphIndex (location b))).
          rewrite Heq, paragraphGroup_own. now left. }
        destruct Ha2 as [->|Ha2]; [congruence|].
        destruct Hb1 as [->|Hb1]; [congruence|].
        apply documentOrder_antisym;
          [apply Ha | apply Hb]; now apply list_elem_of_In.
      - assert (Ha2 : In a (b :: l2)).
        { apply (paragraphGroup_In (chapter a) (paragraphIndex (location a))).
          rewrite <- Heq, paragraphGroup_own. now left. }
        assert (Hb1 : In b (a :: l1)).
        { apply (paragraphGroup_In (chapter b) (paragraphIndex (location b))).
          rewrite Heq, paragraphGroup_own. now left. }
        destruct Ha2 as [->|Ha2]; [congruence|].
        destruct Hb1 as [->|Hb1]; [congruence|].
        apply documentOrder_antisym;
          [apply Ha | apply Hb]; now apply list_elem_of_In. }
    destruct Hab as [Hc Hp].
    pose proof (Heq (chapter a) (paragraphIndex (location a))) as Hhead.
    rewrite paragraphGroup_own, paragraphGroup_cons, Hc, Hp, !Z.eqb_refl in Hhead.
    cbn [andb] in Hhead. injection Hhead as <- Htail.
    f_equal. apply IH; [exact Hs1' | exact Hs2' |].
    intros c p. specialize (Heq c p). rewrite !paragraphGroup_cons in Heq.
    destruct (Z.eqb (chapter a) c && Z.eqb (paragraphIndex (location a)) p);
      [now injection Heq | exact Heq].
Qed.

Lemma renumber_idem (l : list Snippet) : renumber (renumber l) = renumber l.
Proof.
  unfold renumber.
  assert (G : forall (f : nat -> string),
            imap (fun i s => withId s (f i)) (imap (fun i s => withId s (f i)) l)
            = imap (fun i s => withId s (f i)) l).
  { induction l as [|x l IH]; intros f; [reflexivity|].
    cbn [imap]. f_equal. apply (IH (f ∘ S)). }
  apply (G snippetId).
Qed.

Lemma deduped_sorted (snippets : list Snippet) :
  StronglySorted (fun a b => documentOrder a b = true) (dedupeSnippets snippets).
Proof.
  rewrite dedupeSnippets_unfold.
  apply (sorted_place _ _ (renumber_place _)).
  apply sortBy_sorted; [apply documentOrder_total | apply documentOrder_trans].
Qed.

(** [dedupeSnippets] is idempotent: for every list of snippets, running it
    on its own result returns that result, ids included. *)
Theorem dedupeSnippets_idempotent (snippets : list Snippet) :
  dedupeSnippets (dedupeSnippets snippets) = dedupeSnippets snippets.
Proof.
  set (out := dedupeSnippets snippets).
  rewrite (dedupeSnippets_unfold out).
  rewrite (groups_apart out (deduped_separated snippets)
             (groupBy Dedupe.keyOf out) (fun g H => H)).
  set (sorted := sortBy documentOrder
                   (flat_map (fun g => sortBy byStart (snd g))
                      (groupBy Dedupe.keyOf out))).
  assert (E : sorted = out).
  { apply sorted_by_paragraphs.
    - apply sortBy_sorted; [apply documentOrder_total | apply documentOrder_trans].
    - apply deduped_sorted.
    - intros c p. unfold sorted.
      rewrite (paragraph_of_sorted (sortBy byStart) eq_refl).
      + apply sortBy_id.
        apply (sorted_in_paragraph c p); [apply paragraphGroup_in|].
        apply StronglySorted_filter, deduped_sorted.
      + intros c' p' g Hg. apply Forall_forall. intros x Hx.
        apply sortBy_elem_of in Hx. rewrite Forall_forall in Hg. now apply Hg.
      + apply byStart_sorted. }
  rewrite E. unfold out. rewrite dedupeSnippets_unfold. apply renumber_idem.
Qed.

(** On four raw snippets of one paragraph, three of which overlap: two
    snippets are left, and a second run changes nothing. *)
Example dedupe_overlapping :
  map (fun s => (id s, startOf s, endOf s, entities s))
    (dedupeSnippets overlappingSnippets)
  = [("s_0000", 0, 3, ["harry"; "ron"; "hermione"]); ("s_0001", 9, 9, ["ron"])].
Proof. vm_compute. reflexivity. Qed.
(** *** An already de-duplicated list *)

Lemma documentOrder_written_out (a b : Snippet) :
  documentOrder a b = true -> notAfterInDocument a b.
Proof.
  unfold documentOrder, notAfterInDocument.
  destruct (Z.eqb_spec (chapter a) (chapter b)) as [Ec|Ec]; cbn [negb].
  - destruct (Z.eqb_spec (paragraphIndex (location a))
                (paragraphIndex (location b))) as [Ep|Ep]; cbn [negb];
      rewrite Z.leb_le; intros H; right; (split; [exact Ec|]);
      [right; auto | left; lia].
  - rewrite Z.leb_le. intros H. left. lia.
Qed.

Lemma sorted_written_out (l : list Snippet) :
  StronglySorted (fun a b => documentOrder a b = true) l ->
  StronglySorted notAfterInDocument l.
Proof.
  induction 1 as [|x l Hs IH Hall]; constructor; [exact IH|].
  eapply Forall_impl; [exact Hall|]. intros y. apply documentOrder_written_out.
Qed.

Lemma length_zeros_append (k : nat) (t : string) :
  String.length (str (repeat "0"%char k) +:+ t) = (k + String.length t)%nat.
Proof. induction k as [|k IH]; [reflexivity|]. simpl. now f_equal. Qed.

Lemma snippetId_position (i : nat) : idOfPosition i (snippetId i).
Proof.
  destruct (snippetId_number i) as (suffix & Hs & Hn).
  exists suffix. split; [exact Hs|]. split; [exact Hn|].
  unfold snippetId in Hs. injection Hs as Hs.
  change (str (repeat "0"%char (4 - String.length (showNat i))) +:+ showNat i
          = suffix) in Hs.
  rewrite <- Hs, length_zeros_append. lia.
Qed.

Lemma renumber_same (l : list Snippet) : Forall2 sameButId (renumber l) l.
Proof.
  unfold renumber.
  assert (G : forall (f : nat -> string),
            Forall2 sameButId (imap (fun i s => withId s (f i)) l) l).
  { induction l as [|x l IH]; intros f; [constructor|].
    cbn [imap]. constructor; [repeat split|]. apply (IH (f ∘ S)). }
  apply (G snippetId).
Qed.

Lemma renumber_lookup (l : list Snippet) (i : nat) (s : Snippet) :
  renumber l !! i = Some s -> id s = snippetId i.
Proof.
  unfold renumber. rewrite list_lookup_imap.
  destruct (l !! i) as [x|]; simpl; [|discriminate]. now intros [= <-].
Qed.

(** C7. On a list that is already de-duplicated, that is, in which, within
    every chapter and paragraph, every two consecutive snippets in the
    order of their sentence index are more than 2 sentences apart,
    [dedupeSnippets] returns the same snippets: every snippet given comes
    out once, changed in nothing but its id. The result is in document
    order (by chapter, then paragraph, then first sentence), and the ids
    are given out anew in that order: the snippet at position [i] has the
    prefix followed by the number [i], written with at least four
    digits. *)
Theorem dedupe_already_deduplicated (snippets : list Snippet) :
  alreadyDeduplicated snippets ->
  let out := dedupeSnippets snippets in
  (exists ordered,
     Permutation ordered snippets /\ Forall2 sameButId out ordered) /\
  StronglySorted notAfterInDocument out /\
  (forall (i : nat) s, out !! i = Some s -> idOfPosition i (id s)).
Proof.
  intros Hd. cbv zeta.
  set (deduped := flat_map (fun g => sortBy byStart (snd g))
                    (groupBy Dedupe.keyOf snippets)).
  assert (Heq : dedupeSnippets snippets = renumber (sortBy documentOrder deduped)).
  { rewrite dedupeSnippets_unfold. unfold deduped.
    now rewrite (groups_apart snippets Hd). }
  rewrite Heq. split; [|split].
  - exists (sortBy documentOrder deduped). split; [|apply renumber_same].
    rewrite sortBy_perm. unfold deduped. rewrite flat_map_sorted_perm.
    unfold groupBy. now rewrite groupBy_concat.
  - pose proof (sortBy_sorted documentOrder documentOrder_total
                  documentOrder_trans deduped) as Hs.
    apply (sorted_place _ _ (renumber_place _)) in Hs.
    apply sorted_written_out, Hs.
  - intros i s Hi. rewrite (renumber_lookup _ _ _ Hi). apply snippetId_position.
Qed.

Lemma dedupe_already_deduplicated_witness :
  let out := dedupeSnippets farApartSnippets in
  (exists ordered,
     Permutation ordered farApartSnippets /\ Forall2 sameButId out ordered) /\
  StronglySorted notAfterInDocument out /\
  (forall (i : nat) s, out !! i = Some s -> idOfPosition i (id s)).
Proof.
  apply (dedupe_already_deduplicated farApartSnippets).
  intros c p. unfold paragraphGroup, farApartSnippets.
  cbn [List.filter chapter paragraphIndex location].
  destruct (Z.eqb_spec 2 c), (Z.eqb_spec 1 c), (Z.eqb_spec 4 p),
    (Z.eqb_spec 0 p); simpl; try lia.
  split; [reflexivity | exact I].
Defined.

End DedupeProps.

(* ===================================================================== *)
(** ** The entity and chapter indices *)
(* ===================================================================== *)

Module IndexProps.
Import JS Snippets Indices IndexBuilder IndexSpec JSFacts IndicesFacts.

(** *** Loops that can throw *)

Lemma forEach_inv {A S : Type} (body : S -> A -> Coref.outcome S)
  (bad : A -> bool) (Inv : S -> Prop) :
  (forall st x, Inv st ->
     if bad x then exists m, body st x = Coref.Thrown m
     else exists st', body st x = Coref.Returned st' /\ Inv st') ->
  forall l st, Inv st ->
    if existsb bad l then exists m, forEach body l st = Coref.Thrown m
    else exists st', forEach body l st = Coref.Returned st' /\ Inv st'.
Proof.
  intros Hbody. induction l as [|x l IH]; intros st Hst; simpl.
  - now exists st.
  - specialize (Hbody st x Hst). destruct (bad x); simpl.
    + destruct Hbody as [m ->]. now exists m.
    + destruct Hbody as (st' & -> & Hst'). apply IH, Hst'.
Qed.

Lemma forEach_fold {A S : Type} (body : S -> A -> Coref.outcome S)
  (f : S -> A -> S) (l : list A) :
  Forall (fun x => forall st, body st x = Coref.Returned (f st x)) l ->
  forall st, forEach body l st = Coref.Returned (fold_left f l st).
Proof.
  induction 1 as [|x l Hx Hl IH]; intros st; simpl; [reflexivity|].
  now rewrite Hx, IH.
Qed.

(** *** The entity index *)

Lemma pushEntity_pushId (x e : string) (index : gmap string (list string)) :
  inherited e = false ->
  pushEntity x index e = Coref.Returned (pushId x index e).
Proof.
  intros He. unfold pushEntity, pushId.
  destruct (index !! e); simpl; [reflexivity|]. now rewrite He.
Qed.

Lemma pushEntity_outcome (x : string) (index : gmap string (list string))
  (e : string) :
  noInheritedKey index ->
  if inherited e then exists m, pushEntity x index e = Coref.Thrown m
  else exists index', pushEntity x index e = Coref.Returned index' /\
                      noInheritedKey index'.
Proof.
  intros Hinv. destruct (inherited e) eqn:He.
  - unfold pushEntity. rewrite (Hinv e He), He. eauto.
  - rewrite (pushEntity_pushId _ _ _ He). eexists. split; [reflexivity|].
    intros k Hk. unfold pushId. rewrite lookup_insert_ne; [now apply Hinv|].
    intros ->. congruence.
Qed.

Lemma addEntities_outcome (index : gmap string (list string)) (s : Snippet) :
  noInheritedKey index ->
  if existsb inherited (entities s)
  then exists m, addEntities index s = Coref.Thrown m
  else exists index', addEntities index s = Coref.Returned index' /\
                      noInheritedKey index'.
Proof.
  intros Hinv. unfold addEntities.
  apply (forEach_inv (pushEntity (id s)) inherited noInheritedKey); [|exact Hinv].
  intros st x Hst. now apply pushEntity_outcome.
Qed.

Lemma buildEntityIndex_outcome (snippets : list Snippet) :
  if listsInherited snippets
  then exists m, buildEntityIndex snippets = Coref.Thrown m
  else exists index, buildEntityIndex snippets = Coref.Returned index.
Proof.
  unfold buildEntityIndex, listsInherited.
  pose proof (forEach_inv addEntities
                (fun s => existsb inherited (entities s)) noInheritedKey
                addEntities_outcome snippets ∅) as H.
  destruct (existsb _ snippets).
  - destruct H as [m ->]; [|now exists m]. intros k _. apply lookup_empty.
  - destruct H as (index & -> & _); [|eauto]. intros k _. apply lookup_empty.
Qed.

Lemma existsb_false_Forall {A : Type} (p : A -> bool) (l : list A) :
  existsb p l = false -> Forall (fun x => p x = false) l.
Proof.
  induction l as [|x l IH]; simpl; intros H; constructor;
    apply orb_false_iff in H as [H1 H2]; auto.
Qed.

Lemma buildEntityIndex_safe (snippets : list Snippet) :
  listsInherited snippets = false ->
  buildEntityIndex snippets =
  Coref.Returned
    (sortBy String.leb <$>
     fold_left (fun index s => fold_left (pushId (id s)) (entities s) index)
       snippets ∅).
Proof.
  intros H. unfold buildEntityIndex.
  rewrite (forEach_fold addEntities
             (fun index s => fold_left (pushId (id s)) (entities s) index));
    [reflexivity|].
  apply existsb_false_Forall in H.
  eapply Forall_impl; [exact H|]. intros s Hs index. simpl in Hs.
  unfold addEntities. apply forEach_fold.
  apply existsb_false_Forall in Hs.
  eapply Forall_impl; [exact Hs|]. intros e He st.
  now apply pushEntity_pushId.
Qed.

Lemma entryOf_snoc {A : Type} (l : list A) (x : A) :
  entryOf (fun l => l) (l ++ [x]) = Some (l ++ [x]).
Proof. destruct l; reflexivity. Qed.

Lemma entryOf_default {A : Type} (l : list A) :
  default [] (entryOf (fun l => l) l) = l.
Proof. destruct l; reflexivity. Qed.

Lemma pushId_lookup (x k e : string) (index : gmap string (list string))
  (l : list string) :
  index !! e = entryOf (fun l => l) l ->
  pushId x index k !! e =
  entryOf (fun l => l) (l ++ if String.eqb e k then [x] else []).
Proof.
  intros H. unfold pushId. destruct (String.eqb_spec e k) as [->|Hne].
  - rewrite lookup_insert_eq, H, entryOf_default. symmetry. apply entryOf_snoc.
  - rewrite lookup_insert_ne by congruence. now rewrite app_nil_r.
Qed.

Lemma pushIds_lookup (x e : string) (es : list string) :
  forall (index : gmap string (list string)) (l : list string),
    index !! e = entryOf (fun l => l) l ->
    fold_left (pushId x) es index !! e =
    entryOf (fun l => l) (l ++ map (fun _ => x) (List.filter (String.eqb e) es)).
Proof.
  induction es as [|k es IH]; intros index l H; simpl.
  - now rewrite app_nil_r.
  - rewrite (IH _ _ (pushId_lookup x k e index l H)).
    destruct (String.eqb e k); simpl; now rewrite <- app_assoc.
Qed.

Lemma entities_lookup (e : string) (snippets : list Snippet) :
  forall (index : gmap string (list string)) (l : list string),
    index !! e = entryOf (fun l => l) l ->
    fold_left (fun index s => fold_left (pushId (id s)) (entities s) index)
      snippets index !! e =
    entryOf (fun l => l) (l ++ idsListing e snippets).
Proof.
  induction snippets as [|s rest IH]; intros index l H; simpl.
  - now rewrite app_nil_r.
  - rewrite (IH _ _ (pushIds_lookup (id s) e (entities s) index l H)).
    now rewrite <- app_assoc.
Qed.

Lemma buildEntityIndex_lookup (snippets : list Snippet)
  (index : gmap string (list string)) (e : string) :
  buildEntityIndex snippets = Coref.Returned index ->
  listsInherited snippets = false /\
  index !! e = entryOf (sortBy String.leb) (idsListing e snippets).
Proof.
  intros H. pose proof (buildEntityIndex_outcome snippets) as Ho.
  destruct (listsInherited snippets) eqn:Hl.
  - destruct Ho as [m Hm]. congruence.
  - split; [reflexivity|]. rewrite (buildEntityIndex_safe _ Hl) in H.
    injection H as <-. rewrite lookup_fmap.
    rewrite (entities_lookup e snippets ∅ [] (lookup_empty e)). simpl.
    now destruct (idsListing e snippets).
Qed.

(** For every list of snippets none of which lists a name inherited from
    [Object.prototype], [buildEntityIndex] returns an index that holds, for
    every entity, the ids of the snippets that list it, in the order of
    their code units, each id once for each time its snippet lists the
    entity; an entity that no snippet lists has no entry. *)
Theorem buildEntityIndex_lists (snippets : list Snippet) :
  listsInherited snippets = false ->
  exists index,
    buildEntityIndex snippets = Coref.Returned index /\
    forall e, index !! e = entryOf (sortBy String.leb) (idsListing e snippets).
Proof.
  intros H. pose proof (buildEntityIndex_outcome snippets) as Ho.
  rewrite H in Ho. destruct Ho as [index Hi]. exists index.
  split; [exact Hi|]. intros e. now apply buildEntityIndex_lookup.
Qed.

Lemma buildEntityIndex_lists_witness :
  exists index,
    buildEntityIndex exampleSnippets = Coref.Returned index /\
    forall e, index !! e =
              entryOf (sortBy String.leb) (idsListing e exampleSnippets).
Proof.
  apply (buildEntityIndex_lists exampleSnippets). vm_compute. reflexivity.
Defined.

(** [buildEntityIndex] throws exactly when a snippet lists a name that
    plain objects inherit from [Object.prototype] (for instance the id
    [constructor] of an entity named Constructor), and returns an index
    otherwise. *)
Theorem buildEntityIndex_throws (snippets : list Snippet) :
  ((exists m, buildEntityIndex snippets = Coref.Thrown m) <->
   exists s e, In s snippets /\ In e (entities s) /\ In e inheritedNames) /\
  ((exists index, buildEntityIndex snippets = Coref.Returned index) <->
   forall s e, In s snippets -> In e (entities s) -> ~ In e inheritedNames).
Proof.
  assert (Hin : forall e, inherited e = true <-> In e inheritedNames).
  { intros e. unfold inherited. rewrite existsb_exists. split.
    - intros (k & Hk & E). apply String.eqb_eq in E. now subst.
    - intros H. exists e. split; [exact H | apply String.eqb_refl]. }
  assert (Hl : listsInherited snippets = true <->
               exists s e, In s snippets /\ In e (entities s) /\
                           In e inheritedNames).
  { unfold listsInherited. rewrite existsb_exists. split.
    - intros (s & Hs & H). apply existsb_exists in H as (e & He & H).
      exists s, e. rewrite <- Hin. auto.
    - intros (s & e & Hs & He & H). exists s. split; [exact Hs|].
      apply existsb_exists. exists e. rewrite Hin. auto. }
  pose proof (buildEntityIndex_outcome snippets) as Ho.
  destruct (listsInherited snippets) eqn:E.
  - destruct Ho as [m Hm]. split; split.
    + intros _. now apply Hl.
    + intros _. now exists m.
    + intros [index Hi]. congruence.
    + intros H. destruct (proj1 Hl eq_refl) as (s & e & Hs & He & Hi).
      now destruct (H s e Hs He).
  - destruct Ho as [index Hi]. split; split.
    + intros [m Hm]. congruence.
    + intros H. apply Hl in H. discriminate.
    + intros _ s e Hs He Hk.
      assert (false = true) by (apply Hl; eauto). discriminate.
    + intros _. now exists index.
Qed.

(** An entity named Constructor makes the index builder throw. *)
Example buildEntityIndex_constructor :
  Grouper.generateEntityId "Constructor" = "constructor" /\
  buildEntityIndex constructorSnippets =
  Coref.Thrown (Coref.Messaged "index[entityId].push is not a function").
Proof. split; vm_compute; reflexivity. Qed.

(** *** The chapter index *)

Lemma addChapter_lookup (index : gmap Z (list string)) (s : Snippet) (c : Z)
  (l : list string) :
  index !! c = entryOf (fun l => l) l ->
  addChapter index s !! c =
  entryOf (fun l => l) (l ++ if Z.eqb (chapter s) c then [id s] else []).
Proof.
  intros H. unfold addChapter. destruct (Z.eqb_spec (chapter s) c) as [->|Hne].
  - rewrite lookup_insert_eq, H, entryOf_default. symmetry. apply entryOf_snoc.
  - rewrite lookup_insert_ne by congruence. now rewrite app_nil_r.
Qed.

Lemma chapters_lookup (c : Z) (snippets : list Snippet) :
  forall (index : gmap Z (list string)) (l : list string),
    index !! c = entryOf (fun l => l) l ->
    fold_left addChapter snippets index !! c =
    entryOf (fun l => l) (l ++ map id (ofChapter c snippets)).
Proof.
  induction snippets as [|s rest IH]; intros index l H; simpl.
  - now rewrite app_nil_r.
  - rewrite (IH _ _ (addChapter_lookup index s c l H)).
    destruct (Z.eqb (chapter s) c); simpl; now rewrite <- app_assoc.
Qed.

Lemma chapterTotal_comm (m : gmap Z (list string)) (j1 j2 : Z)
  (z1 z2 : list string) (y : nat) :
  j1 <> j2 -> m !! j1 = Some z1 -> m !! j2 = Some z2 ->
  (length z1 + (length z2 + y) = length z2 + (length z1 + y))%nat.
Proof. intros; lia. Qed.

Lemma chapterTotal_delete (index : gmap Z (list string)) (c : Z)
  (old : list string) :
  index !! c = Some old ->
  chapterTotal index = (length old + chapterTotal (delete c index))%nat.
Proof.
  intros E. unfold chapterTotal.
  now rewrite (map_fold_delete_L _ _ _ _ _ (chapterTotal_comm index) E).
Qed.

Lemma chapterTotal_fresh (index : gmap Z (list string)) (c : Z)
  (l : list string) :
  index !! c = None ->
  chapterTotal (<[c := l]> index) = (length l + chapterTotal index)%nat.
Proof.
  intros E. unfold chapterTotal.
  now rewrite (map_fold_insert_L _ _ _ _ _ (chapterTotal_comm _) E).
Qed.

Lemma chapterTotal_addChapter (index : gmap Z (list string)) (s : Snippet) :
  chapterTotal (addChapter index s) = S (chapterTotal index).
Proof.
  unfold addChapter. destruct (index !! chapter s) as [old|] eqn:E; simpl.
  - rewrite <- insert_delete_eq.
    rewrite chapterTotal_fresh by apply lookup_delete_eq.
    rewrite (chapterTotal_delete _ _ _ E), length_app. simpl. lia.
  - now rewrite (chapterTotal_fresh _ _ _ E).
Qed.

Lemma chapterTotal_fold (snippets : list Snippet) :
  forall index : gmap Z (list string),
    chapterTotal (fold_left addChapter snippets index) =
    (chapterTotal index + length snippets)%nat.
Proof.
  induction snippets as [|s rest IH]; intros index; simpl; [lia|].
  rewrite IH, chapterTotal_addChapter. lia.
Qed.

(** For every list of snippets and every chapter number, [buildChapterIndex]
    lists under the chapter the ids of its snippets, in the order given, and
    has no entry for a chapter without snippets; the snippet counts of all
    chapters add up to the number of snippets. *)
Theorem buildChapterIndex_lists (snippets : list Snippet) :
  (forall c, buildChapterIndex snippets !! c =
             entryOf (fun ids => ids) (map id (ofChapter c snippets))) /\
  chapterTotal (buildChapterIndex snippets) = length snippets.
Proof.
  split.
  - intros c. unfold buildChapterIndex.
    now rewrite (chapters_lookup c snippets ∅ [] (lookup_empty c)).
  - unfold buildChapterIndex. rewrite chapterTotal_fold.
    unfold chapterTotal. now rewrite map_fold_empty.
Qed.

(** *** The most frequent pairs *)

Lemma byCountDesc_total (a b : PairCount) :
  byCountDesc a b = true \/ byCountDesc b a = true.
Proof. unfold byCountDesc. rewrite !Z.leb_le. lia. Qed.

Lemma byCountDesc_trans (a b c : PairCount) :
  byCountDesc a b = true -> byCountDesc b c = true -> byCountDesc a c = true.
Proof. unfold byCountDesc. rewrite !Z.leb_le. lia. Qed.

Lemma StronglySorted_firstn {A : Type} (R : A -> A -> Prop) (l : list A) :
  StronglySorted R l ->
  forall n, StronglySorted R (firstn n l) /\
            Forall (fun r => Forall (fun t => R t r) (firstn n l)) (skipn n l).
Proof.
  induction 1 as [|x l Hs IH Hall]; intros n.
  - rewrite firstn_nil, skipn_nil. split; constructor.
  - destruct n as [|n]; simpl.
    + split; [constructor|]. apply Forall_forall. intros; constructor.
    + destruct (IH n) as [H1 H2]. split.
      * constructor; [exact H1|]. rewrite Forall_forall in Hall |- *.
        intros y Hy. apply Hall. rewrite <- (firstn_skipn n l).
        apply elem_of_app. now left.
      * rewrite Forall_forall in H2, Hall |- *. intros r Hr.
        constructor; [|now apply H2].
        apply Hall. rewrite <- (firstn_skipn n l).
        apply elem_of_app. now right.
Qed.

(** For every list of index entries and every limit, negative ones
    included, [getTopCooccurrences] returns the most frequent pairs: its
    result is in descending order of count, every pair left out has at most
    the count of every pair returned, the pairs returned and left out are
    those of the index with the length of their lists for count, and their
    number is the limit cut to the number of entries, a negative limit
    counting from the end. *)
Theorem getTopCooccurrences_top (entries : list (string * list string))
  (limit : Z) :
  let top := getTopCooccurrences entries limit in
  let n := Z.of_nat (length entries) in
  StronglySorted (fun a b => pc_count b <= pc_count a) top /\
  (exists rest,
     Permutation (top ++ rest) (map pairCountOf entries) /\
     Forall (fun r => Forall (fun t => pc_count r <= pc_count t) top) rest) /\
  Z.of_nat (length top) =
    (if Z.ltb limit 0 then Z.max (n + limit) 0 else Z.min limit n).
Proof.
  cbv zeta. unfold getTopCooccurrences, sliceTo.
  set (all := sortBy byCountDesc (map pairCountOf entries)).
  assert (Hlen : length all = length entries)
    by (unfold all; now rewrite sortBy_length, length_map).
  rewrite Hlen.
  set (k := Z.to_nat (if Z.ltb limit 0
                      then Z.max (Z.of_nat (length entries) + limit) 0
                      else Z.min limit (Z.of_nat (length entries)))).
  pose proof (sortBy_sorted byCountDesc byCountDesc_total byCountDesc_trans
                (map pairCountOf entries)) as Hs. fold all in Hs.
  assert (Hs' : StronglySorted (fun a b => pc_count b <= pc_count a) all).
  { clear -Hs. induction Hs as [|x l H IH Hall]; constructor; [exact IH|].
    eapply Forall_impl; [exact Hall|]. intros y Hy. simpl in Hy.
    unfold byCountDesc in Hy. apply Z.leb_le in Hy. lia. }
  destruct (StronglySorted_firstn _ all Hs' k) as [H1 H2].
  split; [exact H1|]. split.
  - exists (skipn k all). split; [|exact H2].
    rewrite firstn_skipn. apply sortBy_perm.
  - rewrite length_firstn, Hlen. unfold k.
    destruct (Z.ltb limit 0) eqn:E; [apply Z.ltb_lt in E | apply Z.ltb_ge in E]; lia.
Qed.

(** *** The two indices together *)

Lemma entry_pushIds (x k : string) (keys : list string) (i : string) :
  forall index,
    In i (entry (fold_left (pushId x) keys index) k) ->
    In i (entry index k) \/ (i = x /\ In k keys).
Proof.
  induction keys as [|k' keys IH]; intros index H; simpl in *; [now left|].
  apply IH in H as [H|[-> H]]; [|right; auto].
  rewrite entry_pushId in H. destruct (decide (k' = k)) as [->|Hne]; [|now left].
  apply in_app_iff in H as [H|[<-|[]]]; [now left | right; auto].
Qed.

Lemma entry_addSnippets (k i : string) (snippets : list Snippet) :
  forall index,
    In i (entry (fold_left addSnippet snippets index) k) ->
    In i (entry index k) \/
    exists s, In s snippets /\ id s = i /\ In k (keysOf s).
Proof.
  induction snippets as [|s rest IH]; intros index H; simpl in *; [now left|].
  apply IH in H as [H|(s' & Hs' & E & Hk)]; [|right; exists s'; auto].
  unfold addSnippet in H. apply entry_pushIds in H as [H|[-> H]]; [now left|].
  right. exists s. auto.
Qed.

Lemma keysOf_pair (s : Snippet) (k : string) :
  In k (keysOf s) ->
  exists a b, k = keyOf (a, b) /\ In a (entities s) /\ In b (entities s) /\
              String.leb a b = true.
Proof.
  unfold keysOf. intros H. apply in_map_iff in H as ([a b] & <- & H).
  apply list_elem_of_In in H. exists a, b. split; [reflexivity|].
  pose proof (pairsOf_elem_of _ _ _ H) as [Ha Hb].
  apply sortBy_elem_of in Ha, Hb. apply list_elem_of_In in Ha, Hb.
  repeat split; try assumption.
  apply (pairsOf_sorted (sortBy String.leb (entities s))); [|exact H].
  apply sortBy_sorted; [apply String.leb_total | apply string_leb_trans].
Qed.

Lemma idsListing_In (e : string) (s : Snippet) (snippets : list Snippet) :
  In s snippets -> In e (entities s) -> In (id s) (idsListing e snippets).
Proof.
  intros Hs He. unfold idsListing. apply in_flat_map. exists s.
  split; [exact Hs|]. apply in_map_iff. exists e. split; [reflexivity|].
  apply filter_In. split; [exact He | apply String.eqb_refl].
Qed.

Lemma entryOf_In (l : list string) (i : string) :
  In i l -> exists ids, entryOf (sortBy String.leb) l = Some ids /\ In i ids.
Proof.
  intros H. destruct l as [|x l]; [destruct H|].
  eexists. split; [reflexivity|].
  apply list_elem_of_In, sortBy_elem_of, list_elem_of_In, H.
Qed.

(** For every list of snippets and every key of the co-occurrence index
    built from it, each id listed under the key is the id of a snippet that
    lists both entities of the key, the key being the two entity ids in the
    order of their code units with a plus sign between them; and whenever
    the entity index of the same snippets is built, it lists that id under
    both entities. *)
Theorem cooccurrence_within_entity_index (snippets : list Snippet)
  (k : string) (ids : list string) (i : string) :
  buildCooccurrenceIndex snippets !! k = Some ids -> In i ids ->
  exists s a b,
    In s snippets /\ id s = i /\ k = keyOf (a, b) /\
    In a (entities s) /\ In b (entities s) /\ String.leb a b = true /\
    forall index, buildEntityIndex snippets = Coref.Returned index ->
      exists la lb, index !! a = Some la /\ In i la /\
                    index !! b = Some lb /\ In i lb.
Proof.
  intros Hk Hi. unfold buildCooccurrenceIndex in Hk. rewrite lookup_fmap in Hk.
  destruct (fold_left addSnippet snippets ∅ !! k) as [l|] eqn:E;
    simpl in Hk; [|discriminate].
  injection Hk as <-.
  apply list_elem_of_In, sortBy_elem_of, list_elem_of_In in Hi.
  assert (Hin : In i (entry (fold_left addSnippet snippets ∅) k))
    by (unfold entry; now rewrite E).
  apply entry_addSnippets in Hin as [Hin|(s & Hs & <- & Hkeys)].
  { unfold entry in Hin. rewrite lookup_empty in Hin. destruct Hin. }
  apply keysOf_pair in Hkeys as (a & b & -> & Ha & Hb & Hab).
  exists s, a, b. repeat split; try assumption.
  intros index Hidx.
  destruct (buildEntityIndex_lookup snippets index a Hidx) as [_ Hla].
  destruct (buildEntityIndex_lookup snippets index b Hidx) as [_ Hlb].
  destruct (entryOf_In _ _ (idsListing_In a s snippets Hs Ha)) as (la & Ea & Hia).
  destruct (entryOf_In _ _ (idsListing_In b s snippets Hs Hb)) as (lb & Eb & Hib).
  exists la, lb. rewrite Hla, Hlb. auto.
Qed.

Lemma cooccurrence_within_entity_index_witness :
  exists s a b,
    In s exampleSnippets /\ id s = "s_0001" /\ "harry+ron" = keyOf (a, b) /\
    In a (entities s) /\ In b (entities s) /\ String.leb a b = true /\
    forall index, buildEntityIndex exampleSnippets = Coref.Returned index ->
      exists la lb, index !! a = Some la /\ In "s_0001" la /\
                    index !! b = Some lb /\ In "s_0001" lb.
Proof.
  apply (cooccurrence_within_entity_index exampleSnippets "harry+ron"
           ["s_0000"; "s_0001"] "s_0001").
  - vm_compute. reflexivity.
  - simpl. tauto.
Defined.

End IndexProps.

(* ===================================================================== *)
(** ** The query interface *)
(* ===================================================================== *)

Module QueryProps.
Import JS Extract Grouper Tier Snippets Indices IndexBuilder IndexSpec.
Import Query QuerySpec JSFacts IndicesFacts IndexProps.

(** *** Finding an entity *)

Lemma includes_self (s : string) : includes s s = true.
Proof.
  unfold includes. destruct (chars s) as [|c l]; cbn [includesFrom].
  - now apply bool_decide_eq_true_2.
  - apply orb_true_iff. left. apply bool_decide_eq_true_2, firstn_all.
Qed.

Lemma includes_empty (s : string) : includes s "" = true.
Proof.
  unfold includes. change (chars "") with (@nil ascii).
  destruct (chars s); cbn [includesFrom];
    [|apply orb_true_iff; left]; now apply bool_decide_eq_true_2.
Qed.

Lemma find_none_Forall {A : Type} (p : A -> bool) (l : list A) :
  find p l = None <-> Forall (fun x => p x = false) l.
Proof.
  split.
  - intros H. apply Forall_forall. intros x Hx.
    apply list_elem_of_In in Hx. apply (find_none p l H x Hx).
  - induction 1 as [|x l Hx Hl IH]; simpl; [reflexivity|]. now rewrite Hx.
Qed.

Lemma find_exists {A : Type} (p : A -> bool) (l : list A) (x : A) :
  In x l -> p x = true -> exists y, find p l = Some y.
Proof.
  intros Hx Hp. destruct (find p l) as [y|] eqn:E; [eauto|].
  pose proof (find_none p l E x Hx). congruence.
Qed.

Lemma variant_match (term : string) (e : Entity) :
  existsb (fun v => String.eqb (toLowerCase (form v)) term ||
                    includes (toLowerCase (form v)) term) (e_variants e) =
  existsb (fun v => includes (toLowerCase (form v)) term) (e_variants e).
Proof.
  induction (e_variants e) as [|v l IH]; simpl; [reflexivity|].
  rewrite IH. f_equal.
  destruct (String.eqb_spec (toLowerCase (form v)) term) as [->|]; simpl;
    [now rewrite includes_self | reflexivity].
Qed.

(** For every list of entities and every search term, [findEntity] returns
    null exactly when no entity matches the trimmed lower-case term by its
    id, by a part of its lower-cased canonical name or by a part of a
    lower-cased variant. An entity it returns is one of the list and matches
    the term; it has the term for id whenever some entity has, and failing
    that it has the term for lower-cased canonical name whenever some entity
    has. A blank term matches every name, so that it finds an entity in
    every list that is not empty. *)
Theorem findEntity_matches (known : list Entity) (searchTerm : string) :
  let term := trim (toLowerCase searchTerm) in
  (findEntity known searchTerm = None <->
   Forall (fun e => matchesTerm term e = false) known) /\
  (forall e, findEntity known searchTerm = Some e ->
     In e known /\ matchesTerm term e = true /\
     ((exists e', In e' known /\ e_id e' = term) -> e_id e = term) /\
     ((forall e', In e' known -> e_id e' <> term) ->
      (exists e', In e' known /\ toLowerCase (e_canonicalName e') = term) ->
      toLowerCase (e_canonicalName e) = term)) /\
  (term = "" -> known <> [] -> findEntity known searchTerm <> None).
Proof.
  cbv zeta. set (term := trim (toLowerCase searchTerm)).
  unfold findEntity. fold term.
  destruct (find (fun e => String.eqb (e_id e) term) known) as [e1|] eqn:E1.
  { apply find_some in E1 as [Hin Hid]. split; [|split].
    - split; [discriminate|]. intros H. rewrite Forall_forall in H.
      apply list_elem_of_In in Hin. specialize (H e1 Hin).
      unfold matchesTerm in H. rewrite Hid in H. discriminate.
    - intros e [= <-]. split; [exact Hin|]. split.
      + unfold matchesTerm. now rewrite Hid.
      + apply String.eqb_eq in Hid. split; [intros _; exact Hid|].
        intros H. now destruct (H e1 Hin).
    - discriminate. }
  pose proof (find_none _ _ E1) as N1.
  destruct (find (fun e => String.eqb (toLowerCase (e_canonicalName e)) term)
                 known) as [e2|] eqn:E2.
  { apply find_some in E2 as [Hin Hname]. apply String.eqb_eq in Hname.
    assert (Hm : matchesTerm term e2 = true).
    { unfold matchesTerm. rewrite Hname, includes_self.
      now rewrite orb_true_r. }
    split; [|split].
    - split; [discriminate|]. intros H. rewrite Forall_forall in H.
      apply list_elem_of_In in Hin. specialize (H e2 Hin). congruence.
    - intros e [= <-]. split; [exact Hin|]. split; [exact Hm|]. split.
      + intros (e' & He' & Hid). specialize (N1 e' He').
        apply String.eqb_neq in N1. contradiction.
      + intros _ _. exact Hname.
    - discriminate. }
  pose proof (find_none _ _ E2) as N2.
  destruct (find (fun e => includes (toLowerCase (e_canonicalName e)) term)
                 known) as [e3|] eqn:E3.
  { apply find_some in E3 as [Hin Hname].
    assert (Hm : matchesTerm term e3 = true).
    { unfold matchesTerm. rewrite Hname. now rewrite orb_true_r. }
    split; [|split].
    - split; [discriminate|]. intros H. rewrite Forall_forall in H.
      apply list_elem_of_In in Hin. specialize (H e3 Hin). congruence.
    - intros e [= <-]. split; [exact Hin|]. split; [exact Hm|]. split.
      + intros (e' & He' & Hid). specialize (N1 e' He').
        apply String.eqb_neq in N1. contradiction.
      + intros _ (e' & He' & Hn). specialize (N2 e' He').
        apply String.eqb_neq in N2. contradiction.
    - discriminate. }
  pose proof (find_none _ _ E3) as N3.
  split; [|split].
  - rewrite find_none_Forall. split; intros H; apply Forall_forall;
      intros e He; rewrite Forall_forall in H; specialize (H e He);
      apply list_elem_of_In in He; simpl in H.
    + unfold matchesTerm. rewrite (N1 e He), (N3 e He). simpl.
      now rewrite <- variant_match.
    + rewrite variant_match. unfold matchesTerm in H.
      rewrite (N1 e He), (N3 e He) in H. exact H.
  - intros e He. apply find_some in He as [Hin Hv].
    rewrite variant_match in Hv. split; [exact Hin|]. split.
    + unfold matchesTerm. rewrite Hv. now rewrite orb_true_r.
    + split.
      * intros (e' & He' & Hid). specialize (N1 e' He').
        apply String.eqb_neq in N1. contradiction.
      * intros _ (e' & He' & Hn). specialize (N2 e' He').
        apply String.eqb_neq in N2. contradiction.
  - intros Ht Hne. destruct known as [|e rest]; [congruence|].
    specialize (N3 e (or_introl eq_refl)). simpl in N3.
    rewrite Ht, includes_empty in N3. discriminate.
Qed.

(** *** Asking the co-occurrence index *)

Lemma cooccurrenceKey_pairKey (a b : string) :
  cooccurrenceKey a b = pairKey a b.
Proof.
  unfold cooccurrenceKey, pairKey, keyOf. simpl.
  destruct (String.leb a b); reflexivity.
Qed.

Lemma snippetMapGet_In (snippets : list Snippet) (i : string) (s : Snippet) :
  snippetMapGet snippets i = Some s -> In s snippets /\ id s = i.
Proof.
  unfold snippetMapGet. intros H. apply find_some in H as [H1 H2].
  apply in_rev in H1. apply String.eqb_eq in H2. auto.
Qed.

Lemma find_unique (l : list Snippet) (s : Snippet) :
  NoDup (map id l) -> In s l ->
  find (fun t => String.eqb (id t) (id s)) l = Some s.
Proof.
  induction l as [|x l IH]; intros Hnd Hin; [destruct Hin|].
  simpl in Hnd. apply NoDup_cons in Hnd as [Hx Hnd]. simpl.
  destruct Hin as [->|Hin]; [now rewrite String.eqb_refl|].
  destruct (String.eqb_spec (id x) (id s)) as [E|_]; [|now apply IH].
  exfalso. apply Hx. rewrite E. apply list_elem_of_In. now apply in_map.
Qed.

Lemma snippetMapGet_own (snippets : list Snippet) (s : Snippet) :
  NoDup (map id snippets) -> In s snippets ->
  snippetMapGet snippets (id s) = Some s.
Proof.
  intros Hnd Hin. unfold snippetMapGet. apply find_unique.
  - rewrite map_rev. apply NoDup_ListNoDup, NoDup_rev, NoDup_ListNoDup, Hnd.
  - now apply in_rev in Hin.
Qed.

Lemma keysOf_NoDup (s : Snippet) :
  NoDup (entities s) -> Forall plusFree (entities s) -> NoDup (keysOf s).
Proof.
  intros Hnd Hpf. unfold keysOf.
  change (map keyOf (pairsOf (sortBy String.leb (entities s))))
    with (keyOf <$> pairsOf (sortBy String.leb (entities s))).
  apply NoDup_fmap_2_strong; [|now apply pairsOf_NoDup, sortBy_NoDup].
  intros [x y] [x' y'] H1 H2 E.
  apply pairsOf_elem_of in H1 as [H1 _]. apply pairsOf_elem_of in H2 as [H2 _].
  apply sortBy_elem_of in H1, H2. rewrite Forall_forall in Hpf.
  apply keyOf_inj; auto.
Qed.

Lemma entry_length_pushIds (x k : string) (keys : list string) :
  forall index,
    length (entry (fold_left (pushId x) keys index) k) =
    (length (entry index k) + count_occ string_dec keys k)%nat.
Proof.
  induction keys as [|k' keys IH]; intros index; simpl; [lia|].
  rewrite IH, entry_pushId.
  destruct (string_dec k' k) as [E|E], (decide (k' = k)) as [E'|E'];
    try congruence; rewrite ?length_app; simpl; lia.
Qed.

Lemma entry_length_bound (k : string) (snippets : list Snippet) :
  Forall (fun s => NoDup (entities s) /\ Forall plusFree (entities s))
         snippets ->
  forall index,
    (length (entry (fold_left addSnippet snippets index) k) <=
     length (entry index k) + length snippets)%nat.
Proof.
  induction 1 as [|s rest [Hnd Hpf] Hrest IH]; intros index; simpl; [lia|].
  etransitivity; [apply IH|]. unfold addSnippet.
  rewrite entry_length_pushIds.
  pose proof (keysOf_NoDup s Hnd Hpf) as Hk. apply NoDup_ListNoDup in Hk.
  pose proof (proj1 (NoDup_count_occ string_dec (keysOf s)) Hk k). lia.
Qed.

Lemma sliceTo_all {A : Type} (limit : Z) (l : list A) :
  Z.of_nat (length l) <= limit -> sliceTo limit l = l.
Proof.
  intros H. unfold sliceTo.
  destruct (Z.ltb_spec limit 0); [lia|].
  rewrite Z.min_r by lia. rewrite Nat2Z.id. apply firstn_all.
Qed.

Lemma sliceTo_In {A : Type} (limit : Z) (l : list A) (x : A) :
  In x (sliceTo limit l) -> In x l.
Proof.
  unfold sliceTo. cbv zeta.
  generalize (Z.to_nat (if Z.ltb limit 0
                        then Z.max (Z.of_nat (length l) + limit) 0
                        else Z.min limit (Z.of_nat (length l)))).
  intros n H. rewrite <- (firstn_skipn n l). apply in_or_app. now left.
Qed.

Lemma sliceTo_length {A : Type} (limit : Z) (l : list A) :
  0 <= limit -> Z.of_nat (length (sliceTo limit l)) <= limit.
Proof.
  intros H. unfold sliceTo. cbv zeta. destruct (Z.ltb_spec limit 0); [lia|].
  rewrite length_firstn. lia.
Qed.

Lemma omap_length {A B : Type} (f : A -> option B) (l : list A) :
  (length (omap f l) <= length l)%nat.
Proof.
  induction l as [|x l IH]; csimpl; [lia|]. destruct (f x); simpl; lia.
Qed.

Lemma omap_In {A B : Type} (f : A -> option B) (l : list A) (y : B) :
  In y (omap f l) <-> exists x, In x l /\ f x = Some y.
Proof.
  rewrite <- list_elem_of_In, list_elem_of_omap.
  split; intros (x & H1 & H2); exists x; split; try assumption;
    now apply list_elem_of_In.
Qed.

(** For every list of snippets with distinct ids whose entity ids hold no
    plus sign, and every two search terms that find entities [a] and [b]
    with such ids: asked for the two terms with the co-occurrence index
    built from the snippets, [getCooccurrenceContext] returns only snippets
    of the list that list both [a] and [b], and no more than [maxSnippets]
    when that is not negative; and when the entity lists are free of
    duplicates, the two entities differ and [maxSnippets] is at least the
    number of snippets, it returns every snippet that lists both. *)
Theorem getCooccurrenceContext_both (known : list Entity)
  (snippets : list Snippet) (entityA entityB : string) (maxSnippets : Z)
  (a b : Entity) :
  NoDup (map id snippets) ->
  Forall (fun s => Forall plusFree (entities s)) snippets ->
  findEntity known entityA = Some a -> findEntity known entityB = Some b ->
  plusFree (e_id a) -> plusFree (e_id b) ->
  let found := getCooccurrenceContext known (buildCooccurrenceIndex snippets)
                 snippets entityA entityB maxSnippets in
  Forall (fun s => In s snippets /\
                   In (e_id a) (entities s) /\ In (e_id b) (entities s)) found /\
  (0 <= maxSnippets -> Z.of_nat (length found) <= maxSnippets) /\
  (Forall (fun s => NoDup (entities s)) snippets -> e_id a <> e_id b ->
   Z.of_nat (length snippets) <= maxSnippets ->
   forall s, In s snippets -> In (e_id a) (entities s) ->
             In (e_id b) (entities s) -> In s found).
Proof.
  intros Hids Hpf Ha Hb Hpa Hpb. cbv zeta. unfold getCooccurrenceContext.
  rewrite Ha, Hb, cooccurrenceKey_pairKey.
  set (k := pairKey (e_id a) (e_id b)).
  set (ids := default [] (buildCooccurrenceIndex snippets !! k)).
  assert (Hentry : ids = sortBy String.leb
                           (entry (fold_left addSnippet snippets ∅) k)).
  { unfold ids, buildCooccurrenceIndex, entry. rewrite lookup_fmap.
    now destruct (fold_left addSnippet snippets ∅ !! k). }
  split; [|split].
  - apply Forall_forall. intros s Hs. apply list_elem_of_In in Hs.
    apply omap_In in Hs as (i & Hi & Hget).
    apply snippetMapGet_In in Hget as [Hin <-]. split; [exact Hin|].
    apply sliceTo_In in Hi. rewrite Hentry in Hi.
    apply list_elem_of_In, sortBy_elem_of, list_elem_of_In in Hi.
    apply entry_addSnippets in Hi as [Hi|(s' & Hs' & Eid & Hkeys)].
    { unfold entry in Hi. rewrite lookup_empty in Hi. destruct Hi. }
    assert (s' = s) as ->.
    { pose proof (snippetMapGet_own snippets s' Hids Hs') as G1.
      pose proof (snippetMapGet_own snippets s Hids Hin) as G2.
      rewrite Eid in G1. congruence. }
    apply keysOf_pair in Hkeys as (x & y & Ek & Hx & Hy & _).
    rewrite Forall_forall in Hpf.
    pose proof (Hpf s (proj2 (list_elem_of_In _ _) Hin)) as Hs.
    rewrite Forall_forall in Hs.
    unfold k, pairKey in Ek.
    destruct (String.leb (e_id a) (e_id b)).
    + apply keyOf_inj in Ek; [|exact Hpa | apply Hs; now apply list_elem_of_In].
      injection Ek as -> ->. auto.
    + apply keyOf_inj in Ek; [|exact Hpb | apply Hs; now apply list_elem_of_In].
      injection Ek as -> ->. auto.
  - intros Hmax. etransitivity; [|apply (sliceTo_length maxSnippets ids Hmax)].
    apply Nat2Z.inj_le, omap_length.
  - intros Hnd Hab Hmax s Hs Hsa Hsb.
    assert (Hall : Forall (fun s => NoDup (entities s) /\
                                    Forall plusFree (entities s)) snippets).
    { rewrite Forall_forall in Hnd, Hpf |- *. intros t Ht. auto. }
    rewrite sliceTo_all.
    + apply omap_In. exists (id s). split; [|now apply snippetMapGet_own].
      rewrite Hentry.
      apply list_elem_of_In, sortBy_elem_of, list_elem_of_In.
      apply (count_occ_In string_dec).
      pose proof (count_fold_addSnippet k (id s) snippets ∅) as Hc.
      rewrite (contribution_unique _ _ _ Hids
                 (proj2 (list_elem_of_In _ _) Hs)) in Hc.
      rewrite Forall_forall in Hall.
      destruct (Hall s (proj2 (list_elem_of_In _ _) Hs)) as [H1 H2].
      unfold k in Hc.
      rewrite (keysOf_count s (e_id a) (e_id b) H1 H2) in Hc;
        try (now apply list_elem_of_In); [|exact Hab].
      fold k in Hc. rewrite Hc. lia.
    + rewrite Hentry, sortBy_length.
      pose proof (entry_length_bound k snippets Hall ∅) as Hb'.
      unfold entry at 2 in Hb'. rewrite lookup_empty in Hb'. simpl in Hb'. lia.
Qed.

Lemma getCooccurrenceContext_both_witness :
  let found := getCooccurrenceContext exampleEntities
                 (buildCooccurrenceIndex exampleSnippets)
                 exampleSnippets "Ron" "harry" 10 in
  Forall (fun s => In s exampleSnippets /\
                   In "ron" (entities s) /\ In "harry" (entities s)) found /\
  (0 <= 10 -> Z.of_nat (length found) <= 10) /\
  (Forall (fun s => NoDup (entities s)) exampleSnippets -> "ron" <> "harry" ->
   Z.of_nat (length exampleSnippets) <= 10 ->
   forall s, In s exampleSnippets -> In "ron" (entities s) ->
             In "harry" (entities s) -> In s found).
Proof.
  apply (getCooccurrenceContext_both exampleEntities exampleSnippets
           "Ron" "harry" 10
           (mkEntity "ron" "Ron" 9 [mkVariant "Ron" 9 false None]
              (Some single_name_with_possessive) None None None [])
           (mkEntity "harry" "Harry" 12 [mkVariant "Harry" 12 false None]
              (Some single_name_with_possessive) None None None [])).
  - apply (bool_decide_unpack _). vm_compute. reflexivity.
  - repeat constructor.
  - vm_compute. reflexivity.
  - vm_compute. reflexivity.
  - vm_compute. reflexivity.
  - vm_compute. reflexivity.
Defined.

End QueryProps.
